(** * EasyRead background coordinator: a shallow embedding and its properties

    The development follows the JavaScript sources of the extension
    (src/background.js, src/lib/schema.js, src/lib/simplicity.js).
    JavaScript strings are sequences of UTF-16 code units; numbers that the
    code only uses as integers are in [Z]. *)

From Stdlib Require Import ZArith NArith QArith Qminmax Lqa Ascii String List Lia Bool.
From Stdlib Require Import Strings.Byte DecimalString.
From stdpp Require Import base decidable option list numbers gmap.

Set Warnings "-register-all".
Local Open Scope Z_scope.

(** ** JavaScript strings *)

Module JS.

(** A string is its list of UTF-16 code units. *)
Definition jsstring : Type := list N.

(** A literal, from its ASCII spelling. *)
Definition lit (s : String.string) : jsstring :=
  List.map N_of_ascii (list_ascii_of_string s).

(** [s.length] *)
Definition len (s : jsstring) : Z := Z.of_nat (length s).

(** [a.length] of an array *)
Definition alen {A} (a : list A) : Z := Z.of_nat (length a).

(** Truthiness of a string: only the empty string is falsy. *)
Definition truthy (s : jsstring) : bool :=
  match s with [] => false | _ :: _ => true end.

(** The class [\s] of regular expressions, which is also the set of code
    units removed by [String.prototype.trim] (WhiteSpace and LineTerminator
    of ECMA-262). *)
Definition is_space (c : N) : bool :=
  ((9 <=? c) && (c <=? 13) || (c =? 32) || (c =? 160) || (c =? 5760)
   || (8192 <=? c) && (c <=? 8202)
   || (c =? 8232) || (c =? 8233) || (c =? 8239) || (c =? 8287)
   || (c =? 12288) || (c =? 65279))%N.

Definition SP : N := 32%N.

(** [s.replace(/\s+/g, " ")]: every maximal run of white space becomes one
    space.  [in_run] tells that the previous code unit was white space. *)
Fixpoint collapse_ws (in_run : bool) (s : jsstring) : jsstring :=
  match s with
  | [] => []
  | c :: r =>
      if is_space c
      then (if in_run then collapse_ws true r else SP :: collapse_ws true r)
      else c :: collapse_ws false r
  end.

Definition collapseSpaces (s : jsstring) : jsstring := collapse_ws false s.

Fixpoint trimStart (s : jsstring) : jsstring :=
  match s with
  | [] => []
  | c :: r => if is_space c then trimStart r else s
  end.

Fixpoint trimEnd (s : jsstring) : jsstring :=
  match s with
  | [] => []
  | c :: r =>
      match trimEnd r with
      | [] => if is_space c then [] else [c]
      | r' => c :: r'
      end
  end.

(** [s.trim()] *)
Definition trim (s : jsstring) : jsstring := trimEnd (trimStart s).

(** [s.split(sep)] for a separator of one code unit: never the empty list. *)
Fixpoint split (sep : N) (s : jsstring) : list jsstring :=
  match s with
  | [] => [[]]
  | c :: r =>
      if (c =? sep)%N then [] :: split sep r
      else match split sep r with
           | [] => [[c]]
           | w :: ws => (c :: w) :: ws
           end
  end.

(** [parts.join(sep)] *)
Fixpoint join (sep : jsstring) (parts : list jsstring) : jsstring :=
  match parts with
  | [] => []
  | [w] => w
  | w :: ws => w ++ sep ++ join sep ws
  end.

(** [hay.startsWith(needle)] and [hay.includes(needle)] *)
Fixpoint startsWith (needle hay : jsstring) : bool :=
  match needle, hay with
  | [], _ => true
  | _ :: _, [] => false
  | a :: n', b :: h' => (a =? b)%N && startsWith n' h'
  end.

Fixpoint includes (needle hay : jsstring) : bool :=
  startsWith needle hay ||
  match hay with
  | [] => false
  | _ :: h' => includes needle h'
  end.

Definition endsWith (suffix s : jsstring) : bool :=
  startsWith (rev suffix) (rev s).

(** Case conversion.  On a string of ASCII code units
    [String.prototype.toLowerCase] and [toUpperCase] map the 26 letters and
    leave the rest; on other strings they follow the Unicode tables of the
    host, which are not part of the extension: [unicode_case] stands for
    them. *)
Definition is_ascii (c : N) : bool := (c <? 128)%N.
Definition is_upper (c : N) : bool := ((65 <=? c) && (c <=? 90))%N.
Definition is_lower (c : N) : bool := ((97 <=? c) && (c <=? 122))%N.
Definition is_digit (c : N) : bool := ((48 <=? c) && (c <=? 57))%N.
Definition is_letter (c : N) : bool := is_upper c || is_lower c.

Definition lower_cu (c : N) : N := if is_upper c then (c + 32)%N else c.
Definition upper_cu (c : N) : N := if is_lower c then (c - 32)%N else c.

Definition toLowerCaseWith (unicode_case : jsstring -> jsstring) (s : jsstring) : jsstring :=
  if forallb is_ascii s then List.map lower_cu s else unicode_case s.

Definition toUpperCaseWith (unicode_case : jsstring -> jsstring) (s : jsstring) : jsstring :=
  if forallb is_ascii s then List.map upper_cu s else unicode_case s.

(** The maximal runs of code units that are not white space: the words of a
    text.  [runs] keeps the empty runs between adjacent separators. *)
Fixpoint runs (s : jsstring) : list jsstring :=
  match s with
  | [] => [[]]
  | c :: r =>
      if is_space c then [] :: runs r
      else match runs r with
           | [] => [[c]]
           | w :: ws => (c :: w) :: ws
           end
  end.

Definition words (s : jsstring) : list jsstring := List.filter truthy (runs s).

End JS.

Import JS.

(** ** Chunking of long selections (background.js, splitTextIntoChunks) *)

Section Chunking.

Variable targetChars : Z.
Variable maxChunks : Z.

(** The body of the [for] loop over [words], from index [i] on: [ws] is
    [words.slice(i)], so that [words.slice(i + 1)] is its tail. *)
Fixpoint chunkLoop (ws : list jsstring) (chunks : list jsstring) (current : jsstring)
  : list jsstring :=
  match ws with
  | [] => if truthy current then chunks ++ [current] else chunks
  | word :: rest =>
      let next := if truthy current then current ++ [SP] ++ word else word in
      if (len next >? targetChars) && truthy current then
        let chunks := chunks ++ [current] in
        let current := word in
        if alen chunks >=? maxChunks - 1 then
          let rest := trim (join [SP] (current :: rest)) in
          if truthy rest then chunks ++ [rest] else chunks
        else chunkLoop rest chunks current
      else chunkLoop rest chunks next
  end.

Definition splitTextIntoChunks (text : jsstring) : list jsstring :=
  let normalized := trim (collapseSpaces text) in
  if truthy normalized then chunkLoop (split SP normalized) [] [] else [].

End Chunking.


(** What the chunks are, in terms of the words of the text.  A group is the
    list of words of one chunk. *)
Definition joinWords (g : list jsstring) : jsstring := join [SP] g.

(** A group fits the target when it is a single word or its text is no longer
    than the target. *)
Definition fits (targetChars : Z) (g : list jsstring) : Prop :=
  (length g <= 1)%nat \/ len (joinWords g) <= targetChars.

(** Each chunk is closed only because the first word of the next chunk did
    not fit any more. *)
Fixpoint boundaries (targetChars : Z) (gs : list (list jsstring)) : Prop :=
  match gs with
  | [] => True
  | g :: rest =>
      match rest with
      | (w :: _) :: _ => targetChars < len (joinWords (g ++ [w]))
      | _ => True
      end /\ boundaries targetChars rest
  end.

(** A word of a normalized text: not empty, no white space inside. *)
Definition goodWord (w : jsstring) : Prop :=
  w <> [] /\ Forall (fun c => is_space c = false) w.

(** ** Sets of strings, as [Set] objects keep them: in insertion order,
    without repetition. *)

Module StrSet.

Definition t : Type := list jsstring.

Definition empty : t := [].

(** [set.has(x)] *)
Definition has (x : jsstring) (s : t) : bool := bool_decide (x ∈ s).

(** [set.add(x)] *)
Definition add (x : jsstring) (s : t) : t := if has x s then s else s ++ [x].

(** [set.size] *)
Definition size (s : t) : Z := Z.of_nat (length s).

End StrSet.

(** Adding the strings of a list to a set, one after the other. *)
Definition addAll (l : list jsstring) (set : StrSet.t) : StrSet.t :=
  fold_left (fun s g => StrSet.add g s) l set.

(** The strings of the examples are ASCII, for which case conversion never
    consults the Unicode tables of the host; the examples pass this function
    in their place. *)
Definition no_unicode_case : jsstring -> jsstring := fun s => s.

(** ** The copy-detection guard (background.js, isExplanationTooCloseToSource) *)

Section Similarity.

Variable unicode_lower : jsstring -> jsstring.

(** The code units kept by [/[^a-z0-9\s']/g]. *)
Definition similarityKept (c : N) : bool :=
  is_lower c || is_digit c || is_space c || (c =? 39)%N.

Definition normalizeSimilarityText (text : jsstring) : jsstring :=
  trim (collapseSpaces
          (List.map (fun c => if similarityKept c then c else SP)
                    (toLowerCaseWith unicode_lower text))).

(** The loop of [buildNgramSet]: [count] windows of [n] tokens remain, the
    next one starts at the head of [tokens]. *)
Fixpoint ngramLoop (n : nat) (count : nat) (tokens : list jsstring) (set : StrSet.t)
  : StrSet.t :=
  match count with
  | O => set
  | S count' =>
      ngramLoop n count' (tail tokens) (StrSet.add (join [SP] (take n tokens)) set)
  end.

Definition buildNgramSet (tokens : list jsstring) (n : nat) : StrSet.t :=
  if (length tokens <? n)%nat then StrSet.empty
  else ngramLoop n (length tokens - n + 1) tokens StrSet.empty.

(** [s.split(" ").filter(Boolean)] *)
Definition similarityTokens (s : jsstring) : list jsstring :=
  List.filter truthy (split SP s).

(** The number of 4-grams of the explanation that the source has too. *)
Definition ngramOverlap (explanation4Grams source4Grams : StrSet.t) : Z :=
  Z.of_nat (length (List.filter (fun gram => StrSet.has gram source4Grams) explanation4Grams)).

(** [overlap / size >= 0.55], on the exact quotient.  Both operands are
    counts of tokens of one selection, far below 2^50, where the double
    quotient compares with the double nearest to 0.55 as the exact quotient
    compares with 11/20. *)
Definition ratioAtLeast055 (overlap size : Z) : bool :=
  if size >? 0 then 11 * size <=? 20 * overlap else false.

Definition isExplanationTooCloseToSource (explanation selectedText : jsstring) : bool :=
  let explanationNorm := normalizeSimilarityText explanation in
  let sourceNorm := normalizeSimilarityText selectedText in
  if negb (truthy explanationNorm) || negb (truthy sourceNorm) then false
  else if bool_decide (explanationNorm = sourceNorm) then true
  else if (len explanationNorm >=? 70) && includes explanationNorm sourceNorm then true
  else
    let explanationTokens := similarityTokens explanationNorm in
    let sourceTokens := similarityTokens sourceNorm in
    if (alen explanationTokens <? 8) || (alen sourceTokens <? 8) then false
    else
      let source4Grams := buildNgramSet sourceTokens 4 in
      if StrSet.size source4Grams =? 0 then false
      else
        let explanation4Grams := buildNgramSet explanationTokens 4 in
        let overlap := ngramOverlap explanation4Grams source4Grams in
        (alen explanationTokens >=? 20)
        && ratioAtLeast055 overlap (StrSet.size explanation4Grams).

End Similarity.

(** The same guard in the words of its description: the windows of [n]
    consecutive tokens, the distinct n-grams, and the share of the
    explanation's distinct 4-grams found in the source. *)
Fixpoint windows {A} (n : nat) (l : list A) : list (list A) :=
  match l with
  | [] => if (n =? 0)%nat then [[]] else []
  | _ :: r => if (n <=? length l)%nat then take n l :: windows n r else []
  end.

Definition ngrams (n : nat) (tokens : list jsstring) : list jsstring :=
  List.map (join [SP]) (windows n tokens).

Definition distinctCount (l : list jsstring) : Z :=
  Z.of_nat (length (remove_dups l)).

Definition sharedCount (l source : list jsstring) : Z :=
  Z.of_nat (length (List.filter (fun g => bool_decide (g ∈ source)) (remove_dups l))).

Definition isSubstring (needle hay : jsstring) : Prop :=
  exists pre post, hay = pre ++ needle ++ post.

Definition tooCloseSpec (explanationNorm sourceNorm : jsstring) : Prop :=
  explanationNorm <> [] /\ sourceNorm <> [] /\
  (explanationNorm = sourceNorm
   \/ (70 <= len explanationNorm /\ isSubstring explanationNorm sourceNorm)
   \/ (20 <= alen (similarityTokens explanationNorm)
       /\ 8 <= alen (similarityTokens sourceNorm)
       /\ 11 * distinctCount (ngrams 4 (similarityTokens explanationNorm))
          <= 20 * sharedCount (ngrams 4 (similarityTokens explanationNorm))
                              (ngrams 4 (similarityTokens sourceNorm)))).

(** ** Difficult words (lib/simplicity.js) *)

Definition APOS : N := 39%N.

(** Global matching of [/L+(?:'L+)?/g] for a class [L] of letters: a run of
    letters, then, when an apostrophe and a letter follow, the apostrophe and
    the next run of letters.  The scan is in a word before its apostrophe
    ([InHead]), in a word after it ([InTail]), or between words. *)
Inductive scanState : Type :=
| Outside
| InHead (acc : jsstring)
| InTail (acc : jsstring).

Fixpoint scanTokens (letter : N -> bool) (st : scanState) (s : jsstring) : list jsstring :=
  match s with
  | [] =>
      match st with
      | Outside => []
      | InHead acc | InTail acc => [acc]
      end
  | c :: r =>
      match st with
      | Outside =>
          if letter c then scanTokens letter (InHead [c]) r
          else scanTokens letter Outside r
      | InHead acc =>
          if letter c then scanTokens letter (InHead (acc ++ [c])) r
          else if (c =? APOS)%N && match r with n :: _ => letter n | [] => false end
               then scanTokens letter (InTail (acc ++ [c])) r
               else acc :: scanTokens letter Outside r
      | InTail acc =>
          if letter c then scanTokens letter (InTail (acc ++ [c])) r
          else acc :: scanTokens letter Outside r
      end
  end.

(** [text.match(TOKEN_REGEX) || []] with
    [TOKEN_REGEX = /[A-Za-z]+(?:'[A-Za-z]+)?/g] *)
Definition matchTokens (text : jsstring) : list jsstring :=
  scanTokens is_letter Outside text.

(** [s.replace(/^'+|'+$/g, "")] *)
Fixpoint stripLeadingApostrophes (s : jsstring) : jsstring :=
  match s with
  | [] => []
  | c :: r => if (c =? APOS)%N then stripLeadingApostrophes r else s
  end.

Fixpoint stripTrailingApostrophes (s : jsstring) : jsstring :=
  match s with
  | [] => []
  | c :: r =>
      match stripTrailingApostrophes r with
      | [] => if (c =? APOS)%N then [] else [c]
      | r' => c :: r'
      end
  end.

Definition stripApostrophes (s : jsstring) : jsstring :=
  stripTrailingApostrophes (stripLeadingApostrophes s).

(** [s.replace(/â€™/g, "'")]: the three code units U+00E2 U+20AC U+2122 of
    the source file. *)
Fixpoint replaceMojibake (s : jsstring) : jsstring :=
  match s with
  | [] => []
  | c :: r =>
      match r with
      | d :: e :: r' =>
          if ((c =? 226) && (d =? 8364) && (e =? 8482))%N
          then APOS :: replaceMojibake r'
          else c :: replaceMojibake r
      | _ => c :: replaceMojibake r
      end
  end.

(** [/^[0-9]+([.,][0-9]+)?$/.test(token)] *)
Fixpoint spanDigits (s : jsstring) : jsstring * jsstring :=
  match s with
  | c :: r => if is_digit c then let (d, rest) := spanDigits r in (c :: d, rest) else ([], s)
  | [] => ([], [])
  end.

Definition isNumberLike (token : jsstring) : bool :=
  let (intPart, rest) := spanDigits token in
  truthy intPart &&
  match rest with
  | [] => true
  | sep :: frac => ((sep =? 46) || (sep =? 44))%N && truthy frac && forallb is_digit frac
  end.

(** [/^[A-Z][a-z]+$/] on one part of a hyphenated token *)
Definition capitalizedPart (p : jsstring) : bool :=
  match p with
  | c :: r => is_upper c && truthy r && forallb is_lower r
  | [] => false
  end.

Definition looksLikeProperNoun (token : jsstring) : bool :=
  if negb (truthy token) then false
  else if (2 <=? len token) && forallb is_upper token then true
  else
    (* /^[A-Z][a-z]+(?:-[A-Z][a-z]+)+$/ *)
    let parts := split 45%N token in
    (2 <=? alen parts) && forallb capitalizedPart parts.

(** [s.slice(0, -k)] for [k > 0] *)
Definition dropLast (k : nat) (s : jsstring) : jsstring := take (length s - k) s.

Definition suffixRules : list (jsstring * Z) :=
  [ (lit "ing", 3); (lit "ed", 2); (lit "es", 2); (lit "s", 1);
    (lit "er", 2); (lit "est", 3); (lit "ly", 2) ].

Section Simplicity.

Variable unicode_lower : jsstring -> jsstring.

Definition normalizeToken (token : jsstring) : jsstring :=
  replaceMojibake (stripApostrophes (toLowerCaseWith unicode_lower token)).

(** One turn of the loop over [suffixRules]: true when the turn returns
    true. *)
Definition suffixRuleAllows (easyWordSet : gset jsstring) (lower : jsstring)
  (rule : jsstring * Z) : bool :=
  let (suffix, min) := rule in
  if endsWith suffix lower && (len lower >? len suffix + min) then
    let stem := dropLast (length suffix) lower in
    if bool_decide (stem ∈ easyWordSet) then true
    else if bool_decide (suffix = lit "ing") && bool_decide (stem ++ lit "e" ∈ easyWordSet)
    then true
    else (bool_decide (suffix = lit "ed") || bool_decide (suffix = lit "es"))
         && bool_decide (stem ++ lit "e" ∈ easyWordSet)
  else false.

Definition isAllowedVariation (token : jsstring) (easyWordSet : gset jsstring) : bool :=
  let lower := normalizeToken token in
  if negb (truthy lower) then true
  else if bool_decide (lower ∈ easyWordSet) then true
  else if endsWith (lit "'s") lower && bool_decide (dropLast 2 lower ∈ easyWordSet) then true
  else existsb (suffixRuleAllows easyWordSet lower) suffixRules.

(** The loop of [findHardWords] over the tokens. *)
Fixpoint hardWordsLoop (easyWordSet : gset jsstring) (words : list jsstring)
  (hardWords : StrSet.t) : StrSet.t :=
  match words with
  | [] => hardWords
  | token :: rest =>
      if (len token <=? 2) || isNumberLike token || looksLikeProperNoun token
      then hardWordsLoop easyWordSet rest hardWords
      else if negb (isAllowedVariation token easyWordSet)
      then hardWordsLoop easyWordSet rest (StrSet.add (normalizeToken token) hardWords)
      else hardWordsLoop easyWordSet rest hardWords
  end.

Definition findHardWords (text : jsstring) (easyWordSet : gset jsstring) : list jsstring :=
  if negb (truthy text) then []
  else hardWordsLoop easyWordSet (matchTokens text) StrSet.empty.

End Simplicity.

(** When a normalized token counts as easy, in the words of the
    description: it is in the lexicon, or the possessive of a lexicon word,
    or a lexicon stem (or the stem and an [e]) with one of the suffixes; the
    stem left by a suffix has to be longer than the minimum of its rule. *)
Definition suffixStemSpec (easyWordSet : gset jsstring) (lower : jsstring) : Prop :=
  exists suffix min stem,
    (suffix, min) ∈ suffixRules
    /\ lower = stem ++ suffix
    /\ min < len stem
    /\ (stem ∈ easyWordSet
        \/ ((suffix = lit "ing" \/ suffix = lit "ed" \/ suffix = lit "es")
            /\ stem ++ lit "e" ∈ easyWordSet)).

Definition allowedSpec (easyWordSet : gset jsstring) (lower : jsstring) : Prop :=
  lower = []
  \/ lower ∈ easyWordSet
  \/ (exists stem, lower = stem ++ lit "'s" /\ stem ∈ easyWordSet)
  \/ suffixStemSpec easyWordSet lower.

Definition difficultToken (unicode_lower : jsstring -> jsstring)
  (easyWordSet : gset jsstring) (token : jsstring) : Prop :=
  2 < len token
  /\ isNumberLike token = false
  /\ looksLikeProperNoun token = false
  /\ ~ allowedSpec easyWordSet (normalizeToken unicode_lower token).

(** A token starts with a letter and is made of letters and apostrophes. *)
Definition tokenShape (token : jsstring) : Prop :=
  (exists c r, token = c :: r /\ is_letter c = true)
  /\ Forall (fun c => is_letter c = true \/ c = APOS) token.

(** The same test without the minimum stem lengths. *)
Definition allowedWithoutMinimum (easyWordSet : gset jsstring) (lower : jsstring) : Prop :=
  lower ∈ easyWordSet
  \/ (exists stem, lower = stem ++ lit "'s" /\ stem ∈ easyWordSet)
  \/ (exists suffix min stem,
        (suffix, min) ∈ suffixRules /\ lower = stem ++ suffix
        /\ (stem ∈ easyWordSet
            \/ ((suffix = lit "ing" \/ suffix = lit "ed" \/ suffix = lit "es")
                /\ stem ++ lit "e" ∈ easyWordSet))).

(** ** Values of JSON documents *)

(** A number: a double is a rational, an infinity or NaN. *)
Inductive jsnum : Type :=
| Finite (q : Q)
| PosInfinity
| NegInfinity
| NaN.

Inductive json : Type :=
| JNull
| JBool (b : bool)
| JNum (n : jsnum)
| JStr (s : jsstring)
| JArr (items : list json)
| JObj (fields : list (jsstring * json)).

(** [typeof v === "object"] for a value that is not [null] *)
Definition isObject (v : json) : bool :=
  match v with
  | JArr _ | JObj _ => true
  | _ => false
  end.

Fixpoint lookupField (key : jsstring) (fields : list (jsstring * json)) : option json :=
  match fields with
  | [] => None
  | (k, v) :: rest => if bool_decide (k = key) then Some v else lookupField key rest
  end.

(** [v.key]; [None] is [undefined].  The own properties of an object are
    listed once each. *)
Definition prop (key : String.string) (v : json) : option json :=
  match v with
  | JObj fields => lookupField (lit key) fields
  | _ => None
  end.

(** ** Normalization of model output (lib/schema.js, lib/constants.js) *)

Definition POS_VALUES : list jsstring :=
  [ lit "noun"; lit "verb"; lit "adj"; lit "adv"; lit "prep"; lit "pron";
    lit "det"; lit "conj"; lit "other" ].

Definition CEFR_VALUES : list jsstring :=
  [ lit "A2"; lit "B1"; lit "B2"; lit "C1"; lit "C2"; lit "unknown" ].

Record WordEntry : Type := mkWordEntry {
  word : jsstring;
  lemma : jsstring;
  pos : jsstring;
  cefr : jsstring;
  definition_simple : jsstring;
  example_simple : jsstring
}.

Record ExplainResult : Type := mkExplainResult {
  simple_explanation : jsstring;
  a2_plus_words : list WordEntry;
  notes : jsstring;
  confidence : jsnum
}.

Inductive schemaError : Type :=
| SyntaxError      (* thrown by JSON.parse *)
| NoJsonObject     (* "No JSON object found in model output." *)
| NotAnObject.     (* "Parsed result is not an object." *)

Definition clampConfidence (value : option json) : jsnum :=
  match value with
  | Some (JNum (Finite q)) => Finite (Qmax 0 (Qmin 1 q))
  | Some (JNum PosInfinity) => Finite 1
  | Some (JNum NegInfinity) => Finite 0
  | _ => Finite (1 # 2)
  end.

Definition normalizeString (value : option json) : jsstring :=
  match value with
  | Some (JStr s) => trim s
  | _ => []
  end.

(** [s.indexOf(c)] and [s.lastIndexOf(c)] for one code unit; [None] is -1. *)
Fixpoint indexOf (c : N) (s : jsstring) : option nat :=
  match s with
  | [] => None
  | d :: r => if (d =? c)%N then Some O else option_map S (indexOf c r)
  end.

Fixpoint lastIndexOf (c : N) (s : jsstring) : option nat :=
  match s with
  | [] => None
  | d :: r =>
      match lastIndexOf c r with
      | Some i => Some (S i)
      | None => if (d =? c)%N then Some O else None
      end
  end.

(** [s.slice(start, stop)] for indices within the string *)
Definition slice (start stop : nat) (s : jsstring) : jsstring :=
  take (stop - start) (drop start s).

Definition LBRACE : N := 123%N.
Definition RBRACE : N := 125%N.

(** [None] when the function throws. *)
Definition extractJsonObject (text : jsstring) : option jsstring :=
  match indexOf LBRACE text, lastIndexOf RBRACE text with
  | Some start, Some stop =>
      if (stop <=? start)%nat then None else Some (slice start (stop + 1) text)
  | _, _ => None
  end.

Section Schema.

Variable unicode_lower : jsstring -> jsstring.
Variable unicode_upper : jsstring -> jsstring.

(** [JSON.parse] of the host; [None] when it throws. *)
Variable JSON_parse : jsstring -> option json.

Definition normalizePos (value : option json) : jsstring :=
  let pos := toLowerCaseWith unicode_lower (normalizeString value) in
  if bool_decide (pos ∈ POS_VALUES) then pos else lit "other".

Definition normalizeCefr (value : option json) : jsstring :=
  let cefr := toUpperCaseWith unicode_upper (normalizeString value) in
  if bool_decide (cefr ∈ CEFR_VALUES) then cefr else lit "unknown".

Definition normalizeWordItem (item : json) : option WordEntry :=
  if negb (isObject item) then None
  else
    let word := normalizeString (prop "word" item) in
    if negb (truthy word) then None
    else Some {|
      word := word;
      lemma := (let l := normalizeString (prop "lemma" item) in
                if truthy l then l else toLowerCaseWith unicode_lower word);
      pos := normalizePos (prop "pos" item);
      cefr := normalizeCefr (prop "cefr" item);
      definition_simple := normalizeString (prop "definition_simple" item);
      example_simple := normalizeString (prop "example_simple" item)
    |}.

Definition normalizeWordEntries (value : option json) : list WordEntry :=
  match value with
  | Some (JArr items) => omap normalizeWordItem items
  | _ => []
  end.

(** The [try]/[catch] around the two calls of [JSON.parse]. *)
Definition parseWithFallback (rawText : jsstring) : json + schemaError :=
  match JSON_parse rawText with
  | Some parsed => inl parsed
  | None =>
      match extractJsonObject rawText with
      | None => inr NoJsonObject
      | Some object =>
          match JSON_parse object with
          | Some parsed => inl parsed
          | None => inr SyntaxError
          end
      end
  end.

(** The body of [parseAndNormalizeResponse] after the parse. *)
Definition normalizeParsed (parsed : json) : ExplainResult + schemaError :=
  if negb (isObject parsed) then inr NotAnObject
  else
    let normalizedWords := normalizeWordEntries (prop "a2_plus_words" parsed) in
    inl {|
      simple_explanation := normalizeString (prop "simple_explanation" parsed);
      a2_plus_words := normalizedWords;
      notes := normalizeString (prop "notes" parsed);
      confidence := clampConfidence (prop "confidence" parsed)
    |}.

Definition parseAndNormalizeResponse (rawText : jsstring) : ExplainResult + schemaError :=
  match parseWithFallback rawText with
  | inr e => inr e
  | inl parsed => normalizeParsed parsed
  end.

Definition parseAndNormalizeWordCoverage (rawText : jsstring) : list WordEntry + schemaError :=
  match parseWithFallback rawText with
  | inr e => inr e
  | inl parsed =>
      if negb (isObject parsed) then inr NotAnObject
      else inl (normalizeWordEntries (prop "a2_plus_words" parsed))
  end.

End Schema.

(** The part of [JSON.parse] that the examples need.  [QUOTE] is the double
    quote.  The text [42] is the number 42; the text of [sampleObjectText] is
    an object with one entry and a confidence of 2; a text that starts with
    a letter does not parse. *)
Definition QUOTE : N := 34%N.

Definition quoted (s : String.string) : jsstring := [QUOTE] ++ lit s ++ [QUOTE].

Definition sampleObjectText : jsstring :=
  lit "{" ++ quoted "a2_plus_words" ++ lit ":[{" ++ quoted "word" ++ lit ":"
  ++ quoted " Ubiquitous " ++ lit "," ++ quoted "cefr" ++ lit ":" ++ quoted "c1"
  ++ lit "},{" ++ quoted "word" ++ lit ":" ++ quoted "  " ++ lit "}],"
  ++ quoted "confidence" ++ lit ":2}".

Definition sampleObject : json :=
  JObj [ (lit "a2_plus_words",
          JArr [ JObj [ (lit "word", JStr (lit " Ubiquitous "));
                        (lit "cefr", JStr (lit "c1")) ];
                 JObj [ (lit "word", JStr (lit "  ")) ] ]);
         (lit "confidence", JNum (Finite 2)) ].

Definition JSON_parse_sample (text : jsstring) : option json :=
  if bool_decide (text = lit "42") then Some (JNum (Finite 42))
  else if bool_decide (text = sampleObjectText) then Some sampleObject
  else None.

Definition isOutputUsable (result : ExplainResult) : bool :=
  truthy (simple_explanation result).

(** In the words of the description: the substring from the first opening
    brace to the last closing brace. *)
Definition betweenBraces (text object : jsstring) : Prop :=
  exists pre mid post,
    text = pre ++ [LBRACE] ++ mid ++ [RBRACE] ++ post
    /\ (LBRACE ∉ pre)
    /\ (RBRACE ∉ post)
    /\ object = [LBRACE] ++ mid ++ [RBRACE].

Definition inUnitInterval (n : jsnum) : Prop :=
  match n with
  | Finite q => (0 <= q)%Q /\ (q <= 1)%Q
  | _ => False
  end.

(** A string field after normalization: the trimmed string, or the empty
    string when the field is missing or not a string. *)
Definition trimmedField (value : option json) (s : jsstring) : Prop :=
  trim s = s
  /\ match value with
     | Some (JStr raw) => s = trim raw
     | _ => s = []
     end.

(** The confidence after normalization: 0.5 when the field is not a number,
    the number clamped to [0,1] otherwise. *)
Definition clampedField (value : option json) (c : jsnum) : Prop :=
  inUnitInterval c
  /\ match value with
     | Some (JNum (Finite q)) =>
         exists c', c = Finite c'
           /\ ((0 <= q)%Q -> (q <= 1)%Q -> (c' == q)%Q)
           /\ ((q < 0)%Q -> (c' == 0)%Q)
           /\ ((1 < q)%Q -> (c' == 1)%Q)
     | Some (JNum PosInfinity) => c = Finite 1
     | Some (JNum NegInfinity) => c = Finite 0
     | _ => c = Finite (1 # 2)
     end.

(** A vocabulary entry after normalization of the item it comes from. *)
Definition normalizedEntry (unicode_lower unicode_upper : jsstring -> jsstring)
  (item : json) (e : WordEntry) : Prop :=
  isObject item = true
  /\ word e <> []
  /\ trimmedField (prop "word" item) (word e)
  /\ (forall l, trimmedField (prop "lemma" item) l ->
        lemma e = if truthy l then l else toLowerCaseWith unicode_lower (word e))
  /\ pos e ∈ POS_VALUES
  /\ (forall p, trimmedField (prop "pos" item) p ->
        pos e = if bool_decide (toLowerCaseWith unicode_lower p ∈ POS_VALUES)
                then toLowerCaseWith unicode_lower p else lit "other")
  /\ cefr e ∈ CEFR_VALUES
  /\ (forall c, trimmedField (prop "cefr" item) c ->
        cefr e = if bool_decide (toUpperCaseWith unicode_upper c ∈ CEFR_VALUES)
                 then toUpperCaseWith unicode_upper c else lit "unknown")
  /\ trimmedField (prop "definition_simple" item) (definition_simple e)
  /\ trimmedField (prop "example_simple" item) (example_simple e).

(** An item is dropped when it is not an object or has no word left after
    trimming. *)
Definition droppedItem (item : json) : Prop :=
  isObject item = false \/ forall w, trimmedField (prop "word" item) w -> w = [].

(** The entries kept, in the order of their items. *)
Inductive normalizedEntries (unicode_lower unicode_upper : jsstring -> jsstring)
  : list json -> list WordEntry -> Prop :=
| normalized_nil : normalizedEntries unicode_lower unicode_upper [] []
| normalized_keep item items e es :
    normalizedEntry unicode_lower unicode_upper item e ->
    normalizedEntries unicode_lower unicode_upper items es ->
    normalizedEntries unicode_lower unicode_upper (item :: items) (e :: es)
| normalized_drop item items es :
    droppedItem item ->
    normalizedEntries unicode_lower unicode_upper items es ->
    normalizedEntries unicode_lower unicode_upper (item :: items) es.

Definition normalizedResult (unicode_lower unicode_upper : jsstring -> jsstring)
  (parsed : json) (r : ExplainResult) : Prop :=
  trimmedField (prop "simple_explanation" parsed) (simple_explanation r)
  /\ trimmedField (prop "notes" parsed) (notes r)
  /\ clampedField (prop "confidence" parsed) (confidence r)
  /\ match prop "a2_plus_words" parsed with
     | Some (JArr items) =>
         normalizedEntries unicode_lower unicode_upper items (a2_plus_words r)
     | _ => a2_plus_words r = []
     end.

(** ** The vocabulary filter (background.js) *)

Definition B2_PLUS_LEVELS : list jsstring := [ lit "B2"; lit "C1"; lit "C2" ].

Definition hasText (value : jsstring) : bool := 0 <? len (trim value).

Section WordFilter.

Variable unicode_upper : jsstring -> jsstring.

Definition isB2PlusWordEntry (item : WordEntry) : bool :=
  let cefr := toUpperCaseWith unicode_upper (cefr item) in
  bool_decide (cefr ∈ B2_PLUS_LEVELS)
  && hasText (definition_simple item) && hasText (example_simple item).

Definition keepB2PlusWords (entries : list WordEntry) : list WordEntry :=
  List.filter isB2PlusWordEntry entries.

End WordFilter.

(** ** The cache key (background.js, buildCacheKey and sha256) *)

Record CacheKeyParts : Type := mkCacheKeyParts {
  pageOrigin : jsstring;
  selectedText : jsstring;
  explanationMode : jsstring;
  model : jsstring;
  modelVersion : jsstring
}.

Definition BAR : N := 124%N.

(** [[...].join("||")] of the five parts, each of them a string. *)
Definition serializeCacheKey (parts : CacheKeyParts) : jsstring :=
  join (lit "||")
    [ pageOrigin parts; selectedText parts; explanationMode parts;
      model parts; modelVersion parts ].

(** [b.toString(16).padStart(2, "0")] for a byte *)
Definition hexDigit (n : N) : N := if (n <? 10)%N then (48 + n)%N else (87 + n)%N.

Definition hexByte (b : byte) : jsstring :=
  let n := Byte.to_N b in [hexDigit (n / 16); hexDigit (n mod 16)].

(** The value of a hexadecimal digit and of a pair of them. *)
Definition hexValue (c : N) : option N :=
  if is_digit c then Some (c - 48)%N
  else if ((97 <=? c) && (c <=? 102))%N then Some (c - 87)%N
  else None.

Definition unhexByte (s : jsstring) : option byte :=
  match s with
  | [hi; lo] =>
      match hexValue hi, hexValue lo with
      | Some h, Some l => Byte.of_N (16 * h + l)
      | _, _ => None
      end
  | _ => None
  end.

Section CacheKey.

(** [new TextEncoder().encode] and [crypto.subtle.digest("SHA-256", _)] of
    the host. *)
Variable utf8_encode : jsstring -> list byte.
Variable sha256_digest : list byte -> list byte.

Definition sha256 (input : jsstring) : jsstring :=
  concat (List.map hexByte (sha256_digest (utf8_encode input))).

Definition buildCacheKey (parts : CacheKeyParts) : jsstring :=
  sha256 (serializeCacheKey parts).

End CacheKey.

(** No vertical bar in the origin, the mode, the model and the version; the
    selected text is free. *)
Definition barFree (parts : CacheKeyParts) : Prop :=
  (BAR ∉ pageOrigin parts) /\ (BAR ∉ explanationMode parts)
  /\ (BAR ∉ model parts) /\ (BAR ∉ modelVersion parts).

(** Stand-ins for the encoder and the digest in the examples: the code units
    below 256 as bytes, and the identity. *)
Definition latin1_encode (s : jsstring) : list byte :=
  omap Byte.of_N s.

Definition identity_digest (bytes : list byte) : list byte := bytes.

(** ** Errors *)

(** A thrown value: an [EasyReadError] with its message, code and
    [retriable] flag, or another [Error] of the host. *)
Inductive jsError : Type :=
| EasyReadError (message code : jsstring) (retriable : bool)
| OtherError (message : jsstring).

(** [Boolean(error?.retriable)] *)
Definition isRetriable (error : jsError) : bool :=
  match error with
  | EasyReadError _ _ r => r
  | OtherError _ => false
  end.

(** [String(error?.code || "")] *)
Definition errorCode (error : jsError) : jsstring :=
  match error with
  | EasyReadError _ code _ => code
  | OtherError _ => []
  end.

(** [String(error?.message || "")] *)
Definition errorMessage (error : jsError) : jsstring :=
  match error with
  | EasyReadError message _ _ => message
  | OtherError message => message
  end.

(** ** Retries with backoff (background.js, withExponentialBackoff) *)

(** What a run does, in order: the attempts with their outcomes and the
    waits with their durations in milliseconds. *)
Inductive backoffEvent (V : Type) : Type :=
| Attempt (outcome : V + jsError)
| Sleep (ms : Z).

Arguments Attempt {V} outcome.
Arguments Sleep {V} ms.

Definition requestFailed : jsError :=
  EasyReadError (lit "Request failed.") (lit "UNKNOWN") false.

Section Backoff.

(** The state of the world [W] is threaded through the calls: [action] is
    one invocation of the action, [randomJitter] one evaluation of
    [Math.floor(Math.random() * 150)], [sleep] the passing of the time of
    one wait. *)
Context {W V : Type}.
Variable action : W -> (V + jsError) * W.
Variable randomJitter : W -> Z * W.
Variable sleep : Z -> W -> W.

(** The [for] loop with [remaining = maxAttempts - attempt + 1] turns left.
    The result is what the function returns ([inl]) or throws ([inr]). *)
Fixpoint backoffLoop (remaining : nat) (waitMs : Z) (lastError : option jsError)
  (w : W) (trace : list (backoffEvent V)) : (V + jsError) * W * list (backoffEvent V) :=
  match remaining with
  | O => (inr (default requestFailed lastError), w, trace)
  | S remaining' =>
      let (outcome, w1) := action w in
      let trace1 := trace ++ [Attempt outcome] in
      match outcome with
      | inl value => (inl value, w1, trace1)
      | inr error =>
          if negb (isRetriable error) || (remaining' =? 0)%nat
          then (inr error, w1, trace1)
          else
            let (jitter, w2) := randomJitter w1 in
            let w3 := sleep (waitMs + jitter) w2 in
            backoffLoop remaining' (waitMs * 2) (Some error) w3
                        (trace1 ++ [Sleep (waitMs + jitter)])
      end
  end.

Definition withExponentialBackoff (maxAttempts : nat) (w : W)
  : (V + jsError) * W * list (backoffEvent V) :=
  backoffLoop maxAttempts 600 None w [].

End Backoff.

(** [postResponsesPayload]: the call of the proxy under a cap of 3. *)
Definition postResponsesPayload {W V : Type}
  (postProxyJson : W -> (V + jsError) * W)
  (randomJitter : W -> Z * W) (sleep : Z -> W -> W) (w : W) :=
  withExponentialBackoff postProxyJson randomJitter sleep 3 w.

Definition attemptsOf {V} (trace : list (backoffEvent V)) : list (V + jsError) :=
  omap (fun e => match e with Attempt o => Some o | Sleep _ => None end) trace.

Definition sleepsOf {V} (trace : list (backoffEvent V)) : list Z :=
  omap (fun e => match e with Sleep ms => Some ms | Attempt _ => None end) trace.

(** The shape of a run: failed attempts with a retriable error, each followed
    by a wait, then one last attempt. *)
Inductive runShape {V} : list (backoffEvent V) -> Prop :=
| run_last outcome : runShape [Attempt outcome]
| run_retry error ms rest :
    isRetriable error = true ->
    runShape rest ->
    runShape (Attempt (inr error) :: Sleep ms :: rest).

(** The scenario of the description: the upstream fails four times with a
    retriable proxy error and succeeds at the fifth call.  The world is the
    number of calls made so far, with the waits that were slept. *)
Definition proxyRetryable : jsError :=
  EasyReadError (lit "EasyRead server temporary error (503).") (lit "PROXY_RETRYABLE") true.

Definition failingFourTimesSlept (w : nat * list Z) : (jsstring + jsError) * (nat * list Z) :=
  (if (fst w <? 4)%nat then inr proxyRetryable else inl (lit "ok"), (S (fst w), snd w)).

Definition jitterOfSeven (w : nat * list Z) : Z * (nat * list Z) := (7, w).

Definition sleepKept (ms : Z) (w : nat * list Z) : nat * list Z := (fst w, snd w ++ [ms]).

(** ** Bounded concurrency (background.js, mapWithConcurrency) *)

(** A worker is suspended at its [await], with the index it took and the
    settled value of the promise [mapper(list[current], current)], or it has
    left its loop, or it was stopped by a rejection. *)
Inductive worker (B : Type) : Type :=
| Awaiting (current : nat) (pending : B + jsError)
| Finished
| Failed (error : jsError).

Arguments Awaiting {B} current pending.
Arguments Finished {B}.
Arguments Failed {B} error.

Record poolState (A B : Type) : Type := mkPool {
  nextIndex : nat;
  results : list (option B);          (* [new Array(list.length)], [None] a hole *)
  workers : list (worker B);
  calls : list (A * nat);             (* the calls of [mapper], in order *)
  rejection : option jsError          (* the first rejection, which settles Promise.all *)
}.

Arguments mkPool {A B}.
Arguments nextIndex {A B}.
Arguments results {A B}.
Arguments workers {A B}.
Arguments calls {A B}.
Arguments rejection {A B}.

Section MapWithConcurrency.

Context {A B : Type}.

(** [mapper item index]: the value the promise of the call settles to. *)
Variable mapper : A -> nat -> B + jsError.
(** [items] is the array [list] of the source. *)
Variable items : list A.
Variable limit : Z.

Definition safeLimit : Z := Z.max 1 (Z.min limit (alen items)).

(** A worker at the test of its [while]: it takes the next index and calls
    the mapper, or leaves the loop. *)
Definition enterLoop (st : poolState A B) : worker B * poolState A B :=
  match items !! nextIndex st with
  | Some item =>
      let current := nextIndex st in
      (Awaiting current (mapper item current),
       mkPool (S current) (results st) (workers st)
              (calls st ++ [(item, current)]) (rejection st))
  | None => (Finished, st)
  end.

(** [workers.push(worker())]: the new worker runs up to its first await. *)
Definition spawnWorker (st : poolState A B) : poolState A B :=
  let (w, st') := enterLoop st in
  mkPool (nextIndex st') (results st') (workers st' ++ [w]) (calls st') (rejection st').

(** Before the first worker: [results = new Array(list.length)] and
    [nextIndex = 0]. *)
Definition emptyPool : poolState A B :=
  mkPool O (replicate (length items) None) [] [] None.

Definition initialPool : poolState A B :=
  Nat.iter (Z.to_nat safeLimit) spawnWorker emptyPool.

(** The promise awaited by worker [i] settles: the value is stored and the
    worker goes round its loop, or the rejection stops it. *)
Definition resumeWorker (i : nat) (st : poolState A B) : option (poolState A B) :=
  match workers st !! i with
  | Some (Awaiting current (inl value)) =>
      let st1 := mkPool (nextIndex st) (<[current := Some value]> (results st))
                        (workers st) (calls st) (rejection st) in
      let (w, st2) := enterLoop st1 in
      Some (mkPool (nextIndex st2) (results st2) (<[i := w]> (workers st2))
                   (calls st2) (rejection st2))
  | Some (Awaiting current (inr error)) =>
      Some (mkPool (nextIndex st) (results st) (<[i := Failed error]> (workers st))
                   (calls st)
                   (match rejection st with Some e => Some e | None => Some error end))
  | _ => None
  end.

Definition poolStep (st st' : poolState A B) : Prop :=
  exists i, resumeWorker i st = Some st'.

(** The pool after the settlements of a schedule, a list of worker numbers;
    a number whose worker is not waiting is skipped. *)
Fixpoint runSchedule (schedule : list nat) (st : poolState A B) : poolState A B :=
  match schedule with
  | [] => st
  | i :: rest =>
      match resumeWorker i st with
      | Some st' => runSchedule rest st'
      | None => runSchedule rest st
      end
  end.

Definition allFinished (st : poolState A B) : Prop :=
  Forall (fun w => w = Finished) (workers st).

Definition isAwaiting (w : worker B) : bool :=
  match w with Awaiting _ _ => true | _ => false end.

(** What [await Promise.all(workers)] and the [return] give once the pool is
    quiet: the array, or the first rejection; [None] while a worker waits and
    nothing was rejected. *)
Definition poolOutcome (st : poolState A B) : option (list (option B) + jsError) :=
  match rejection st with
  | Some error => Some (inr error)
  | None => if existsb isAwaiting (workers st) then None else Some (inl (results st))
  end.

(** [mapWithConcurrency(items, limit, mapper)] under a schedule of the
    settlements. *)
Definition mapWithConcurrency (schedule : list nat) : option (list (option B) + jsError) :=
  match items with
  | [] => Some (inl [])
  | _ :: _ => poolOutcome (runSchedule schedule initialPool)
  end.

(** The sequential map in order, when no call is rejected. *)
Definition sequentialMap : list (B + jsError) :=
  imap (fun index item => mapper item index) items.

End MapWithConcurrency.

Section MapWithConcurrencyInvariant.

Context {A B : Type}.
Variable mapper : A -> nat -> B + jsError.
Variable items : list A.

(** What holds of every pool the function goes through. *)
Definition poolInv (st : poolState A B) : Prop :=
  (nextIndex st <= length items)%nat
  /\ length (results st) = length items
  /\ calls st = imap (fun index item => (item, index)) (take (nextIndex st) items)
  /\ (forall i c p, workers st !! i = Some (Awaiting c p) ->
        exists a, items !! c = Some a /\ p = mapper a c)
  /\ (forall i, workers st !! i = Some Finished -> nextIndex st = length items)
  /\ (forall k a, (k < nextIndex st)%nat -> items !! k = Some a ->
        (exists v, mapper a k = inl v /\ results st !! k = Some (Some v))
        \/ (exists i p, workers st !! i = Some (Awaiting k p))
        \/ (exists i e, workers st !! i = Some (Failed e)))
  /\ (rejection st = None -> forall i e, workers st !! i <> Some (Failed e))
  /\ (forall e, rejection st = Some e ->
        exists k a, items !! k = Some a /\ mapper a k = inr e).

(** The settlements still to come: the items not yet taken and the workers
    that wait. *)
Definition awaitingCount (ws : list (worker B)) : nat :=
  length (List.filter isAwaiting ws).

Definition pendingWork (st : poolState A B) : nat :=
  length items - nextIndex st + awaitingCount (workers st).

End MapWithConcurrencyInvariant.

(** A mapper for the examples: ten times the item plus the index, never
    rejected. *)
Definition timesTenPlusIndex (item index : nat) : nat + jsError :=
  inl (item * 10 + index)%nat.

(** ** Easy language (background.js) *)

Definition FALLBACK_STOP_WORDS : list jsstring :=
  List.map lit
    [ "about"; "after"; "again"; "also"; "and"; "are"; "because"; "been";
      "before"; "being"; "both"; "but"; "can"; "could"; "does"; "each";
      "even"; "from"; "have"; "having"; "into"; "just"; "like"; "made";
      "many"; "more"; "most"; "much"; "only"; "other"; "over"; "same";
      "some"; "than"; "that"; "their"; "them"; "then"; "there"; "they";
      "this"; "those"; "very"; "were"; "what"; "when"; "where"; "which";
      "while"; "with"; "would" ]%string.

Definition EASY_WORD_REPLACEMENTS : list (jsstring * jsstring) :=
  List.map (fun p : String.string * String.string => (lit (fst p), lit (snd p)))
    [ ("details", "small things"); ("closely", "very carefully");
      ("emulated", "copied"); ("hometown", "home town"); ("souvenir", "gift");
      ("emblazoned", "with words on it"); ("slogans", "short words");
      ("stationery", "paper and pens"); ("bearing", "with");
      ("likeness", "face"); ("alongside", "next to");
      ("political", "government"); ("idol", "hero"); ("former", "past");
      ("minister", "leader"); ("confidence", "clear sign");
      ("detected", "found"); ("incomplete", "not done") ]%string.

(** [entries.sort((a, b) => b[0].length - a[0].length)]: by decreasing
    length of the hard word, entries of equal length in their first order. *)
Fixpoint insertByLength (x : jsstring * jsstring) (sorted : list (jsstring * jsstring))
  : list (jsstring * jsstring) :=
  match sorted with
  | [] => [x]
  | y :: rest =>
      if len (fst y) >=? len (fst x) then y :: insertByLength x rest
      else x :: sorted
  end.

Definition sortByLength (entries : list (jsstring * jsstring)) : list (jsstring * jsstring) :=
  fold_left (fun sorted x => insertByLength x sorted) entries [].

(** The class [\w] *)
Definition isWordChar (c : N) : bool := is_letter c || is_digit c || (c =? 95)%N.

(** A match of the letters of [word] at the head of [s], whatever their
    case (flag [i], for a pattern of ASCII letters). *)
Fixpoint startsWithIgnoreCase (word s : jsstring) : bool :=
  match word, s with
  | [], _ => true
  | _ :: _, [] => false
  | a :: word', b :: s' => (lower_cu a =? lower_cu b)%N && startsWithIgnoreCase word' s'
  end.

(** [s.replace(new RegExp(`\\b${word}\\b`, "gi"), easy)] for a word of
    letters: [prevIsWord] tells whether the code unit before the head is in
    [\w], [skip] how many code units of a match just replaced remain. *)
Fixpoint replaceWord (hardWord easyWord : jsstring) (prevIsWord : bool) (skip : nat)
  (s : jsstring) : jsstring :=
  match s with
  | [] => []
  | c :: r =>
      match skip with
      | S skip' => replaceWord hardWord easyWord (isWordChar c) skip' r
      | O =>
          if negb prevIsWord
             && startsWithIgnoreCase hardWord s
             && match drop (length hardWord) s with
                | d :: _ => negb (isWordChar d)
                | [] => true
                end
          then easyWord ++ replaceWord hardWord easyWord (isWordChar c) (length hardWord - 1) r
          else c :: replaceWord hardWord easyWord (isWordChar c) O r
      end
  end.

Definition applyEasyWordReplacements (text : jsstring) : jsstring :=
  fold_left (fun result entry => replaceWord (fst entry) (snd entry) false O result)
            (sortByLength EASY_WORD_REPLACEMENTS) text.

(** The loop of [extractFallbackKeywords]. *)
Fixpoint keywordLoop (maxCount : Z) (tokens : list jsstring) (keywords : list jsstring)
  : list jsstring :=
  match tokens with
  | [] => keywords
  | token :: rest =>
      if (len token <? 4) || bool_decide (token ∈ FALLBACK_STOP_WORDS)
         || bool_decide (token ∈ keywords)
      then keywordLoop maxCount rest keywords
      else
        let keywords := keywords ++ [token] in
        if alen keywords >=? maxCount then keywords
        else keywordLoop maxCount rest keywords
  end.

Definition decimal (n : nat) : jsstring := lit (NilZero.string_of_uint (Nat.to_uint n)).

Section EasyLanguage.

Variable unicode_lower : jsstring -> jsstring.

Definition extractFallbackKeywords (text : jsstring) (maxCount : Z) : list jsstring :=
  keywordLoop maxCount
    (scanTokens is_lower Outside (toLowerCaseWith unicode_lower text)) [].

Definition buildLocalFallbackExplanation (selectedText : jsstring) : jsstring :=
  let normalized := trim (collapseSpaces selectedText) in
  if negb (truthy normalized) then lit "EasyRead could not read this text."
  else
    match extractFallbackKeywords normalized 6 with
    | k0 :: k1 :: k2 :: k3 :: _ =>
        lit "This text talks about " ++ k0 ++ lit ", " ++ k1 ++ lit ", " ++ k2
        ++ lit ", and " ++ k3 ++ lit ". It tells what happened and why it matters."
    | k0 :: k1 :: _ =>
        lit "This text talks about " ++ k0 ++ lit " and " ++ k1
        ++ lit ". It gives key facts and the main point."
    | _ => lit "This text has hard words. Please choose a short part."
    end.

Definition simplifyToEasyText (text selectedText : jsstring) : jsstring :=
  let raw := trim text in
  if negb (truthy raw) then []
  else
    let simplified := trim (collapseSpaces (applyEasyWordReplacements raw)) in
    if negb (truthy simplified) then
      if truthy selectedText then buildLocalFallbackExplanation selectedText else []
    else simplified.

Definition simplifyNoteText (note : jsstring) : jsstring :=
  let raw := trim note in
  if negb (truthy raw) then []
  else
    let lower := toLowerCaseWith unicode_lower raw in
    if includes (lit "cut off") lower || includes (lit "incomplete") lower
       || includes (lit "json") lower || includes (lit "fallback") lower
       || includes (lit "model problem") lower || includes (lit "backup answer") lower
    then lit "EasyRead had a model problem. This is a short backup answer."
    else if includes (lit "no words above b1") lower
    then lit "EasyRead did not find clear hard words above B1."
    else simplifyToEasyText raw [].

(** [a || b] on strings *)
Definition orElse (a b : jsstring) : jsstring := if truthy a then a else b.

Definition enforceEasyLanguage (result : ExplainResult) (selectedText : jsstring)
  : ExplainResult :=
  {| simple_explanation := simplifyToEasyText (simple_explanation result) selectedText;
     a2_plus_words :=
       List.map
         (fun item =>
            {| word := word item;
               lemma := lemma item;
               pos := pos item;
               cefr := cefr item;
               definition_simple :=
                 orElse (simplifyToEasyText (definition_simple item) [])
                        (lit "This word is not easy.");
               example_simple :=
                 orElse (simplifyToEasyText (example_simple item) [])
                        (lit "I see this word here.") |})
         (a2_plus_words result);
     notes := simplifyNoteText (notes result);
     confidence := confidence result |}.

Definition appendNote (base addition : jsstring) : jsstring :=
  let next := trim addition in
  if negb (truthy next) then trim base
  else
    let prior := trim base in
    if truthy prior then prior ++ [SP] ++ next else next.

(** [Math.min(confidence, 0.35)], or 0.35 when the confidence is not a
    finite number *)
Definition capConfidence (c : jsnum) : jsnum :=
  match c with
  | Finite q => Finite (Qmin q (35 # 100))
  | _ => Finite (35 # 100)
  end.

Definition defaultBackupNote : jsstring :=
  lit "EasyRead used backup explanation because model output was empty.".

Definition ensureNonEmptyExplanation (result : ExplainResult)
  (selectedText fallbackNote : jsstring) : ExplainResult :=
  if hasText (simple_explanation result) then result
  else
    {| simple_explanation := buildLocalFallbackExplanation selectedText;
       a2_plus_words := a2_plus_words result;
       notes := appendNote (notes result) (orElse fallbackNote defaultBackupNote);
       confidence := capConfidence (confidence result) |}.

Definition buildLocalFallbackResult (selectedText fallbackNote : jsstring)
  : ExplainResult :=
  {| simple_explanation := buildLocalFallbackExplanation selectedText;
     a2_plus_words := [];
     notes := simplifyNoteText (trim fallbackNote);
     confidence := Finite (2 # 10) |}.

Definition isRecoverableModelOutputError (error : jsError) : bool :=
  let message := toLowerCaseWith unicode_lower (errorMessage error) in
  let code := errorCode error in
  if bool_decide (code = lit "EMPTY_OUTPUT") || bool_decide (code = lit "BAD_JSON") then true
  else if includes (lit "model returned no text") message then true
  else includes (lit "max_output_tokens") message.

End EasyLanguage.

(** ** The request handler (background.js, handleExplainRequest) *)

Definition HARD_MAX_CHARS : Z := 12000.
Definition MODEL_NANO_MAX_CHARS : Z := 1200.
(** "Always return explanation first; words are loaded in a deferred pass." *)
Definition FAST_SINGLE_CALL_MAX_CHARS : Z := 0.
Definition MODEL_SHORT_TEXT : jsstring := lit "gpt-5-nano".
Definition MODEL_LONG_TEXT : jsstring := lit "gpt-5-mini".
Definition MODEL_VERSION : jsstring := lit "easyread-mvp-2026-02".
Definition EXPLANATION_MODES : list jsstring := [lit "simple"; lit "balanced"; lit "detailed"].
Definition DEFAULT_EXPLANATION_MODE : jsstring := lit "balanced".

(** The message of the content script; a field is [None] when it is absent
    or not a string. *)
Record Payload : Type := mkPayload {
  payload_selectedText : option jsstring;
  payload_requestId : option jsstring;
  payload_explanationMode : option jsstring;
  payload_pageUrl : option jsstring;
  payload_pageOrigin : option jsstring
}.

Record Settings : Type := mkSettings { anonymousClientId : jsstring }.

Record Response : Type := mkResponse {
  response_cached : bool;
  response_result : ExplainResult;
  response_requestId : jsstring;
  response_wordsPending : bool;
  response_explanationMode : jsstring
}.

(** What the cache keeps of the request, and what the work of a request
    settles to. *)
Record CacheRequest : Type := mkCacheRequest {
  cached_selectedText : jsstring;
  cached_explanationMode : jsstring;
  cached_model : jsstring
}.

Record Work : Type := mkWork {
  work_result : ExplainResult;
  work_wordsPending : bool
}.

Record AnalyzeArgs : Type := mkAnalyzeArgs {
  analyze_selectedText : jsstring;
  analyze_clientId : jsstring;
  analyze_model : jsstring;
  analyze_explanationMode : jsstring
}.

Record Analyzed : Type := mkAnalyzed {
  analyzed_parsed : ExplainResult;
  analyzed_candidateCount : Z;
  analyzed_candidates : list jsstring
}.

Record DeferredArgs : Type := mkDeferredArgs {
  deferred_tabId : option Z;
  deferred_requestId : jsstring;
  deferred_selectedText : jsstring;
  deferred_candidates : list jsstring;
  deferred_clientId : jsstring;
  deferred_model : jsstring;
  deferred_explanationMode : jsstring;
  deferred_baseResult : ExplainResult;
  deferred_cacheKey : jsstring
}.

(** The message pushed to the tab: the final result, or the error text. *)
Inductive WordsUpdate : Type :=
| UpdateResult (requestId explanationMode : jsstring) (result : ExplainResult)
| UpdateError (requestId error : jsstring).

(** What the handler asks of the rest of the system.  Each constructor is one
    awaited call (or one operation on the in-flight map), with the type of
    its answer.  The two analyses and the word-coverage request are the calls
    that reach the model upstream. *)
Inductive effect : Type -> Type :=
| GetSettings : effect Settings
| GetOrCreateAnonymousClientId (settings : Settings) : effect jsstring
| RandomRequestId : effect jsstring
| GetCachedResponse (cacheKey : jsstring) : effect (option ExplainResult)
| SaveCachedResponse (cacheKey : jsstring) (request : CacheRequest)
    (response : ExplainResult) : effect unit
| InflightHas (cacheKey : jsstring) : effect bool
| InflightGet (cacheKey : jsstring) : effect (Work + jsError)
| InflightSet (cacheKey : jsstring) : effect unit
| InflightDelete (cacheKey : jsstring) : effect unit
| AnalyzeSingleSelection (args : AnalyzeArgs) : effect (Analyzed + jsError)
| AnalyzeExplanationOnlySelection (args : AnalyzeArgs) : effect (Analyzed + jsError)
| RunDeferredWordsPass (args : DeferredArgs) : effect unit
| RequestWordCoverage (clientId model selectedText : jsstring)
    (candidateHints : list jsstring) (wordLimit : Z) : effect (json + jsError)
| SendTabUpdate (tabId : Z) (message : WordsUpdate) : effect unit.

(** An asynchronous function: it returns, throws, or awaits a call and goes
    on with the answer. *)
Inductive prog (R : Type) : Type :=
| Ret (r : R)
| Throw (error : jsError)
| Vis {X : Type} (e : effect X) (k : X -> prog R).

Arguments Ret {R} r.
Arguments Throw {R} error.
Arguments Vis {R X} e k.

Fixpoint bind {R S : Type} (p : prog R) (f : R -> prog S) : prog S :=
  match p with
  | Ret r => f r
  | Throw error => Throw error
  | Vis e k => Vis e (fun x => bind (k x) f)
  end.

Notation "x <- p ;; q" := (bind p (fun x => q))
  (at level 100, p at next level, right associativity).

(** [await e] *)
Definition await {X : Type} (e : effect X) : prog X := Vis e Ret.

(** [await e] for a call that can be rejected *)
Definition awaitResult {X : Type} (e : effect (X + jsError)) : prog X :=
  Vis e (fun answer => match answer with inl x => Ret x | inr error => Throw error end).

(** [try { p } catch (error) { handler }] *)
Fixpoint tryCatch {R : Type} (p : prog R) (handler : jsError -> prog R) : prog R :=
  match p with
  | Ret r => Ret r
  | Throw error => handler error
  | Vis e k => Vis e (fun x => tryCatch (k x) handler)
  end.

(** [try { p } finally { cleanup }] *)
Fixpoint tryFinally {R : Type} (p : prog R) (cleanup : prog unit) : prog R :=
  match p with
  | Ret r => _ <- cleanup ;; Ret r
  | Throw error => _ <- cleanup ;; Throw error
  | Vis e k => Vis e (fun x => tryFinally (k x) cleanup)
  end.

Definition getWordResultLimit (selectionLength : Z) : Z :=
  if selectionLength <=? 180 then 10
  else if selectionLength <=? 500 then 14
  else if selectionLength <=? 1200 then 18
  else 24.

Definition chooseModelForText (textLength : Z) : jsstring :=
  if textLength >? MODEL_NANO_MAX_CHARS then MODEL_LONG_TEXT else MODEL_SHORT_TEXT.

Definition normalizeSelection (value : option jsstring) : jsstring :=
  match value with
  | Some s => trim s
  | None => []
  end.

Definition normalizeRequestId (value : option jsstring) : prog jsstring :=
  match value with
  | Some s => if truthy (trim s) then Ret (trim s) else await RandomRequestId
  | None => await RandomRequestId
  end.

(** Falsy values: [!v] for a value [v]. *)
Definition falsy (v : json) : bool :=
  match v with
  | JNull => true
  | JBool b => negb b
  | JNum (Finite q) => Qeq_bool q 0
  | JNum NaN => true
  | JNum _ => false
  | JStr s => negb (truthy s)
  | JArr _ | JObj _ => false
  end.

(** [for (const item of v || [])]: the items, or [None] when the loop
    throws a TypeError because the value is not iterable.  The characters
    of a string are strings, which have neither [content] nor [text]: they
    add nothing to what [extractOutputText] collects. *)
Definition itemsOf (v : option json) : option (list json) :=
  match v with
  | None => Some []
  | Some v =>
      if falsy v then Some []
      else match v with
           | JArr items => Some items
           | JStr _ => Some []
           | _ => None
           end
  end.

(** The texts of one item of [output]. *)
Definition textsOfItem (outputItem : json) : option (list jsstring) :=
  match itemsOf (prop "content" outputItem) with
  | None => None
  | Some contentItems =>
      Some (omap (fun contentItem =>
                    match prop "text" contentItem with
                    | Some (JStr text) => Some text
                    | _ => None
                    end) contentItems)
  end.

Fixpoint collectTexts (outputItems : list json) : option (list jsstring) :=
  match outputItems with
  | [] => Some []
  | outputItem :: rest =>
      match textsOfItem outputItem with
      | None => None
      | Some texts =>
          match collectTexts rest with
          | None => None
          | Some more => Some (texts ++ more)
          end
      end
  end.

(** [extractOutputText] of lib/schema.js, on the answer of the provider:
    the text, or [None] when it throws because [output], or the [content]
    of one of its items, is not iterable. *)
Definition extractOutputText (responseJson : json) : option jsstring :=
  let chunksText :=
    match itemsOf (prop "output" responseJson) with
    | None => None
    | Some outputItems =>
        match collectTexts outputItems with
        | None => None
        | Some chunks => Some (trim (join [10%N] chunks))
        end
    end in
  match prop "output_text" responseJson with
  | Some (JStr text) => if truthy (trim text) then Some (trim text) else chunksText
  | _ => chunksText
  end.

Section Handler.

(** The host: case tables, [JSON.parse], the encoder and the digest behind
    [sha256], and [new URL(pageUrl).origin] ([None] when it throws). *)
Variable unicode_lower : jsstring -> jsstring.
Variable unicode_upper : jsstring -> jsstring.
Variable JSON_parse : jsstring -> option json.
Variable utf8_encode : jsstring -> list byte.
Variable sha256_digest : list byte -> list byte.
Variable urlOrigin : jsstring -> option jsstring.
(** The TypeError of a loop over a value that is not iterable. *)
Variable notIterable : jsError.

Definition normalizeExplanationMode (mode : option jsstring) : jsstring :=
  let normalized :=
    match mode with
    | Some s => toLowerCaseWith unicode_lower (trim s)
    | None => []
    end in
  if bool_decide (normalized ∈ EXPLANATION_MODES) then normalized
  else DEFAULT_EXPLANATION_MODE.

Definition getPageOrigin (pageUrl fallbackOrigin : option jsstring) : jsstring :=
  match fallbackOrigin with
  | Some (c :: o) => c :: o
  | _ =>
      match pageUrl with
      | Some (c :: u) =>
          match urlOrigin (c :: u) with
          | Some origin => origin
          | None => []
          end
      | _ => []
      end
  end.

(** [callModelForB2PlusWords] *)
Definition callModelForB2PlusWords (clientId model selectedText : jsstring)
  (candidateHints : list jsstring) (wordLimit : Z) : prog (list WordEntry) :=
  response <- awaitResult
    (RequestWordCoverage clientId model selectedText candidateHints wordLimit) ;;
  match extractOutputText response with
  | None => Throw notIterable
  | Some rawText =>
      if negb (truthy rawText) then Ret []
      else
        match parseAndNormalizeWordCoverage unicode_lower unicode_upper JSON_parse rawText with
        | inl words => Ret words
        | inr _ => Ret []
        end
  end.

Definition tabUpdate (tabId : option Z) (message : WordsUpdate) : prog unit :=
  match tabId with
  | Some id => await (SendTabUpdate id message)
  | None => Ret tt
  end.

(** [runDeferredWordsPass] *)
Definition runDeferredWordsPass (args : DeferredArgs) : prog unit :=
  let selectedText := deferred_selectedText args in
  let candidateList := deferred_candidates args in
  let baseResult := deferred_baseResult args in
  tryCatch
    (words <- (if 0 <? alen candidateList
               then callModelForB2PlusWords (deferred_clientId args) (deferred_model args)
                      selectedText candidateList (getWordResultLimit (len selectedText))
               else Ret []) ;;
     let finalNotes :=
       if (alen words =? 0) && (0 <? alen candidateList)
       then appendNote (notes baseResult)
              (lit "No words above B1 were detected with enough confidence.")
       else notes baseResult in
     let finalResult :=
       enforceEasyLanguage unicode_lower
         {| simple_explanation := simple_explanation baseResult;
            a2_plus_words := keepB2PlusWords unicode_upper words;
            notes := finalNotes;
            confidence := confidence baseResult |}
         selectedText in
     let safeFinalResult :=
       ensureNonEmptyExplanation unicode_lower finalResult selectedText
         (lit "EasyRead filled a backup explanation because the model returned empty text.") in
     _ <- await (SaveCachedResponse (deferred_cacheKey args)
                   (mkCacheRequest selectedText (deferred_explanationMode args)
                      (deferred_model args))
                   safeFinalResult) ;;
     tabUpdate (deferred_tabId args)
       (UpdateResult (deferred_requestId args) (deferred_explanationMode args)
          safeFinalResult))
    (fun _error =>
       tabUpdate (deferred_tabId args)
         (UpdateError (deferred_requestId args)
            (lit "Words are taking too long. Try again for the full word list."))).

Definition backupNoteCached : jsstring :=
  lit "EasyRead filled a backup explanation because cached output was empty.".
Definition backupNoteShared : jsstring :=
  lit "EasyRead filled a backup explanation because shared output was empty.".
Definition backupNoteEmpty : jsstring :=
  lit "EasyRead filled a backup explanation because the model returned empty text.".
Definition noteNoWords : jsstring :=
  lit "No words above B1 were detected with enough confidence.".
Definition emptyResultError : jsError :=
  EasyReadError (lit "Model output is empty. Please try again.") (lit "EMPTY_RESULT") false.
Definition noSelectionError : jsError :=
  EasyReadError (lit "Please select text first.") (lit "NO_SELECTION") false.
Definition selectionTooLongError (length : nat) : jsError :=
  EasyReadError
    (lit "Selection is too long (" ++ decimal length ++ lit " chars). Max is "
     ++ decimal (Z.to_nat HARD_MAX_CHARS) ++ lit ".")
    (lit "SELECTION_TOO_LONG") false.

(** The body of [workPromise]. *)
Definition explainWork (isFastSingleCallPath shouldUseDeferredWords : bool)
  (selectedText requestId explanationMode selectedModel clientId cacheKey : jsstring)
  (tabId : option Z) : prog Work :=
  let args := mkAnalyzeArgs selectedText clientId selectedModel explanationMode in
  let request := mkCacheRequest selectedText explanationMode selectedModel in
  if isFastSingleCallPath then
    analyzed <- awaitResult (AnalyzeSingleSelection args) ;;
    let parsed0 := analyzed_parsed analyzed in
    let parsed :=
      if (alen (a2_plus_words parsed0) =? 0) && (0 <? analyzed_candidateCount analyzed)
      then {| simple_explanation := simple_explanation parsed0;
              a2_plus_words := a2_plus_words parsed0;
              notes := appendNote (notes parsed0) noteNoWords;
              confidence := confidence parsed0 |}
      else parsed0 in
    if negb (isOutputUsable parsed) then Throw emptyResultError
    else
      let easyParsed := enforceEasyLanguage unicode_lower parsed selectedText in
      let safeParsed :=
        ensureNonEmptyExplanation unicode_lower easyParsed selectedText backupNoteEmpty in
      _ <- await (SaveCachedResponse cacheKey request safeParsed) ;;
      Ret (mkWork safeParsed false)
  else
    explanationOnly <- awaitResult (AnalyzeExplanationOnlySelection args) ;;
    let parsed := analyzed_parsed explanationOnly in
    let immediateResult :=
      enforceEasyLanguage unicode_lower
        {| simple_explanation := simple_explanation parsed;
           a2_plus_words := [];
           notes := notes parsed;
           confidence := confidence parsed |}
        selectedText in
    let safeImmediateResult :=
      ensureNonEmptyExplanation unicode_lower immediateResult selectedText backupNoteEmpty in
    if negb (isOutputUsable safeImmediateResult) then Throw emptyResultError
    else if negb shouldUseDeferredWords || (analyzed_candidateCount explanationOnly <=? 0)
    then
      _ <- await (SaveCachedResponse cacheKey request safeImmediateResult) ;;
      Ret (mkWork safeImmediateResult false)
    else
      _ <- await (RunDeferredWordsPass
                    (mkDeferredArgs tabId requestId selectedText
                       (analyzed_candidates explanationOnly) clientId selectedModel
                       explanationMode safeImmediateResult cacheKey)) ;;
      Ret (mkWork safeImmediateResult true).

(** [handleExplainRequest(payload, sender)]; [tabId] is [sender.tab.id] when
    it is an integer.  The in-flight map is written right after the work has
    started, with no await in between: the model sets it before the first
    answer to the work arrives. *)
Definition handleExplainRequest (payload : Payload) (tabId : option Z) : prog Response :=
  settings <- await GetSettings ;;
  let selectedText := normalizeSelection (payload_selectedText payload) in
  requestId <- normalizeRequestId (payload_requestId payload) ;;
  let explanationMode := normalizeExplanationMode (payload_explanationMode payload) in
  if negb (truthy selectedText) then Throw noSelectionError
  else if len selectedText >? HARD_MAX_CHARS
  then Throw (selectionTooLongError (length selectedText))
  else
    let isFastSingleCallPath := len selectedText <=? FAST_SINGLE_CALL_MAX_CHARS in
    let shouldUseDeferredWords := negb isFastSingleCallPath in
    let selectedModel := chooseModelForText (len selectedText) in
    clientId <- await (GetOrCreateAnonymousClientId settings) ;;
    let pageOrigin := getPageOrigin (payload_pageUrl payload) (payload_pageOrigin payload) in
    let cacheKey :=
      buildCacheKey utf8_encode sha256_digest
        (mkCacheKeyParts pageOrigin selectedText explanationMode selectedModel MODEL_VERSION) in
    cached <- await (GetCachedResponse cacheKey) ;;
    match cached with
    | Some cachedResult =>
        Ret (mkResponse true
               (ensureNonEmptyExplanation unicode_lower cachedResult selectedText backupNoteCached)
               requestId false explanationMode)
    | None =>
        joins <- (if isFastSingleCallPath then await (InflightHas cacheKey) else Ret false) ;;
        if joins then
          sharedWork <- awaitResult (InflightGet cacheKey) ;;
          Ret (mkResponse false
                 (ensureNonEmptyExplanation unicode_lower (work_result sharedWork)
                    selectedText backupNoteShared)
                 requestId (work_wordsPending sharedWork) explanationMode)
        else
          _ <- (if isFastSingleCallPath then await (InflightSet cacheKey) else Ret tt) ;;
          tryFinally
            (tryCatch
               (completed <- explainWork isFastSingleCallPath shouldUseDeferredWords
                               selectedText requestId explanationMode selectedModel
                               clientId cacheKey tabId ;;
                Ret (mkResponse false (work_result completed) requestId
                       (work_wordsPending completed) explanationMode))
               (fun error =>
                  if isRecoverableModelOutputError unicode_lower error then
                    let fallbackResult :=
                      buildLocalFallbackResult unicode_lower selectedText
                        (lit "EasyRead used fallback mode because the model response was incomplete.") in
                    _ <- await (SaveCachedResponse cacheKey
                                  (mkCacheRequest selectedText explanationMode selectedModel)
                                  fallbackResult) ;;
                    Ret (mkResponse false fallbackResult requestId false explanationMode)
                  else Throw error))
            (if isFastSingleCallPath then await (InflightDelete cacheKey) else Ret tt)
    end.

End Handler.

(** *** What a handler does on every path *)

(** The calls that reach the model upstream, directly or by starting the
    deferred pass. *)
Definition isUpstream {X} (e : effect X) : bool :=
  match e with
  | AnalyzeSingleSelection _ | AnalyzeExplanationOnlySelection _
  | RunDeferredWordsPass _ | RequestWordCoverage _ _ _ _ _ => true
  | _ => false
  end.

(** The calls made before the selection is validated. *)
Definition beforeValidation {X} (e : effect X) : bool :=
  match e with
  | GetSettings | RandomRequestId => true
  | _ => false
  end.

Definition isClientIdCall {X} (e : effect X) : bool :=
  match e with
  | GetOrCreateAnonymousClientId _ => true
  | _ => false
  end.

Definition isRegistryCall {X} (e : effect X) : bool :=
  match e with
  | InflightHas _ | InflightGet _ | InflightSet _ | InflightDelete _ => true
  | _ => false
  end.

(** Whatever the answers, the program throws [error], after calls that are
    all made before validation. *)
Fixpoint rejectsWith {R} (error : jsError) (p : prog R) : Prop :=
  match p with
  | Ret _ => False
  | Throw thrown => thrown = error
  | Vis e k => beforeValidation e = true /\ forall x, rejectsWith error (k x)
  end.

(** Whatever the answers, the program gets past validation: its first call
    after those made before validation is the one for the client id. *)
Fixpoint passesValidation {R} (p : prog R) : Prop :=
  match p with
  | Ret _ => False
  | Throw _ => False
  | Vis e k =>
      isClientIdCall e = true
      \/ (beforeValidation e = true /\ forall x, passesValidation (k x))
  end.

(** No call of the program satisfies [test], whatever the answers. *)
Fixpoint neverCalls {R} (test : forall X, effect X -> bool) (p : prog R) : Prop :=
  match p with
  | Ret _ => True
  | Throw _ => True
  | Vis e k => test _ e = false /\ forall x, neverCalls test (k x)
  end.

(** *** The vocabulary of the results *)

Definition entryOk (e : WordEntry) : Prop :=
  cefr e ∈ B2_PLUS_LEVELS
  /\ hasText (definition_simple e) = true
  /\ hasText (example_simple e) = true.

Definition vocabularyOk (r : ExplainResult) : Prop := Forall entryOk (a2_plus_words r).

(** What a call hands over: a result written to the cache, pushed to the
    tab or given to the deferred pass. *)
Definition handsOverOk {X} (e : effect X) : Prop :=
  match e with
  | SaveCachedResponse _ _ response => vocabularyOk response
  | SendTabUpdate _ (UpdateResult _ _ result) => vocabularyOk result
  | RunDeferredWordsPass args => vocabularyOk (deferred_baseResult args)
  | _ => True
  end.

(** What is assumed of an answer: a result read from the cache is one that
    was written there. *)
Definition answerOk {X} (e : effect X) : X -> Prop :=
  match e in effect X return X -> Prop with
  | GetCachedResponse _ => fun cached => forall r, cached = Some r -> vocabularyOk r
  | _ => fun _ => True
  end.

(** Every result the program hands over or returns is fine, on every path
    whose answers are. *)
Fixpoint resultsOk {R} (returned : R -> Prop) (p : prog R) : Prop :=
  match p with
  | Ret r => returned r
  | Throw _ => True
  | Vis e k => handsOverOk e /\ forall x, answerOk e x -> resultsOk returned (k x)
  end.

(** *** The coordinator and its cache *)

(** What runs in the coordinator: requests being handled and deferred words
    passes, each suspended at an await or settled. *)
Inductive task : Type :=
| RequestTask (p : prog Response)
| DeferredTask (p : prog unit).

(** The coordinator with what was stored in the cache so far, under which
    key.  Entries expire, are pruned and cleared, and a save writes back the
    map it has read (lib/storage.js): which of the stored results a lookup
    finds is left open. *)
Record System : Type := mkSystem {
  system_stored : list (jsstring * ExplainResult);
  system_tasks : list task
}.

Section Coordinator.

Variable unicode_lower : jsstring -> jsstring.
Variable unicode_upper : jsstring -> jsstring.
Variable JSON_parse : jsstring -> option json.
Variable utf8_encode : jsstring -> list byte.
Variable sha256_digest : list byte -> list byte.
Variable urlOrigin : jsstring -> option jsstring.
Variable notIterable : jsError.

(** The answer to a call in a system: the answer, what is stored afterwards
    and the tasks that the call starts.  A lookup finds nothing or a result
    stored under its key; a save stores its response; [void
    runDeferredWordsPass(...)] starts the pass; the other calls are answered
    from outside the coordinator, in any way. *)
Definition answered {X} (e : effect X) (stored : list (jsstring * ExplainResult))
  : X -> list (jsstring * ExplainResult) -> list task -> Prop :=
  match e in effect X return X -> list (jsstring * ExplainResult) -> list task -> Prop with
  | GetCachedResponse key =>
      fun cached stored' started =>
        (cached = None \/ exists result, cached = Some result /\ (key, result) ∈ stored)
        /\ stored' = stored /\ started = []
  | SaveCachedResponse key _ response =>
      fun _ stored' started => stored' = (key, response) :: stored /\ started = []
  | RunDeferredWordsPass args =>
      fun _ stored' started =>
        stored' = stored
        /\ started = [DeferredTask
                        (runDeferredWordsPass unicode_lower unicode_upper JSON_parse
                           notIterable args)]
  | _ => fun _ stored' started => stored' = stored /\ started = []
  end.

(** A request arrives, or a task goes on from its await with the answer to
    its call. *)
Inductive systemStep : System -> System -> Prop :=
| step_arrival stored tasks payload tabId :
    systemStep (mkSystem stored tasks)
      (mkSystem stored
         (tasks ++ [RequestTask
                      (handleExplainRequest unicode_lower utf8_encode sha256_digest
                         urlOrigin payload tabId)]))
| step_request stored tasks i X (e : effect X) k x stored' started :
    tasks !! i = Some (RequestTask (Vis e k)) ->
    answered e stored x stored' started ->
    systemStep (mkSystem stored tasks)
      (mkSystem stored' (<[i := RequestTask (k x)]> tasks ++ started))
| step_deferred stored tasks i X (e : effect X) k x stored' started :
    tasks !! i = Some (DeferredTask (Vis e k)) ->
    answered e stored x stored' started ->
    systemStep (mkSystem stored tasks)
      (mkSystem stored' (<[i := DeferredTask (k x)]> tasks ++ started)).

End Coordinator.

(** What a task is about to hand over, and what a settled request has
    returned. *)
Definition taskHandsOverOk (t : task) : Prop :=
  match t with
  | RequestTask (Vis e _) | DeferredTask (Vis e _) => handsOverOk e
  | RequestTask (Ret response) => vocabularyOk (response_result response)
  | _ => True
  end.

(** Every result that a task hands over or returns from now on is fine, as
    long as the lookups of the cache find results that are. *)
Definition taskResultsOk (t : task) : Prop :=
  match t with
  | RequestTask p => resultsOk (fun response => vocabularyOk (response_result response)) p
  | DeferredTask p => resultsOk (fun _ => True) p
  end.

Definition storedOk (stored : list (jsstring * ExplainResult)) : Prop :=
  forall key result, (key, result) ∈ stored -> vocabularyOk result.

(** The settings of the examples. *)
Definition sampleSettings : Settings := mkSettings (lit "client-1").

(** *** Requests side by side *)

(** A world for the examples: the cache, the keys of the in-flight map and
    the number of analyses sent upstream. *)
Record World : Type := mkWorld {
  world_cache : list (jsstring * ExplainResult);
  world_inflight : list jsstring;
  world_upstream : nat
}.

Fixpoint cacheLookup (key : jsstring) (cache : list (jsstring * ExplainResult))
  : option ExplainResult :=
  match cache with
  | [] => None
  | (k, r) :: rest => if bool_decide (k = key) then Some r else cacheLookup key rest
  end.

Definition sampleAnalysis : Analyzed :=
  mkAnalyzed
    (mkExplainResult (lit "It says hello.") [] [] (Finite (9 # 10)))
    0 [].

(** One call answered in a world; [None] when the answer is not there yet. *)
Definition perform {X} (e : effect X) (w : World) : option (X * World) :=
  match e in effect X return option (X * World) with
  | GetSettings => Some (mkSettings (lit "client-1"), w)
  | GetOrCreateAnonymousClientId settings => Some (anonymousClientId settings, w)
  | RandomRequestId => Some (lit "request-1", w)
  | GetCachedResponse key => Some (cacheLookup key (world_cache w), w)
  | SaveCachedResponse key _ response =>
      Some (tt, mkWorld ((key, response) :: world_cache w) (world_inflight w)
                        (world_upstream w))
  | InflightHas key => Some (bool_decide (key ∈ world_inflight w), w)
  | InflightGet _ => None
  | InflightSet key =>
      Some (tt, mkWorld (world_cache w) (key :: world_inflight w) (world_upstream w))
  | InflightDelete key =>
      Some (tt, mkWorld (world_cache w)
                        (List.filter (fun k => negb (bool_decide (k = key))) (world_inflight w))
                        (world_upstream w))
  | AnalyzeSingleSelection _ | AnalyzeExplanationOnlySelection _ =>
      Some (inl sampleAnalysis,
            mkWorld (world_cache w) (world_inflight w) (S (world_upstream w)))
  | RunDeferredWordsPass _ => Some (tt, w)
  | RequestWordCoverage _ _ _ _ _ =>
      Some (inl JNull, mkWorld (world_cache w) (world_inflight w) (S (world_upstream w)))
  | SendTabUpdate _ _ => Some (tt, w)
  end.

(** One request goes on to its next await. *)
Definition advance {R} (p : prog R) (w : World) : prog R * World :=
  match p with
  | Vis e k =>
      match perform e w with
      | Some (x, w') => (k x, w')
      | None => (p, w)
      end
  | _ => (p, w)
  end.

(** The requests of a pool go on in the order of a schedule. *)
Fixpoint runRequests {R} (schedule : list nat) (pool : list (prog R)) (w : World)
  : list (prog R) * World :=
  match schedule with
  | [] => (pool, w)
  | i :: rest =>
      match pool !! i with
      | Some p =>
          let (p', w') := advance p w in
          runRequests rest (<[i := p']> pool) w'
      | None => runRequests rest pool w
      end
  end.

(** Three entries for the examples: a C1 word with its texts, an A2 word,
    and a B2 word whose definition is blank. *)
Definition entryUbiquitous : WordEntry :=
  mkWordEntry (lit "ubiquitous") (lit "ubiquitous") (lit "adj") (lit "C1")
    (lit "found everywhere") (lit "Phones are ubiquitous.").

Definition entryHouse : WordEntry :=
  mkWordEntry (lit "house") (lit "house") (lit "noun") (lit "A2")
    (lit "a place to live") (lit "This is my house.").

Definition entryBlank : WordEntry :=
  mkWordEntry (lit "serendipity") (lit "serendipity") (lit "noun") (lit "B2")
    (lit "  ") (lit "It was serendipity.").

Definition helloPayload : Payload :=
  mkPayload (Some (lit "hello")) (Some (lit "r1")) None None (Some (lit "https://a.example")).

Definition noUrlOrigin (url : jsstring) : option jsstring := None.

Definition isReturned {R} (p : prog R) : bool :=
  match p with Ret _ => true | _ => false end.

(** ** More of the coordinator: what the handler does on every path *)

(** A property of every path of an asynchronous function: each call it makes
    satisfies [call], a returned value [returned] and a thrown error
    [thrown], on every path whose answers satisfy [assume]. *)
Fixpoint onPaths {R} (assume : forall X, effect X -> X -> Prop)
  (call : forall X, effect X -> Prop)
  (returned : R -> Prop) (thrown : jsError -> Prop) (p : prog R) : Prop :=
  match p with
  | Ret r => returned r
  | Throw error => thrown error
  | Vis e k => call _ e /\ forall x, assume _ e x -> onPaths assume call returned thrown (k x)
  end.

Definition anyAnswer : forall X, effect X -> X -> Prop := fun _ _ _ => True.
Definition anyCall : forall X, effect X -> Prop := fun _ _ => True.

(** Every path makes exactly [n] calls that satisfy [test]. *)
Fixpoint callsExactly {R} (test : forall X, effect X -> bool) (n : nat) (p : prog R) : Prop :=
  match p with
  | Ret _ | Throw _ => n = O
  | Vis e k =>
      if test _ e
      then match n with
           | S m => forall x, callsExactly test m (k x)
           | O => False
           end
      else forall x, callsExactly test n (k x)
  end.

Definition isTabUpdate {X} (e : effect X) : bool :=
  match e with
  | SendTabUpdate _ _ => true
  | _ => false
  end.

Definition isCacheWrite {X} (e : effect X) : bool :=
  match e with
  | SaveCachedResponse _ _ _ => true
  | _ => false
  end.

Definition isDeferral {X} (e : effect X) : bool :=
  match e with
  | RunDeferredWordsPass _ => true
  | _ => false
  end.

(** The explanation that a call hands over (to the cache, to the tab, to the
    deferred pass) has text. *)
Definition handsOverText {X} (e : effect X) : Prop :=
  match e with
  | SaveCachedResponse _ _ response => hasText (simple_explanation response) = true
  | SendTabUpdate _ (UpdateResult _ _ result) => hasText (simple_explanation result) = true
  | RunDeferredWordsPass args =>
      hasText (simple_explanation (deferred_baseResult args)) = true
  | _ => True
  end.

(** The cache answers the lookup with [entry]. *)
Definition cacheHolds (entry : option ExplainResult) : forall X, effect X -> X -> Prop :=
  fun X e =>
    match e in effect X return X -> Prop with
    | GetCachedResponse _ => fun cached => cached = entry
    | _ => fun _ => True
    end.

(** When the analysis is rejected, its error satisfies [P]. *)
Definition analysisErrors (P : jsError -> Prop) : forall X, effect X -> X -> Prop :=
  fun X e =>
    match e in effect X return X -> Prop with
    | AnalyzeExplanationOnlySelection _ =>
        fun answer => forall error, answer = inr error -> P error
    | _ => fun _ => True
    end.

(** The cache has no entry and the analysis is rejected with an error that
    satisfies [P]. *)
Definition analysisFails (P : jsError -> Prop) : forall X, effect X -> X -> Prop :=
  fun X e =>
    match e in effect X return X -> Prop with
    | GetCachedResponse _ => fun cached => cached = None
    | AnalyzeExplanationOnlySelection _ =>
        fun answer => exists error, answer = inr error /\ P error
    | _ => fun _ => True
    end.

(** The cache has no entry and the analysis answers with a result whose
    number of candidate words satisfies [P]. *)
Definition analysisFinds (P : Z -> Prop) : forall X, effect X -> X -> Prop :=
  fun X e =>
    match e in effect X return X -> Prop with
    | GetCachedResponse _ => fun cached => cached = None
    | AnalyzeExplanationOnlySelection _ =>
        fun answer => exists analyzed,
          answer = inl analyzed /\ P (analyzed_candidateCount analyzed)
    | _ => fun _ => True
    end.

(** The result that stands in when the model output cannot be used. *)
Definition incompleteFallback (unicode_lower : jsstring -> jsstring) (payload : Payload)
  : ExplainResult :=
  buildLocalFallbackResult unicode_lower
    (normalizeSelection (payload_selectedText payload))
    (lit "EasyRead used fallback mode because the model response was incomplete.").

(** What is written to the cache is [result]; no deferred pass is started. *)
Definition savesOnly (result : ExplainResult) {X} (e : effect X) : Prop :=
  match e with
  | SaveCachedResponse _ _ response => response = result
  | RunDeferredWordsPass _ => False
  | _ => True
  end.

(** The errors of the validation. *)
Definition isValidationError (error : jsError) : Prop :=
  error = noSelectionError \/ exists length, error = selectionTooLongError length.

(** The request id of a response is the trimmed id of the payload, when the
    payload has one that is not blank. *)
Definition echoes (payload : Payload) (requestId : jsstring) : Prop :=
  forall id, payload_requestId payload = Some id -> trim id <> [] -> requestId = trim id.

(** The cache key of a request. *)
Definition requestCacheKey (unicode_lower : jsstring -> jsstring)
  (utf8_encode : jsstring -> list byte) (sha256_digest : list byte -> list byte)
  (urlOrigin : jsstring -> option jsstring) (payload : Payload) : jsstring :=
  let selectedText := normalizeSelection (payload_selectedText payload) in
  buildCacheKey utf8_encode sha256_digest
    (mkCacheKeyParts
       (getPageOrigin urlOrigin (payload_pageUrl payload) (payload_pageOrigin payload))
       selectedText
       (normalizeExplanationMode unicode_lower (payload_explanationMode payload))
       (chooseModelForText (len selectedText))
       MODEL_VERSION).

(** A call that names a cache key names [key]; an analysis is the
    explanation-only analysis of [selectedText] with [model], in [mode]. *)
Definition usesRequest (key selectedText model mode : jsstring) {X} (e : effect X) : Prop :=
  match e with
  | GetCachedResponse k => k = key
  | SaveCachedResponse k request _ =>
      k = key /\ request = mkCacheRequest selectedText mode model
  | RunDeferredWordsPass args =>
      deferred_cacheKey args = key
      /\ deferred_selectedText args = selectedText
      /\ deferred_model args = model
      /\ deferred_explanationMode args = mode
  | AnalyzeExplanationOnlySelection args =>
      analyze_selectedText args = selectedText
      /\ analyze_model args = model
      /\ analyze_explanationMode args = mode
  | AnalyzeSingleSelection _ | InflightHas _ | InflightGet _ | InflightSet _
  | InflightDelete _ | RequestWordCoverage _ _ _ _ _ => False
  | _ => True
  end.

(** *** The deferred pass *)

(** The calls of the deferred pass are made with what it was given: the
    word request with the candidates and the word limit for the selection,
    the write under its cache key, the update for its tab and request. *)
Definition deferredCall (args : DeferredArgs) {X} (e : effect X) : Prop :=
  match e with
  | RequestWordCoverage clientId model selectedText candidateHints wordLimit =>
      clientId = deferred_clientId args
      /\ model = deferred_model args
      /\ selectedText = deferred_selectedText args
      /\ candidateHints = deferred_candidates args
      /\ candidateHints <> []
      /\ wordLimit = getWordResultLimit (len (deferred_selectedText args))
  | SaveCachedResponse cacheKey request _ =>
      cacheKey = deferred_cacheKey args
      /\ request = mkCacheRequest (deferred_selectedText args)
                     (deferred_explanationMode args) (deferred_model args)
  | SendTabUpdate tabId message =>
      deferred_tabId args = Some tabId
      /\ match message with
         | UpdateResult requestId explanationMode _ =>
             requestId = deferred_requestId args
             /\ explanationMode = deferred_explanationMode args
         | UpdateError requestId _ => requestId = deferred_requestId args
         end
  | _ => False
  end.

(** The word request is rejected. *)
Definition wordRequestFails : forall X, effect X -> X -> Prop :=
  fun X e =>
    match e in effect X return X -> Prop with
    | RequestWordCoverage _ _ _ _ _ => fun answer => exists error, answer = inr error
    | _ => fun _ => True
    end.

(** The word request is answered, with an answer whose output cannot be
    read: [extractOutputText] throws. *)
Definition wordAnswerUnreadable : forall X, effect X -> X -> Prop :=
  fun X e =>
    match e in effect X return X -> Prop with
    | RequestWordCoverage _ _ _ _ _ =>
        fun answer => exists response,
          answer = inl response /\ extractOutputText response = None
    | _ => fun _ => True
    end.

(** No result leaves: nothing is written to the cache, and the update for
    the tab is the one with the error text. *)
Definition noResultOut {X} (e : effect X) : Prop :=
  match e with
  | SaveCachedResponse _ _ _ => False
  | SendTabUpdate _ (UpdateResult _ _ _) => False
  | _ => True
  end.

(** After a lookup of the cache that finds nothing, the next thing the
    program does is a call that satisfies [next]. *)
Fixpoint afterMiss {R} (next : forall X, effect X -> Prop) (p : prog R) : Prop :=
  match p with
  | Ret _ | Throw _ => True
  | Vis e k =>
      match e in effect X return (X -> prog R) -> Prop with
      | GetCachedResponse _ =>
          fun k => match k None with
                   | Vis e' _ => next _ e'
                   | _ => False
                   end
      | _ => fun k => forall x, afterMiss next (k x)
      end k
  end.

(** The explanation-only analysis of [selectedText] with [model], in
    [mode]. *)
Definition isOwnAnalysis (selectedText model mode : jsstring) {X} (e : effect X) : Prop :=
  match e with
  | AnalyzeExplanationOnlySelection args =>
      analyze_selectedText args = selectedText
      /\ analyze_model args = model
      /\ analyze_explanationMode args = mode
  | _ => False
  end.

(** The test of [extractFallbackKeywords] on a token, before the set is
    consulted. *)
Definition isKeywordToken (token : jsstring) : bool :=
  negb ((len token <? 4) || bool_decide (token ∈ FALLBACK_STOP_WORDS)).

(** ** First occurrences *)

(** The elements of [l] whose key is the key of none of the elements before
    them, in the order of [l]; [before] holds the elements that come before
    [l]. *)
Fixpoint firstOccurrencesAfter {A} (key : A -> jsstring) (before l : list A) : list A :=
  match l with
  | [] => []
  | x :: rest =>
      (if bool_decide (key x ∈ List.map key before) then [] else [x])
      ++ firstOccurrencesAfter key (before ++ [x]) rest
  end.

Definition firstOccurrences {A} (key : A -> jsstring) (l : list A) : list A :=
  firstOccurrencesAfter key [] l.

(** The first [n] elements, for a bound [n] that counts from one: a loop
    that tests its bound after it has added an element adds at least
    one. *)
Definition firstAtMost {A} (bound : Z) (l : list A) : list A :=
  take (Z.to_nat (Z.max 1 bound)) l.

(** ** Merging vocabulary entries (background.js) *)

Section WordMerge.

Variable unicode_lower : jsstring -> jsstring.
Variable unicode_upper : jsstring -> jsstring.

(** [normalizeWordKey]: lower case, then the mojibake apostrophe, then the
    apostrophes at both ends. *)
Definition normalizeWordKey (word : jsstring) : jsstring :=
  stripApostrophes (replaceMojibake (toLowerCaseWith unicode_lower word)).

(** [keyWord || keyLemma] in [mergeWordEntries] *)
Definition mergeKey (item : WordEntry) : jsstring :=
  orElse (normalizeWordKey (word item)) (normalizeWordKey (lemma item)).

(** The loop of [mergeWordEntries] over the entries of both lists. *)
Fixpoint mergeLoop (items merged : list WordEntry) (seen : StrSet.t) : list WordEntry :=
  match items with
  | [] => merged
  | item :: rest =>
      let key := mergeKey item in
      if negb (truthy key) || StrSet.has key seen then mergeLoop rest merged seen
      else mergeLoop rest (merged ++ [item]) (StrSet.add key seen)
  end.

Definition mergeWordEntries (existingEntries supplementalEntries : list WordEntry)
  : list WordEntry :=
  mergeLoop (existingEntries ++ supplementalEntries) [] StrSet.empty.

(** [shouldRunSupplementalWordPass] *)
Definition shouldRunSupplementalWordPass (currentWords : list WordEntry)
  (candidateCount selectedTextLength : Z) : bool :=
  if (candidateCount <=? 0) || (selectedTextLength <? 40) then false
  else if alen currentWords =? 0 then true
  else (candidateCount >=? 10) && (alen currentWords <=? 1).

(** *** Merging the results of the chunks *)

(** The sum and the quotient of two doubles, as the host computes them. *)
Variable double_add : jsnum -> jsnum -> jsnum.
Variable double_div : jsnum -> jsnum -> jsnum.

Record ChunkMerge : Type := mkChunkMerge {
  explanationParts : list jsstring;
  noteSet : StrSet.t;
  mergedWords : list WordEntry;
  confidenceTotal : jsnum;
  confidenceCount : nat
}.

Definition isFiniteNumber (n : jsnum) : bool :=
  match n with Finite _ => true | _ => false end.

(** One turn of the loop of [mergeChunkResults]. *)
Definition mergeChunk (st : ChunkMerge) (item : ExplainResult) : ChunkMerge :=
  {| explanationParts :=
       if hasText (simple_explanation item)
       then explanationParts st ++ [trim (simple_explanation item)]
       else explanationParts st;
     noteSet :=
       if hasText (notes item) then StrSet.add (trim (notes item)) (noteSet st)
       else noteSet st;
     mergedWords :=
       if 0 <? alen (a2_plus_words item)
       then mergeWordEntries (mergedWords st) (a2_plus_words item)
       else mergedWords st;
     confidenceTotal :=
       if isFiniteNumber (confidence item)
       then double_add (confidenceTotal st) (confidence item)
       else confidenceTotal st;
     confidenceCount :=
       if isFiniteNumber (confidence item) then S (confidenceCount st)
       else confidenceCount st |}.

Definition largeTextNote (chunkCount : nat) : jsstring :=
  lit "Large text mode: analyzed in " ++ decimal chunkCount ++ lit " parts.".

Definition noFullExplanation : jsstring :=
  lit "EasyRead could not build a full explanation from this long text.".

Definition mergeChunkResults (chunkResults : list ExplainResult) (chunkCount : nat)
  : ExplainResult :=
  let st := fold_left mergeChunk chunkResults
              (mkChunkMerge [] StrSet.empty [] (Finite 0) O) in
  {| simple_explanation :=
       orElse (join [10; 10]%N (explanationParts st)) noFullExplanation;
     a2_plus_words := keepB2PlusWords unicode_upper (mergedWords st);
     notes := join [SP] (StrSet.add (largeTextNote chunkCount) (noteSet st));
     confidence :=
       if (0 <? confidenceCount st)%nat
       then double_div (confidenceTotal st)
              (Finite (inject_Z (Z.of_nat (confidenceCount st))))
       else Finite (45 # 100) |}.

End WordMerge.

(** ** Token budgets (background.js) *)

Definition MAX_OUTPUT_TOKENS_RETRY : Z := 2000.
Definition MAX_EXPLAIN_ATTEMPTS : Z := 2.

Section Budgets.

Variable unicode_lower : jsstring -> jsstring.

(** The adjustment of a budget to the explanation mode. *)
Definition adjustToMode (mode : jsstring) (budget : Z) : Z :=
  if bool_decide (mode = lit "simple") then budget - 120
  else if bool_decide (mode = lit "detailed") then budget + 220
  else budget.

Definition getOutputTokenBudget (model : jsstring) (selectedTextLength : Z)
  (explanationMode : option jsstring) : Z :=
  let mode := normalizeExplanationMode unicode_lower explanationMode in
  let budget :=
    if bool_decide (model = MODEL_SHORT_TEXT) then
      if selectedTextLength <=? 180 then 800
      else if selectedTextLength <=? 700 then 950
      else 1150
    else if selectedTextLength <=? 700 then 1100
    else if selectedTextLength <=? 1800 then 1400
    else 1650 in
  Z.max 650 (adjustToMode mode budget).

Definition getExplanationOnlyTokenBudget (selectionLength : Z)
  (explanationMode : option jsstring) : Z :=
  let mode := normalizeExplanationMode unicode_lower explanationMode in
  let budget :=
    if selectionLength <=? 320 then 700
    else if selectionLength <=? 1200 then 900
    else 1100 in
  Z.max 600 (adjustToMode mode budget).

End Budgets.

(** ** More of lib/simplicity.js *)

Section SimplicityMore.

Variable unicode_lower : jsstring -> jsstring.

(** The texts of a response that are checked: the explanation, then the
    definition and the example of each entry, leaving out the empty ones. *)
Definition responseFields (response : ExplainResult) : list jsstring :=
  (if truthy (simple_explanation response) then [simple_explanation response] else [])
  ++ concat
       (List.map
          (fun item =>
             (if truthy (definition_simple item) then [definition_simple item] else [])
             ++ (if truthy (example_simple item) then [example_simple item] else []))
          (a2_plus_words response)).

Definition collectHardWordsFromResponse (response : ExplainResult)
  (easyWordSet : gset jsstring) : list jsstring :=
  fold_left
    (fun hardWords field => addAll (findHardWords unicode_lower field easyWordSet) hardWords)
    (responseFields response) StrSet.empty.

Record Simplicity : Type := mkSimplicity {
  isValid : bool;
  hardWords : list jsstring
}.

Definition isSimpleEnough (response : ExplainResult) (easyWordSet : gset jsstring)
  : Simplicity :=
  let hardWords := collectHardWordsFromResponse response easyWordSet in
  {| isValid := alen hardWords =? 0; hardWords := hardWords |}.

(** [candidates.has(key)] on the map of [extractA2PlusCandidates], kept as
    the list of its entries in insertion order. *)
Definition hasKey (key : jsstring) (candidates : list (jsstring * jsstring)) : bool :=
  bool_decide (key ∈ List.map fst candidates).

(** The loop of [extractA2PlusCandidates] over the tokens. *)
Fixpoint candidateLoop (easyWordSet : gset jsstring) (maxCount : Z)
  (words : list jsstring) (candidates : list (jsstring * jsstring))
  : list (jsstring * jsstring) :=
  match words with
  | [] => candidates
  | token :: rest =>
      if (len token <=? 2) || looksLikeProperNoun token
      then candidateLoop easyWordSet maxCount rest candidates
      else
        let normalized := normalizeToken unicode_lower token in
        if negb (truthy normalized) || isAllowedVariation unicode_lower normalized easyWordSet
        then candidateLoop easyWordSet maxCount rest candidates
        else if negb (hasKey normalized candidates) then
          let candidates := candidates ++ [(normalized, token)] in
          if alen candidates >=? maxCount then candidates
          else candidateLoop easyWordSet maxCount rest candidates
        else candidateLoop easyWordSet maxCount rest candidates
  end.

Definition extractA2PlusCandidates (selectedText : jsstring) (easyWordSet : gset jsstring)
  (maxCount : Z) : list jsstring :=
  List.map snd (candidateLoop easyWordSet maxCount (matchTokens selectedText) []).

(** The loop of [findMissingCandidateWords] over the entries. *)
Definition coverEntry (covered : StrSet.t) (item : WordEntry) : StrSet.t :=
  let word := normalizeToken unicode_lower (word item) in
  let lemma := normalizeToken unicode_lower (lemma item) in
  let covered := if truthy word then StrSet.add word covered else covered in
  if truthy lemma then StrSet.add lemma covered else covered.

Definition findMissingCandidateWords (candidates : list jsstring)
  (a2PlusWords : list WordEntry) : list jsstring :=
  let covered := fold_left coverEntry a2PlusWords StrSet.empty in
  List.filter
    (fun candidate =>
       let normalized := normalizeToken unicode_lower candidate in
       truthy normalized && negb (StrSet.has normalized covered))
    candidates.

(** The test of [extractA2PlusCandidates] on a token, before the map is
    consulted. *)
Definition isCandidateToken (easyWordSet : gset jsstring) (token : jsstring) : bool :=
  negb ((len token <=? 2) || looksLikeProperNoun token)
  && negb (negb (truthy (normalizeToken unicode_lower token))
           || isAllowedVariation unicode_lower (normalizeToken unicode_lower token)
                easyWordSet).

(** A token that [extractA2PlusCandidates] takes as a candidate. *)
Definition candidateToken (easyWordSet : gset jsstring) (token : jsstring) : Prop :=
  2 < len token
  /\ looksLikeProperNoun token = false
  /\ normalizeToken unicode_lower token <> []
  /\ isAllowedVariation unicode_lower (normalizeToken unicode_lower token) easyWordSet
     = false.

End SimplicityMore.

(** ** The cache and the settings (lib/storage.js, lib/constants.js) *)

Definition CACHE_TTL_MS : Z := 7 * 24 * 60 * 60 * 1000.

(** [!v] for a value that may be [undefined] ([None]) *)
Definition notValue (v : option json) : bool :=
  match v with
  | None => true
  | Some v => falsy v
  end.

(** [n < z] for a number [n] and an integer [z] *)
Definition numberLess (n : jsnum) (z : Z) : bool :=
  match n with
  | Finite q => negb (Qle_bool (inject_Z z) q)
  | NegInfinity => true
  | PosInfinity | NaN => false
  end.

(** What the extension keeps in [chrome.storage.local]: under [CACHE_KEY]
    the cache, an object from cache keys to entries, and under
    [SETTINGS_KEY] the settings, an object as well.  A slot is [None] when
    nothing is stored or what is stored is not an object; the functions
    below are the only writers of both slots and write objects. *)
Record Store : Type := mkStore {
  cacheSlot : option (gmap jsstring json);
  settingsSlot : option (gmap jsstring json)
}.

(** The calls of lib/storage.js on the host: reading and writing a slot,
    the clock, and a fresh identifier. *)
Inductive storageOp : Type -> Type :=
| GetCacheSlot : storageOp (option (gmap jsstring json))
| SetCacheSlot (map : gmap jsstring json) : storageOp unit
| GetSettingsSlot : storageOp (option (gmap jsstring json))
| SetSettingsSlot (settings : gmap jsstring json) : storageOp unit
| DateNow : storageOp Z
| RandomUUID : storageOp jsstring.

(** An asynchronous function of lib/storage.js: it returns, or makes a call
    and goes on with the answer. *)
Inductive sprog (R : Type) : Type :=
| SRet (r : R)
| SVis {X : Type} (op : storageOp X) (k : X -> sprog R).

Arguments SRet {R} r.
Arguments SVis {R X} op k.

Fixpoint sbind {R S : Type} (p : sprog R) (f : R -> sprog S) : sprog S :=
  match p with
  | SRet r => f r
  | SVis op k => SVis op (fun x => sbind (k x) f)
  end.

Notation "x <~ p ;; q" := (sbind p (fun x => q))
  (at level 100, p at next level, right associativity).

Definition call {X : Type} (op : storageOp X) : sprog X := SVis op SRet.

Section Storage.

(** [ToNumber] of the host, for the values that are not numbers. *)
Variable ToNumber : json -> jsnum.

(** [v < now], where [now] is a number *)
Definition lessThanNumber (v : json) (now : Z) : bool :=
  numberLess
    (match v with
     | JNum n => n
     | JBool b => Finite (if b then 1 else 0)
     | JNull => Finite 0
     | _ => ToNumber v
     end) now.

Definition getCacheMap : sprog (gmap jsstring json) :=
  stored <~ call GetCacheSlot ;;
  SRet (default ∅ stored).

Definition clearCache : sprog unit := call (SetCacheSlot ∅).

(** The test of [pruneExpiredCacheEntries] on an entry. *)
Definition isStale (entry : json) (now : Z) : bool :=
  falsy entry || negb (isObject entry) || notValue (prop "expiresAt" entry)
  || match prop "expiresAt" entry with
     | Some expiresAt => lessThanNumber expiresAt now
     | None => false
     end.

(** One turn of the loop of [pruneExpiredCacheEntries], on the entry
    [(key, entry)] of the map as it was read. *)
Definition pruneEntry (now : Z) (key : jsstring) (entry : json)
  (st : gmap jsstring json * bool) : gmap jsstring json * bool :=
  if isStale entry now then (delete key (fst st), true) else st.

Definition pruneExpiredCacheEntries : sprog unit :=
  map <~ getCacheMap ;;
  now <~ call DateNow ;;
  let '(pruned, changed) := map_fold (pruneEntry now) (map, false) map in
  if changed then call (SetCacheSlot pruned) else SRet tt.

(** [None] is [null] (or an entry without a response). *)
Definition getCachedResponse (cacheKey : jsstring) : sprog (option json) :=
  map <~ getCacheMap ;;
  match map !! cacheKey with
  | None => SRet None
  | Some entry =>
      if falsy entry then SRet None
      else
        match prop "expiresAt" entry with
        | None => SRet None
        | Some expiresAt =>
            if falsy expiresAt then SRet None
            else
              now <~ call DateNow ;;
              if lessThanNumber expiresAt now then SRet None
              else SRet (prop "response" entry)
        end
  end.

Definition cacheEntry (now : Z) (requestPayload responsePayload : json) : json :=
  JObj [ (lit "createdAt", JNum (Finite (inject_Z now)));
         (lit "expiresAt", JNum (Finite (inject_Z (now + CACHE_TTL_MS))));
         (lit "request", requestPayload);
         (lit "response", responsePayload) ].

(** [map[cacheKey] = entry]: the assignment adds or replaces a property,
    except for the key [__proto__], where it sets the prototype and leaves
    the properties as they are. *)
Definition assignProperty (key : jsstring) (value : json) (map : gmap jsstring json)
  : gmap jsstring json :=
  if bool_decide (key = lit "__proto__") then map else <[key := value]> map.

Definition saveCachedResponse (cacheKey : jsstring) (requestPayload responsePayload : json)
  : sprog unit :=
  map <~ getCacheMap ;;
  now <~ call DateNow ;;
  call (SetCacheSlot
          (assignProperty cacheKey (cacheEntry now requestPayload responsePayload) map)).

(** *** The settings *)

Definition DEFAULT_SETTINGS : gmap jsstring json :=
  {[ lit "anonymousClientId" := JStr [] ]}.

(** [{...a, ...b}]: the properties of [b], then those of [a] that [b] does
    not have. *)
Definition spread (a b : gmap jsstring json) : gmap jsstring json := b ∪ a.

Definition getSettings : sprog (gmap jsstring json) :=
  stored <~ call GetSettingsSlot ;;
  SRet (spread DEFAULT_SETTINGS (default ∅ stored)).

Definition saveSettings (settings : gmap jsstring json) : sprog (gmap jsstring json) :=
  let next := spread DEFAULT_SETTINGS settings in
  _ <~ call (SetSettingsSlot next) ;;
  SRet next.

(** [ensureSettings] of background.js *)
Definition ensureSettings : sprog unit :=
  settings <~ getSettings ;;
  _ <~ saveSettings settings ;;
  SRet tt.

(** [getOrCreateAnonymousClientId] of background.js, where
    [crypto.randomUUID] is there. *)
Definition getOrCreateAnonymousClientId (settings : gmap jsstring json) : sprog json :=
  match settings !! lit "anonymousClientId" with
  | Some id =>
      if falsy id
      then
        nextId <~ call RandomUUID ;;
        _ <~ saveSettings (<[lit "anonymousClientId" := JStr nextId]> settings) ;;
        SRet (JStr nextId)
      else SRet id
  | None =>
      nextId <~ call RandomUUID ;;
      _ <~ saveSettings (<[lit "anonymousClientId" := JStr nextId]> settings) ;;
      SRet (JStr nextId)
  end.

End Storage.

(** *** Running the functions on a store *)

(** One call on a store, at time [now], with [uuid] as the next fresh
    identifier. *)
Definition performOp {X} (now : Z) (uuid : jsstring) (op : storageOp X) (s : Store)
  : X * Store :=
  match op in storageOp X return X * Store with
  | GetCacheSlot => (cacheSlot s, s)
  | SetCacheSlot map => (tt, mkStore (Some map) (settingsSlot s))
  | GetSettingsSlot => (settingsSlot s, s)
  | SetSettingsSlot settings => (tt, mkStore (cacheSlot s) (Some settings))
  | DateNow => (now, s)
  | RandomUUID => (uuid, s)
  end.

(** A function runs to its end with nothing else in between. *)
Fixpoint exec {R} (now : Z) (uuid : jsstring) (p : sprog R) (s : Store) : R * Store :=
  match p with
  | SRet r => (r, s)
  | SVis op k => let (x, s') := performOp now uuid op s in exec now uuid (k x) s'
  end.

(** A function goes on to its next call. *)
Definition advanceStorage {R} (now : Z) (uuid : jsstring) (p : sprog R) (s : Store)
  : sprog R * Store :=
  match p with
  | SRet r => (p, s)
  | SVis op k => let (x, s') := performOp now uuid op s in (k x, s')
  end.

(** The cache of a store as [getCacheMap] reads it. *)
Definition cacheOf (s : Store) : gmap jsstring json := default ∅ (cacheSlot s).

(** An entry that a lookup at time [now] answers with: an object or
    another truthy value with a truthy [expiresAt] that is not before
    [now]. *)
Definition isLive (ToNumber : json -> jsnum) (entry : json) (now : Z) : bool :=
  negb (falsy entry)
  && match prop "expiresAt" entry with
     | Some expiresAt => negb (falsy expiresAt) && negb (lessThanNumber ToNumber expiresAt now)
     | None => false
     end.

(** What a lookup at time [now] answers, given what the cache has under
    the key: the response of a live entry. *)
Definition lookupAnswer (ToNumber : json -> jsnum) (entry : option json) (now : Z)
  : option json :=
  match entry with
  | Some e => if isLive ToNumber e now then prop "response" e else None
  | None => None
  end.

(** A host for the examples, whose [ToNumber] gives NaN on every value that
    is not a number. *)
Definition nanToNumber (v : json) : jsnum := NaN.

(** ** Requests to the proxy (background.js) *)

Definition PROXY_BASE_URL : jsstring := lit "https://easyread-extension.onrender.com".
Definition PROXY_EXPLAIN_PATH : jsstring := lit "/api/explain".
Definition MAX_OUTPUT_TOKENS : Z := 1200.

Definition buildProxyUrl (path : jsstring) : jsstring :=
  PROXY_BASE_URL ++ (if startsWith (lit "/") path then path else lit "/" ++ path).

(** The payload of a request to the Responses API: the model, the budget,
    the two prompts, and the [text.format] with the name of the schema and
    the schema, when there is one. *)
Record ResponsesPayload : Type := mkResponsesPayload {
  payload_model : jsstring;
  payload_max_output_tokens : Z;
  payload_systemPrompt : jsstring;
  payload_userPrompt : jsstring;
  payload_format : option (jsstring * json)
}.

(** What [fetch] is called with. *)
Record ProxyRequest : Type := mkProxyRequest {
  proxy_url : jsstring;
  proxy_clientId : jsstring;
  proxy_payload : ResponsesPayload
}.

(** What [fetch] settles to: a rejection, or a response with its status
    and what [response.text()] and [response.json()] settle to. *)
Inductive fetchResult : Type :=
| FetchRejected
| Responded (status : nat) (bodyText : jsstring + jsError) (bodyJson : json + jsError).

Definition networkError : jsError :=
  EasyReadError (lit "Network error while contacting EasyRead server.")
    (lit "NETWORK_RETRYABLE") true.

Definition temporaryError (status : nat) : jsError :=
  EasyReadError (lit "EasyRead server temporary error (" ++ decimal status ++ lit ").")
    (lit "PROXY_RETRYABLE") true.

Definition proxyError (status : nat) (bodyText : jsstring) : jsError :=
  EasyReadError
    (lit "EasyRead server error (" ++ decimal status ++ lit "). " ++ take 180 bodyText)
    (lit "PROXY_ERROR") false.

(** [response.ok] *)
Definition statusOk (status : nat) : bool := (200 <=? status)%nat && (status <=? 299)%nat.

(** [/text\.format|json_schema|schema|strict/i.test(message)]: the flag
    [i] lets the ASCII letters match in both cases. *)
Definition mentionsSchema (message : jsstring) : bool :=
  let lower := List.map lower_cu message in
  includes (lit "text.format") lower || includes (lit "json_schema") lower
  || includes (lit "schema") lower || includes (lit "strict") lower.

(** The arguments of [requestResponsesApi], with the defaults filled in by
    the caller. *)
Record ApiArgs : Type := mkApiArgs {
  api_clientId : jsstring;
  api_model : jsstring;
  api_systemPrompt : jsstring;
  api_userPrompt : jsstring;
  api_schema : json;
  api_schemaName : jsstring;
  api_useSchema : bool;
  api_maxOutputTokens : Z
}.

Section Proxy.

Context {W : Type}.
Variable fetch : ProxyRequest -> W -> fetchResult * W.
Variable randomJitter : W -> Z * W.
Variable sleep : Z -> W -> W.

Definition postProxyJson (clientId path : jsstring) (payload : ResponsesPayload) (w : W)
  : (json + jsError) * W :=
  let (response, w1) := fetch (mkProxyRequest (buildProxyUrl path) clientId payload) w in
  (match response with
   | FetchRejected => inr networkError
   | Responded status bodyText bodyJson =>
       if (status =? 429)%nat || (500 <=? status)%nat then inr (temporaryError status)
       else if negb (statusOk status) then
         match bodyText with
         | inl text => inr (proxyError status text)
         | inr error => inr error
         end
       else bodyJson
   end, w1).

(** [postResponsesPayload({ clientId, payload })] *)
Definition postResponses (clientId : jsstring) (payload : ResponsesPayload) (w : W)
  : (json + jsError) * W * list (backoffEvent json) :=
  postResponsesPayload (postProxyJson clientId PROXY_EXPLAIN_PATH payload)
    randomJitter sleep w.

(** The test of the [catch] of [requestResponsesApi]. *)
Definition schemaIssue (useSchema : bool) (error : jsError) : bool :=
  useSchema
  && match error with
     | EasyReadError message code _ =>
         bool_decide (code = lit "PROXY_ERROR") && mentionsSchema message
     | OtherError _ => false
     end.

Definition withoutFormat (payload : ResponsesPayload) : ResponsesPayload :=
  mkResponsesPayload (payload_model payload) (payload_max_output_tokens payload)
    (payload_systemPrompt payload) (payload_userPrompt payload) None.

(** [requestResponsesApi]; the events of its one or two rounds follow each
    other in the trace. *)
Definition requestResponsesApi (args : ApiArgs) (w : W)
  : (json + jsError) * W * list (backoffEvent json) :=
  let payload :=
    mkResponsesPayload (api_model args) (api_maxOutputTokens args)
      (api_systemPrompt args) (api_userPrompt args)
      (if api_useSchema args then Some (api_schemaName args, api_schema args) else None) in
  let '(outcome, w1, trace1) := postResponses (api_clientId args) payload w in
  match outcome with
  | inl response => (inl response, w1, trace1)
  | inr error =>
      if schemaIssue (api_useSchema args) error then
        let '(outcome2, w2, trace2) :=
          postResponses (api_clientId args) (withoutFormat payload) w1 in
        (outcome2, w2, trace1 ++ trace2)
      else (inr error, w1, trace1)
  end.

End Proxy.

(** Worlds for the examples: the world is the list of the requests made so
    far, the latest first.  One proxy answers every request with the same
    status and body; the other refuses a payload with a format with status
    400 and a body about the schema, and answers a payload without one. *)
Definition answerWith (status : nat) (body : jsstring) (request : ProxyRequest)
  (w : list ProxyRequest) : fetchResult * list ProxyRequest :=
  (Responded status (inl body) (inl (JObj [(lit "output_text", JStr body)])), request :: w).

Definition refuseFormat (request : ProxyRequest) (w : list ProxyRequest)
  : fetchResult * list ProxyRequest :=
  (match payload_format (proxy_payload request) with
   | Some _ => Responded 400 (inl (lit "Invalid schema for text.format")) (inl JNull)
   | None => Responded 200 (inl []) (inl (JObj [(lit "output_text", JStr (lit "{}"))]))
   end, request :: w).

Definition noJitterOn {W} (w : W) : Z * W := (0, w).
Definition noSleepOn {W} (ms : Z) (w : W) : W := w.

(** A rejection of [fetch], or a response with status 429 or 500 and
    above. *)
Definition isTemporary (r : fetchResult) : bool :=
  match r with
  | FetchRejected => true
  | Responded status _ _ => (status =? 429)%nat || (500 <=? status)%nat
  end.

(** The payload that [requestResponsesApi] sends first. *)
Definition firstPayload (args : ApiArgs) : ResponsesPayload :=
  mkResponsesPayload (api_model args) (api_maxOutputTokens args)
    (api_systemPrompt args) (api_userPrompt args)
    (if api_useSchema args then Some (api_schemaName args, api_schema args) else None).

Definition explainRequest (clientId : jsstring) (payload : ResponsesPayload) : ProxyRequest :=
  mkProxyRequest (buildProxyUrl PROXY_EXPLAIN_PATH) clientId payload.

(** ** Calls of the model (background.js) *)

Definition MAX_A2_CANDIDATES : Z := 48.

Definition jstr (s : String.string) : json := JStr (lit s).

Definition jobj (fields : list (String.string * json)) : json :=
  JObj (List.map (fun p => (lit (fst p), snd p)) fields).

Definition jint (z : Z) : json := JNum (Finite (inject_Z z)).

(** [EASYREAD_JSON_SCHEMA] of lib/constants.js *)
Definition EASYREAD_JSON_SCHEMA : json :=
  jobj
    [ ("type", jstr "object");
      ("additionalProperties", JBool false);
      ("required", JArr [jstr "simple_explanation"; jstr "a2_plus_words"; jstr "confidence"]);
      ("properties",
       jobj
         [ ("simple_explanation", jobj [("type", jstr "string")]);
           ("a2_plus_words",
            jobj
              [ ("type", jstr "array");
                ("items",
                 jobj
                   [ ("type", jstr "object");
                     ("additionalProperties", JBool false);
                     ("required",
                      JArr [ jstr "word"; jstr "lemma"; jstr "pos"; jstr "cefr";
                             jstr "definition_simple"; jstr "example_simple" ]);
                     ("properties",
                      jobj
                        [ ("word", jobj [("type", jstr "string"); ("minLength", jint 1)]);
                          ("lemma", jobj [("type", jstr "string"); ("minLength", jint 1)]);
                          ("pos",
                           jobj [ ("type", jstr "string");
                                  ("enum", JArr (List.map JStr POS_VALUES)) ]);
                          ("cefr",
                           jobj [ ("type", jstr "string");
                                  ("enum", JArr (List.map JStr CEFR_VALUES)) ]);
                          ("definition_simple",
                           jobj [("type", jstr "string"); ("minLength", jint 1)]);
                          ("example_simple",
                           jobj [("type", jstr "string"); ("minLength", jint 1)]) ]) ]) ]);
           ("notes", jobj [("type", jstr "string")]);
           ("confidence",
            jobj [("type", jstr "number"); ("minimum", jint 0); ("maximum", jint 1)]) ]) ]%string.

Definition EXPLANATION_ONLY_SCHEMA : json :=
  jobj
    [ ("type", jstr "object");
      ("additionalProperties", JBool false);
      ("required", JArr [jstr "simple_explanation"; jstr "notes"; jstr "confidence"]);
      ("properties",
       jobj
         [ ("simple_explanation", jobj [("type", jstr "string")]);
           ("notes", jobj [("type", jstr "string")]);
           ("confidence",
            jobj [("type", jstr "number"); ("minimum", jint 0); ("maximum", jint 1)]) ]) ]%string.

Definition CORE_SYSTEM_PROMPT : jsstring :=
  lit "
You are EasyRead, a reading helper for English learners.
Always output valid JSON only.
Write clear and natural English that is easy to understand.
Give enough detail so the learner can understand difficult text without opening another tab.
Stay faithful to the selected text and do not invent details.
Identify words above B1 (B2/C1/C2) in the selected text and return short clear meanings and examples.
If the input is unclear or too long, explain that in notes and lower confidence.
".

Definition getExplanationStyleGuidance (explanationMode : jsstring) : jsstring :=
  if bool_decide (explanationMode = lit "simple")
  then lit "Use very easy words and short direct sentences."
  else if bool_decide (explanationMode = lit "detailed")
  then lit "Use clear learner-friendly words and include key details, links, and reasons from the text."
  else lit "Use easy but natural words and include enough detail for a learner to follow each main idea.".

(** [v === "value"] *)
Definition isString (value : String.string) (v : option json) : bool :=
  match v with
  | Some (JStr s) => bool_decide (s = lit value)
  | _ => false
  end.

(** [response?.status === "incomplete" &&
    response?.incomplete_details?.reason === "max_output_tokens"] *)
Definition isMaxOutputTokensIncomplete (response : json) : bool :=
  isString "incomplete" (prop "status" response)
  && match prop "incomplete_details" response with
     | Some details => isString "max_output_tokens" (prop "reason" details)
     | None => false
     end.

(** An asynchronous function that calls the model: it returns, throws, or
    awaits [requestResponsesApi] and goes on with what the call settles
    to. *)
Inductive mprog (R : Type) : Type :=
| MRet (r : R)
| MThrow (error : jsError)
| MRequest (args : ApiArgs) (k : json + jsError -> mprog R).

Arguments MRet {R} r.
Arguments MThrow {R} error.
Arguments MRequest {R} args k.

Fixpoint mbind {R S : Type} (p : mprog R) (f : R -> mprog S) : mprog S :=
  match p with
  | MRet r => f r
  | MThrow error => MThrow error
  | MRequest args k => MRequest args (fun answer => mbind (k answer) f)
  end.

Notation "x <- p ;;; q" := (mbind p (fun x => q))
  (at level 100, p at next level, right associativity).

(** [await requestResponsesApi(args)] *)
Definition request (args : ApiArgs) : mprog json :=
  MRequest args (fun answer =>
    match answer with inl response => MRet response | inr error => MThrow error end).

(** [try { p } catch (error) { handler }] *)
Fixpoint mcatch {R : Type} (p : mprog R) (handler : jsError -> mprog R) : mprog R :=
  match p with
  | MRet r => MRet r
  | MThrow error => handler error
  | MRequest args k => MRequest args (fun answer => mcatch (k answer) handler)
  end.

Section ModelCalls.

Variable unicode_lower : jsstring -> jsstring.
Variable unicode_upper : jsstring -> jsstring.
Variable JSON_parse : jsstring -> option json.

(** What the host throws: the SyntaxError of [JSON.parse] and the TypeError
    for a value that is not iterable. *)
Variable syntaxError : jsError.
Variable notIterable : jsError.

(** The lexicon of data/a1a2Words.js *)
Variable A1_A2_WORD_SET : gset jsstring.

Definition thrownBy (e : schemaError) : jsError :=
  match e with
  | SyntaxError => syntaxError
  | NoJsonObject => OtherError (lit "No JSON object found in model output.")
  | NotAnObject => OtherError (lit "Parsed result is not an object.")
  end.

(** [extractOutputText(response)] in an asynchronous function *)
Definition outputText (response : json) : mprog jsstring :=
  match extractOutputText response with
  | Some text => MRet text
  | None => MThrow notIterable
  end.

(** [parseAndNormalizeResponse(rawText)] in an asynchronous function *)
Definition parsed (rawText : jsstring) : mprog ExplainResult :=
  match parseAndNormalizeResponse unicode_lower unicode_upper JSON_parse rawText with
  | inl result => MRet result
  | inr e => MThrow (thrownBy e)
  end.

Definition getExplanationLengthGuidance (selectionLength : Z) (explanationMode : jsstring)
  : jsstring :=
  let mode := normalizeExplanationMode unicode_lower (Some explanationMode) in
  if bool_decide (mode = lit "simple") then
    if selectionLength <=? 120 then lit "Write 2 to 3 short sentences."
    else if selectionLength <=? 320 then lit "Write 3 to 4 short sentences."
    else if selectionLength <=? 700 then lit "Write 4 to 5 short sentences."
    else lit "Write 5 to 6 short sentences."
  else if bool_decide (mode = lit "detailed") then
    if selectionLength <=? 120 then lit "Write 3 to 4 sentences with key detail."
    else if selectionLength <=? 320 then lit "Write 5 to 7 sentences."
    else if selectionLength <=? 700 then lit "Write 7 to 9 sentences."
    else lit "Write 8 to 10 sentences."
  else if selectionLength <=? 120 then lit "Write 3 to 4 short sentences."
  else if selectionLength <=? 320 then lit "Write 4 to 6 sentences."
  else if selectionLength <=? 700 then lit "Write 6 to 8 sentences."
  else lit "Write 7 to 9 sentences.".

Definition buildExplanationOnlyPrompt (selectedText explanationMode : jsstring) : jsstring :=
  let mode := normalizeExplanationMode unicode_lower (Some explanationMode) in
  let explanationGuidance := getExplanationLengthGuidance (len selectedText) mode in
  let styleGuidance := getExplanationStyleGuidance mode in
  lit "
Return JSON only that follows the schema.
Write a useful explanation for learners.
Requested explanation mode: "
  ++ mode
  ++ lit ".
"
  ++ styleGuidance
  ++ lit "
"
  ++ explanationGuidance
  ++ lit "

Selected text:
"
  ++ [QUOTE]
  ++ [QUOTE]
  ++ [QUOTE]
  ++ selectedText
  ++ [QUOTE]
  ++ [QUOTE]
  ++ [QUOTE]
  ++ lit "

Rules:
1) Put the full explanation in simple_explanation.
2) Keep the explanation strictly grounded in the selected text; do not add outside facts.
3) Follow the same idea order as the selected text.
4) Do not include word-list entries in this step.
5) Keep notes short, only when needed.
6) Do not copy full sentences from the selected text. Paraphrase in easier words.
".

Definition repairSystemPrompt : jsstring :=
  lit "
You repair output into valid JSON for EasyRead.
Return valid JSON only and match the required schema exactly.
If source text is incomplete, infer best-effort missing fields and lower confidence.
".

Definition repairUserPrompt (source : jsstring) : jsstring :=
  lit "
Convert the following source into valid EasyRead JSON only.

Source:
"
  ++ [QUOTE]
  ++ [QUOTE]
  ++ [QUOTE]
  ++ source
  ++ [QUOTE]
  ++ [QUOTE]
  ++ [QUOTE]
  ++ lit "
".

(** [tryRepairResponseJson]; [None] is [null]. *)
Definition tryRepairResponseJson (clientId originalModel rawText : jsstring)
  : mprog (option ExplainResult) :=
  let source := trim rawText in
  if negb (truthy source) then MRet None
  else
    mcatch
      (repairResponse <- request
         {| api_clientId := clientId;
            api_model := if bool_decide (originalModel = MODEL_SHORT_TEXT)
                         then MODEL_LONG_TEXT else originalModel;
            api_systemPrompt := repairSystemPrompt;
            api_userPrompt := repairUserPrompt source;
            api_schema := EASYREAD_JSON_SCHEMA;
            api_schemaName := lit "easyread_output";
            api_useSchema := true;
            api_maxOutputTokens := 1100 |} ;;;
       repairedText <- outputText repairResponse ;;;
       if negb (truthy repairedText) then MRet None
       else
         result <- parsed repairedText ;;;
         MRet (Some result))
      (fun _error => MRet None).

Definition noteCutOff : jsstring :=
  lit "EasyRead used fallback mode because the model response was cut off.".
Definition noteFormatting : jsstring :=
  lit "EasyRead used fallback mode because model JSON formatting failed.".

(** [analyzeExplanationOnlySelection] *)
Definition analyzeExplanationOnlySelection
  (selectedText clientId model explanationMode : jsstring) : mprog Analyzed :=
  let candidates :=
    extractA2PlusCandidates unicode_lower selectedText A1_A2_WORD_SET MAX_A2_CANDIDATES in
  let userPrompt := buildExplanationOnlyPrompt selectedText explanationMode in
  let tokenBudget :=
    getExplanationOnlyTokenBudget unicode_lower (len selectedText) (Some explanationMode) in
  let answer (result : ExplainResult) : mprog Analyzed :=
    MRet (mkAnalyzed result (alen candidates) candidates) in
  response <- request
    {| api_clientId := clientId;
       api_model := model;
       api_systemPrompt := CORE_SYSTEM_PROMPT;
       api_userPrompt := userPrompt;
       api_schema := EXPLANATION_ONLY_SCHEMA;
       api_schemaName := lit "easyread_explanation_only";
       api_useSchema := true;
       api_maxOutputTokens := tokenBudget |} ;;;
  rawText <- outputText response ;;;
  rawText <-
    (if negb (truthy rawText) then
       let fallbackBudget :=
         if isMaxOutputTokensIncomplete response
         then Z.max tokenBudget MAX_OUTPUT_TOKENS_RETRY
         else tokenBudget in
       response <- request
         {| api_clientId := clientId;
            api_model := model;
            api_systemPrompt := CORE_SYSTEM_PROMPT;
            api_userPrompt := userPrompt;
            api_schema := EASYREAD_JSON_SCHEMA;
            api_schemaName := lit "easyread_output";
            api_useSchema := false;
            api_maxOutputTokens := fallbackBudget |} ;;;
       outputText response
     else MRet rawText) ;;;
  if negb (truthy rawText)
  then answer (buildLocalFallbackResult unicode_lower selectedText noteCutOff)
  else
    result <-
      mcatch
        (result <- parsed rawText ;;; MRet (Some result))
        (fun _error => tryRepairResponseJson clientId model rawText) ;;;
    match result with
    | None => answer (buildLocalFallbackResult unicode_lower selectedText noteFormatting)
    | Some result =>
        answer
          (enforceEasyLanguage unicode_lower
             {| simple_explanation := simple_explanation result;
                a2_plus_words := [];
                notes := notes result;
                confidence := confidence result |}
             selectedText)
    end.

(** *** callModelForEasyRead *)

Definition hintNoText : jsstring :=
  lit "Previous answer returned no text. Return complete JSON with clear explanation now.".
Definition hintEmpty : jsstring :=
  lit "simple_explanation was empty. Return non-empty simple_explanation with at least 2 clear sentences in easy words.".
Definition hintNoCopy : jsstring :=
  lit "Do not copy the selected text. Rewrite the meaning in easier words and different sentence form.".
Definition hintInvalidJson : jsstring :=
  lit "Your previous answer was not valid JSON. Return JSON only, no markdown, no extra text.".

Definition noteStopped : jsstring :=
  lit "EasyRead stopped after multiple retries to keep response fast.".
Definition noteRepeated : jsstring :=
  lit "EasyRead used fallback mode because the model repeated the original text.".
Definition noteEmptyExplanation : jsstring :=
  lit "EasyRead used fallback mode because the model returned empty explanation text.".

Definition correctionHintIncludesNoCopy (correctionHint : jsstring) : bool :=
  includes (lit "do not copy") (toLowerCaseWith unicode_lower correctionHint).

Definition correctionHintIncludesMissingExplanation (correctionHint : jsstring) : bool :=
  let lower := toLowerCaseWith unicode_lower correctionHint in
  includes (lit "simple_explanation was empty") lower
  || includes (lit "non-empty simple_explanation") lower.

Definition shouldRetryForMissingExplanation (result : ExplainResult)
  (correctionHint : jsstring) : bool :=
  negb (hasText (simple_explanation result))
  && negb (correctionHintIncludesMissingExplanation correctionHint).

(** What follows a parsed answer in the two [try] blocks of the full
    attempt: another attempt for a missing explanation or, once, for a
    copy of the selection; the fallback for a second copy; the answer
    otherwise. *)
Definition checkParsed (retry : jsstring -> mprog ExplainResult)
  (selectedTextForFallback correctionHint : jsstring) (result : ExplainResult)
  : mprog ExplainResult :=
  if shouldRetryForMissingExplanation result correctionHint then retry hintEmpty
  else if isExplanationTooCloseToSource unicode_lower (simple_explanation result)
            selectedTextForFallback
  then
    if negb (correctionHintIncludesNoCopy correctionHint) then retry hintNoCopy
    else MRet (buildLocalFallbackResult unicode_lower selectedTextForFallback noteRepeated)
  else MRet result.

(** The recursion of [callModelForEasyRead] on [attemptCount], with
    [remaining = MAX_EXPLAIN_ATTEMPTS - attemptCount + 1] attempts left. *)
Fixpoint easyReadAttempts (remaining : nat) (clientId model : jsstring)
  (selectedTextLength : Z)
  (selectedTextForFallback userPrompt explanationMode correctionHint : jsstring)
  (singleAttempt : bool) : mprog ExplainResult :=
  match remaining with
  | O => MRet (buildLocalFallbackResult unicode_lower selectedTextForFallback noteStopped)
  | S remaining' =>
      let retry (hint : jsstring) : mprog ExplainResult :=
        easyReadAttempts remaining' clientId model selectedTextLength
          selectedTextForFallback userPrompt explanationMode hint false in
      let fallback (note : jsstring) : mprog ExplainResult :=
        MRet (buildLocalFallbackResult unicode_lower selectedTextForFallback note) in
      let finalPrompt := trim (userPrompt ++ [10%N] ++ correctionHint) in
      let baseTokenBudget :=
        getOutputTokenBudget unicode_lower model selectedTextLength (Some explanationMode) in
      let retryTokenBudget := Z.max baseTokenBudget MAX_OUTPUT_TOKENS_RETRY in
      let ask (model : jsstring) (useSchema : bool) (maxOutputTokens : Z) : mprog json :=
        request
          {| api_clientId := clientId;
             api_model := model;
             api_systemPrompt := CORE_SYSTEM_PROMPT;
             api_userPrompt := finalPrompt;
             api_schema := EASYREAD_JSON_SCHEMA;
             api_schemaName := lit "easyread_output";
             api_useSchema := useSchema;
             api_maxOutputTokens := maxOutputTokens |} in
      response <- ask model true baseTokenBudget ;;;
      if singleAttempt then
        singleRawText <- outputText response ;;;
        if negb (truthy singleRawText) then retry hintNoText
        else
          match parseAndNormalizeResponse unicode_lower unicode_upper JSON_parse
                  singleRawText with
          | inl result =>
              if shouldRetryForMissingExplanation result correctionHint
              then retry hintEmpty
              else if isExplanationTooCloseToSource unicode_lower
                        (simple_explanation result) selectedTextForFallback
              then retry hintNoCopy
              else MRet result
          | inr _ => retry hintInvalidJson
          end
      else
        rawText <- outputText response ;;;
        step <-
          (if negb (truthy rawText) then
             let fallbackTokenBudget :=
               if isMaxOutputTokensIncomplete response then retryTokenBudget
               else baseTokenBudget in
             response <- ask model false fallbackTokenBudget ;;;
             rawText <- outputText response ;;;
             MRet (response, rawText)
           else MRet (response, rawText)) ;;;
        step <-
          (if negb (truthy (snd step)) && bool_decide (model = MODEL_SHORT_TEXT) then
             response <- ask MODEL_LONG_TEXT false retryTokenBudget ;;;
             rawText <- outputText response ;;;
             MRet (response, rawText)
           else MRet step) ;;;
        let response := fst step in
        let rawText := snd step in
        if negb (truthy rawText) then fallback noteCutOff
        else
          match parseAndNormalizeResponse unicode_lower unicode_upper JSON_parse rawText with
          | inl result => checkParsed retry selectedTextForFallback correctionHint result
          | inr _ =>
              repaired <- tryRepairResponseJson clientId model rawText ;;;
              match repaired with
              | Some repaired =>
                  if negb (hasText (simple_explanation repaired))
                  then fallback noteEmptyExplanation
                  else if isExplanationTooCloseToSource unicode_lower
                            (simple_explanation repaired) selectedTextForFallback
                  then fallback noteRepeated
                  else MRet repaired
              | None =>
                  let giveUp : mprog ExplainResult :=
                    if truthy correctionHint then fallback noteFormatting
                    else retry hintInvalidJson in
                  if isMaxOutputTokensIncomplete response then
                    expandedResponse <- ask model false retryTokenBudget ;;;
                    expandedRawText <- outputText expandedResponse ;;;
                    if truthy expandedRawText then
                      match parseAndNormalizeResponse unicode_lower unicode_upper
                              JSON_parse expandedRawText with
                      | inl expandedParsed =>
                          checkParsed retry selectedTextForFallback correctionHint
                            expandedParsed
                      | inr _ =>
                          expandedRepaired <-
                            tryRepairResponseJson clientId model expandedRawText ;;;
                          match expandedRepaired with
                          | Some expandedRepaired =>
                              if negb (hasText (simple_explanation expandedRepaired))
                              then fallback noteEmptyExplanation
                              else MRet expandedRepaired
                          | None => giveUp
                          end
                      end
                    else giveUp
                  else giveUp
              end
          end
  end.

Definition callModelForEasyRead (clientId model : jsstring) (selectedTextLength : Z)
  (selectedTextForFallback userPrompt explanationMode correctionHint : jsstring)
  (singleAttempt : bool) (attemptCount : Z) : mprog ExplainResult :=
  easyReadAttempts (Z.to_nat (MAX_EXPLAIN_ATTEMPTS - attemptCount + 1))
    clientId model selectedTextLength selectedTextForFallback userPrompt
    explanationMode correctionHint singleAttempt.

End ModelCalls.

(** *** What a call of the model does on every path *)

(** At most [n] requests on every path. *)
Fixpoint requestsAtMost {R} (n : nat) (p : mprog R) {struct p} : Prop :=
  match p with
  | MRet _ | MThrow _ => True
  | MRequest _ k =>
      match n with
      | O => False
      | S m => forall answer, requestsAtMost m (k answer)
      end
  end.

(** Each request satisfies [sent], a returned value [returned] and a thrown
    error [thrown], on every path whose answers satisfy [assume]. *)
Fixpoint onModelPaths {R} (assume : ApiArgs -> json + jsError -> Prop)
  (sent : ApiArgs -> Prop) (returned : R -> Prop) (thrown : jsError -> Prop)
  (p : mprog R) : Prop :=
  match p with
  | MRet r => returned r
  | MThrow error => thrown error
  | MRequest args k =>
      sent args /\ forall answer, assume args answer -> onModelPaths assume sent returned thrown (k answer)
  end.

(** A rejected request is rejected with an error that satisfies [P]. *)
Definition rejectedWith (P : jsError -> Prop) (args : ApiArgs) (answer : json + jsError)
  : Prop :=
  forall error, answer = inr error -> P error.

(** * Properties *)

(** ** White space, words and normalization *)

Lemma runs_not_nil s : runs s <> [].
Proof.
  destruct s as [|c r]; simpl; [discriminate|].
  destruct (is_space c); [discriminate|].
  destruct (runs r); discriminate.
Qed.

Lemma runs_no_space s : Forall (Forall (fun c => is_space c = false)) (runs s).
Proof.
  induction s as [|c r IH]; simpl.
  - repeat constructor.
  - destruct (is_space c) eqn:Hc.
    + constructor; [constructor | exact IH].
    + destruct (runs r) as [|w ws].
      * repeat constructor. exact Hc.
      * inversion IH; subst. constructor; [constructor; assumption | assumption].
Qed.

Lemma truthy_true s : truthy s = true <-> s <> [].
Proof. destruct s; simpl; split; congruence. Qed.

Lemma truthy_false s : truthy s = false <-> s = [].
Proof. destruct s; simpl; split; congruence. Qed.

Lemma words_good s : Forall goodWord (words s).
Proof.
  unfold words. pose proof (runs_no_space s) as H.
  induction H as [|w ws Hw _ IH]; simpl; [constructor|].
  destruct (truthy w) eqn:Ht; [|exact IH].
  constructor; [|exact IH]. split; [apply truthy_true, Ht | exact Hw].
Qed.

Lemma joinWords_cons2 w v ws :
  joinWords (w :: v :: ws) = w ++ [SP] ++ joinWords (v :: ws).
Proof. reflexivity. Qed.

Lemma joinWords_not_nil w ws : w <> [] -> joinWords (w :: ws) <> [].
Proof.
  intros Hw. destruct ws as [|v ws]; simpl; [exact Hw|].
  destruct w; [congruence | discriminate].
Qed.

Lemma joinWords_nil_iff g : Forall goodWord g -> joinWords g = [] <-> g = [].
Proof.
  intros Hg. split; [|intros ->; reflexivity].
  destruct g as [|w ws]; [reflexivity|].
  intros H. inversion Hg as [|? ? [Hw _] _]; subst.
  exfalso. revert H. apply joinWords_not_nil, Hw.
Qed.

Lemma joinWords_app a b :
  a <> [] -> b <> [] -> joinWords (a ++ b) = joinWords a ++ [SP] ++ joinWords b.
Proof.
  intros Ha Hb. induction a as [|w a IH]; [congruence|].
  destruct a as [|v a].
  - destruct b; [congruence | reflexivity].
  - change (joinWords ((w :: v :: a) ++ b))
      with (w ++ [SP] ++ joinWords ((v :: a) ++ b)).
    rewrite IH by discriminate. rewrite joinWords_cons2.
    rewrite <- !app_assoc. reflexivity.
Qed.

Lemma joinWords_snoc g w :
  g <> [] -> joinWords (g ++ [w]) = joinWords g ++ [SP] ++ w.
Proof. intros Hg. apply joinWords_app; [exact Hg | discriminate]. Qed.

Lemma trimEnd_keep c s :
  is_space c = false -> trimEnd (c :: s) = c :: trimEnd s.
Proof. intros Hc. simpl. rewrite Hc. destruct (trimEnd s); reflexivity. Qed.

Lemma trimEnd_space c s :
  is_space c = true ->
  trimEnd (c :: s) = match trimEnd s with [] => [] | r => c :: r end.
Proof. intros Hc. simpl. rewrite Hc. reflexivity. Qed.

Lemma trimStart_collapse_true s :
  trimStart (collapse_ws true s) = collapse_ws true s.
Proof.
  induction s as [|c r IH]; simpl; [reflexivity|].
  destruct (is_space c) eqn:Hc; [exact IH|].
  simpl. rewrite Hc. reflexivity.
Qed.

Lemma trimStart_collapse s :
  trimStart (collapse_ws false s) = collapse_ws true s.
Proof.
  destruct s as [|c r]; simpl; [reflexivity|].
  destruct (is_space c) eqn:Hc; simpl.
  - apply trimStart_collapse_true.
  - rewrite Hc. reflexivity.
Qed.

Lemma trimEnd_collapse s :
  trimEnd (collapse_ws true s) = joinWords (words s) /\
  trimEnd (collapse_ws false s) =
    match runs s with
    | [] => []
    | w :: ws =>
        w ++ match List.filter truthy ws with
             | [] => []
             | v :: vs => SP :: joinWords (v :: vs)
             end
    end.
Proof.
  induction s as [|c r [IHt IHf]]; [split; reflexivity|].
  unfold words in *. simpl.
  destruct (is_space c) eqn:Hc.
  - split; [exact IHt|].
    rewrite trimEnd_space by reflexivity. rewrite IHt. simpl.
    destruct (List.filter truthy (runs r)) as [|v vs] eqn:Hf; [reflexivity|].
    assert (Hv : v <> []).
    { apply truthy_true.
      assert (Hin : In v (List.filter truthy (runs r))) by (rewrite Hf; left; reflexivity).
      apply filter_In in Hin. tauto. }
    destruct (joinWords (v :: vs)) eqn:E; [|reflexivity].
    exfalso. eapply joinWords_not_nil; eauto.
  - rewrite !trimEnd_keep by exact Hc. rewrite IHf.
    destruct (runs r) as [|w ws] eqn:Hr; [exfalso; eapply runs_not_nil; eauto|].
    simpl. split; [|reflexivity].
    destruct (List.filter truthy ws) as [|v vs]; simpl.
    + rewrite app_nil_r. reflexivity.
    + reflexivity.
Qed.

(** Normalizing a text leaves its words, separated by single spaces. *)
Lemma normalize_words s : trim (collapseSpaces s) = joinWords (words s).
Proof.
  unfold trim, collapseSpaces. rewrite trimStart_collapse.
  apply trimEnd_collapse.
Qed.

Lemma split_no_sep sep w :
  Forall (fun c => c <> sep) w -> split sep w = [w].
Proof.
  induction 1 as [|c w Hc _ IH]; simpl; [reflexivity|].
  destruct (N.eqb_spec c sep); [congruence|]. rewrite IH. reflexivity.
Qed.

Lemma split_app_sep sep w s :
  Forall (fun c => c <> sep) w -> split sep (w ++ sep :: s) = w :: split sep s.
Proof.
  induction 1 as [|c w Hc _ IH]; simpl.
  - rewrite N.eqb_refl. reflexivity.
  - destruct (N.eqb_spec c sep); [congruence|]. rewrite IH. reflexivity.
Qed.

Lemma goodWord_no_SP w : goodWord w -> Forall (fun c => c <> SP) w.
Proof.
  intros [_ H]. eapply Forall_impl; [exact H|].
  intros c Hc ->. discriminate.
Qed.

Lemma split_joinWords g :
  g <> [] -> Forall goodWord g -> split SP (joinWords g) = g.
Proof.
  intros Hne Hg. induction Hg as [|w ws Hw Hws IH]; [congruence|].
  destruct ws as [|v ws].
  - simpl. apply split_no_sep, goodWord_no_SP, Hw.
  - rewrite joinWords_cons2. simpl app.
    rewrite split_app_sep by (apply goodWord_no_SP, Hw).
    rewrite IH by discriminate. reflexivity.
Qed.

Lemma trimEnd_snoc s c : is_space c = false -> trimEnd (s ++ [c]) = s ++ [c].
Proof.
  intros Hc. induction s as [|d s IH]; simpl.
  - rewrite Hc. reflexivity.
  - rewrite IH. destruct (s ++ [c]) eqn:E; [|reflexivity].
    destruct s; discriminate.
Qed.

Lemma goodWord_last w : goodWord w -> exists s c, w = s ++ [c] /\ is_space c = false.
Proof.
  intros [Hne Hall]. destruct (exists_last Hne) as (s & c & ->).
  exists s, c. split; [reflexivity|].
  apply Forall_app in Hall as [_ Hc]. inversion Hc; assumption.
Qed.

Lemma joinWords_last g :
  g <> [] -> Forall goodWord g ->
  exists s c, joinWords g = s ++ [c] /\ is_space c = false.
Proof.
  intros Hne Hg. induction Hg as [|w ws Hw Hws IH]; [congruence|].
  destruct ws as [|v ws].
  - apply goodWord_last, Hw.
  - destruct IH as (s & c & E & Hc); [discriminate|].
    exists (w ++ [SP] ++ s), c. split; [|exact Hc].
    rewrite joinWords_cons2, E, <- !app_assoc. reflexivity.
Qed.

Lemma trim_joinWords g : Forall goodWord g -> trim (joinWords g) = joinWords g.
Proof.
  intros Hg. destruct g as [|w ws]; [reflexivity|].
  destruct (joinWords_last (w :: ws)) as (s & c & E & Hc); [discriminate | exact Hg |].
  unfold trim.
  assert (Hs : trimStart (joinWords (w :: ws)) = joinWords (w :: ws)).
  { inversion Hg as [|? ? [Hw Hall] _]; subst.
    destruct w as [|d w]; [congruence|].
    inversion Hall as [|? ? Hd _]; subst.
    destruct ws; simpl; rewrite Hd; reflexivity. }
  rewrite Hs, E. apply trimEnd_snoc, Hc.
Qed.

(** ** splitTextIntoChunks *)

Lemma join_groups gs :
  Forall (fun g => g <> []) gs -> join [SP] (List.map joinWords gs) = joinWords (concat gs).
Proof.
  induction 1 as [|g gs Hg Hgs IH]; [reflexivity|].
  destruct gs as [|h gs].
  - simpl. rewrite app_nil_r. reflexivity.
  - change (join [SP] (List.map joinWords (g :: h :: gs)))
      with (joinWords g ++ [SP] ++ join [SP] (List.map joinWords (h :: gs))).
    rewrite IH. change (concat (g :: h :: gs)) with (g ++ concat (h :: gs)).
    rewrite joinWords_app; [reflexivity | exact Hg |].
    inversion Hgs; subst. simpl. destruct h; [congruence | discriminate].
Qed.

Section ChunkingFacts.

Variable targetChars : Z.
Variable maxChunks : Z.

Local Abbreviation loop := (chunkLoop targetChars maxChunks).

Lemma chunkLoop_cons word rest chunks current :
  loop (word :: rest) chunks current =
    let next := if truthy current then current ++ [SP] ++ word else word in
    if (len next >? targetChars) && truthy current then
      if alen (chunks ++ [current]) >=? maxChunks - 1 then
        if truthy (trim (joinWords (word :: rest)))
        then (chunks ++ [current]) ++ [trim (joinWords (word :: rest))]
        else chunks ++ [current]
      else loop rest (chunks ++ [current]) word
    else loop rest chunks next.
Proof. reflexivity. Qed.

(** The loop invariant: [done] are the groups already closed, [cur] the words
    of the chunk being built. *)
Lemma chunkLoop_groups ws :
  Forall goodWord ws ->
  forall done cur,
    Forall goodWord cur ->
    fits targetChars cur ->
    alen done + 2 <= Z.max 2 maxChunks ->
    exists gs,
      loop ws (List.map joinWords done) (joinWords cur)
        = List.map joinWords done ++ List.map joinWords gs
      /\ concat gs = cur ++ ws
      /\ Forall (fun g => g <> []) gs
      /\ (cur <> [] -> exists g gs', gs = (cur ++ g) :: gs')
      /\ boundaries targetChars gs
      /\ alen done + alen gs <= Z.max 2 maxChunks
      /\ (forall i g, gs !! i = Some g ->
            (S i < length gs)%nat \/ alen done + alen gs < Z.max 2 maxChunks ->
            fits targetChars g).
Proof.
  unfold alen.
  induction 1 as [|w rest Hw Hrest IH]; intros done cur Hcur Hfit Hsz.
  - (* no word left *)
    simpl. destruct cur as [|v cur].
    + exists []. split_and!.
      * simpl. rewrite app_nil_r. reflexivity.
      * reflexivity.
      * constructor.
      * congruence.
      * exact I.
      * simpl. lia.
      * intros i g Hi. rewrite lookup_nil in Hi. discriminate.
    + assert (Ht : truthy (joinWords (v :: cur)) = true).
      { apply truthy_true. inversion Hcur as [|? ? [Hv _] _]; subst.
        apply joinWords_not_nil, Hv. }
      rewrite Ht. exists [v :: cur].
      split_and!.
      * reflexivity.
      * simpl. rewrite !app_nil_r. reflexivity.
      * constructor; [discriminate | constructor].
      * intros _. exists [], []. rewrite app_nil_r. reflexivity.
      * simpl. auto.
      * simpl. lia.
      * intros [|i] g Hi; simpl in Hi; [|rewrite lookup_nil in Hi; discriminate].
        injection Hi as <-. intros _. exact Hfit.
  - rewrite chunkLoop_cons. cbv zeta.
    destruct cur as [|v cur].
    + (* first word of the text *)
      change (truthy (joinWords [])) with false. rewrite andb_false_r.
      destruct (IH done [w]) as (gs & E & Hc & Hne & Hfst & Hb & Hn & Hf).
      * constructor; [exact Hw | constructor].
      * left. simpl. lia.
      * exact Hsz.
      * exists gs. split_and!; try assumption. congruence.
    + assert (Hcne : joinWords (v :: cur) <> []).
      { inversion Hcur as [|? ? [Hv _] _]; subst. apply joinWords_not_nil, Hv. }
      assert (Ht : truthy (joinWords (v :: cur)) = true) by (apply truthy_true, Hcne).
      rewrite Ht, andb_true_r.
      assert (Enext : joinWords (v :: cur) ++ [SP] ++ w = joinWords ((v :: cur) ++ [w])).
      { rewrite joinWords_snoc by discriminate. reflexivity. }
      rewrite Enext.
      destruct (Z.gtb_spec (len (joinWords ((v :: cur) ++ [w]))) targetChars) as [Hgt|Hle].
      * (* the word does not fit: the chunk is closed *)
        unfold alen. rewrite length_app, length_map. simpl length.
        destruct (Z.geb_spec (Z.of_nat (length done + 1)) (maxChunks - 1)) as [Hcap|Hcap].
        -- (* the cap is reached: the remainder is folded *)
           rewrite trim_joinWords by (constructor; assumption).
           assert (Hr : truthy (joinWords (w :: rest)) = true).
           { apply truthy_true, joinWords_not_nil, Hw. }
           rewrite Hr. exists [v :: cur; w :: rest].
           split_and!.
           ++ rewrite <- app_assoc. reflexivity.
           ++ simpl. rewrite app_nil_r. reflexivity.
           ++ repeat (constructor; [discriminate|]). constructor.
           ++ intros _. exists [], [w :: rest]. rewrite app_nil_r. reflexivity.
           ++ simpl. auto.
           ++ simpl length. lia.
           ++ intros [|[|i]] g Hi; simpl in Hi.
              ** injection Hi as <-. intros _. exact Hfit.
              ** injection Hi as <-. simpl length. intros [?|?]; lia.
              ** rewrite lookup_nil in Hi. discriminate.
        -- destruct (IH (done ++ [v :: cur]) [w]) as (gs & E & Hc & Hne & Hfst & Hb & Hn & Hf).
           ++ constructor; [exact Hw | constructor].
           ++ left. simpl. lia.
           ++ rewrite length_app. simpl. lia.
           ++ destruct Hfst as (g & gs' & ->); [discriminate|].
              exists ((v :: cur) :: ([w] ++ g) :: gs').
              rewrite List.map_app in E. simpl List.map in E.
              change (joinWords [w]) with w in E.
              rewrite length_app in Hn, Hf. simpl length in Hn, Hf.
              split_and!.
              ** rewrite E, <- app_assoc. reflexivity.
              ** simpl in Hc |- *. injection Hc as Hc. rewrite <- Hc. reflexivity.
              ** constructor; [discriminate | exact Hne].
              ** intros _. exists [], (([w] ++ g) :: gs'). rewrite app_nil_r. reflexivity.
              ** simpl. split; [exact Hgt | exact Hb].
              ** simpl length. lia.
              ** intros [|i] g0 Hi; simpl in Hi.
                 --- injection Hi as <-. intros _. exact Hfit.
                 --- simpl length. intros Hcond. apply (Hf i g0 Hi).
                     simpl length. lia.
      * (* the word fits: it joins the chunk *)
        destruct (IH done ((v :: cur) ++ [w])) as (gs & E & Hc & Hne & Hfst & Hb & Hn & Hf).
        -- apply Forall_app. split; [exact Hcur | constructor; [exact Hw | constructor]].
        -- right. lia.
        -- exact Hsz.
        -- exists gs. split_and!; try assumption.
           ++ rewrite Hc, <- app_assoc. reflexivity.
           ++ intros _. destruct Hfst as (g & gs' & ->); [discriminate|].
              exists ([w] ++ g), gs'. rewrite <- app_assoc. reflexivity.
Qed.

End ChunkingFacts.

(** C1 (as amended).  For every text, target size and cap, the chunks of
    [splitTextIntoChunks], joined by single spaces, are the text with its
    white space normalized and trimmed; they are the words of the text in
    order, none lost and none repeated, grouped greedily: a chunk is closed
    only when the next word would take it over the target, and every chunk
    except a folded last one is a single word or fits the target.  The number
    of chunks is at most [max 2 maxChunks], so at most [maxChunks] for every
    cap of 2 or more; when that number is reached the last chunk holds the
    whole remainder. *)
Theorem splitTextIntoChunks_spec (targetChars maxChunks : Z) (text : jsstring) :
  let chunks := splitTextIntoChunks targetChars maxChunks text in
  join [SP] chunks = trim (collapseSpaces text)
  /\ alen chunks <= Z.max 2 maxChunks
  /\ exists groups : list (list jsstring),
       chunks = List.map joinWords groups
       /\ concat groups = words text
       /\ Forall (fun g => g <> []) groups
       /\ boundaries targetChars groups
       /\ (forall i g, groups !! i = Some g ->
             (S i < length groups)%nat \/ alen groups < Z.max 2 maxChunks ->
             fits targetChars g).
Proof.
  unfold splitTextIntoChunks. cbv zeta.
  rewrite normalize_words.
  pose proof (words_good text) as Hgood.
  destruct (words text) as [|w ws] eqn:Hw.
  - simpl. split; [reflexivity|]. split; [unfold alen; simpl; lia|].
    exists []. split_and!; try reflexivity.
    + constructor.
    + intros i g Hi. rewrite lookup_nil in Hi. discriminate.
  - assert (Ht : truthy (joinWords (w :: ws)) = true).
    { apply truthy_true, joinWords_not_nil.
      inversion Hgood as [|? ? [H _] _]; assumption. }
    rewrite Ht, split_joinWords by (discriminate || assumption).
    destruct (chunkLoop_groups targetChars maxChunks (w :: ws) Hgood [] [])
      as (gs & E & Hc & Hne & _ & Hb & Hn & Hf).
    + constructor.
    + left. simpl. lia.
    + unfold alen. simpl. lia.
    + change (chunkLoop targetChars maxChunks (w :: ws) [] [] = List.map joinWords gs) in E.
      change (concat gs = w :: ws) in Hc.
      rewrite E.
      split; [|split].
      * rewrite join_groups by exact Hne. rewrite Hc. reflexivity.
      * unfold alen in *. rewrite length_map. simpl in Hn. lia.
      * exists gs. split_and!; try assumption; reflexivity.
Qed.

(** C1, the claim as stated fails: with a cap of 1 the text "aaa bbb" and a
    target of 3 give two chunks. *)
Lemma splitTextIntoChunks_cap_exceeded :
  splitTextIntoChunks 3 1 (lit "aaa bbb") = [lit "aaa"; lit "bbb"]
  /\ ~ (alen (splitTextIntoChunks 3 1 (lit "aaa bbb")) <= 1).
Proof. split; [reflexivity | vm_compute; congruence]. Qed.

(** ** Substrings *)

Lemma startsWith_spec needle hay :
  startsWith needle hay = true <-> exists post, hay = needle ++ post.
Proof.
  revert hay. induction needle as [|a n IH]; intros hay.
  - destruct hay; simpl; split; eauto.
  - destruct hay as [|b h]; simpl.
    + split; [discriminate | intros [post H]; discriminate].
    + rewrite andb_true_iff, N.eqb_eq, IH. split.
      * intros [-> [post ->]]. eauto.
      * intros [post H]. injection H as -> ->. eauto.
Qed.

Lemma includes_spec needle hay :
  includes needle hay = true <-> isSubstring needle hay.
Proof.
  unfold isSubstring. induction hay as [|b h IH].
  - simpl. rewrite orb_false_r, startsWith_spec. split.
    + intros [post H]. exists [], post. exact H.
    + intros (pre & post & H). destruct pre; simpl in H.
      * eauto.
      * discriminate.
  - change (includes needle (b :: h))
      with (startsWith needle (b :: h) || includes needle h).
    rewrite orb_true_iff, startsWith_spec, IH. split.
    + intros [[post H] | (pre & post & H)].
      * exists [], post. exact H.
      * exists (b :: pre), post. rewrite H. reflexivity.
    + intros (pre & post & H). destruct pre as [|c pre]; simpl in H.
      * left. eauto.
      * right. injection H as -> ->. eauto.
Qed.

(** ** Sets in insertion order *)

Lemma StrSet_has_spec x s : StrSet.has x s = true <-> x ∈ s.
Proof. unfold StrSet.has. apply bool_decide_eq_true. Qed.

Lemma StrSet_add_elem x y s : y ∈ StrSet.add x s <-> y = x \/ y ∈ s.
Proof.
  unfold StrSet.add. destruct (StrSet.has x s) eqn:H.
  - apply StrSet_has_spec in H. split; [auto|]. intros [->|?]; assumption.
  - rewrite elem_of_app, list_elem_of_singleton. tauto.
Qed.

Lemma StrSet_add_NoDup x s : NoDup s -> NoDup (StrSet.add x s).
Proof.
  intros Hs. unfold StrSet.add. destruct (StrSet.has x s) eqn:H; [exact Hs|].
  apply NoDup_app. split; [exact Hs|]. split; [|apply NoDup_singleton].
  intros y Hy Hx. apply list_elem_of_singleton in Hx as ->.
  apply StrSet_has_spec in Hy. congruence.
Qed.

Lemma addAll_elem l : forall s y, y ∈ addAll l s <-> y ∈ s \/ y ∈ l.
Proof.
  induction l as [|g l IH]; intros s y; simpl.
  - rewrite elem_of_nil. tauto.
  - rewrite IH, StrSet_add_elem, elem_of_cons. tauto.
Qed.

Lemma addAll_NoDup l : forall s, NoDup s -> NoDup (addAll l s).
Proof.
  induction l as [|g l IH]; intros s Hs; simpl; [exact Hs|].
  apply IH, StrSet_add_NoDup, Hs.
Qed.

Lemma addAll_length l : length (addAll l []) = length (remove_dups l).
Proof.
  apply Permutation_length, NoDup_Permutation.
  - apply addAll_NoDup, NoDup_nil_2.
  - apply NoDup_remove_dups.
  - intros x. rewrite addAll_elem, elem_of_remove_dups, elem_of_nil. tauto.
Qed.

Lemma filter_Permutation_bool {A} (f : A -> bool) (l k : list A) :
  l ≡ₚ k -> List.filter f l ≡ₚ List.filter f k.
Proof.
  induction 1 as [|x l k _ IH|x y l|l k m _ IH1 _ IH2]; simpl.
  - constructor.
  - destruct (f x); [constructor|]; exact IH.
  - destruct (f x), (f y); try reflexivity. constructor.
  - etransitivity; eassumption.
Qed.

Lemma filter_ext_length {A} (f g : A -> bool) (l : list A) :
  (forall x, f x = g x) -> length (List.filter f l) = length (List.filter g l).
Proof.
  intros H. induction l as [|x l IH]; simpl; [reflexivity|].
  rewrite <- H. destruct (f x); simpl; congruence.
Qed.

(** ** n-grams *)

Lemma windows_short {A} n (l : list A) : (length l < n)%nat -> windows n l = [].
Proof.
  intros H. destruct l as [|a r]; simpl in *.
  - destruct (Nat.eqb_spec n 0); [lia | reflexivity].
  - destruct (Nat.leb_spec n (S (length r))); [lia | reflexivity].
Qed.

Lemma windows_cons {A} n a (r : list A) :
  (n <= S (length r))%nat ->
  windows n (a :: r) = take n (a :: r) :: windows n r.
Proof.
  intros H. change (windows n (a :: r))
    with (if (n <=? length (a :: r))%nat then take n (a :: r) :: windows n r else []).
  destruct (Nat.leb_spec n (length (a :: r))); [reflexivity | simpl in *; lia].
Qed.

Lemma windows_length {A} n (l : list A) :
  (0 < n <= length l)%nat -> windows n l <> [].
Proof.
  intros H. destruct l as [|a r]; simpl in H; [lia|].
  rewrite windows_cons by lia. discriminate.
Qed.

Lemma ngramLoop_addAll n tokens :
  forall set, (0 < n <= length tokens)%nat ->
    ngramLoop n (length tokens - n + 1) tokens set = addAll (ngrams n tokens) set.
Proof.
  unfold ngrams.
  induction tokens as [|t r IH]; intros set H; simpl in H; [lia|].
  rewrite windows_cons by lia.
  destruct (Nat.eq_dec n (S (length r))) as [E|E].
  - replace (length (t :: r) - n + 1)%nat with 1%nat by (simpl; lia).
    rewrite (windows_short n r) by lia. reflexivity.
  - replace (length (t :: r) - n + 1)%nat with (S (length r - n + 1)) by (simpl; lia).
    simpl ngramLoop. rewrite IH by lia. reflexivity.
Qed.

Lemma buildNgramSet_addAll tokens n :
  (0 < n)%nat -> buildNgramSet tokens n = addAll (ngrams n tokens) [].
Proof.
  intros Hn. unfold buildNgramSet.
  destruct (Nat.ltb_spec (length tokens) n) as [H|H].
  - unfold ngrams. rewrite windows_short by exact H. reflexivity.
  - apply ngramLoop_addAll. lia.
Qed.

Lemma buildNgramSet_elem tokens n x :
  (0 < n)%nat -> x ∈ buildNgramSet tokens n <-> x ∈ ngrams n tokens.
Proof.
  intros Hn. rewrite buildNgramSet_addAll by exact Hn.
  rewrite addAll_elem, elem_of_nil. tauto.
Qed.

Lemma buildNgramSet_size tokens n :
  (0 < n)%nat -> StrSet.size (buildNgramSet tokens n) = distinctCount (ngrams n tokens).
Proof.
  intros Hn. unfold StrSet.size, distinctCount.
  rewrite buildNgramSet_addAll by exact Hn. rewrite addAll_length. reflexivity.
Qed.

Lemma ngramOverlap_shared et st n :
  (0 < n)%nat ->
  ngramOverlap (buildNgramSet et n) (buildNgramSet st n)
  = sharedCount (ngrams n et) (ngrams n st).
Proof.
  intros Hn. unfold ngramOverlap, sharedCount. f_equal.
  rewrite (filter_ext_length _ (fun g => bool_decide (g ∈ ngrams n st))).
  - apply Permutation_length, filter_Permutation_bool, NoDup_Permutation.
    + rewrite buildNgramSet_addAll by exact Hn. apply addAll_NoDup, NoDup_nil_2.
    + apply NoDup_remove_dups.
    + intros x. rewrite buildNgramSet_elem, elem_of_remove_dups by exact Hn. tauto.
  - intros x. unfold StrSet.has. apply bool_decide_ext.
    apply buildNgramSet_elem, Hn.
Qed.

Lemma distinctCount_pos n tokens :
  (0 < n <= length tokens)%nat -> 0 < distinctCount (ngrams n tokens).
Proof.
  intros H. unfold distinctCount, ngrams.
  pose proof (windows_length n tokens H) as Hw.
  destruct (windows n tokens) as [|w ws]; [congruence|].
  destruct (remove_dups (List.map (join [SP]) (w :: ws))) as [|x xs] eqn:E.
  - exfalso. assert (Hin : join [SP] w ∈ remove_dups (List.map (join [SP]) (w :: ws))).
    { apply elem_of_remove_dups. simpl. left. }
    rewrite E in Hin. inversion Hin.
  - simpl. lia.
Qed.

(** ** isExplanationTooCloseToSource *)

(** C2 (as amended).  The guard answers true exactly when both normalized
    texts are non-empty and the normalized explanation equals the normalized
    source, or has 70 code units or more and occurs in it, or has 20 tokens
    or more while the source has 8 or more and at least 55% of the
    explanation's distinct 4-grams are 4-grams of the source. *)
Theorem isExplanationTooCloseToSource_spec
  (unicode_lower : jsstring -> jsstring) (explanation selectedText : jsstring) :
  isExplanationTooCloseToSource unicode_lower explanation selectedText = true
  <-> tooCloseSpec (normalizeSimilarityText unicode_lower explanation)
                   (normalizeSimilarityText unicode_lower selectedText).
Proof.
  unfold isExplanationTooCloseToSource, tooCloseSpec. cbv zeta.
  set (E := normalizeSimilarityText unicode_lower explanation).
  set (S := normalizeSimilarityText unicode_lower selectedText).
  destruct (truthy E) eqn:HE; simpl.
  2: { apply truthy_false in HE. split; [discriminate | tauto]. }
  destruct (truthy S) eqn:HS; simpl.
  2: { apply truthy_false in HS. split; [discriminate | tauto]. }
  apply truthy_true in HE, HS.
  destruct (bool_decide_reflect (E = S)) as [Heq|Hneq].
  { split; [tauto | reflexivity]. }
  destruct ((len E >=? 70) && includes E S) eqn:Hsub.
  { apply andb_true_iff in Hsub as [Hl Hi].
    apply includes_spec in Hi. apply Z.geb_le in Hl.
    split; [tauto | reflexivity]. }
  assert (Hnsub : ~ (70 <= len E /\ isSubstring E S)).
  { intros [Hl Hi]. apply includes_spec in Hi. apply Z.geb_le in Hl.
    rewrite Hl, Hi in Hsub. discriminate. }
  set (et := similarityTokens E). set (st := similarityTokens S).
  destruct (Z.ltb_spec (alen et) 8) as [He8|He8]; simpl.
  { split; [discriminate|]. intros (_ & _ & [?|[?|(? & _)]]); [tauto | tauto | lia]. }
  destruct (Z.ltb_spec (alen st) 8) as [Hs8|Hs8]; simpl.
  { split; [discriminate|]. intros (_ & _ & [?|[?|(_ & ? & _)]]); [tauto | tauto | lia]. }
  unfold alen in He8, Hs8.
  rewrite !buildNgramSet_size, ngramOverlap_shared by lia.
  pose proof (distinctCount_pos 4 st ltac:(lia)) as Hps.
  pose proof (distinctCount_pos 4 et ltac:(lia)) as Hpe.
  destruct (Z.eqb_spec (distinctCount (ngrams 4 st)) 0) as [?|_]; [lia|].
  unfold ratioAtLeast055.
  destruct (Z.gtb_spec (distinctCount (ngrams 4 et)) 0) as [_|?]; [|lia].
  rewrite andb_true_iff, Z.geb_le, Z.leb_le. unfold alen.
  split.
  - intros [? ?]. split_and!; try assumption. right; right. split_and!; lia.
  - intros (_ & _ & [?|[?|(? & ? & ?)]]); [tauto | tauto | split; assumption].
Qed.

(** C2, the claim as stated fails twice.  A source of 8 tokens is enough for
    the 4-gram test to reject an explanation of 20 tokens; and an explanation
    identical to a source without letters or digits is not rejected. *)
Lemma isExplanationTooCloseToSource_not_as_claimed :
  (isExplanationTooCloseToSource no_unicode_case
     (lit "a b c d e f g h a b c d e f g h a b c d") (lit "a b c d e f g h") = true
   /\ alen (similarityTokens (normalizeSimilarityText no_unicode_case (lit "a b c d e f g h"))) = 8
   /\ normalizeSimilarityText no_unicode_case (lit "a b c d e f g h a b c d e f g h a b c d")
      <> normalizeSimilarityText no_unicode_case (lit "a b c d e f g h")
   /\ includes (normalizeSimilarityText no_unicode_case (lit "a b c d e f g h a b c d e f g h a b c d"))
               (normalizeSimilarityText no_unicode_case (lit "a b c d e f g h")) = false)
  /\ isExplanationTooCloseToSource no_unicode_case (lit "?!") (lit "?!") = false.
Proof. vm_compute. split_and!; try reflexivity. discriminate. Qed.

(** ** Suffixes *)

Lemma endsWith_spec suffix s :
  endsWith suffix s = true <-> exists stem, s = stem ++ suffix.
Proof.
  unfold endsWith. rewrite startsWith_spec. split.
  - intros [post H]. exists (rev post).
    rewrite <- (rev_involutive s), H, rev_app_distr, rev_involutive. reflexivity.
  - intros [stem ->]. exists (rev stem). apply rev_app_distr.
Qed.

Lemma dropLast_app stem suffix : dropLast (length suffix) (stem ++ suffix) = stem.
Proof.
  unfold dropLast. rewrite length_app.
  replace (length stem + length suffix - length suffix)%nat with (length stem) by lia.
  apply take_app_length.
Qed.

(** ** The shape of the tokens *)

Lemma tokenShape_snoc acc c :
  tokenShape acc -> is_letter c = true \/ c = APOS -> tokenShape (acc ++ [c]).
Proof.
  intros [(d & r & -> & Hd) Hall] Hc. split.
  - exists d, (r ++ [c]). split; [reflexivity | exact Hd].
  - apply Forall_app. split; [exact Hall | constructor; [exact Hc | constructor]].
Qed.

Lemma scanTokens_shape s :
  forall st,
    match st with
    | Outside => True
    | InHead acc | InTail acc => tokenShape acc
    end ->
    Forall tokenShape (scanTokens is_letter st s).
Proof.
  induction s as [|c r IH]; intros st Hst.
  - destruct st; simpl; [constructor | |]; constructor; [exact Hst | constructor | exact Hst | constructor].
  - destruct st as [|acc|acc]; simpl.
    + destruct (is_letter c) eqn:Hc; apply IH; [|exact I].
      split; [exists c, []; tauto | constructor; [tauto | constructor]].
    + destruct (is_letter c) eqn:Hc.
      * apply IH, tokenShape_snoc; tauto.
      * destruct ((c =? APOS)%N && _) eqn:Ha.
        -- apply andb_true_iff in Ha as [Ha _]. apply N.eqb_eq in Ha.
           apply IH, tokenShape_snoc; tauto.
        -- constructor; [exact Hst | apply IH; exact I].
    + destruct (is_letter c) eqn:Hc.
      * apply IH, tokenShape_snoc; tauto.
      * constructor; [exact Hst | apply IH; exact I].
Qed.

Lemma letter_not_digit c : is_letter c = true -> is_digit c = false.
Proof.
  unfold is_letter, is_upper, is_lower, is_digit.
  rewrite orb_true_iff, !andb_true_iff, andb_false_iff, !N.leb_le, !N.leb_gt. lia.
Qed.

Lemma tokenShape_not_number token : tokenShape token -> isNumberLike token = false.
Proof.
  intros [(c & r & -> & Hc) _]. unfold isNumberLike. simpl.
  rewrite (letter_not_digit c Hc). reflexivity.
Qed.

Lemma tokenShape_proper_noun token :
  tokenShape token ->
  looksLikeProperNoun token = (2 <=? len token) && forallb is_upper token.
Proof.
  intros [(c & r & E & Hc) Hall]. unfold looksLikeProperNoun.
  assert (Ht : truthy token = true) by (subst; reflexivity).
  rewrite Ht. cbn [negb].
  destruct ((2 <=? len token) && forallb is_upper token); [reflexivity|].
  rewrite split_no_sep; [reflexivity|].
  eapply Forall_impl; [exact Hall|].
  intros d [Hd | ->] Ed; [subst d; vm_compute in Hd; discriminate | discriminate].
Qed.

Section SimplicityFacts.

Variable unicode_lower : jsstring -> jsstring.
Variable easyWordSet : gset jsstring.

Local Abbreviation normTok := (normalizeToken unicode_lower).

Lemma suffixRuleAllows_spec lower suffix min :
  suffixRuleAllows easyWordSet lower (suffix, min) = true
  <-> exists stem,
        lower = stem ++ suffix
        /\ min < len stem
        /\ (stem ∈ easyWordSet
            \/ ((suffix = lit "ing" \/ suffix = lit "ed" \/ suffix = lit "es")
                /\ stem ++ lit "e" ∈ easyWordSet)).
Proof.
  unfold suffixRuleAllows.
  destruct (endsWith suffix lower) eqn:He; simpl.
  2: { split; [discriminate|]. intros (stem & -> & _).
       assert (endsWith suffix (stem ++ suffix) = true) by (apply endsWith_spec; eauto).
       congruence. }
  apply endsWith_spec in He as [stem ->]. rewrite dropLast_app.
  assert (Hlen : len (stem ++ suffix) = len stem + len suffix).
  { unfold len. rewrite length_app. lia. }
  destruct (Z.gtb_spec (len (stem ++ suffix)) (len suffix + min)) as [Hgt|Hle].
  2: { split; [discriminate|]. intros (stem' & E & Hmin & _).
       assert (len stem' = len stem).
       { apply (f_equal (@length N)) in E. rewrite !length_app in E. unfold len. lia. }
       lia. }
  assert (Hstem : forall stem', stem ++ suffix = stem' ++ suffix -> stem' = stem).
  { intros stem' E. apply app_inv_tail in E. congruence. }
  case_bool_decide as Hin.
  { split; [|reflexivity]. intros _. exists stem. split_and!; [reflexivity | lia | tauto]. }
  destruct (decide (stem ++ lit "e" ∈ easyWordSet)) as [Hine|Hnine].
  - rewrite (bool_decide_eq_true_2 _ Hine), !andb_true_r.
    case_bool_decide as Hing.
    + split; [|reflexivity]. intros _. exists stem. split_and!; [reflexivity | lia | tauto].
    + rewrite orb_true_iff, !bool_decide_eq_true. split.
      * intros H. exists stem. split_and!; [reflexivity | lia | tauto].
      * intros (stem' & E & _ & [Hs|[Hs _]]); apply Hstem in E; subst; tauto.
  - rewrite (bool_decide_eq_false_2 _ Hnine), !andb_false_r. split; [discriminate|].
    intros (stem' & E & _ & [Hs|[_ Hs]]); apply Hstem in E; subst; tauto.
Qed.

Lemma isAllowedVariation_spec token :
  isAllowedVariation unicode_lower token easyWordSet = true
  <-> allowedSpec easyWordSet (normTok token).
Proof.
  unfold isAllowedVariation, allowedSpec. cbv zeta.
  set (lower := normTok token).
  destruct (truthy lower) eqn:Ht; cbn [negb].
  2: { apply truthy_false in Ht. tauto. }
  apply truthy_true in Ht.
  case_bool_decide as Hin; [tauto|].
  destruct (endsWith (lit "'s") lower && bool_decide (dropLast 2 lower ∈ easyWordSet)) eqn:Hp.
  { apply andb_true_iff in Hp as [He Hd]. apply endsWith_spec in He as [stem E].
    apply bool_decide_eq_true in Hd. rewrite E in Hd.
    change 2%nat with (length (lit "'s")) in Hd. rewrite dropLast_app in Hd.
    split; [|reflexivity]. intros _. right; right; left. eauto. }
  assert (Hnp : ~ exists stem, lower = stem ++ lit "'s" /\ stem ∈ easyWordSet).
  { intros (stem & E & Hs). rewrite E in Hp.
    assert (He : endsWith (lit "'s") (stem ++ lit "'s") = true) by (apply endsWith_spec; eauto).
    rewrite He in Hp. change 2%nat with (length (lit "'s")) in Hp.
    rewrite dropLast_app in Hp. simpl in Hp.
    apply bool_decide_eq_false in Hp. tauto. }
  rewrite existsb_exists. unfold suffixStemSpec. split.
  - intros ([suffix min] & Hr & Ha). apply suffixRuleAllows_spec in Ha as (stem & ? & ? & ?).
    right; right; right. exists suffix, min, stem.
    split_and!; try assumption. apply list_elem_of_In, Hr.
  - intros [?|[?|[?|(suffix & min & stem & Hr & ? & ? & ?)]]]; try tauto.
    exists (suffix, min). split; [apply list_elem_of_In, Hr|].
    apply suffixRuleAllows_spec. eauto.
Qed.

Lemma hardWordsLoop_spec words :
  forall acc, NoDup acc ->
    NoDup (hardWordsLoop unicode_lower easyWordSet words acc)
    /\ forall w, w ∈ hardWordsLoop unicode_lower easyWordSet words acc
         <-> w ∈ acc
             \/ exists token, token ∈ words /\ w = normTok token
                  /\ difficultToken unicode_lower easyWordSet token.
Proof.
  induction words as [|token rest IH]; intros acc Hacc; simpl.
  - split; [exact Hacc|]. intros w. split; [tauto|].
    intros [?|(t & Ht & _)]; [assumption | inversion Ht].
  - assert (Hskip :
      ~ difficultToken unicode_lower easyWordSet token ->
      NoDup (hardWordsLoop unicode_lower easyWordSet rest acc)
      /\ forall w, w ∈ hardWordsLoop unicode_lower easyWordSet rest acc
           <-> w ∈ acc
               \/ exists t, t ∈ token :: rest /\ w = normTok t
                    /\ difficultToken unicode_lower easyWordSet t).
    { intros Hnd. destruct (IH acc Hacc) as [Hn He]. split; [exact Hn|].
      intros w. rewrite He. split.
      - intros [?|(t & Ht & ? & ?)]; [tauto|]. right. exists t. rewrite elem_of_cons. tauto.
      - intros [?|(t & Ht & ? & ?)]; [tauto|].
        apply elem_of_cons in Ht as [->|Ht]; [tauto|]. right. eauto. }
    destruct ((len token <=? 2) || isNumberLike token || looksLikeProperNoun token) eqn:Hex.
    { apply Hskip. intros (Hl & Hn & Hp & _).
      apply Z.leb_gt in Hl. rewrite Hl, Hn, Hp in Hex. discriminate. }
    apply orb_false_iff in Hex as [Hex Hp]. apply orb_false_iff in Hex as [Hl Hn].
    apply Z.leb_gt in Hl.
    destruct (isAllowedVariation unicode_lower token easyWordSet) eqn:Ha; simpl.
    { apply Hskip. intros (_ & _ & _ & Hna). apply Hna, isAllowedVariation_spec, Ha. }
    assert (Hd : difficultToken unicode_lower easyWordSet token).
    { split_and!; try assumption. intros H. apply isAllowedVariation_spec in H. congruence. }
    destruct (IH (StrSet.add (normTok token) acc)) as [Hnd He].
    { apply StrSet_add_NoDup, Hacc. }
    split; [exact Hnd|]. intros w. rewrite He, StrSet_add_elem. split.
    + intros [[->|?]|(t & Ht & ? & ?)].
      * right. exists token. split_and!; [left | reflexivity | exact Hd].
      * tauto.
      * right. exists t. rewrite elem_of_cons. tauto.
    + intros [?|(t & Ht & ? & ?)]; [tauto|].
      apply elem_of_cons in Ht as [->|Ht]; [tauto|]. right. eauto.
Qed.

End SimplicityFacts.

(** C8 (as amended).  [findHardWords] lists, once each, the normalized forms
    of the tokens of the text (letter runs with one internal apostrophe) that
    are longer than 2, are not numbers or proper-noun shaped, and are not
    easy: in the lexicon, the possessive of a lexicon word, or a lexicon stem
    (or the stem and an [e] for ing, ed, es) with one of the seven suffixes,
    the stem being longer than the minimum of the suffix rule.  On a token
    the test for numbers never answers true, and the test for proper nouns
    answers true exactly for two or more capital letters: a token has no
    digit and no hyphen. *)
Theorem findHardWords_spec
  (unicode_lower : jsstring -> jsstring) (text : jsstring) (easyWordSet : gset jsstring) :
  NoDup (findHardWords unicode_lower text easyWordSet)
  /\ (forall w,
        w ∈ findHardWords unicode_lower text easyWordSet
        <-> exists token,
              token ∈ matchTokens text
              /\ w = normalizeToken unicode_lower token
              /\ difficultToken unicode_lower easyWordSet token)
  /\ (forall token,
        token ∈ matchTokens text ->
        isNumberLike token = false
        /\ looksLikeProperNoun token = (2 <=? len token) && forallb is_upper token).
Proof.
  assert (Hshape : forall token,
    token ∈ matchTokens text ->
    isNumberLike token = false
    /\ looksLikeProperNoun token = (2 <=? len token) && forallb is_upper token).
  { intros token Hin.
    pose proof (scanTokens_shape text Outside I) as Hall.
    rewrite Forall_forall in Hall. specialize (Hall token Hin).
    split; [apply tokenShape_not_number | apply tokenShape_proper_noun]; exact Hall. }
  cut (NoDup (findHardWords unicode_lower text easyWordSet)
       /\ (forall w,
             w ∈ findHardWords unicode_lower text easyWordSet
             <-> exists token,
                   token ∈ matchTokens text
                   /\ w = normalizeToken unicode_lower token
                   /\ difficultToken unicode_lower easyWordSet token)).
  { intros [H1 H2]. split_and!; assumption. }
  unfold findHardWords. destruct (truthy text) eqn:Ht; simpl.
  - destruct (hardWordsLoop_spec unicode_lower easyWordSet (matchTokens text) StrSet.empty)
      as [Hn He]; [apply NoDup_nil_2|].
    split; [exact Hn|]. intros w. rewrite He. unfold StrSet.empty.
    rewrite elem_of_nil. tauto.
  - apply truthy_false in Ht. subst text. split; [apply NoDup_nil_2|].
    intros w. split; [intros H; inversion H | intros (t & H & _); inversion H].
Qed.

(** C8, the claim as stated fails: "making" strips [ing] down to "mak", whose
    e-variant "make" is in the lexicon, and "going" strips [ing] down to the
    lexicon word "go"; both are reported as difficult, because the stems are
    not longer than 3. *)
Lemma findHardWords_short_stems :
  findHardWords no_unicode_case (lit "making going") {[ lit "make"; lit "go" ]}
    = [lit "making"; lit "going"]
  /\ allowedWithoutMinimum {[ lit "make"; lit "go" ]} (lit "making")
  /\ allowedWithoutMinimum {[ lit "make"; lit "go" ]} (lit "going").
Proof.
  split; [vm_compute; reflexivity|].
  split; right; right.
  - exists (lit "ing"), 3, (lit "mak"). split_and!.
    + apply list_elem_of_In. left. reflexivity.
    + reflexivity.
    + right. split; [tauto|]. apply elem_of_union_l, elem_of_singleton. reflexivity.
  - exists (lit "ing"), 3, (lit "go"). split_and!.
    + apply list_elem_of_In. left. reflexivity.
    + reflexivity.
    + left. apply elem_of_union_r, elem_of_singleton. reflexivity.
Qed.

(** ** trim *)

Lemma trimStart_head s c r : trimStart s = c :: r -> is_space c = false.
Proof.
  induction s as [|d s IH]; simpl; [discriminate|].
  destruct (is_space d) eqn:Hd; [exact IH|].
  intros H. injection H as <- _. exact Hd.
Qed.

Lemma trimStart_keep c r : is_space c = false -> trimStart (c :: r) = c :: r.
Proof. intros H. simpl. rewrite H. reflexivity. Qed.

Lemma trimEnd_last s : trimEnd s = [] \/ exists r c, trimEnd s = r ++ [c] /\ is_space c = false.
Proof.
  induction s as [|d s IH]; simpl; [left; reflexivity|].
  destruct IH as [E|(r & c & E & Hc)]; rewrite E.
  - destruct (is_space d) eqn:Hd; [left; reflexivity|].
    right. exists [], d. split; [reflexivity | exact Hd].
  - right. exists (d :: r), c. split; [|exact Hc]. destruct r; reflexivity.
Qed.

Lemma trimEnd_idem s : trimEnd (trimEnd s) = trimEnd s.
Proof.
  destruct (trimEnd_last s) as [E|(r & c & E & Hc)]; rewrite E; [reflexivity|].
  apply trimEnd_snoc, Hc.
Qed.

Lemma trim_idem s : trim (trim s) = trim s.
Proof.
  unfold trim. destruct (trimStart s) as [|c r] eqn:E; [reflexivity|].
  pose proof (trimStart_head s c r E) as Hc.
  rewrite trimEnd_keep by exact Hc. rewrite trimStart_keep by exact Hc.
  rewrite <- (trimEnd_keep c r Hc). apply trimEnd_idem.
Qed.

(** ** The braces of extractJsonObject *)

Lemma indexOf_Some c s i :
  indexOf c s = Some i <->
  exists pre post, s = pre ++ c :: post /\ (c ∉ pre) /\ i = length pre.
Proof.
  revert i. induction s as [|d s IH]; intros i; simpl.
  - split; [discriminate|]. intros (pre & post & H & _). destruct pre; discriminate.
  - destruct (N.eqb_spec d c) as [->|Hne].
    + split.
      * intros H. injection H as <-. exists [], s. split_and!; [reflexivity | apply not_elem_of_nil | reflexivity].
      * intros (pre & post & H & Hni & ->). destruct pre as [|p pre]; [reflexivity|].
        injection H as -> _. exfalso. apply Hni. left.
    + destruct (indexOf c s) as [j|] eqn:Ej; simpl.
      * split.
        -- intros H. injection H as <-.
           destruct (proj1 (IH j) eq_refl) as (pre & post & -> & Hni & ->).
           exists (d :: pre), post. split_and!; [reflexivity | | reflexivity].
           rewrite not_elem_of_cons. split; [congruence | exact Hni].
        -- intros (pre & post & H & Hni & ->). destruct pre as [|p pre].
           ++ injection H as ? _. congruence.
           ++ injection H as -> ->. apply not_elem_of_cons in Hni as [_ Hni].
              f_equal. simpl. f_equal.
              assert (Some j = Some (length pre)) as Hj; [|congruence].
              apply IH. eauto.
      * split; [discriminate|].
        intros (pre & post & H & Hni & ->). destruct pre as [|p pre].
        -- injection H as ? _. congruence.
        -- injection H as -> ->. apply not_elem_of_cons in Hni as [_ Hni].
           assert (None = Some (length pre)) as Hj; [|discriminate].
           apply IH. eauto.
Qed.

Lemma lastIndexOf_None c s : lastIndexOf c s = None <-> c ∉ s.
Proof.
  induction s as [|d s IH]; simpl.
  - split; [intros _; apply not_elem_of_nil | reflexivity].
  - rewrite not_elem_of_cons. destruct (lastIndexOf c s) as [j|].
    + split; [discriminate|]. intros [_ H]. apply IH in H. discriminate.
    + destruct (N.eqb_spec d c) as [->|Hne].
      * split; [discriminate | tauto].
      * split; [|reflexivity]. intros _. split; [congruence | apply IH; reflexivity].
Qed.

Lemma lastIndexOf_Some c s i :
  lastIndexOf c s = Some i <->
  exists pre post, s = pre ++ c :: post /\ (c ∉ post) /\ i = length pre.
Proof.
  revert i. induction s as [|d s IH]; intros i; simpl.
  - split; [discriminate|]. intros (pre & post & H & _). destruct pre; discriminate.
  - destruct (lastIndexOf c s) as [j|] eqn:Ej.
    + destruct (proj1 (IH j) eq_refl) as (pre & post & -> & Hni & ->).
      split.
      * intros H. injection H as <-. exists (d :: pre), post. split_and!; reflexivity || assumption.
      * intros (pre' & post' & H & Hni' & ->). destruct pre' as [|p pre'].
        -- injection H as -> <-. exfalso. apply Hni'.
           apply elem_of_app. right. left.
        -- injection H as -> H. f_equal. simpl. f_equal.
           assert (Some (length pre) = Some (length pre')) as Hj; [|congruence].
           apply IH. eauto.
    + apply lastIndexOf_None in Ej. destruct (N.eqb_spec d c) as [->|Hne].
      * split.
        -- intros H. injection H as <-. exists [], s. split_and!; reflexivity || assumption.
        -- intros (pre' & post' & H & Hni' & ->). destruct pre' as [|p pre']; [reflexivity|].
           injection H as -> ->. exfalso. apply Ej, elem_of_app. right. left.
      * split; [discriminate|].
        intros (pre' & post' & H & Hni' & ->). destruct pre' as [|p pre'].
        -- injection H as ? _. congruence.
        -- injection H as -> ->. exfalso. apply Ej, elem_of_app. right. left.
Qed.

Lemma app_eq_longer {A} (a b c d : list A) :
  a ++ b = c ++ d -> (length a < length c)%nat -> exists m, c = a ++ m /\ b = m ++ d /\ m <> [].
Proof.
  revert c. induction a as [|x a IH]; intros c H Hl.
  - exists c. split_and!; [reflexivity | exact H |]. destruct c; [simpl in Hl; lia | discriminate].
  - destruct c as [|y c]; [simpl in Hl; lia|].
    injection H as -> H. destruct (IH c H) as (m & -> & -> & Hm); [simpl in Hl; lia|].
    exists m. split_and!; reflexivity || assumption.
Qed.

Lemma extractJsonObject_spec text object :
  extractJsonObject text = Some object <-> betweenBraces text object.
Proof.
  unfold extractJsonObject, betweenBraces. split.
  - destruct (indexOf LBRACE text) as [start|] eqn:Es; [|discriminate].
    destruct (lastIndexOf RBRACE text) as [stop|] eqn:Ee; [|discriminate].
    destruct (Nat.leb_spec stop start) as [|Hlt]; [discriminate|].
    intros H. injection H as <-.
    apply indexOf_Some in Es as (pre & post & E1 & Hpre & ->).
    apply lastIndexOf_Some in Ee as (pre2 & post2 & E2 & Hpost & ->).
    rewrite E1 in E2.
    destruct (app_eq_longer pre (LBRACE :: post) pre2 (RBRACE :: post2) E2 Hlt)
      as (m & -> & Em & Hm).
    destruct m as [|b mid]; [congruence|]. injection Em as <- ->.
    exists pre, mid, post2. split_and!; try assumption.
    unfold slice. rewrite E1, drop_app_length, length_app. simpl length.
    replace (length pre + S (length mid) + 1 - length pre)%nat
      with (length ([LBRACE] ++ mid ++ [RBRACE])) by (simpl; rewrite length_app; simpl; lia).
    replace (LBRACE :: mid ++ RBRACE :: post2) with (([LBRACE] ++ mid ++ [RBRACE]) ++ post2)
      by (simpl; rewrite <- app_assoc; reflexivity).
    apply take_app_length.
  - intros (pre & mid & post & -> & Hpre & Hpost & ->).
    assert (Es : indexOf LBRACE (pre ++ [LBRACE] ++ mid ++ [RBRACE] ++ post) = Some (length pre)).
    { apply indexOf_Some. exists pre, (mid ++ [RBRACE] ++ post). tauto. }
    assert (Ee : lastIndexOf RBRACE (pre ++ [LBRACE] ++ mid ++ [RBRACE] ++ post)
                 = Some (length pre + S (length mid))%nat).
    { apply lastIndexOf_Some. exists (pre ++ [LBRACE] ++ mid), post.
      split_and!; [|assumption|].
      - rewrite <- !app_assoc. reflexivity.
      - rewrite !length_app. reflexivity. }
    rewrite Es, Ee.
    destruct (Nat.leb_spec (length pre + S (length mid)) (length pre)) as [|_]; [lia|].
    f_equal. unfold slice. rewrite drop_app_length.
    replace (length pre + S (length mid) + 1 - length pre)%nat
      with (length ([LBRACE] ++ mid ++ [RBRACE])) by (simpl; rewrite length_app; simpl; lia).
    replace ([LBRACE] ++ mid ++ [RBRACE] ++ post) with (([LBRACE] ++ mid ++ [RBRACE]) ++ post)
      by (simpl; rewrite <- app_assoc; reflexivity).
    apply take_app_length.
Qed.

(** ** Normalized fields *)

Lemma normalizeString_trimmed value : trimmedField value (normalizeString value).
Proof.
  unfold trimmedField, normalizeString.
  destruct value as [[| | |s| |]|]; split; try reflexivity. apply trim_idem.
Qed.

Lemma trimmedField_unique value s : trimmedField value s -> s = normalizeString value.
Proof.
  unfold trimmedField, normalizeString. intros [_ H].
  destruct value as [[| | |raw| |]|]; exact H.
Qed.

Lemma clampConfidence_clamped value : clampedField value (clampConfidence value).
Proof.
  unfold clampedField, clampConfidence, inUnitInterval.
  destruct value as [[| |[q| | |]| | |]|];
    try (split; [split; discriminate | reflexivity]).
  split.
  - split.
    + apply Q.le_max_l.
    + apply Q.max_lub; [lra | apply Q.le_min_l].
  - exists (Qmax 0 (Qmin 1 q)). split; [reflexivity|]. split_and!.
    + intros H0 H1. rewrite (Q.min_r 1 q) by exact H1. apply Q.max_r, H0.
    + intros H0. rewrite (Q.min_r 1 q) by lra. apply Q.max_l. lra.
    + intros H1. rewrite (Q.min_l 1 q) by lra. apply Q.max_r. lra.
Qed.

Section SchemaFacts.

Variable unicode_lower : jsstring -> jsstring.
Variable unicode_upper : jsstring -> jsstring.
Variable JSON_parse : jsstring -> option json.

Lemma normalizePos_in value : normalizePos unicode_lower value ∈ POS_VALUES.
Proof.
  unfold normalizePos. cbv zeta. case_bool_decide as H; [exact H|].
  apply list_elem_of_In. vm_compute. tauto.
Qed.

Lemma normalizeCefr_in value : normalizeCefr unicode_upper value ∈ CEFR_VALUES.
Proof.
  unfold normalizeCefr. cbv zeta. case_bool_decide as H; [exact H|].
  apply list_elem_of_In. vm_compute. tauto.
Qed.

Lemma normalizeWordItem_spec item :
  match normalizeWordItem unicode_lower unicode_upper item with
  | Some e => normalizedEntry unicode_lower unicode_upper item e
  | None => droppedItem item
  end.
Proof.
  unfold normalizeWordItem. destruct (isObject item) eqn:Ho; cbn [negb].
  2: { left. exact Ho. }
  destruct (truthy (normalizeString (prop "word" item))) eqn:Hw; cbn [negb].
  2: { right. intros w H. apply trimmedField_unique in H. subst w.
       apply truthy_false, Hw. }
  unfold normalizedEntry. cbn [word lemma pos cefr definition_simple example_simple].
  split_and!.
  - exact Ho.
  - apply truthy_true, Hw.
  - apply normalizeString_trimmed.
  - intros l H. apply trimmedField_unique in H. subst l. reflexivity.
  - apply normalizePos_in.
  - intros p H. apply trimmedField_unique in H. subst p. reflexivity.
  - apply normalizeCefr_in.
  - intros c H. apply trimmedField_unique in H. subst c. reflexivity.
  - apply normalizeString_trimmed.
  - apply normalizeString_trimmed.
Qed.

Lemma normalizeWordEntries_spec items :
  normalizedEntries unicode_lower unicode_upper items
    (omap (normalizeWordItem unicode_lower unicode_upper) items).
Proof.
  induction items as [|item items IH]; simpl; [constructor|].
  pose proof (normalizeWordItem_spec item) as H.
  destruct (normalizeWordItem unicode_lower unicode_upper item) as [e|].
  - apply normalized_keep; assumption.
  - apply normalized_drop; assumption.
Qed.

Lemma normalizeParsed_spec parsed :
  match normalizeParsed unicode_lower unicode_upper parsed with
  | inl r => isObject parsed = true /\ normalizedResult unicode_lower unicode_upper parsed r
  | inr e => isObject parsed = false /\ e = NotAnObject
  end.
Proof.
  unfold normalizeParsed. destruct (isObject parsed) eqn:Ho; cbn [negb]; [|tauto].
  split; [reflexivity|]. unfold normalizedResult.
  cbn [simple_explanation notes confidence a2_plus_words].
  split_and!.
  - apply normalizeString_trimmed.
  - apply normalizeString_trimmed.
  - apply clampConfidence_clamped.
  - unfold normalizeWordEntries.
    destruct (prop "a2_plus_words" parsed) as [[| | | |items|]|]; try reflexivity.
    apply normalizeWordEntries_spec.
Qed.

End SchemaFacts.

(** C7 (as amended).  [parseAndNormalizeResponse] takes the direct parse of
    the text when it succeeds; otherwise it parses the substring from the
    first opening brace to the last closing brace; when there is no such
    substring, or it does not parse, it signals an error.  A parsed value
    that is not an object (null, a number, a string, a boolean) is an error
    too.  For an object the result has every string field trimmed, the
    confidence clamped to [0,1] (0.5 when it is not a number), and the
    vocabulary entries of the items in order, with unknown part of speech as
    "other", unknown level as "unknown", a missing lemma as the lower-cased
    word, and the items without a word dropped. *)
Theorem parseAndNormalizeResponse_spec
  (unicode_lower unicode_upper : jsstring -> jsstring)
  (JSON_parse : jsstring -> option json) (rawText : jsstring) :
  let result := parseAndNormalizeResponse unicode_lower unicode_upper JSON_parse rawText in
  let finish := normalizeParsed unicode_lower unicode_upper in
  (forall parsed, JSON_parse rawText = Some parsed -> result = finish parsed)
  /\ (JSON_parse rawText = None ->
      forall object, betweenBraces rawText object ->
        result = match JSON_parse object with
                 | Some parsed => finish parsed
                 | None => inr SyntaxError
                 end)
  /\ (JSON_parse rawText = None ->
      (forall object, ~ betweenBraces rawText object) ->
      result = inr NoJsonObject)
  /\ (forall parsed,
        match finish parsed with
        | inl r => isObject parsed = true
                   /\ normalizedResult unicode_lower unicode_upper parsed r
        | inr e => isObject parsed = false /\ e = NotAnObject
        end).
Proof.
  cbv zeta. unfold parseAndNormalizeResponse, parseWithFallback. split_and!.
  - intros parsed ->. reflexivity.
  - intros -> object H. apply extractJsonObject_spec in H. rewrite H.
    destruct (JSON_parse object); reflexivity.
  - intros -> H. destruct (extractJsonObject rawText) as [object|] eqn:E; [|reflexivity].
    apply extractJsonObject_spec in E. exfalso. eapply H, E.
  - apply normalizeParsed_spec.
Qed.

(** A reply with text around the object: the direct parse fails, the
    object between the braces is parsed, the entry without a word is dropped
    and the other one normalized, the confidence clamped. *)
Lemma parseAndNormalizeResponse_spec_witness :
  let rawText := lit "Sure: " ++ sampleObjectText ++ lit " Done." in
  JSON_parse_sample rawText = None
  /\ betweenBraces rawText sampleObjectText
  /\ parseAndNormalizeResponse no_unicode_case no_unicode_case JSON_parse_sample rawText
     = inl {| simple_explanation := [];
              a2_plus_words :=
                [ {| word := lit "Ubiquitous"; lemma := lit "ubiquitous";
                     pos := lit "other"; cefr := lit "C1";
                     definition_simple := []; example_simple := [] |} ];
              notes := [];
              confidence := Finite (Qmax 0 (Qmin 1 2)) |}.
Proof.
  cbv zeta.
  assert (Hnone : JSON_parse_sample (lit "Sure: " ++ sampleObjectText ++ lit " Done.") = None)
    by reflexivity.
  assert (Hbraces : betweenBraces (lit "Sure: " ++ sampleObjectText ++ lit " Done.")
                      sampleObjectText).
  { apply extractJsonObject_spec. reflexivity. }
  split; [exact Hnone|]. split; [exact Hbraces|].
  rewrite (proj1 (proj2 (parseAndNormalizeResponse_spec no_unicode_case no_unicode_case
             JSON_parse_sample (lit "Sure: " ++ sampleObjectText ++ lit " Done.")))
             Hnone sampleObjectText Hbraces).
  reflexivity.
Defined.

(** C7, the claim as stated fails: the text [42] parses at the first
    attempt, and the function signals an error instead of a normalized
    result. *)
Lemma parseAndNormalizeResponse_non_object :
  JSON_parse_sample (lit "42") = Some (JNum (Finite 42))
  /\ parseAndNormalizeResponse no_unicode_case no_unicode_case JSON_parse_sample (lit "42")
     = inr NotAnObject.
Proof. split; reflexivity. Qed.

(** ** The cache key *)

Lemma unhexByte_hexByte b : unhexByte (hexByte b) = Some b.
Proof. destruct b; reflexivity. Qed.

Lemma hexByte_inj b1 b2 : hexByte b1 = hexByte b2 -> b1 = b2.
Proof.
  intros H. apply (f_equal unhexByte) in H.
  rewrite !unhexByte_hexByte in H. congruence.
Qed.

Lemma hex_inj (l1 l2 : list byte) :
  concat (List.map hexByte l1) = concat (List.map hexByte l2) -> l1 = l2.
Proof.
  revert l2. induction l1 as [|b1 l1 IH]; intros [|b2 l2] H; try discriminate.
  - reflexivity.
  - change (hexByte b1 ++ concat (List.map hexByte l1)
            = hexByte b2 ++ concat (List.map hexByte l2)) in H.
    unfold hexByte in H. cbv zeta in H. simpl app in H.
    injection H as Hhi Hlo Hrest.
    f_equal; [|apply IH, Hrest].
    apply hexByte_inj. unfold hexByte. cbv zeta. congruence.
Qed.

Lemma split_at_first_bar (a b x y : jsstring) :
  BAR ∉ a -> BAR ∉ b -> a ++ BAR :: x = b ++ BAR :: y -> a = b /\ x = y.
Proof.
  revert b. induction a as [|c a IH]; intros [|d b] Ha Hb H.
  - injection H as ->. tauto.
  - injection H as <- _. exfalso. apply Hb. left.
  - injection H as -> _. exfalso. apply Ha. left.
  - injection H as -> H.
    apply not_elem_of_cons in Ha as [_ Ha]. apply not_elem_of_cons in Hb as [_ Hb].
    destruct (IH b Ha Hb H) as [-> ->]. tauto.
Qed.

Lemma split_at_last_bar (a b x y : jsstring) :
  BAR ∉ a -> BAR ∉ b -> x ++ BAR :: a = y ++ BAR :: b -> a = b /\ x = y.
Proof.
  intros Ha Hb H. apply (f_equal (@rev N)) in H.
  rewrite !rev_app_distr in H. simpl in H. rewrite <- !app_assoc in H. simpl in H.
  destruct (split_at_first_bar (rev a) (rev b) (rev x) (rev y)) as [E1 E2].
  - intros Hin. apply Ha, list_elem_of_In, in_rev, list_elem_of_In, Hin.
  - intros Hin. apply Hb, list_elem_of_In, in_rev, list_elem_of_In, Hin.
  - exact H.
  - split; apply rev_inj; assumption.
Qed.

Lemma serializeCacheKey_eq o t m mo v :
  serializeCacheKey (mkCacheKeyParts o t m mo v)
  = o ++ BAR :: BAR :: t ++ BAR :: BAR :: m ++ BAR :: BAR :: mo ++ BAR :: BAR :: v.
Proof. reflexivity. Qed.

Lemma serializeCacheKey_inj p1 p2 :
  barFree p1 -> barFree p2 ->
  serializeCacheKey p1 = serializeCacheKey p2 -> p1 = p2.
Proof.
  destruct p1 as [o1 t1 m1 mo1 v1], p2 as [o2 t2 m2 mo2 v2].
  unfold barFree. cbn [pageOrigin explanationMode model modelVersion].
  rewrite !serializeCacheKey_eq.
  intros (Ho1 & Hm1 & Hmo1 & Hv1) (Ho2 & Hm2 & Hmo2 & Hv2) H.
  apply split_at_first_bar in H as [-> H]; [|assumption..].
  injection H as H.
  assert (Hv : forall t m mo v : jsstring,
    t ++ BAR :: BAR :: m ++ BAR :: BAR :: mo ++ BAR :: BAR :: v
    = (t ++ BAR :: BAR :: m ++ BAR :: BAR :: mo ++ [BAR]) ++ BAR :: v).
  { intros. repeat (rewrite <- !app_assoc; cbn [app]). reflexivity. }
  rewrite !Hv in H. apply split_at_last_bar in H as [-> H]; [|assumption..].
  assert (Hmo : forall t m mo : jsstring,
    t ++ BAR :: BAR :: m ++ BAR :: BAR :: mo ++ [BAR]
    = ((t ++ BAR :: BAR :: m ++ [BAR]) ++ BAR :: mo) ++ [BAR]).
  { intros. repeat (rewrite <- !app_assoc; cbn [app]). reflexivity. }
  rewrite !Hmo in H. apply app_inj_tail in H as [H _].
  apply split_at_last_bar in H as [-> H]; [|assumption..].
  assert (Hm : forall t m : jsstring,
    t ++ BAR :: BAR :: m ++ [BAR] = ((t ++ [BAR]) ++ BAR :: m) ++ [BAR]).
  { intros. repeat (rewrite <- !app_assoc; cbn [app]). reflexivity. }
  rewrite !Hm in H. apply app_inj_tail in H as [H _].
  apply split_at_last_bar in H as [-> H]; [|assumption..].
  apply app_inj_tail in H as [-> _]. reflexivity.
Qed.

(** C6 (as amended).  The fingerprint is a function of the five parts: the
    hexadecimal rendering of the digest of their serialization.  Two tuples
    without a vertical bar in origin, mode, model and version share a
    fingerprint exactly when they are the same tuple or their distinct
    serializations have the same digest. *)
Theorem buildCacheKey_fingerprint
  (utf8_encode : jsstring -> list byte) (sha256_digest : list byte -> list byte)
  (p1 p2 : CacheKeyParts) :
  barFree p1 -> barFree p2 ->
  (buildCacheKey utf8_encode sha256_digest p1 = buildCacheKey utf8_encode sha256_digest p2
   <-> p1 = p2
       \/ (serializeCacheKey p1 <> serializeCacheKey p2
           /\ sha256_digest (utf8_encode (serializeCacheKey p1))
              = sha256_digest (utf8_encode (serializeCacheKey p2)))).
Proof.
  intros H1 H2. unfold buildCacheKey, sha256. split.
  - intros H. apply hex_inj in H.
    destruct (decide (serializeCacheKey p1 = serializeCacheKey p2)) as [E|E].
    + left. apply serializeCacheKey_inj; assumption.
    + right. split; assumption.
  - intros [->|[_ H]]; [reflexivity|]. rewrite H. reflexivity.
Qed.

Lemma buildCacheKey_fingerprint_witness :
  let p1 := mkCacheKeyParts (lit "https://a.example") (lit "some | text")
              (lit "balanced") (lit "gpt-5-nano") (lit "easyread-mvp-2026-02") in
  let p2 := mkCacheKeyParts (lit "https://a.example") (lit "other text")
              (lit "balanced") (lit "gpt-5-nano") (lit "easyread-mvp-2026-02") in
  barFree p1 /\ barFree p2
  /\ (buildCacheKey latin1_encode identity_digest p1 = buildCacheKey latin1_encode identity_digest p2
      <-> p1 = p2
          \/ (serializeCacheKey p1 <> serializeCacheKey p2
              /\ identity_digest (latin1_encode (serializeCacheKey p1))
                 = identity_digest (latin1_encode (serializeCacheKey p2)))).
Proof.
  cbv zeta.
  assert (Hfree : forall t, barFree (mkCacheKeyParts (lit "https://a.example") t
             (lit "balanced") (lit "gpt-5-nano") (lit "easyread-mvp-2026-02"))).
  { intros t. unfold barFree. cbn [pageOrigin explanationMode model modelVersion].
    split_and!; apply (proj1 (bool_decide_eq_false _)); vm_compute; reflexivity. }
  split; [apply Hfree|]. split; [apply Hfree|].
  apply buildCacheKey_fingerprint; apply Hfree.
Defined.

(** C6, the claim as stated fails: the separator is not escaped, so two
    different tuples have the same serialization and, whatever the encoder
    and the digest, the same fingerprint. *)
Lemma buildCacheKey_collision :
  let p1 := mkCacheKeyParts (lit "x||y") (lit "z") (lit "balanced") (lit "gpt-5-nano") (lit "v") in
  let p2 := mkCacheKeyParts (lit "x") (lit "y||z") (lit "balanced") (lit "gpt-5-nano") (lit "v") in
  p1 <> p2
  /\ forall utf8_encode sha256_digest,
       buildCacheKey utf8_encode sha256_digest p1 = buildCacheKey utf8_encode sha256_digest p2.
Proof.
  cbv zeta. split; [discriminate|]. intros. reflexivity.
Qed.

(** ** withExponentialBackoff *)

Lemma runShape_last_only {V} (trace : list (backoffEvent V)) :
  runShape trace ->
  forall outcome, Attempt outcome ∈ trace ->
    last trace = Some (Attempt outcome)
    \/ exists error, outcome = inr error /\ isRetriable error = true.
Proof.
  induction 1 as [o|error ms rest Hr Hs IH]; intros outcome Hin.
  - apply list_elem_of_singleton in Hin. injection Hin as ->. left. reflexivity.
  - apply elem_of_cons in Hin as [Hin|Hin].
    + injection Hin as ->. right. eauto.
    + apply elem_of_cons in Hin as [Hin|Hin]; [discriminate|].
      destruct (IH outcome Hin) as [Hl|Hl]; [left | right; exact Hl].
      inversion Hs; subst; exact Hl.
Qed.

Section BackoffFacts.

Context {W V : Type}.
Variable action : W -> (V + jsError) * W.
Variable randomJitter : W -> Z * W.
Variable sleep : Z -> W -> W.

Hypothesis jitter_range : forall w, 0 <= fst (randomJitter w) < 150.

Local Abbreviation loop := (backoffLoop action randomJitter sleep).

Lemma backoffLoop_run remaining :
  forall waitMs lastError w trace0 result w' trace,
    0 <= waitMs ->
    loop remaining waitMs lastError w trace0 = (result, w', trace) ->
    exists run,
      trace = trace0 ++ run
      /\ (length (attemptsOf run) <= remaining)%nat
      /\ (forall k ms, sleepsOf run !! k = Some ms ->
            waitMs * 2 ^ Z.of_nat k <= ms < waitMs * 2 ^ Z.of_nat k + 150)
      /\ (remaining = O -> run = [] /\ result = inr (default requestFailed lastError))
      /\ ((0 < remaining)%nat ->
            runShape run
            /\ last run = Some (Attempt result)
            /\ (forall error, result = inr error ->
                  isRetriable error = false \/ length (attemptsOf run) = remaining)).
Proof.
  induction remaining as [|remaining IH]; intros waitMs lastError w trace0 result w' trace Hw H.
  - simpl in H. injection H as <- <- <-. exists []. rewrite app_nil_r.
    split_and!; try reflexivity.
    + intros k ms Hk. simpl in Hk. try rewrite lookup_nil in Hk. discriminate.
    + tauto.
    + lia.
  - simpl in H. destruct (action w) as [outcome w1].
    destruct outcome as [value|error].
    + injection H as <- <- <-. exists [Attempt (inl value)].
      split_and!; try reflexivity.
      * simpl. lia.
      * intros k ms Hk. simpl in Hk. try rewrite lookup_nil in Hk. discriminate.
      * discriminate.
      * intros _. split_and!; [constructor | reflexivity | discriminate].
    + destruct (negb (isRetriable error) || (remaining =? 0)%nat) eqn:Hstop.
      * injection H as <- <- <-. exists [Attempt (inr error)].
        split_and!; try reflexivity.
        -- simpl. lia.
        -- intros k ms Hk. simpl in Hk. try rewrite lookup_nil in Hk. discriminate.
        -- discriminate.
        -- intros _. split_and!; [constructor | reflexivity |].
           intros e He. injection He as <-.
           apply orb_true_iff in Hstop as [Hstop|Hstop].
           ++ left. apply negb_true_iff, Hstop.
           ++ right. apply Nat.eqb_eq in Hstop. subst. reflexivity.
      * apply orb_false_iff in Hstop as [Hret Hrem].
        apply negb_false_iff in Hret. apply Nat.eqb_neq in Hrem.
        pose proof (jitter_range w1) as Hj.
        destruct (randomJitter w1) as [jitter w2]. simpl in Hj.
        apply IH in H as (run & -> & Hn & Hs & _ & Hpos); [|lia].
        destruct Hpos as (Hshape & Hlast & Hres); [lia|].
        exists (Attempt (inr error) :: Sleep (waitMs + jitter) :: run).
        split_and!.
        -- rewrite <- !app_assoc. reflexivity.
        -- simpl. lia.
        -- intros [|k] ms Hk; simpl in Hk.
           ++ injection Hk as <-. simpl. lia.
           ++ apply Hs in Hk. rewrite Nat2Z.inj_succ, Z.pow_succ_r by lia. lia.
        -- discriminate.
        -- intros _. split_and!.
           ++ constructor; assumption.
           ++ inversion Hshape; subst; exact Hlast.
           ++ intros e He. destruct (Hres e He) as [?|Hlen]; [tauto|].
              right. simpl. lia.
Qed.

End BackoffFacts.

Section BackoffCalls.

Context {W V : Type}.
Variable action : W -> (V + jsError) * W.
Variable randomJitter : W -> Z * W.
Variable sleep : Z -> W -> W.

Local Abbreviation loop := (backoffLoop action randomJitter sleep).

(** The invocations of the action in a run of the loop, each with the world
    before it, its outcome and the world after it. *)
Lemma backoffLoop_calls remaining :
  forall waitMs lastError w trace0,
    (0 < remaining)%nat ->
    exists calls : list (W * (V + jsError) * W),
      (1 <= length calls <= remaining)%nat
      /\ (forall k before outcome after,
            calls !! k = Some (before, outcome, after) -> action before = (outcome, after))
      /\ (exists outcome after, calls !! 0%nat = Some (w, outcome, after))
      /\ (forall k before outcome after next,
            calls !! k = Some (before, outcome, after) ->
            calls !! S k = Some next ->
            exists error,
              outcome = inr error /\ isRetriable error = true
              /\ fst (fst next)
                 = sleep (waitMs * 2 ^ Z.of_nat k + fst (randomJitter after))
                     (snd (randomJitter after)))
      /\ (exists before,
            last calls
            = Some (before, fst (fst (loop remaining waitMs lastError w trace0)),
                    snd (fst (loop remaining waitMs lastError w trace0))))
      /\ (exists run,
            snd (loop remaining waitMs lastError w trace0) = trace0 ++ run
            /\ attemptsOf run = List.map (fun call => snd (fst call)) calls
            /\ (length (sleepsOf run) + 1 = length calls)%nat
            /\ forall k before outcome after,
                 calls !! k = Some (before, outcome, after) ->
                 (S k < length calls)%nat ->
                 sleepsOf run !! k
                 = Some (waitMs * 2 ^ Z.of_nat k + fst (randomJitter after)))
      /\ (forall error,
            fst (fst (loop remaining waitMs lastError w trace0)) = inr error ->
            isRetriable error = false \/ length calls = remaining).
Proof.
  induction remaining as [|remaining IH]; intros waitMs lastError w trace0 Hpos; [lia|].
  cbn [backoffLoop]. destruct (action w) as [outcome w1] eqn:Eaction.
  assert (Hone : forall result,
    (outcome = result) ->
    (forall error, result = inr error -> isRetriable error = false \/ remaining = O) ->
    exists calls : list (W * (V + jsError) * W),
      (1 <= length calls <= S remaining)%nat
      /\ (forall k before outcome0 after,
            calls !! k = Some (before, outcome0, after) -> action before = (outcome0, after))
      /\ (exists outcome0 after, calls !! 0%nat = Some (w, outcome0, after))
      /\ (forall k before outcome0 after next,
            calls !! k = Some (before, outcome0, after) ->
            calls !! S k = Some next ->
            exists error,
              outcome0 = inr error /\ isRetriable error = true
              /\ fst (fst next)
                 = sleep (waitMs * 2 ^ Z.of_nat k + fst (randomJitter after))
                     (snd (randomJitter after)))
      /\ (exists before, last calls = Some (before, result, w1))
      /\ (exists run,
            trace0 ++ [Attempt outcome] = trace0 ++ run
            /\ attemptsOf run = List.map (fun call => snd (fst call)) calls
            /\ (length (sleepsOf run) + 1 = length calls)%nat
            /\ forall k before outcome0 after,
                 calls !! k = Some (before, outcome0, after) ->
                 (S k < length calls)%nat ->
                 sleepsOf run !! k
                 = Some (waitMs * 2 ^ Z.of_nat k + fst (randomJitter after)))
      /\ (forall error, result = inr error ->
            isRetriable error = false \/ length calls = S remaining)).
  { intros result <- Hstop. exists [(w, outcome, w1)]. split_and!.
    - simpl. lia.
    - simpl. lia.
    - intros [|k] before outcome0 after Hk; [|discriminate Hk].
      injection Hk as <- <- <-. exact Eaction.
    - eauto.
    - intros [|k] before outcome0 after next _ Hn; discriminate Hn.
    - eauto.
    - exists [Attempt outcome]. split_and!; try reflexivity.
      intros k before outcome0 after _ Hk. simpl in Hk. lia.
    - intros error He. destruct (Hstop error He) as [Hr | Hz]; [left; exact Hr | right; rewrite Hz; reflexivity]. }
  destruct outcome as [value|error].
  - cbn [fst snd]. apply Hone; [reflexivity | discriminate].
  - destruct (negb (isRetriable error) || (remaining =? 0)%nat) eqn:Hstop.
    + cbn [fst snd]. apply Hone; [reflexivity|].
      intros e [= <-]. apply orb_true_iff in Hstop as [Hs|Hs].
      * left. apply negb_true_iff, Hs.
      * right. apply Nat.eqb_eq, Hs.
    + clear Hone. apply orb_false_iff in Hstop as [Hret Hrem].
      apply negb_false_iff in Hret. apply Nat.eqb_neq in Hrem.
      destruct (randomJitter w1) as [jitter w2] eqn:Ejitter.
      set (w3 := sleep (waitMs + jitter) w2).
      set (trace1 := (trace0 ++ [Attempt (inr error)]) ++ [Sleep (waitMs + jitter)]).
      destruct (IH (waitMs * 2) (Some error) w3 trace1) as
        (calls & Hlen & Hact & (o0 & a0 & Hhead) & Hnext & (b & Hlast) & Hrun & Hend); [lia|].
      destruct Hrun as (run & Etrace & Hatt & Hsl & Hsleeps).
      exists ((w, inr error, w1) :: calls). split_and!.
      * simpl. lia.
      * simpl. lia.
      * intros [|k] before outcome0 after Hk.
        -- injection Hk as <- <- <-. exact Eaction.
        -- eapply Hact, Hk.
      * eauto.
      * intros [|k] before outcome0 after next Hk Hn.
        -- injection Hk as <- <- <-. change (calls !! 0%nat = Some next) in Hn.
           rewrite Hhead in Hn. injection Hn as <-.
           exists error. split_and!; [reflexivity | exact Hret |].
           cbn [fst]. rewrite Ejitter. cbn [fst snd].
           replace (waitMs * 2 ^ Z.of_nat 0) with waitMs by (simpl; lia). reflexivity.
        -- destruct (Hnext k before outcome0 after next Hk Hn) as (e & He & Hr & Hw).
           exists e. split_and!; [exact He | exact Hr |].
           rewrite Hw. rewrite Nat2Z.inj_succ, Z.pow_succ_r by lia.
           replace (waitMs * (2 * 2 ^ Z.of_nat k)) with (waitMs * 2 * 2 ^ Z.of_nat k) by lia.
           reflexivity.
      * exists b. destruct calls as [|c calls']; [simpl in Hlen; lia|].
        rewrite last_cons_cons. exact Hlast.
      * exists (Attempt (inr error) :: Sleep (waitMs + jitter) :: run). split_and!.
        -- rewrite Etrace. unfold trace1. rewrite <- !app_assoc. reflexivity.
        -- cbn. f_equal. exact Hatt.
        -- change (sleepsOf (Attempt (inr error) :: Sleep (waitMs + jitter) :: run))
             with ((waitMs + jitter) :: sleepsOf run).
           simpl. lia.
        -- change (sleepsOf (Attempt (inr error) :: Sleep (waitMs + jitter) :: run))
             with ((waitMs + jitter) :: sleepsOf run).
           intros [|k] before outcome0 after Hk Hlt.
           ++ injection Hk as <- <- <-. cbn [lookup list_lookup]. rewrite Ejitter. cbn [fst].
              replace (waitMs * 2 ^ Z.of_nat 0) with waitMs by (simpl; lia). reflexivity.
           ++ change (((waitMs + jitter) :: sleepsOf run) !! S k) with (sleepsOf run !! k).
              change (calls !! k = Some (before, outcome0, after)) in Hk.
              simpl in Hlt. rewrite (Hsleeps k before outcome0 after Hk) by lia.
              rewrite Nat2Z.inj_succ, Z.pow_succ_r by lia.
              replace (waitMs * (2 * 2 ^ Z.of_nat k)) with (waitMs * 2 * 2 ^ Z.of_nat k) by lia.
              reflexivity.
      * intros e He. destruct (Hend e He) as [Hr|Hl]; [left; exact Hr | right; simpl; lia].
Qed.

End BackoffCalls.

(** C5.  [withExponentialBackoff] invokes the action at most [maxAttempts]
    times (three times under [postResponsesPayload]), the first time in the
    world it starts in.  After an invocation that fails with a retriable
    error, and only then, it draws the jitter and sleeps [600 * 2^k]
    milliseconds plus the jitter, where [k] counts the failures so far from
    0, and invokes the action again in the world that the sleep leaves.  The
    run ends with the first invocation that succeeds, fails with an error
    that is not retriable or is the [maxAttempts]-th: the result is the
    outcome of that invocation, its value returned or its error thrown
    again, and the world is the one that invocation leaves.  The trace
    lists these invocations and sleeps in their order. *)
Theorem withExponentialBackoff_spec {W V : Type}
  (action : W -> (V + jsError) * W) (randomJitter : W -> Z * W) (sleep : Z -> W -> W)
  (maxAttempts : nat) (w : W) :
  (forall w, 0 <= fst (randomJitter w) < 150) ->
  let run := withExponentialBackoff action randomJitter sleep maxAttempts w in
  let result := fst (fst run) in
  let final := snd (fst run) in
  let trace := snd run in
  (length (attemptsOf trace) <= maxAttempts)%nat
  /\ (length (attemptsOf (snd (postResponsesPayload action randomJitter sleep w))) <= 3)%nat
  /\ (forall k ms, sleepsOf trace !! k = Some ms ->
        600 * 2 ^ Z.of_nat k <= ms < 600 * 2 ^ Z.of_nat k + 150)
  /\ (maxAttempts = O -> trace = [] /\ result = inr requestFailed /\ final = w)
  /\ ((0 < maxAttempts)%nat ->
        runShape trace
        /\ last trace = Some (Attempt result)
        /\ (forall outcome, Attempt outcome ∈ trace ->
              outcome = result
              \/ exists error, outcome = inr error /\ isRetriable error = true)
        /\ (forall error, result = inr error ->
              isRetriable error = false \/ length (attemptsOf trace) = maxAttempts)
        /\ exists calls : list (W * (V + jsError) * W),
             (1 <= length calls <= maxAttempts)%nat
             /\ (forall k before outcome after,
                   calls !! k = Some (before, outcome, after) ->
                   action before = (outcome, after))
             /\ (exists outcome after, calls !! 0%nat = Some (w, outcome, after))
             /\ (forall k before outcome after next,
                   calls !! k = Some (before, outcome, after) ->
                   calls !! S k = Some next ->
                   exists error,
                     outcome = inr error /\ isRetriable error = true
                     /\ fst (fst next)
                        = sleep (600 * 2 ^ Z.of_nat k + fst (randomJitter after))
                            (snd (randomJitter after)))
             /\ (exists before, last calls = Some (before, result, final))
             /\ attemptsOf trace = List.map (fun call => snd (fst call)) calls
             /\ (length (sleepsOf trace) + 1 = length calls)%nat
             /\ (forall k before outcome after,
                   calls !! k = Some (before, outcome, after) ->
                   (S k < length calls)%nat ->
                   sleepsOf trace !! k
                   = Some (600 * 2 ^ Z.of_nat k + fst (randomJitter after)))
             /\ (forall error, result = inr error ->
                   isRetriable error = false \/ length calls = maxAttempts)).
Proof.
  intros Hj. cbv zeta.
  assert (Hcap : forall n,
    (length (attemptsOf (snd (withExponentialBackoff action randomJitter sleep n w))) <= n)%nat).
  { intros n. unfold withExponentialBackoff.
    destruct (backoffLoop action randomJitter sleep n 600 None w []) as [[r w'] tr] eqn:E.
    apply (backoffLoop_run action randomJitter sleep Hj) in E as (run & -> & Hn & _); [|lia].
    exact Hn. }
  split; [apply Hcap|]. split; [apply Hcap|].
  unfold withExponentialBackoff.
  destruct (backoffLoop action randomJitter sleep maxAttempts 600 None w [])
    as [[result w'] trace] eqn:E.
  pose proof E as E0.
  apply (backoffLoop_run action randomJitter sleep Hj) in E
    as (run & -> & Hn & Hs & Hzero & Hpos); [|lia].
  cbn [fst snd app]. split_and!.
  - exact Hs.
  - intros ->. destruct (Hzero eq_refl) as [-> ->]. cbn in E0.
    assert (Hw : w' = w) by congruence. rewrite Hw. split_and!; reflexivity.
  - intros Hp. destruct (Hpos Hp) as (Hshape & Hlast & Hres). split_and!; try assumption.
    + intros outcome Hin.
      destruct (runShape_last_only run Hshape outcome Hin) as [Hl|Hl]; [left | right; exact Hl].
      congruence.
    + destruct (backoffLoop_calls action randomJitter sleep maxAttempts 600 None w [] Hp)
        as (calls & Hlen & Hact & Hhead & Hnext & Hl & (run' & Etr & Hatt & Hsl & Hsleeps) & Hend).
      rewrite E0 in Hl, Etr, Hend. cbn [fst snd app] in Hl, Etr, Hend. subst run'.
      exists calls. split_and!; try assumption; lia.
Qed.

(** The scenario of the description: four retriable failures and then a
    success, under the cap of 3.  The third error is thrown after three
    attempts and two waits, of 600 and 1200 milliseconds plus the jitter;
    the fourth and fifth calls are never made. *)
Lemma withExponentialBackoff_spec_witness :
  (forall w, 0 <= fst (jitterOfSeven w) < 150)
  /\ postResponsesPayload failingFourTimesSlept jitterOfSeven sleepKept (0%nat, [])
     = (inr proxyRetryable, (3%nat, [607; 1207]),
        [Attempt (inr proxyRetryable); Sleep 607;
         Attempt (inr proxyRetryable); Sleep 1207;
         Attempt (inr proxyRetryable)])
  /\ (length (attemptsOf (snd (withExponentialBackoff failingFourTimesSlept jitterOfSeven
                                 sleepKept 3 (0%nat, [])))) <= 3)%nat.
Proof.
  assert (Hj : forall w, 0 <= fst (jitterOfSeven w) < 150) by (intros w; simpl; lia).
  split; [exact Hj|]. split; [reflexivity|].
  exact (proj1 (withExponentialBackoff_spec failingFourTimesSlept jitterOfSeven sleepKept 3
                  (0%nat, []) Hj)).
Defined.

(** ** mapWithConcurrency *)

Lemma awaitingCount_app {B} (ws vs : list (worker B)) :
  awaitingCount (ws ++ vs) = (awaitingCount ws + awaitingCount vs)%nat.
Proof. unfold awaitingCount. rewrite List.filter_app, length_app. reflexivity. Qed.

Lemma awaitingCount_insert {B} (ws : list (worker B)) i old new :
  ws !! i = Some old ->
  (awaitingCount (<[i := new]> ws) + (if isAwaiting old then 1 else 0)
   = awaitingCount ws + (if isAwaiting new then 1 else 0))%nat.
Proof.
  revert i. induction ws as [|w ws IH]; intros [|i] H; simpl in H; try discriminate.
  - injection H as ->. unfold awaitingCount. simpl.
    destruct (isAwaiting old), (isAwaiting new); simpl; lia.
  - specialize (IH i H). unfold awaitingCount in *. simpl.
    destruct (isAwaiting w); simpl; lia.
Qed.

Lemma awaitingCount_pos {B} (ws : list (worker B)) :
  existsb isAwaiting ws = true ->
  exists i c p, ws !! i = Some (Awaiting c p).
Proof.
  induction ws as [|w ws IH]; simpl; [discriminate|].
  destruct w as [c p| |e]; simpl.
  - intros _. exists O, c, p. reflexivity.
  - intros H. destruct (IH H) as (i & c & p & Hi). exists (S i), c, p. exact Hi.
  - intros H. destruct (IH H) as (i & c & p & Hi). exists (S i), c, p. exact Hi.
Qed.

Lemma no_awaiting_count {B} (ws : list (worker B)) :
  existsb isAwaiting ws = false -> awaitingCount ws = O.
Proof.
  unfold awaitingCount. induction ws as [|w ws IH]; simpl; [reflexivity|].
  destruct (isAwaiting w); simpl; [discriminate | exact IH].
Qed.

Lemma imap_take_S {A C} (f : nat -> A -> C) (l : list A) n a :
  l !! n = Some a ->
  imap f (take (S n) l) = imap f (take n l) ++ [f n a].
Proof.
  intros H. rewrite (take_S_r l n a H), imap_app. simpl.
  rewrite length_take, Nat.min_l, Nat.add_0_r; [reflexivity|].
  apply lookup_lt_Some in H. lia.
Qed.

Section PoolFacts.

Context {A B : Type}.
Variable mapper : A -> nat -> B + jsError.
Variable items : list A.

Local Abbreviation Inv := (poolInv mapper items).

(** Entering the loop, with the worker put at the end or in place. *)
Lemma enterLoop_inv st w st' (place : list (worker B) -> list (worker B)) :
  (nextIndex st <= length items)%nat ->
  length (results st) = length items ->
  calls st = imap (fun index item => (item, index)) (take (nextIndex st) items) ->
  enterLoop mapper items st = (w, st') ->
  (forall j x, place (workers st) !! j = Some x ->
     x = w
     \/ ((forall c p, x = Awaiting c p -> exists a, items !! c = Some a /\ p = mapper a c)
         /\ (x = Finished -> nextIndex st = length items)
         /\ (rejection st = None -> forall e, x <> Failed e))) ->
  (exists j, place (workers st) !! j = Some w) ->
  (forall k a, (k < nextIndex st)%nat -> items !! k = Some a ->
     (exists v, mapper a k = inl v /\ results st !! k = Some (Some v))
     \/ (exists j p, place (workers st) !! j = Some (Awaiting k p))
     \/ (exists j e, place (workers st) !! j = Some (Failed e))) ->
  (forall e, rejection st = Some e -> exists k a, items !! k = Some a /\ mapper a k = inr e) ->
  Inv (mkPool (nextIndex st') (results st') (place (workers st')) (calls st') (rejection st')).
Proof.
  intros Hn Hr Hc He Hfrom Hnew Hs Horigin.
  unfold enterLoop in He.
  destruct (items !! nextIndex st) as [item|] eqn:Hit.
  - injection He as <- <-. cbn [nextIndex results workers calls rejection].
    pose proof (lookup_lt_Some _ _ _ Hit) as Hlt.
    unfold poolInv. cbn [nextIndex results workers calls rejection]. split_and!.
    + lia.
    + exact Hr.
    + rewrite Hc. symmetry. apply (imap_take_S (fun index item => (item, index))), Hit.
    + intros j c p Hj. destruct (Hfrom j _ Hj) as [E|(Ha & _ & _)].
      * injection E as -> ->. eauto.
      * eapply Ha. reflexivity.
    + intros j Hj. destruct (Hfrom j _ Hj) as [E|(_ & Hf & _)]; [discriminate|].
      specialize (Hf eq_refl). lia.
    + intros k a Hk Hka. destruct (decide (k = nextIndex st)) as [->|Hne].
      * right; left. destruct Hnew as [j Hj]. eauto.
      * apply Hs; [lia | exact Hka].
    + intros Hnone j e Hj. destruct (Hfrom j _ Hj) as [E|(_ & _ & Hrej)]; [discriminate|].
      eapply Hrej; eauto.
    + exact Horigin.
  - injection He as <- <-.
    apply lookup_ge_None in Hit.
    unfold poolInv. cbn [nextIndex results workers calls rejection]. split_and!.
    + exact Hn.
    + exact Hr.
    + exact Hc.
    + intros j c p Hj. destruct (Hfrom j _ Hj) as [E|(Ha & _ & _)]; [discriminate|].
      eapply Ha. reflexivity.
    + intros j Hj. lia.
    + exact Hs.
    + intros Hnone j e Hj. destruct (Hfrom j _ Hj) as [E|(_ & _ & Hrej)]; [discriminate|].
      eapply Hrej; eauto.
    + exact Horigin.
Qed.

Lemma enterLoop_workers st w st' :
  enterLoop mapper items st = (w, st') ->
  workers st' = workers st /\ results st' = results st /\ rejection st' = rejection st.
Proof.
  unfold enterLoop. destruct (items !! nextIndex st); intros H; injection H as <- <-; tauto.
Qed.

Lemma spawnWorker_inv st : Inv st -> Inv (spawnWorker mapper items st).
Proof.
  intros (Hn & Hr & Hc & Ha & Hf & Hs & Hrej & Horigin). unfold spawnWorker.
  destruct (enterLoop mapper items st) as [w st'] eqn:He.
  destruct (enterLoop_workers _ _ _ He) as (Hw & _ & _).
  rewrite Hw.
  change (Inv (mkPool (nextIndex st') (results st') ((fun ws => ws ++ [w]) (workers st))
                      (calls st') (rejection st'))).
  rewrite <- Hw.
  apply (enterLoop_inv st w st' (fun ws => ws ++ [w]) Hn Hr Hc He).
  - intros j x Hj. apply lookup_app_Some in Hj as [Hj|[_ Hj]].
    + right. split_and!.
      * intros c p ->. eapply Ha, Hj.
      * intros ->. eapply Hf, Hj.
      * intros Hnone e ->. eapply Hrej; eauto.
    + left. apply list_lookup_singleton_Some in Hj as [_ <-]. reflexivity.
  - exists (length (workers st)). rewrite lookup_app_r by lia.
    rewrite Nat.sub_diag. reflexivity.
  - intros k a Hk Hka. destruct (Hs k a Hk Hka) as [?|[(i & p & Hi)|(i & e & Hi)]].
    + left. assumption.
    + right; left. exists i, p. apply lookup_app_l_Some, Hi.
    + right; right. exists i, e. apply lookup_app_l_Some, Hi.
  - exact Horigin.
Qed.

Lemma resumeWorker_inv i st st' :
  Inv st -> resumeWorker mapper items i st = Some st' -> Inv st'.
Proof.
  intros (Hn & Hr & Hc & Ha & Hf & Hs & Hrej & Horigin) H. unfold resumeWorker in H.
  destruct (workers st !! i) as [[c [value|error]| |e]|] eqn:Hi; try discriminate.
  - (* the value is stored and the worker goes round the loop *)
    destruct (Ha i c _ Hi) as (ac & Hac & Hval). symmetry in Hval.
    set (st1 := mkPool (nextIndex st) (<[c:=Some value]> (results st))
                       (workers st) (calls st) (rejection st)) in H.
    destruct (enterLoop mapper items st1) as [w st2] eqn:He.
    injection H as <-.
    apply (enterLoop_inv st1 w st2 (fun ws => <[i := w]> ws)).
    + exact Hn.
    + unfold st1. cbn [results]. rewrite length_insert. exact Hr.
    + exact Hc.
    + exact He.
    + unfold st1. cbn [workers nextIndex rejection]. intros j x Hj.
      destruct (decide (j = i)) as [->|Hne].
      * left. rewrite list_lookup_insert_eq in Hj by (eapply lookup_lt_Some, Hi).
        congruence.
      * right. rewrite list_lookup_insert_ne in Hj by congruence. split_and!.
        -- intros c' p ->. eapply Ha, Hj.
        -- intros ->. eapply Hf, Hj.
        -- intros Hnone e ->. eapply Hrej; eauto.
    + unfold st1. cbn [workers]. exists i.
      apply list_lookup_insert_eq. eapply lookup_lt_Some, Hi.
    + unfold st1. cbn [workers nextIndex results]. intros k a Hk Hka.
      destruct (decide (k = c)) as [->|Hkc].
      * left. exists value. split; [congruence|].
        apply list_lookup_insert_eq. rewrite Hr. eapply lookup_lt_Some, Hac.
      * destruct (Hs k a Hk Hka) as [(v & Hv & Hres)|[(j & p & Hj)|(j & e & Hj)]].
        -- left. exists v. split; [exact Hv|]. rewrite list_lookup_insert_ne by congruence.
           exact Hres.
        -- right; left. exists j, p. rewrite list_lookup_insert_ne; [exact Hj|].
           intros ->. congruence.
        -- right; right. exists j, e. rewrite list_lookup_insert_ne; [exact Hj|].
           intros ->. congruence.
    + exact Horigin.
  - (* the rejection stops the worker *)
    injection H as <-. unfold poolInv. cbn [nextIndex results workers calls rejection].
    pose proof (lookup_lt_Some _ _ _ Hi) as Hlt.
    split_and!; try assumption.
    + intros j c' p Hj. destruct (decide (j = i)) as [->|Hne].
      * rewrite list_lookup_insert_eq in Hj by exact Hlt. discriminate.
      * rewrite list_lookup_insert_ne in Hj by congruence. eapply Ha, Hj.
    + intros j Hj. destruct (decide (j = i)) as [->|Hne].
      * rewrite list_lookup_insert_eq in Hj by exact Hlt. discriminate.
      * rewrite list_lookup_insert_ne in Hj by congruence. eapply Hf, Hj.
    + intros k a Hk Hka. right; right. exists i, error.
      apply list_lookup_insert_eq, Hlt.
    + destruct (rejection st); discriminate.
    + intros e He. destruct (rejection st) as [e0|] eqn:Hrj.
      * apply Horigin. congruence.
      * injection He as <-. destruct (Ha i c _ Hi) as (a & Hca & Hp). eauto.
Qed.

Lemma emptyPool_inv : Inv (emptyPool items).
Proof.
  unfold poolInv, emptyPool. cbn [nextIndex results workers calls rejection]. split_and!.
  - lia.
  - apply length_replicate.
  - reflexivity.
  - intros i c p H. rewrite lookup_nil in H. discriminate.
  - intros i H. rewrite lookup_nil in H. discriminate.
  - intros k a Hk. lia.
  - intros _ i e H. rewrite lookup_nil in H. discriminate.
  - discriminate.
Qed.

Lemma initialPool_inv limit : Inv (initialPool mapper items limit).
Proof.
  unfold initialPool. induction (Z.to_nat (safeLimit items limit)) as [|n IH]; simpl.
  - apply emptyPool_inv.
  - apply spawnWorker_inv, IH.
Qed.

Lemma reachable_inv limit st :
  rtc (poolStep mapper items) (initialPool mapper items limit) st -> Inv st.
Proof.
  intros H.
  revert st H. apply (rtc_ind_r (R := poolStep mapper items) (fun st => Inv st)).
  - apply initialPool_inv.
  - intros y z _ [i Hi] IH. eapply resumeWorker_inv; eauto.
Qed.

(** *** The number of workers *)

Lemma spawnWorker_workers st :
  length (workers (spawnWorker mapper items st)) = S (length (workers st)).
Proof.
  unfold spawnWorker. destruct (enterLoop mapper items st) as [w st'] eqn:He.
  destruct (enterLoop_workers _ _ _ He) as (-> & _ & _).
  cbn [workers]. rewrite length_app. simpl. lia.
Qed.

Lemma initialPool_workers limit :
  length (workers (initialPool mapper items limit)) = Z.to_nat (safeLimit items limit).
Proof.
  unfold initialPool. induction (Z.to_nat (safeLimit items limit)) as [|n IH]; [reflexivity|].
  simpl. rewrite spawnWorker_workers, IH. reflexivity.
Qed.

Lemma resumeWorker_workers i st st' :
  resumeWorker mapper items i st = Some st' ->
  length (workers st') = length (workers st).
Proof.
  unfold resumeWorker.
  destruct (workers st !! i) as [[c [value|error]| |e]|]; try discriminate.
  - destruct (enterLoop _ _ _) as [w st2] eqn:He.
    destruct (enterLoop_workers _ _ _ He) as (Hw & _ & _).
    intros H. injection H as <-. cbn [workers] in *. rewrite length_insert, Hw. reflexivity.
  - intros H. injection H as <-. cbn [workers]. apply length_insert.
Qed.

Lemma reachable_workers limit st :
  rtc (poolStep mapper items) (initialPool mapper items limit) st ->
  length (workers st) = Z.to_nat (safeLimit items limit).
Proof.
  revert st. apply (rtc_ind_r (R := poolStep mapper items)
    (fun st => length (workers st) = Z.to_nat (safeLimit items limit))).
  - apply initialPool_workers.
  - intros y z _ [i Hi] IH. rewrite (resumeWorker_workers _ _ _ Hi). exact IH.
Qed.

(** *** The settlements still to come *)

Lemma enterLoop_work st w st' :
  (nextIndex st <= length items)%nat ->
  enterLoop mapper items st = (w, st') ->
  (length items - nextIndex st' + (if isAwaiting w then 1 else 0)
   = length items - nextIndex st)%nat.
Proof.
  intros Hn. unfold enterLoop. destruct (items !! nextIndex st) as [item|] eqn:Hit.
  - apply lookup_lt_Some in Hit. intros H. injection H as <- <-. simpl. lia.
  - intros H. injection H as <- <-. simpl. lia.
Qed.

Lemma spawnWorker_work st :
  (nextIndex st <= length items)%nat ->
  pendingWork items (spawnWorker mapper items st) = pendingWork items st.
Proof.
  intros Hn. unfold spawnWorker, pendingWork.
  destruct (enterLoop mapper items st) as [w st'] eqn:He.
  pose proof (enterLoop_work _ _ _ Hn He) as Hw.
  destruct (enterLoop_workers _ _ _ He) as (-> & _ & _).
  cbn [nextIndex workers]. rewrite awaitingCount_app.
  unfold awaitingCount at 2. simpl. destruct (isAwaiting w); simpl; lia.
Qed.

Lemma initialPool_work limit :
  pendingWork items (initialPool mapper items limit) = length items.
Proof.
  unfold initialPool.
  assert (H : forall n,
    let st := Nat.iter n (spawnWorker mapper items) (emptyPool items) in
    Inv st /\ pendingWork items st = length items).
  { induction n as [|n [IHi IHw]]; simpl.
    - split; [apply emptyPool_inv|]. unfold pendingWork, emptyPool, awaitingCount. simpl. lia.
    - split; [apply spawnWorker_inv, IHi|].
      rewrite spawnWorker_work; [exact IHw | apply IHi]. }
  apply H.
Qed.

Lemma resumeWorker_work i st st' :
  Inv st -> resumeWorker mapper items i st = Some st' ->
  S (pendingWork items st') = pendingWork items st.
Proof.
  intros (Hn & _) H. unfold resumeWorker in H. unfold pendingWork.
  destruct (workers st !! i) as [[c [value|error]| |e]|] eqn:Hi; try discriminate.
  - set (st1 := mkPool (nextIndex st) (<[c:=Some value]> (results st))
                       (workers st) (calls st) (rejection st)) in H.
    destruct (enterLoop mapper items st1) as [w st2] eqn:He.
    pose proof (enterLoop_work st1 w st2 Hn He) as Hw.
    destruct (enterLoop_workers _ _ _ He) as (Hws & _ & _).
    injection H as <-. cbn [nextIndex workers] in *. rewrite Hws.
    pose proof (awaitingCount_insert (workers st) i _ w Hi) as Hc. simpl in Hc.
    subst st1. cbn [nextIndex workers] in *.
    destruct (isAwaiting w); lia.
  - injection H as <-. cbn [nextIndex workers].
    pose proof (awaitingCount_insert (workers st) i _ (Failed error) Hi) as Hc.
    simpl in Hc. lia.
Qed.

Lemma nsteps_work_from n st0 st :
  Inv st0 ->
  nsteps (poolStep mapper items) n st0 st ->
  (pendingWork items st + n)%nat = pendingWork items st0.
Proof.
  intros HI H. induction H as [st0|n st0 st1 st2 [i Hi] H IH].
  - lia.
  - pose proof (resumeWorker_work _ _ _ HI Hi) as Hw.
    specialize (IH (resumeWorker_inv _ _ _ HI Hi)). lia.
Qed.

Lemma nsteps_work limit n st :
  nsteps (poolStep mapper items) n (initialPool mapper items limit) st ->
  (pendingWork items st + n)%nat = length items.
Proof.
  intros H. rewrite <- (initialPool_work limit).
  apply nsteps_work_from; [apply initialPool_inv | exact H].
Qed.

(** *** Progress and the final array *)

Lemma pool_progress st :
  poolOutcome st = None -> exists st', poolStep mapper items st st'.
Proof.
  unfold poolOutcome. destruct (rejection st); [discriminate|].
  destruct (existsb isAwaiting (workers st)) eqn:E; [|discriminate].
  intros _. apply awaitingCount_pos in E as (i & c & p & Hi).
  assert (Hsome : is_Some (resumeWorker mapper items i st)).
  { unfold resumeWorker. rewrite Hi. destruct p as [value|error]; [|eauto].
    destruct (enterLoop _ _ _). eauto. }
  destruct Hsome as [st' Hst']. exists st', i. exact Hst'.
Qed.

Lemma pool_final st :
  Inv st -> allFinished st -> workers st <> [] ->
  Forall2 (fun (r : option B) (o : B + jsError) => exists v, r = Some v /\ o = inl v)
          (results st) (sequentialMap mapper items)
  /\ calls st = imap (fun index item => (item, index)) items.
Proof.
  intros (Hn & Hr & Hc & Ha & Hf & Hs & Hrej & Horigin) Hall Hne.
  assert (Hfull : nextIndex st = length items).
  { unfold allFinished in Hall.
    destruct (workers st) as [|w ws] eqn:E; [congruence|].
    apply (Hf O). inversion Hall; subst. reflexivity. }
  split.
  - apply Forall2_same_length_lookup. split.
    + unfold sequentialMap. rewrite length_imap. exact Hr.
    + intros k r o Hkr Hko. unfold sequentialMap in Hko.
      rewrite list_lookup_imap in Hko.
      destruct (items !! k) as [a|] eqn:Hka; [|discriminate].
      simpl in Hko. injection Hko as <-.
      pose proof (lookup_lt_Some _ _ _ Hka) as Hlt.
      destruct (Hs k a ltac:(lia) Hka) as [(v & Hv & Hres)|[(i & p & Hi)|(i & e & Hi)]].
      * exists v. split; congruence.
      * exfalso. unfold allFinished in Hall. rewrite Forall_lookup in Hall.
        specialize (Hall i _ Hi). discriminate.
      * exfalso. unfold allFinished in Hall. rewrite Forall_lookup in Hall.
        specialize (Hall i _ Hi). discriminate.
  - rewrite Hc, Hfull, firstn_all. reflexivity.
Qed.

Lemma runSchedule_rtc schedule : forall st,
  rtc (poolStep mapper items) st (runSchedule mapper items schedule st).
Proof.
  induction schedule as [|i rest IH]; intros st; simpl; [constructor|].
  destruct (resumeWorker mapper items i st) as [st'|] eqn:E; [|apply IH].
  eapply rtc_l; [exists i; exact E | apply IH].
Qed.

Lemma poolOutcome_resolved st arr :
  Inv st -> poolOutcome st = Some (inl arr) ->
  allFinished st /\ arr = results st.
Proof.
  intros (_ & _ & _ & _ & _ & _ & Hrej & _). unfold poolOutcome.
  destruct (rejection st); [discriminate|].
  destruct (existsb isAwaiting (workers st)) eqn:E; [discriminate|].
  intros H. injection H as <-. split; [|reflexivity].
  unfold allFinished. apply Forall_lookup. intros i w Hi.
  destruct w as [c p| |e]; [|reflexivity|].
  - exfalso. assert (Hex : existsb isAwaiting (workers st) = true); [|congruence].
    apply existsb_exists. exists (Awaiting c p). split; [|reflexivity].
    apply list_elem_of_In, list_elem_of_lookup. eauto.
  - exfalso. eapply Hrej; eauto.
Qed.

End PoolFacts.

(** C10.  For every list, limit and mapper: an empty list gives an empty
    array; otherwise the number of workers is the limit clamped to at least 1
    and at most the length of the list, whatever the order in which the
    promises settle; when the function returns an array, the array has the
    length of the list, its element [i] is the value of
    [mapper(items[i], i)], and the mapper was called once for each item, in
    the order of the list; every run is at most as many settlements long as
    the list and can go on until the result is settled; a rejection comes
    from a call of the mapper only. *)
Theorem mapWithConcurrency_spec {A B : Type}
  (mapper : A -> nat -> B + jsError) (items : list A) (limit : Z) :
  let start := initialPool mapper items limit in
  let step := poolStep mapper items in
  (items = [] -> forall schedule,
      mapWithConcurrency mapper items limit schedule = Some (inl []))
  /\ (items <> [] ->
      1 <= safeLimit items limit <= alen items
      /\ forall st, rtc step start st ->
           Z.of_nat (length (workers st)) = safeLimit items limit)
  /\ (forall schedule arr,
        mapWithConcurrency mapper items limit schedule = Some (inl arr) ->
        length arr = length items
        /\ Forall2 (fun (r : option B) (o : B + jsError) => exists v, r = Some v /\ o = inl v)
                   arr (sequentialMap mapper items)
        /\ (items <> [] ->
            calls (runSchedule mapper items schedule start)
            = imap (fun index item => (item, index)) items))
  /\ (forall n st, nsteps step n start st ->
        (n <= length items)%nat
        /\ (poolOutcome st = None -> exists st', step st st'))
  /\ (forall schedule error,
        mapWithConcurrency mapper items limit schedule = Some (inr error) ->
        exists index item, items !! index = Some item /\ mapper item index = inr error).
Proof.
  cbv zeta. split_and!.
  - intros -> schedule. reflexivity.
  - intros Hne. assert (Hlen : 1 <= alen items).
    { unfold alen. destruct items; [congruence | simpl; lia]. }
    split; [unfold safeLimit; lia|].
    intros st Hst. rewrite (reachable_workers mapper items limit st Hst).
    unfold safeLimit. lia.
  - intros schedule arr H. unfold mapWithConcurrency in H.
    destruct items as [|a items'] eqn:Eitems.
    { injection H as <-. split_and!; [reflexivity | constructor | congruence]. }
    rewrite <- Eitems in *.
    set (st := runSchedule mapper items schedule (initialPool mapper items limit)) in *.
    assert (Hreach : rtc (poolStep mapper items) (initialPool mapper items limit) st)
      by apply runSchedule_rtc.
    pose proof (reachable_inv mapper items limit st Hreach) as HI.
    destruct (poolOutcome_resolved mapper items st arr HI H) as [Hall ->].
    assert (Hws : workers st <> []).
    { pose proof (reachable_workers mapper items limit st Hreach) as Hw.
      intros E. rewrite E in Hw. simpl in Hw. unfold safeLimit in Hw. lia. }
    destruct (pool_final mapper items st HI Hall Hws) as [Hf Hc].
    split_and!.
    + apply HI.
    + exact Hf.
    + intros _. exact Hc.
  - intros n st H. split.
    + pose proof (nsteps_work mapper items limit n st H). lia.
    + apply pool_progress.
  - intros schedule error H. unfold mapWithConcurrency in H.
    destruct items as [|a items'] eqn:Eitems; [discriminate|].
    rewrite <- Eitems in *.
    set (st := runSchedule mapper items schedule (initialPool mapper items limit)) in *.
    assert (HI : poolInv mapper items st)
      by (eapply reachable_inv, runSchedule_rtc).
    destruct HI as (_ & _ & _ & _ & _ & _ & _ & Horigin).
    apply Horigin. unfold poolOutcome in H.
    destruct (rejection st) as [e|]; [congruence|].
    destruct (existsb isAwaiting (workers st)); discriminate.
Qed.

(** Five items under a limit of 2, the promises settling in the order of
    the schedule: two workers, five calls in order, the array of the
    sequential map. *)
Lemma mapWithConcurrency_spec_witness :
  mapWithConcurrency timesTenPlusIndex [5; 6; 7; 8; 9]%nat 2 [1; 1; 0; 1; 0]%nat
    = Some (inl [Some 50; Some 61; Some 72; Some 83; Some 94]%nat)
  /\ Forall2 (fun (r : option nat) (o : nat + jsError) => exists v, r = Some v /\ o = inl v)
       [Some 50; Some 61; Some 72; Some 83; Some 94]%nat
       (sequentialMap timesTenPlusIndex [5; 6; 7; 8; 9]%nat)
  /\ 1 <= safeLimit [5; 6; 7; 8; 9]%nat 2 <= 5.
Proof.
  pose proof (mapWithConcurrency_spec timesTenPlusIndex [5; 6; 7; 8; 9]%nat 2)
    as (_ & Hw & Hr & _).
  assert (E : mapWithConcurrency timesTenPlusIndex [5; 6; 7; 8; 9]%nat 2 [1; 1; 0; 1; 0]%nat
              = Some (inl [Some 50; Some 61; Some 72; Some 83; Some 94]%nat))
    by reflexivity.
  split; [exact E|]. split.
  - exact (proj1 (proj2 (Hr _ _ E))).
  - exact (proj1 (Hw ltac:(discriminate))).
Defined.

(** ** The validation of handleExplainRequest *)

Lemma rejectsWith_requestId {R} error value (f : jsstring -> prog R) :
  (forall requestId, rejectsWith error (f requestId)) ->
  rejectsWith error (bind (normalizeRequestId value) f).
Proof.
  intros H. unfold normalizeRequestId.
  destruct value as [s|]; [destruct (truthy (trim s))|]; simpl; auto.
Qed.

Lemma passesValidation_requestId {R} value (f : jsstring -> prog R) :
  (forall requestId, passesValidation (f requestId)) ->
  passesValidation (bind (normalizeRequestId value) f).
Proof.
  intros H. unfold normalizeRequestId.
  destruct value as [s|]; [destruct (truthy (trim s))|]; simpl; auto.
Qed.

Lemma neverCalls_requestId {R} (test : forall X, effect X -> bool) value (f : jsstring -> prog R) :
  test _ RandomRequestId = false ->
  (forall requestId, neverCalls test (f requestId)) ->
  neverCalls test (bind (normalizeRequestId value) f).
Proof.
  intros Ht H. unfold normalizeRequestId.
  destruct value as [s|]; [destruct (truthy (trim s))|]; simpl; auto.
Qed.

(** Composition. *)

Lemma neverCalls_bind {R S} (test : forall X, effect X -> bool) (p : prog R) (f : R -> prog S) :
  neverCalls test p -> (forall r, neverCalls test (f r)) -> neverCalls test (bind p f).
Proof.
  intros Hp Hf. induction p as [r|error|X e k IH]; simpl in *; auto.
  destruct Hp as [He Hk]. split; [exact He|]. intros x. apply IH, Hk.
Qed.

Lemma neverCalls_tryCatch {R} (test : forall X, effect X -> bool) (p : prog R) handler :
  neverCalls test p -> (forall error, neverCalls test (handler error)) ->
  neverCalls test (tryCatch p handler).
Proof.
  intros Hp Hh. induction p as [r|error|X e k IH]; simpl in *; auto.
  destruct Hp as [He Hk]. split; [exact He|]. intros x. apply IH, Hk.
Qed.

Lemma neverCalls_tryFinally {R} (test : forall X, effect X -> bool) (p : prog R) cleanup :
  neverCalls test p -> neverCalls test cleanup ->
  neverCalls test (tryFinally p cleanup).
Proof.
  intros Hp Hc. induction p as [r|error|X e k IH]; simpl in *.
  - apply neverCalls_bind; [exact Hc | intros; exact I].
  - apply neverCalls_bind; [exact Hc | intros; exact I].
  - destruct Hp as [He Hk]. split; [exact He|]. intros x. apply IH, Hk.
Qed.

Lemma resultsOk_bind {R S} (Q : R -> Prop) (Q' : S -> Prop) (p : prog R) (f : R -> prog S) :
  resultsOk Q p -> (forall r, Q r -> resultsOk Q' (f r)) -> resultsOk Q' (bind p f).
Proof.
  intros Hp Hf. induction p as [r|error|X e k IH]; simpl in *; auto.
  destruct Hp as [He Hk]. split; [exact He|]. intros x Hx. apply IH, Hk, Hx.
Qed.

Lemma resultsOk_tryCatch {R} (Q : R -> Prop) (p : prog R) handler :
  resultsOk Q p -> (forall error, resultsOk Q (handler error)) ->
  resultsOk Q (tryCatch p handler).
Proof.
  intros Hp Hh. induction p as [r|error|X e k IH]; simpl in *; auto.
  destruct Hp as [He Hk]. split; [exact He|]. intros x Hx. apply IH, Hk, Hx.
Qed.

Lemma resultsOk_tryFinally {R} (Q : R -> Prop) (p : prog R) cleanup :
  resultsOk Q p -> resultsOk (fun _ => True) cleanup ->
  resultsOk Q (tryFinally p cleanup).
Proof.
  intros Hp Hc. induction p as [r|error|X e k IH]; simpl in *.
  - eapply resultsOk_bind; [exact Hc | intros; exact Hp].
  - eapply resultsOk_bind; [exact Hc | intros; exact I].
  - destruct Hp as [He Hk]. split; [exact He|]. intros x Hx. apply IH, Hk, Hx.
Qed.

Lemma resultsOk_requestId {R} (Q : R -> Prop) value (f : jsstring -> prog R) :
  (forall requestId, resultsOk Q (f requestId)) ->
  resultsOk Q (bind (normalizeRequestId value) f).
Proof.
  intros H. unfold normalizeRequestId.
  destruct value as [s|]; [destruct (truthy (trim s))|]; simpl; auto.
Qed.

(** ** The vocabulary filter *)

Lemma hasText_trimmed s : s <> [] -> trim s = s -> hasText s = true.
Proof.
  intros Hne Ht. unfold hasText. rewrite Ht. destruct s; [congruence|].
  unfold len. simpl. apply Z.ltb_lt. lia.
Qed.

Lemma upper_level_in (unicode_upper : jsstring -> jsstring) c :
  c ∈ CEFR_VALUES ->
  toUpperCaseWith unicode_upper c ∈ B2_PLUS_LEVELS ->
  c ∈ B2_PLUS_LEVELS.
Proof.
  intros Hc. apply list_elem_of_In in Hc. simpl in Hc.
  destruct Hc as [<-|[<-|[<-|[<-|[<-|[<-|[]]]]]]]; intros H;
    apply list_elem_of_In in H; apply list_elem_of_In; vm_compute in H |- *;
    intuition congruence.
Qed.

Lemma keepB2PlusWords_elem (unicode_upper : jsstring -> jsstring) entries e :
  e ∈ keepB2PlusWords unicode_upper entries
  <-> e ∈ entries
      /\ toUpperCaseWith unicode_upper (cefr e) ∈ B2_PLUS_LEVELS
      /\ hasText (definition_simple e) = true
      /\ hasText (example_simple e) = true.
Proof.
  unfold keepB2PlusWords. rewrite list_elem_of_In, filter_In, <- list_elem_of_In.
  unfold isB2PlusWordEntry. cbv zeta.
  rewrite !andb_true_iff, bool_decide_eq_true. tauto.
Qed.

Section HandlerFacts.

Variable unicode_lower : jsstring -> jsstring.
Variable unicode_upper : jsstring -> jsstring.
Variable JSON_parse : jsstring -> option json.
Variable utf8_encode : jsstring -> list byte.
Variable sha256_digest : list byte -> list byte.
Variable urlOrigin : jsstring -> option jsstring.
Variable notIterable : jsError.

Local Abbreviation handle :=
  (handleExplainRequest unicode_lower utf8_encode sha256_digest urlOrigin).

Lemma handle_too_long payload tabId :
  let selectedText := normalizeSelection (payload_selectedText payload) in
  HARD_MAX_CHARS < len selectedText ->
  rejectsWith (selectionTooLongError (length selectedText)) (handle payload tabId).
Proof.
  intros selectedText Hlong. unfold handleExplainRequest.
  cbn [bind await rejectsWith]. split; [reflexivity|]. intros settings.
  apply rejectsWith_requestId. intros requestId.
  fold selectedText.
  assert (Ht : truthy selectedText = true).
  { destruct selectedText; [unfold len in Hlong; simpl in Hlong; unfold HARD_MAX_CHARS in *; lia | reflexivity]. }
  rewrite Ht. cbn [negb].
  destruct (Z.gtb_spec (len selectedText) HARD_MAX_CHARS) as [_|?]; [|lia].
  reflexivity.
Qed.

Lemma handle_no_selection payload tabId :
  normalizeSelection (payload_selectedText payload) = [] ->
  rejectsWith noSelectionError (handle payload tabId).
Proof.
  intros Hempty. unfold handleExplainRequest.
  cbn [bind await rejectsWith]. split; [reflexivity|]. intros settings.
  apply rejectsWith_requestId. intros requestId.
  rewrite Hempty. reflexivity.
Qed.

Lemma handle_accepted payload tabId :
  let selectedText := normalizeSelection (payload_selectedText payload) in
  selectedText <> [] -> len selectedText <= HARD_MAX_CHARS ->
  passesValidation (handle payload tabId).
Proof.
  intros selectedText Hne Hlen. unfold handleExplainRequest.
  cbn [bind await passesValidation]. right. split; [reflexivity|]. intros settings.
  apply passesValidation_requestId. intros requestId.
  fold selectedText. apply truthy_true in Hne. rewrite Hne. cbn [negb].
  destruct (Z.gtb_spec (len selectedText) HARD_MAX_CHARS) as [?|_]; [lia|].
  cbn [bind await passesValidation]. left. reflexivity.
Qed.

(** ** The fast path *)

Lemma not_fast_path selectedText :
  truthy selectedText = true -> (len selectedText <=? FAST_SINGLE_CALL_MAX_CHARS) = false.
Proof.
  intros H. apply Z.leb_gt. destruct selectedText; [discriminate|].
  unfold len, FAST_SINGLE_CALL_MAX_CHARS. simpl. lia.
Qed.

Lemma explainWork_no_registry sd selectedText requestId explanationMode selectedModel
  clientId cacheKey tabId :
  neverCalls (@isRegistryCall)
    (explainWork unicode_lower false sd selectedText requestId explanationMode
       selectedModel clientId cacheKey tabId).
Proof.
  unfold explainWork. cbn [bind awaitResult neverCalls].
  split; [reflexivity|]. intros [analyzed|error]; cbn [bind neverCalls]; [|exact I].
  destruct (negb (isOutputUsable _)); [exact I|].
  destruct (negb sd || _); cbn [bind await neverCalls]; split; try reflexivity; intros; exact I.
Qed.

Lemma handle_no_registry payload tabId :
  neverCalls (@isRegistryCall) (handle payload tabId).
Proof.
  unfold handleExplainRequest.
  cbn [bind await neverCalls]. split; [reflexivity|]. intros settings.
  apply neverCalls_requestId; [reflexivity|]. intros requestId.
  set (selectedText := normalizeSelection (payload_selectedText payload)).
  destruct (truthy selectedText) eqn:Ht; cbn [negb]; [|exact I].
  destruct (len selectedText >? HARD_MAX_CHARS); [exact I|].
  rewrite (not_fast_path _ Ht).
  cbn [bind await neverCalls negb]. split; [reflexivity|]. intros clientId.
  split; [reflexivity|]. intros [cached|]; [exact I|].
  cbn [bind].
  apply neverCalls_tryFinally; [|exact I].
  apply neverCalls_tryCatch.
  - apply neverCalls_bind; [apply explainWork_no_registry | intros; exact I].
  - intros error. destruct (isRecoverableModelOutputError _ _); [|exact I].
    cbn [bind await neverCalls]. split; [reflexivity|]. intros; exact I.
Qed.

(** ** The vocabulary of the results *)

Lemma simplifyToEasyText_text text :
  simplifyToEasyText unicode_lower text [] = []
  \/ hasText (simplifyToEasyText unicode_lower text []) = true.
Proof.
  unfold simplifyToEasyText. cbv zeta.
  destruct (truthy (trim text)); cbn [negb]; [|left; reflexivity].
  destruct (truthy (trim (collapseSpaces _))) eqn:Hs; cbn [negb truthy]; [|left; reflexivity].
  right. apply hasText_trimmed; [apply truthy_true, Hs | apply trim_idem].
Qed.

Lemma orElse_text text fallback :
  hasText fallback = true ->
  hasText (orElse (simplifyToEasyText unicode_lower text []) fallback) = true.
Proof.
  intros Hf. unfold orElse.
  destruct (simplifyToEasyText_text text) as [->|H]; [exact Hf|].
  destruct (truthy _); [exact H | exact Hf].
Qed.

Lemma enforceEasyLanguage_vocabulary result selectedText :
  Forall (fun e => cefr e ∈ B2_PLUS_LEVELS) (a2_plus_words result) ->
  vocabularyOk (enforceEasyLanguage unicode_lower result selectedText).
Proof.
  intros H. unfold vocabularyOk, enforceEasyLanguage. cbn [a2_plus_words].
  induction H as [|e es He _ IH]; simpl; constructor; [|exact IH].
  unfold entryOk. cbn [cefr definition_simple example_simple].
  split_and!; [exact He | apply orElse_text; reflexivity | apply orElse_text; reflexivity].
Qed.

Lemma ensureNonEmptyExplanation_vocabulary result selectedText note :
  vocabularyOk result ->
  vocabularyOk (ensureNonEmptyExplanation unicode_lower result selectedText note).
Proof.
  unfold ensureNonEmptyExplanation, vocabularyOk.
  destruct (hasText (simple_explanation result)); auto.
Qed.

Lemma normalizeWordEntries_levels value :
  Forall (fun e => cefr e ∈ CEFR_VALUES)
         (normalizeWordEntries unicode_lower unicode_upper value).
Proof.
  unfold normalizeWordEntries.
  destruct value as [[| | | |items|]|]; try constructor.
  induction items as [|item items IH]; simpl; [constructor|].
  pose proof (normalizeWordItem_spec unicode_lower unicode_upper item) as H.
  destruct (normalizeWordItem unicode_lower unicode_upper item) as [e|]; [|exact IH].
  constructor; [|exact IH]. apply H.
Qed.

Lemma keepB2PlusWords_levels entries :
  Forall (fun e => cefr e ∈ CEFR_VALUES) entries ->
  Forall (fun e => cefr e ∈ B2_PLUS_LEVELS) (keepB2PlusWords unicode_upper entries).
Proof.
  intros H. apply Forall_forall. intros e He.
  apply keepB2PlusWords_elem in He as (Hin & Hup & _).
  rewrite Forall_forall in H. eapply upper_level_in; [apply H, Hin | exact Hup].
Qed.

Lemma coverage_levels rawText words :
  parseAndNormalizeWordCoverage unicode_lower unicode_upper JSON_parse rawText = inl words ->
  Forall (fun e => cefr e ∈ CEFR_VALUES) words.
Proof.
  unfold parseAndNormalizeWordCoverage.
  destruct (parseWithFallback JSON_parse rawText) as [parsed|]; [|discriminate].
  destruct (negb (isObject parsed)); [discriminate|].
  intros H. injection H as <-. apply normalizeWordEntries_levels.
Qed.

Lemma callModelForB2PlusWords_levels clientId model selectedText hints wordLimit :
  resultsOk (fun words => Forall (fun e => cefr e ∈ CEFR_VALUES) words)
    (callModelForB2PlusWords unicode_lower unicode_upper JSON_parse notIterable
       clientId model selectedText hints wordLimit).
Proof.
  unfold callModelForB2PlusWords. cbn [bind awaitResult resultsOk handsOverOk].
  split; [exact I|]. intros [response|error] _; cbn [bind resultsOk]; [|exact I].
  destruct (extractOutputText response) as [rawText|]; [|exact I].
  destruct (negb (truthy rawText)); [constructor|].
  destruct (parseAndNormalizeWordCoverage _ _ _ _) as [words|] eqn:E; cbn [resultsOk].
  - eapply coverage_levels, E.
  - constructor.
Qed.

Lemma tabUpdate_ok tabId message :
  match message with UpdateResult _ _ r => vocabularyOk r | UpdateError _ _ => True end ->
  resultsOk (fun _ : unit => True) (tabUpdate tabId message).
Proof.
  intros H. unfold tabUpdate. destruct tabId as [id|]; cbn [await resultsOk]; [|exact I].
  split; [|intros; exact I]. destruct message; exact H.
Qed.

Lemma runDeferredWordsPass_ok args :
  resultsOk (fun _ => True)
    (runDeferredWordsPass unicode_lower unicode_upper JSON_parse notIterable args).
Proof.
  unfold runDeferredWordsPass. cbv zeta.
  apply resultsOk_tryCatch; [|intros; apply tabUpdate_ok; exact I].
  eapply resultsOk_bind.
  - instantiate (1 := fun words => Forall (fun e => cefr e ∈ CEFR_VALUES) words).
    destruct (0 <? alen (deferred_candidates args)).
    + apply callModelForB2PlusWords_levels.
    + constructor.
  - intros words Hwords.
    assert (Hok : forall notes0,
      vocabularyOk
        (ensureNonEmptyExplanation unicode_lower
           (enforceEasyLanguage unicode_lower
              {| simple_explanation := simple_explanation (deferred_baseResult args);
                 a2_plus_words := keepB2PlusWords unicode_upper words;
                 notes := notes0;
                 confidence := confidence (deferred_baseResult args) |}
              (deferred_selectedText args))
           (deferred_selectedText args)
           (lit "EasyRead filled a backup explanation because the model returned empty text."))).
    { intros notes0. apply ensureNonEmptyExplanation_vocabulary, enforceEasyLanguage_vocabulary.
      cbn [a2_plus_words]. apply keepB2PlusWords_levels, Hwords. }
    cbn [bind await resultsOk handsOverOk]. split; [apply Hok|]. intros _ _.
    apply tabUpdate_ok, Hok.
Qed.

Lemma immediate_vocabulary parsed selectedText :
  vocabularyOk
    (ensureNonEmptyExplanation unicode_lower
       (enforceEasyLanguage unicode_lower
          {| simple_explanation := simple_explanation parsed;
             a2_plus_words := [];
             notes := notes parsed;
             confidence := confidence parsed |}
          selectedText)
       selectedText backupNoteEmpty).
Proof.
  apply ensureNonEmptyExplanation_vocabulary, enforceEasyLanguage_vocabulary. constructor.
Qed.

Lemma explainWork_ok sd selectedText requestId explanationMode selectedModel
  clientId cacheKey tabId :
  resultsOk (fun w => vocabularyOk (work_result w))
    (explainWork unicode_lower false sd selectedText requestId explanationMode
       selectedModel clientId cacheKey tabId).
Proof.
  unfold explainWork. cbn [bind awaitResult resultsOk handsOverOk].
  split; [exact I|]. intros [analyzed|error] _; cbn [bind resultsOk]; [|exact I].
  pose proof (immediate_vocabulary (analyzed_parsed analyzed) selectedText) as Hok.
  destruct (negb (isOutputUsable _)); [exact I|].
  destruct (negb sd || _); cbn [bind await resultsOk handsOverOk work_result deferred_baseResult].
  - split; [exact Hok|]. intros _ _. exact Hok.
  - split; [exact Hok|]. intros _ _. exact Hok.
Qed.

Lemma handle_ok payload tabId :
  resultsOk (fun response => vocabularyOk (response_result response)) (handle payload tabId).
Proof.
  unfold handleExplainRequest.
  cbn [bind await resultsOk handsOverOk]. split; [exact I|]. intros settings _.
  apply resultsOk_requestId. intros requestId.
  set (selectedText := normalizeSelection (payload_selectedText payload)).
  destruct (truthy selectedText) eqn:Ht; cbn [negb]; [|exact I].
  destruct (len selectedText >? HARD_MAX_CHARS); [exact I|].
  rewrite (not_fast_path _ Ht).
  cbn [bind await resultsOk handsOverOk negb]. split; [exact I|]. intros clientId _.
  split; [exact I|]. intros [cached|] Hcached.
  - cbn [resultsOk response_result]. apply ensureNonEmptyExplanation_vocabulary.
    apply (Hcached cached eq_refl).
  - cbn [bind].
    apply resultsOk_tryFinally; [|exact I].
    apply resultsOk_tryCatch.
    + eapply resultsOk_bind; [apply explainWork_ok|].
      intros w Hw. exact Hw.
    + intros error. destruct (isRecoverableModelOutputError _ _); [|exact I].
      cbn [bind await resultsOk handsOverOk response_result].
      split; [constructor|]. intros _ _. constructor.
Qed.

(** ** The coordinator and its cache *)

Local Abbreviation step :=
  (systemStep unicode_lower unicode_upper JSON_parse utf8_encode sha256_digest urlOrigin
     notIterable).

Lemma answered_inv {X} (e : effect X) stored x stored' started :
  storedOk stored -> handsOverOk e ->
  answered unicode_lower unicode_upper JSON_parse notIterable e stored x stored' started ->
  storedOk stored' /\ answerOk e x /\ Forall taskResultsOk started.
Proof.
  intros Hstored Hover Hanswer.
  destruct e; cbn [answered answerOk handsOverOk] in *;
    try solve [destruct Hanswer as [-> ->]; split_and!; [exact Hstored | exact I | constructor]].
  - destruct Hanswer as (Hfound & -> & ->). split_and!; [exact Hstored | | constructor].
    intros r ->. destruct Hfound as [Hnone|(result & [= <-] & Hin)]; [discriminate|].
    eapply Hstored, Hin.
  - destruct Hanswer as [-> ->]. split_and!; [|exact I|constructor].
    intros key result Hin. apply elem_of_cons in Hin as [[= -> ->]|Hin]; [exact Hover|].
    eapply Hstored, Hin.
  - destruct Hanswer as [-> ->]. split_and!; [exact Hstored | exact I |].
    constructor; [|constructor]. apply runDeferredWordsPass_ok.
Qed.

Lemma systemStep_inv sys sys' :
  step sys sys' ->
  storedOk (system_stored sys) /\ Forall taskResultsOk (system_tasks sys) ->
  storedOk (system_stored sys') /\ Forall taskResultsOk (system_tasks sys').
Proof.
  intros Hstep [Hstored Htasks].
  destruct Hstep as [stored tasks payload tabId
                    | stored tasks i X e k x stored' started Hi Hanswer
                    | stored tasks i X e k x stored' started Hi Hanswer];
    cbn [system_stored system_tasks] in *.
  - split; [exact Hstored|]. apply Forall_app. split; [exact Htasks|].
    constructor; [|constructor]. apply handle_ok.
  - pose proof (Forall_lookup_1 _ _ _ _ Htasks Hi) as Hk.
    cbn [taskResultsOk resultsOk] in Hk. destruct Hk as [Hover Hk].
    destruct (answered_inv e stored x stored' started Hstored Hover Hanswer)
      as (Hstored' & Hx & Hstarted).
    split; [exact Hstored'|]. apply Forall_app. split; [|exact Hstarted].
    apply Forall_insert; [exact Htasks|]. apply Hk, Hx.
  - pose proof (Forall_lookup_1 _ _ _ _ Htasks Hi) as Hk.
    cbn [taskResultsOk resultsOk] in Hk. destruct Hk as [Hover Hk].
    destruct (answered_inv e stored x stored' started Hstored Hover Hanswer)
      as (Hstored' & Hx & Hstarted).
    split; [exact Hstored'|]. apply Forall_app. split; [|exact Hstarted].
    apply Forall_insert; [exact Htasks|]. apply Hk, Hx.
Qed.

Lemma rtc_system_inv sys0 sys :
  rtc step sys0 sys ->
  storedOk (system_stored sys0) /\ Forall taskResultsOk (system_tasks sys0) ->
  storedOk (system_stored sys) /\ Forall taskResultsOk (system_tasks sys).
Proof.
  induction 1 as [sys|sys1 sys2 sys3 Hstep _ IH]; intros Hinit; [exact Hinit|].
  apply IH. eapply systemStep_inv; [exact Hstep | exact Hinit].
Qed.

Lemma system_inv stored sys :
  storedOk stored ->
  rtc step (mkSystem stored []) sys ->
  storedOk (system_stored sys) /\ Forall taskResultsOk (system_tasks sys).
Proof.
  intros Hstored Hrun. apply (rtc_system_inv _ _ Hrun).
  split; [exact Hstored | constructor].
Qed.

Lemma taskResultsOk_now t : taskResultsOk t -> taskHandsOverOk t.
Proof.
  destruct t as [[response|error|X e k]|[r|error|X e k]]; cbn; try tauto.
Qed.

(** ** After a miss *)

Lemma afterMiss_requestId {R} next value (f : jsstring -> prog R) :
  (forall requestId, afterMiss next (f requestId)) ->
  afterMiss next (bind (normalizeRequestId value) f).
Proof.
  intros H. unfold normalizeRequestId.
  destruct value as [s|]; [destruct (truthy (trim s))|]; simpl; auto.
Qed.

Lemma handle_after_miss payload tabId :
  let selectedText := normalizeSelection (payload_selectedText payload) in
  afterMiss
    (fun X e =>
       isOwnAnalysis selectedText (chooseModelForText (len selectedText))
         (normalizeExplanationMode unicode_lower (payload_explanationMode payload)) e)
    (handle payload tabId).
Proof.
  intros selectedText. unfold handleExplainRequest.
  cbn [bind await afterMiss]. intros settings.
  apply afterMiss_requestId. intros requestId.
  fold selectedText.
  destruct (truthy selectedText) eqn:Ht; cbn [negb]; [|exact I].
  destruct (len selectedText >? HARD_MAX_CHARS); [exact I|].
  rewrite (not_fast_path _ Ht).
  cbn [bind await afterMiss negb]. intros clientId.
  unfold explainWork. cbn [bind awaitResult tryCatch tryFinally].
  cbn [isOwnAnalysis analyze_selectedText analyze_model analyze_explanationMode].
  split_and!; reflexivity.
Qed.

End HandlerFacts.

Lemma rejectsWith_no_upstream {R} error (p : prog R) :
  rejectsWith error p -> neverCalls (@isUpstream) p.
Proof.
  induction p as [r|thrown|X e k IH]; simpl; [tauto | tauto |].
  intros [He Hk]. split; [destruct e; try discriminate; reflexivity|].
  intros x. apply IH, Hk.
Qed.

(** C3.  A selection whose trimmed length exceeds 12000 is rejected with
    the error [SELECTION_TOO_LONG], whose message gives the length and the
    maximum, and an empty selection with the error [NO_SELECTION]; in both
    cases the handler has only read the settings and, without a request id,
    drawn one: no call reaches the model upstream.  A selection of 1 to
    12000 code units passes the two checks and the handler goes on to the
    client id. *)
Theorem handleExplainRequest_validation
  (unicode_lower : jsstring -> jsstring)
  (utf8_encode : jsstring -> list byte) (sha256_digest : list byte -> list byte)
  (urlOrigin : jsstring -> option jsstring)
  (payload : Payload) (tabId : option Z) :
  let selectedText := normalizeSelection (payload_selectedText payload) in
  let handled :=
    handleExplainRequest unicode_lower utf8_encode sha256_digest urlOrigin payload tabId in
  (HARD_MAX_CHARS < len selectedText ->
     rejectsWith (selectionTooLongError (length selectedText)) handled
     /\ selectionTooLongError (length selectedText)
        = EasyReadError
            (lit "Selection is too long (" ++ decimal (length selectedText)
             ++ lit " chars). Max is 12000.")
            (lit "SELECTION_TOO_LONG") false
     /\ neverCalls (@isUpstream) handled)
  /\ (selectedText = [] ->
        rejectsWith noSelectionError handled /\ neverCalls (@isUpstream) handled)
  /\ (selectedText <> [] -> len selectedText <= HARD_MAX_CHARS ->
        passesValidation handled).
Proof.
  cbv zeta. split_and!.
  - intros Hlong.
    pose proof (handle_too_long unicode_lower utf8_encode sha256_digest urlOrigin
                  payload tabId Hlong) as H.
    split_and!; [exact H | reflexivity | eapply rejectsWith_no_upstream, H].
  - intros Hempty.
    pose proof (handle_no_selection unicode_lower utf8_encode sha256_digest urlOrigin
                  payload tabId Hempty) as H.
    split; [exact H | eapply rejectsWith_no_upstream, H].
  - apply handle_accepted.
Qed.

(** The scenario of the description: 12000 code units pass, 12001 are
    rejected with both numbers in the message. *)
Lemma handleExplainRequest_validation_witness :
  let exact := mkPayload (Some (repeat 97%N (Z.to_nat 12000))) None None None None in
  let over := mkPayload (Some (repeat 97%N (Z.to_nat 12001))) None None None None in
  let handle := handleExplainRequest no_unicode_case latin1_encode identity_digest noUrlOrigin in
  passesValidation (handle exact None)
  /\ rejectsWith
       (EasyReadError (lit "Selection is too long (12001 chars). Max is 12000.")
          (lit "SELECTION_TOO_LONG") false)
       (handle over None).
Proof.
  cbv zeta. split.
  - apply (handleExplainRequest_validation no_unicode_case latin1_encode identity_digest
             noUrlOrigin (mkPayload (Some (repeat 97%N (Z.to_nat 12000))) None None None None) None).
    + vm_compute. discriminate.
    + vm_compute. discriminate.
  - pose proof (handleExplainRequest_validation no_unicode_case latin1_encode identity_digest
             noUrlOrigin (mkPayload (Some (repeat 97%N (Z.to_nat 12001))) None None None None) None)
      as (Hover & _).
    destruct Hover as (Hrej & Hmsg & _); [vm_compute; reflexivity|].
    replace (EasyReadError (lit "Selection is too long (12001 chars). Max is 12000.")
               (lit "SELECTION_TOO_LONG") false)
      with (selectionTooLongError
              (length (normalizeSelection
                 (payload_selectedText
                    (mkPayload (Some (repeat 97%N (Z.to_nat 12001))) None None None None)))))
      by (vm_compute; reflexivity).
    exact Hrej.
Defined.

(** X26.  The fast path is taken by selections of at most
    [FAST_SINGLE_CALL_MAX_CHARS = 0] code units, and an accepted selection is
    not empty: no request is on the fast path.  The handler never reads or
    writes the in-flight map, whatever the answers it gets, and a request
    whose lookup of the cache finds nothing goes on at once with its own
    explanation-only analysis of its selection: what other requests for the
    same selection are doing plays no part. *)
Theorem inflight_registry_unused
  (unicode_lower : jsstring -> jsstring)
  (utf8_encode : jsstring -> list byte) (sha256_digest : list byte -> list byte)
  (urlOrigin : jsstring -> option jsstring)
  (payload : Payload) (tabId : option Z) :
  let selectedText := normalizeSelection (payload_selectedText payload) in
  let handler :=
    handleExplainRequest unicode_lower utf8_encode sha256_digest urlOrigin payload tabId in
  (forall selectedText,
      truthy selectedText = true ->
      (len selectedText <=? FAST_SINGLE_CALL_MAX_CHARS) = false)
  /\ neverCalls (@isRegistryCall) handler
  /\ afterMiss
       (fun X e =>
          isOwnAnalysis selectedText (chooseModelForText (len selectedText))
            (normalizeExplanationMode unicode_lower (payload_explanationMode payload)) e)
       handler.
Proof.
  cbv zeta. split_and!; [apply not_fast_path | apply handle_no_registry | apply handle_after_miss].
Qed.

(** Two requests for the same short selection, the second looking up the
    cache before the first has its answer, are each sent upstream; the
    in-flight map stays empty. *)
Lemma concurrent_requests_both_upstream :
  let handled :=
    handleExplainRequest no_unicode_case latin1_encode identity_digest noUrlOrigin
      helloPayload (Some 7) in
  let final :=
    runRequests [0; 0; 0; 1; 1; 1; 0; 0; 1; 1]%nat [handled; handled] (mkWorld [] [] 0) in
  List.map isReturned (fst final) = [true; true]
  /\ world_upstream (snd final) = 2%nat
  /\ world_inflight
       (snd (runRequests [0; 0; 0; 1; 1; 1; 0]%nat [handled; handled] (mkWorld [] [] 0)))
     = [].
Proof. vm_compute. split_and!; reflexivity. Qed.

(** C4.  An entry is kept by [keepB2PlusWords] exactly when its level,
    whatever its case, is B2, C1 or C2 and its definition and example have
    text; of the entries normalized by the schema the kept ones have level
    B2, C1 or C2 as written.  In the coordinator, with requests arriving and
    the handlers and the deferred passes going on from their awaits in any
    order and with any answers from the model, a lookup of the cache finds
    a result that was stored.  From an empty cache, and from any cache whose
    results have only entries of level B2, C1 or C2 with a definition and
    an example, so has every result stored later, every result with which
    a request settles, and every result that a handler or a deferred pass
    is about to save, to push to the tab, or to give to a deferred pass. *)
Theorem vocabulary_invariant
  (unicode_lower unicode_upper : jsstring -> jsstring)
  (JSON_parse : jsstring -> option json)
  (utf8_encode : jsstring -> list byte) (sha256_digest : list byte -> list byte)
  (urlOrigin : jsstring -> option jsstring) (notIterable : jsError) :
  (forall entries e,
      e ∈ keepB2PlusWords unicode_upper entries
      <-> e ∈ entries
          /\ toUpperCaseWith unicode_upper (cefr e) ∈ B2_PLUS_LEVELS
          /\ hasText (definition_simple e) = true
          /\ hasText (example_simple e) = true)
  /\ (forall value e,
        e ∈ keepB2PlusWords unicode_upper
              (normalizeWordEntries unicode_lower unicode_upper value) ->
        entryOk e)
  /\ (forall sys,
        rtc (systemStep unicode_lower unicode_upper JSON_parse utf8_encode sha256_digest
               urlOrigin notIterable)
            (mkSystem [] []) sys ->
        storedOk (system_stored sys)
        /\ forall t, t ∈ system_tasks sys -> taskHandsOverOk t)
  /\ (forall stored sys,
        storedOk stored ->
        rtc (systemStep unicode_lower unicode_upper JSON_parse utf8_encode sha256_digest
               urlOrigin notIterable)
            (mkSystem stored []) sys ->
        storedOk (system_stored sys)
        /\ forall t, t ∈ system_tasks sys -> taskHandsOverOk t).
Proof.
  assert (Hsystem : forall stored sys,
        storedOk stored ->
        rtc (systemStep unicode_lower unicode_upper JSON_parse utf8_encode sha256_digest
               urlOrigin notIterable)
            (mkSystem stored []) sys ->
        storedOk (system_stored sys)
        /\ forall t, t ∈ system_tasks sys -> taskHandsOverOk t).
  { intros stored sys Hstored Hrun.
    destruct (system_inv unicode_lower unicode_upper JSON_parse utf8_encode sha256_digest
                urlOrigin notIterable stored sys Hstored Hrun) as [Hs Ht].
    split; [exact Hs|]. intros t Hin. rewrite Forall_forall in Ht.
    apply taskResultsOk_now, Ht, Hin. }
  split_and!.
  - apply keepB2PlusWords_elem.
  - intros value e He.
    pose proof (keepB2PlusWords_levels unicode_upper _
                  (normalizeWordEntries_levels unicode_lower unicode_upper value)) as Hl.
    rewrite Forall_forall in Hl.
    apply keepB2PlusWords_elem in He as He'. destruct He' as (_ & _ & Hd & Hx).
    split_and!; [apply Hl, He | exact Hd | exact Hx].
  - intros sys. apply Hsystem. intros key result Hin. inversion Hin.
  - exact Hsystem.
Qed.

(** Of three entries only the C1 word with a definition and an example is
    kept.  From an empty cache, a request for "hello" arrives and its calls
    are answered, the lookup with nothing and the analysis with a result
    without candidate words: the handler stores its result and settles, and
    the result stored and the result returned are fine. *)
Lemma vocabulary_invariant_witness :
  keepB2PlusWords no_unicode_case [entryUbiquitous; entryHouse; entryBlank]
    = [entryUbiquitous]
  /\ exists sys response,
       rtc (systemStep no_unicode_case no_unicode_case JSON_parse_sample latin1_encode
              identity_digest noUrlOrigin requestFailed)
           (mkSystem [] []) sys
       /\ system_tasks sys = [RequestTask (Ret response)]
       /\ length (system_stored sys) = 1%nat
       /\ storedOk (system_stored sys)
       /\ vocabularyOk (response_result response).
Proof.
  split; [reflexivity|].
  pose proof (vocabulary_invariant no_unicode_case no_unicode_case JSON_parse_sample
                latin1_encode identity_digest noUrlOrigin requestFailed)
    as (_ & _ & Hsystem & _).
  assert (Hrun : exists sys response,
    rtc (systemStep no_unicode_case no_unicode_case JSON_parse_sample latin1_encode
           identity_digest noUrlOrigin requestFailed)
        (mkSystem [] []) sys
    /\ system_tasks sys = [RequestTask (Ret response)]
    /\ length (system_stored sys) = 1%nat).
  { eexists _, _. split.
    - eapply rtc_l; [apply (step_arrival _ _ _ _ _ _ _ [] [] helloPayload (Some 7))|].
      eapply rtc_l.
      { eapply (step_request _ _ _ _ _ _ _ _ _ 0%nat _ GetSettings _ sampleSettings);
          [reflexivity | split; reflexivity]. }
      eapply rtc_l.
      { eapply (step_request _ _ _ _ _ _ _ _ _ 0%nat _
                  (GetOrCreateAnonymousClientId sampleSettings) _ (lit "client-1"));
          [reflexivity | split; reflexivity]. }
      eapply rtc_l.
      { eapply (step_request _ _ _ _ _ _ _ _ _ 0%nat _ (GetCachedResponse _) _ None);
          [reflexivity | split_and!; [left; reflexivity | reflexivity..]]. }
      eapply rtc_l.
      { eapply (step_request _ _ _ _ _ _ _ _ _ 0%nat _
                  (AnalyzeExplanationOnlySelection _) _ (inl sampleAnalysis));
          [reflexivity | split; reflexivity]. }
      eapply rtc_l.
      { eapply (step_request _ _ _ _ _ _ _ _ _ 0%nat _ (SaveCachedResponse _ _ _) _ tt);
          [reflexivity | split; reflexivity]. }
      apply rtc_refl.
    - split; reflexivity. }
  destruct Hrun as (sys & response & Hrun & Htasks & Hlen).
  exists sys, response.
  destruct (Hsystem sys Hrun) as [Hstored Hover].
  split_and!; try assumption.
  apply (Hover (RequestTask (Ret response))). rewrite Htasks. left.
Defined.

(** ** Every path of the handler *)

Lemma onPaths_bind {R S} assume call (Q : R -> Prop) (Q' : S -> Prop) thrown
  (p : prog R) (f : R -> prog S) :
  onPaths assume call Q thrown p ->
  (forall r, Q r -> onPaths assume call Q' thrown (f r)) ->
  onPaths assume call Q' thrown (bind p f).
Proof.
  intros Hp Hf. induction p as [r|error|X e k IH]; simpl in *; auto.
  destruct Hp as [He Hk]. split; [exact He|]. intros x Hx. apply IH, Hk, Hx.
Qed.

Lemma onPaths_tryCatch {R} assume call (Q : R -> Prop) (inner thrown : jsError -> Prop)
  (p : prog R) handler :
  onPaths assume call Q inner p ->
  (forall error, inner error -> onPaths assume call Q thrown (handler error)) ->
  onPaths assume call Q thrown (tryCatch p handler).
Proof.
  intros Hp Hh. induction p as [r|error|X e k IH]; simpl in *; auto.
  destruct Hp as [He Hk]. split; [exact He|]. intros x Hx. apply IH, Hk, Hx.
Qed.

Lemma onPaths_tryFinally_skip {R} assume call (Q : R -> Prop) thrown (p : prog R) :
  onPaths assume call Q thrown p ->
  onPaths assume call Q thrown (tryFinally p (Ret tt)).
Proof.
  intros Hp. induction p as [r|error|X e k IH]; simpl in *; auto.
  destruct Hp as [He Hk]. split; [exact He|]. intros x Hx. apply IH, Hk, Hx.
Qed.

Lemma onPaths_requestId {R} assume (call : forall X, effect X -> Prop) (Q : R -> Prop)
  thrown value (f : jsstring -> prog R) :
  call _ RandomRequestId ->
  (forall requestId, onPaths assume call Q thrown (f requestId)) ->
  onPaths assume call Q thrown (bind (normalizeRequestId value) f).
Proof.
  intros Hc H. unfold normalizeRequestId.
  destruct value as [s|]; [destruct (truthy (trim s))|]; simpl; auto.
Qed.

(** ** Explanations always have text *)

Lemma hasText_head c r : is_space c = false -> hasText (c :: r) = true.
Proof.
  intros Hc. unfold hasText, trim. cbn [trimStart]. rewrite Hc.
  cbn [trimEnd]. destruct (trimEnd r); [rewrite Hc|]; reflexivity.
Qed.

Section Text.

Variable unicode_lower : jsstring -> jsstring.

Lemma buildLocalFallbackExplanation_text selectedText :
  hasText (buildLocalFallbackExplanation unicode_lower selectedText) = true.
Proof.
  unfold buildLocalFallbackExplanation. cbv zeta.
  destruct (negb (truthy _)); [reflexivity|].
  destruct (extractFallbackKeywords _ _ _) as [|k0 [|k1 [|k2 [|k3 rest]]]];
    try reflexivity; apply hasText_head; reflexivity.
Qed.

Lemma ensureNonEmptyExplanation_text result selectedText note :
  hasText (simple_explanation
             (ensureNonEmptyExplanation unicode_lower result selectedText note)) = true.
Proof.
  unfold ensureNonEmptyExplanation.
  destruct (hasText (simple_explanation result)) eqn:E; [exact E|].
  apply buildLocalFallbackExplanation_text.
Qed.

Lemma hasText_usable result :
  hasText (simple_explanation result) = true -> isOutputUsable result = true.
Proof.
  unfold hasText, isOutputUsable. destruct (simple_explanation result); [|reflexivity].
  intros H. discriminate H.
Qed.

End Text.

Ltac side :=
  try solve [ intros;
              first [ exact I | reflexivity | assumption | split; reflexivity
                    | left; assumption ] ].

Section HandlerPaths.

Variable unicode_lower : jsstring -> jsstring.
Variable unicode_upper : jsstring -> jsstring.
Variable JSON_parse : jsstring -> option json.
Variable utf8_encode : jsstring -> list byte.
Variable sha256_digest : list byte -> list byte.
Variable urlOrigin : jsstring -> option jsstring.
Variable notIterable : jsError.

Lemma immediate_text parsed selectedText :
  isOutputUsable
    (ensureNonEmptyExplanation unicode_lower
       (enforceEasyLanguage unicode_lower
          {| simple_explanation := simple_explanation parsed;
             a2_plus_words := [];
             notes := notes parsed;
             confidence := confidence parsed |}
          selectedText)
       selectedText backupNoteEmpty) = true.
Proof. apply hasText_usable, ensureNonEmptyExplanation_text. Qed.

(** The work of a request on the deferred path, call by call. *)
Lemma explainWork_paths (assume : forall X, effect X -> X -> Prop) (call : forall X, effect X -> Prop) (Q : Work -> Prop)
  (thrown : jsError -> Prop)
  selectedText requestId explanationMode selectedModel clientId cacheKey tabId :
  let args := mkAnalyzeArgs selectedText clientId selectedModel explanationMode in
  let result parsed :=
    ensureNonEmptyExplanation unicode_lower
      (enforceEasyLanguage unicode_lower
         {| simple_explanation := simple_explanation parsed;
            a2_plus_words := [];
            notes := notes parsed;
            confidence := confidence parsed |}
         selectedText)
      selectedText backupNoteEmpty in
  call _ (AnalyzeExplanationOnlySelection args) ->
  (forall error, assume _ (AnalyzeExplanationOnlySelection args) (inr error) -> thrown error) ->
  (forall analyzed,
      assume _ (AnalyzeExplanationOnlySelection args) (inl analyzed) ->
      analyzed_candidateCount analyzed <= 0 ->
      call _ (SaveCachedResponse cacheKey
                (mkCacheRequest selectedText explanationMode selectedModel)
                (result (analyzed_parsed analyzed)))
      /\ Q (mkWork (result (analyzed_parsed analyzed)) false)) ->
  (forall analyzed,
      assume _ (AnalyzeExplanationOnlySelection args) (inl analyzed) ->
      0 < analyzed_candidateCount analyzed ->
      call _ (RunDeferredWordsPass
                (mkDeferredArgs tabId requestId selectedText
                   (analyzed_candidates analyzed) clientId selectedModel
                   explanationMode (result (analyzed_parsed analyzed)) cacheKey))
      /\ Q (mkWork (result (analyzed_parsed analyzed)) true)) ->
  onPaths assume call Q thrown
    (explainWork unicode_lower false true selectedText requestId explanationMode
       selectedModel clientId cacheKey tabId).
Proof.
  intros args result Hcall Herr Hsave Hdefer. unfold explainWork.
  cbn [bind awaitResult onPaths]. split; [exact Hcall|].
  intros [analyzed|error] Hx; cbn [bind onPaths]; [|apply Herr, Hx].
  rewrite immediate_text. cbn [negb orb].
  destruct (Z.leb_spec (analyzed_candidateCount analyzed) 0) as [Hn|Hn];
    cbn [bind await onPaths].
  - destruct (Hsave analyzed Hx Hn) as [Hc Hq]. split; [exact Hc|]. intros _ _. exact Hq.
  - destruct (Hdefer analyzed Hx Hn) as [Hc Hq]. split; [exact Hc|]. intros _ _. exact Hq.
Qed.

(** The handler after validation, call by call: the client id, the lookup,
    then the cached entry or the work with its fallback. *)
Lemma handle_paths (assume : forall X, effect X -> X -> Prop) (call : forall X, effect X -> Prop) (Q : Response -> Prop)
  (thrown : jsError -> Prop) payload tabId :
  let selectedText := normalizeSelection (payload_selectedText payload) in
  let explanationMode :=
    normalizeExplanationMode unicode_lower (payload_explanationMode payload) in
  let selectedModel := chooseModelForText (len selectedText) in
  let cacheKey := requestCacheKey unicode_lower utf8_encode sha256_digest urlOrigin payload in
  call _ GetSettings ->
  call _ RandomRequestId ->
  (forall error, isValidationError error -> thrown error) ->
  (forall settings, call _ (GetOrCreateAnonymousClientId settings)) ->
  call _ (GetCachedResponse cacheKey) ->
  (forall requestId cachedResult,
      echoes payload requestId ->
      assume _ (GetCachedResponse cacheKey) (Some cachedResult) ->
      Q (mkResponse true
           (ensureNonEmptyExplanation unicode_lower cachedResult selectedText backupNoteCached)
           requestId false explanationMode)) ->
  (forall requestId clientId,
      echoes payload requestId ->
      assume _ (GetCachedResponse cacheKey) None ->
      onPaths assume call Q thrown
        (tryCatch
           (completed <- explainWork unicode_lower false true selectedText requestId
                           explanationMode selectedModel clientId cacheKey tabId ;;
            Ret (mkResponse false (work_result completed) requestId
                   (work_wordsPending completed) explanationMode))
           (fun error =>
              if isRecoverableModelOutputError unicode_lower error then
                _ <- await (SaveCachedResponse cacheKey
                              (mkCacheRequest selectedText explanationMode selectedModel)
                              (incompleteFallback unicode_lower payload)) ;;
                Ret (mkResponse false (incompleteFallback unicode_lower payload)
                       requestId false explanationMode)
              else Throw error))) ->
  onPaths assume call Q thrown
    (handleExplainRequest unicode_lower utf8_encode sha256_digest urlOrigin payload tabId).
Proof.
  intros selectedText explanationMode selectedModel cacheKey
    Hsettings Hrandom Hvalid Hclient Hlookup Hhit Hmiss.
  unfold handleExplainRequest.
  cbn [bind await onPaths]. split; [exact Hsettings|]. intros settings _.
  fold selectedText.
  assert (Hrest : forall requestId, echoes payload requestId ->
    onPaths assume call Q thrown
      (if negb (truthy selectedText) then Throw noSelectionError
       else if len selectedText >? HARD_MAX_CHARS
       then Throw (selectionTooLongError (length selectedText))
       else
         clientId <- await (GetOrCreateAnonymousClientId settings) ;;
         cached <- await (GetCachedResponse cacheKey) ;;
         match cached with
         | Some cachedResult =>
             Ret (mkResponse true
                    (ensureNonEmptyExplanation unicode_lower cachedResult selectedText
                       backupNoteCached)
                    requestId false explanationMode)
         | None =>
             tryFinally
               (tryCatch
                  (completed <- explainWork unicode_lower false true selectedText
                                  requestId explanationMode selectedModel clientId
                                  cacheKey tabId ;;
                   Ret (mkResponse false (work_result completed) requestId
                          (work_wordsPending completed) explanationMode))
                  (fun error =>
                     if isRecoverableModelOutputError unicode_lower error then
                       _ <- await (SaveCachedResponse cacheKey
                                     (mkCacheRequest selectedText explanationMode
                                        selectedModel)
                                     (incompleteFallback unicode_lower payload)) ;;
                       Ret (mkResponse false (incompleteFallback unicode_lower payload)
                              requestId false explanationMode)
                     else Throw error))
               (Ret tt)
         end)).
  { intros requestId Hid.
    destruct (truthy selectedText) eqn:Ht; cbn [negb onPaths].
    2:{ apply Hvalid. left. reflexivity. }
    destruct (len selectedText >? HARD_MAX_CHARS); cbn [onPaths].
    { apply Hvalid. right. eexists. reflexivity. }
    cbn [bind await onPaths]. split; [apply Hclient|]. intros clientId _.
    split; [exact Hlookup|]. intros [cachedResult|] Hx.
    - cbn [onPaths]. apply Hhit; [exact Hid | exact Hx].
    - apply onPaths_tryFinally_skip. apply (Hmiss requestId clientId Hid Hx). }
  assert (Hfast : forall requestId,
    onPaths assume call Q thrown
      (if negb (truthy selectedText) then Throw noSelectionError
       else if len selectedText >? HARD_MAX_CHARS
       then Throw (selectionTooLongError (length selectedText))
       else
         clientId <- await (GetOrCreateAnonymousClientId settings) ;;
         cached <- await (GetCachedResponse cacheKey) ;;
         match cached with
         | Some cachedResult =>
             Ret (mkResponse true
                    (ensureNonEmptyExplanation unicode_lower cachedResult selectedText
                       backupNoteCached)
                    requestId false explanationMode)
         | None =>
             tryFinally
               (tryCatch
                  (completed <- explainWork unicode_lower false true selectedText
                                  requestId explanationMode selectedModel clientId
                                  cacheKey tabId ;;
                   Ret (mkResponse false (work_result completed) requestId
                          (work_wordsPending completed) explanationMode))
                  (fun error =>
                     if isRecoverableModelOutputError unicode_lower error then
                       _ <- await (SaveCachedResponse cacheKey
                                     (mkCacheRequest selectedText explanationMode
                                        selectedModel)
                                     (incompleteFallback unicode_lower payload)) ;;
                       Ret (mkResponse false (incompleteFallback unicode_lower payload)
                              requestId false explanationMode)
                     else Throw error))
               (Ret tt)
         end) ->
    onPaths assume call Q thrown
      (if negb (truthy selectedText) then Throw noSelectionError
       else if len selectedText >? HARD_MAX_CHARS
       then Throw (selectionTooLongError (length selectedText))
       else
         let isFastSingleCallPath := len selectedText <=? FAST_SINGLE_CALL_MAX_CHARS in
         let shouldUseDeferredWords := negb isFastSingleCallPath in
         let selectedModel := chooseModelForText (len selectedText) in
         clientId <- await (GetOrCreateAnonymousClientId settings) ;;
         let pageOrigin :=
           getPageOrigin urlOrigin (payload_pageUrl payload) (payload_pageOrigin payload) in
         let cacheKey :=
           buildCacheKey utf8_encode sha256_digest
             (mkCacheKeyParts pageOrigin selectedText explanationMode selectedModel
                MODEL_VERSION) in
         cached <- await (GetCachedResponse cacheKey) ;;
         match cached with
         | Some cachedResult =>
             Ret (mkResponse true
                    (ensureNonEmptyExplanation unicode_lower cachedResult selectedText
                       backupNoteCached)
                    requestId false explanationMode)
         | None =>
             joins <- (if isFastSingleCallPath then await (InflightHas cacheKey)
                       else Ret false) ;;
             if joins then
               sharedWork <- awaitResult (InflightGet cacheKey) ;;
               Ret (mkResponse false
                      (ensureNonEmptyExplanation unicode_lower (work_result sharedWork)
                         selectedText backupNoteShared)
                      requestId (work_wordsPending sharedWork) explanationMode)
             else
               _ <- (if isFastSingleCallPath then await (InflightSet cacheKey)
                     else Ret tt) ;;
               tryFinally
                 (tryCatch
                    (completed <- explainWork unicode_lower isFastSingleCallPath
                                    shouldUseDeferredWords selectedText requestId
                                    explanationMode selectedModel clientId cacheKey tabId ;;
                     Ret (mkResponse false (work_result completed) requestId
                            (work_wordsPending completed) explanationMode))
                    (fun error =>
                       if isRecoverableModelOutputError unicode_lower error then
                         let fallbackResult :=
                           buildLocalFallbackResult unicode_lower selectedText
                             (lit "EasyRead used fallback mode because the model response was incomplete.") in
                         _ <- await (SaveCachedResponse cacheKey
                                       (mkCacheRequest selectedText explanationMode
                                          selectedModel)
                                       fallbackResult) ;;
                         Ret (mkResponse false fallbackResult requestId false
                                explanationMode)
                       else Throw error))
                 (if isFastSingleCallPath then await (InflightDelete cacheKey)
                  else Ret tt)
         end)).
  { intros requestId H.
    destruct (truthy selectedText) eqn:Ht; cbn [negb] in H |- *; [|exact H].
    destruct (len selectedText >? HARD_MAX_CHARS); [exact H|].
    cbv zeta. rewrite (not_fast_path _ Ht). cbn [negb bind await]. exact H. }
  unfold normalizeRequestId, echoes in *.
  destruct (payload_requestId payload) as [id|].
  - destruct (truthy (trim id)) eqn:Et.
    + cbn [bind]. apply Hfast, Hrest. intros id' Hid' _. injection Hid' as <-. reflexivity.
    + cbn [bind await onPaths]. split; [exact Hrandom|]. intros requestId _.
      apply Hfast, Hrest. intros id' Hid' Hne. injection Hid' as <-.
      destruct (trim id); [congruence | discriminate Et].
  - cbn [bind await onPaths]. split; [exact Hrandom|]. intros requestId _.
    apply Hfast, Hrest. intros id' Hid'. discriminate Hid'.
Qed.

Lemma incompleteFallback_text payload :
  hasText (simple_explanation (incompleteFallback unicode_lower payload)) = true.
Proof. apply buildLocalFallbackExplanation_text. Qed.

(** X1.  Whatever the cache, the model and the rest of the system answer,
    every response that [handleExplainRequest] returns, every result it
    writes to the cache and every result it gives to the deferred pass has
    an explanation with text: the backup explanation stands in for an
    empty one. *)
Theorem handleExplainRequest_explanation_has_text (payload : Payload) (tabId : option Z) :
  onPaths anyAnswer (@handsOverText)
    (fun response => hasText (simple_explanation (response_result response)) = true)
    (fun _ => True)
    (handleExplainRequest unicode_lower utf8_encode sha256_digest urlOrigin payload tabId).
Proof.
  apply handle_paths; side.
  - intros requestId cachedResult _ _. apply ensureNonEmptyExplanation_text.
  - intros requestId clientId _ _.
    apply onPaths_tryCatch with (inner := fun _ => True).
    + eapply onPaths_bind with (Q := fun w => hasText (simple_explanation (work_result w)) = true).
      * apply explainWork_paths; side.
        -- intros analyzed _ _. cbn [handsOverText work_result].
           split; apply ensureNonEmptyExplanation_text.
        -- intros analyzed _ _. cbn [handsOverText work_result deferred_baseResult].
           split; apply ensureNonEmptyExplanation_text.
      * intros w Hw. exact Hw.
    + intros error _. destruct (isRecoverableModelOutputError _ _); [|exact I].
      cbn [bind await onPaths handsOverText response_result].
      split; [apply incompleteFallback_text|]. intros _ _. apply incompleteFallback_text.
Qed.

(** X2.  How a failed analysis ends.  The errors that [handleExplainRequest]
    throws are those of the validation and the errors of the analysis that
    are not recoverable, which it throws as they are, with nothing cached;
    after a recoverable error it caches and returns the local fallback
    result, with no words pending. *)
Theorem handleExplainRequest_analysis_failure (payload : Payload) (tabId : option Z)
  (P : jsError -> Prop) :
  onPaths (analysisErrors P) anyCall (fun _ => True)
    (fun error =>
       isValidationError error
       \/ (P error /\ isRecoverableModelOutputError unicode_lower error = false))
    (handleExplainRequest unicode_lower utf8_encode sha256_digest urlOrigin payload tabId)
  /\ onPaths
       (analysisFails (fun error => isRecoverableModelOutputError unicode_lower error = true))
       (@savesOnly (incompleteFallback unicode_lower payload))
       (fun response =>
          response_result response = incompleteFallback unicode_lower payload
          /\ response_cached response = false
          /\ response_wordsPending response = false)
       isValidationError
       (handleExplainRequest unicode_lower utf8_encode sha256_digest urlOrigin payload tabId)
  /\ (forall rejection,
        isRecoverableModelOutputError unicode_lower rejection = false ->
        onPaths (analysisFails (fun error => error = rejection))
          (fun X e => isCacheWrite e = false /\ isDeferral e = false)
          (fun _ => False)
          (fun error => isValidationError error \/ error = rejection)
          (handleExplainRequest unicode_lower utf8_encode sha256_digest urlOrigin
             payload tabId)).
Proof.
  split_and!.
  - apply handle_paths; side.
    intros requestId clientId _ _.
    apply onPaths_tryCatch with (inner := P).
    + eapply onPaths_bind with (Q := fun _ => True).
      * apply explainWork_paths; side.
        intros error Hx. apply (Hx error eq_refl).
      * intros; exact I.
    + intros error HP. destruct (isRecoverableModelOutputError _ _) eqn:E.
      * cbn [bind await onPaths]. split; [exact I|]. intros; exact I.
      * right. split; [exact HP | exact E].
  - apply handle_paths; side.
    + intros requestId cachedResult _ Hx. discriminate Hx.
    + intros requestId clientId _ _.
      apply onPaths_tryCatch
        with (inner := fun error => isRecoverableModelOutputError unicode_lower error = true).
      * eapply onPaths_bind with (Q := fun _ => False).
        -- apply explainWork_paths; side.
           ++ intros error (error' & Heq & Hr). injection Heq as ->. exact Hr.
           ++ intros analyzed (error & Heq & _). discriminate Heq.
           ++ intros analyzed (error & Heq & _). discriminate Heq.
        -- intros w [].
      * intros error Hr. rewrite Hr.
        cbn [bind await onPaths savesOnly response_result response_cached
               response_wordsPending].
        split; [reflexivity|]. intros _ _. split_and!; reflexivity.
  - intros rejection Hnot. apply handle_paths; side.
    + intros requestId cachedResult _ Hx. discriminate Hx.
    + intros requestId clientId _ _.
      apply onPaths_tryCatch with (inner := fun error => error = rejection).
      * eapply onPaths_bind with (Q := fun _ => False).
        -- apply explainWork_paths; side.
           ++ intros error (error' & Heq & Hr). injection Heq as ->. exact Hr.
           ++ intros analyzed (error & Heq & _). discriminate Heq.
           ++ intros analyzed (error & Heq & _). discriminate Heq.
        -- intros w [].
      * intros error ->. rewrite Hnot. right. reflexivity.
Qed.

(** X3.  A cache hit ends the request at once: no call goes upstream,
    nothing is written to the cache, and the response is marked as cached
    with no words pending; it carries the cached result, unchanged when its
    explanation has text. *)
Theorem handleExplainRequest_cache_hit (payload : Payload) (tabId : option Z)
  (cachedResult : ExplainResult) :
  onPaths (cacheHolds (Some cachedResult))
    (fun X e => isUpstream e = false /\ isCacheWrite e = false)
    (fun response =>
       response_cached response = true
       /\ response_wordsPending response = false
       /\ response_explanationMode response
          = normalizeExplanationMode unicode_lower (payload_explanationMode payload)
       /\ response_result response
          = ensureNonEmptyExplanation unicode_lower cachedResult
              (normalizeSelection (payload_selectedText payload)) backupNoteCached
       /\ (hasText (simple_explanation cachedResult) = true ->
           response_result response = cachedResult))
    isValidationError
    (handleExplainRequest unicode_lower utf8_encode sha256_digest urlOrigin payload tabId).
Proof.
  apply handle_paths; side.
  - intros requestId cached _ Hx. injection Hx as ->.
    cbn [response_cached response_wordsPending response_explanationMode response_result].
    split_and!; try reflexivity.
    intros Ht. unfold ensureNonEmptyExplanation. rewrite Ht. reflexivity.
  - intros requestId clientId _ Hx. discriminate Hx.
Qed.

(** X4.  A request that misses the cache.  Every call that names a cache
    key names the key of the request, the only analysis is the
    explanation-only analysis of the trimmed selection with the model chosen
    by its length, and the response echoes the normalized mode and the
    request id of the payload.  When the analysis finds candidate words the
    response has words pending and the cache is left to the deferred pass;
    when it finds none the result is cached and no deferred pass starts. *)
Theorem handleExplainRequest_cache_miss (payload : Payload) (tabId : option Z) :
  let selectedText := normalizeSelection (payload_selectedText payload) in
  let mode := normalizeExplanationMode unicode_lower (payload_explanationMode payload) in
  let handler :=
    handleExplainRequest unicode_lower utf8_encode sha256_digest urlOrigin payload tabId in
  onPaths anyAnswer
    (fun X e =>
       usesRequest
         (requestCacheKey unicode_lower utf8_encode sha256_digest urlOrigin payload)
         selectedText (chooseModelForText (len selectedText)) mode e)
    (fun response =>
       response_explanationMode response = mode
       /\ echoes payload (response_requestId response))
    (fun _ => True)
    handler
  /\ onPaths (analysisFinds (fun count => 0 < count))
       (fun X e => isCacheWrite e = false)
       (fun response =>
          response_cached response = false /\ response_wordsPending response = true)
       isValidationError
       handler
  /\ onPaths (analysisFinds (fun count => count <= 0))
       (fun X e => isDeferral e = false)
       (fun response =>
          response_cached response = false /\ response_wordsPending response = false)
       isValidationError
       handler.
Proof.
  intros selectedText mode handler. subst handler. split_and!.
  - apply handle_paths; side.
    + intros requestId cachedResult Hid _.
      cbn [response_explanationMode response_requestId]. split; [reflexivity | exact Hid].
    + intros requestId clientId Hid _.
      apply onPaths_tryCatch with (inner := fun _ => True).
      * eapply onPaths_bind with (Q := fun _ => True).
        -- apply explainWork_paths; side.
           ++ cbn [usesRequest analyze_selectedText analyze_model analyze_explanationMode].
              split_and!; reflexivity.
           ++ intros analyzed _ _. split; [|exact I].
              cbn [usesRequest]. split; reflexivity.
           ++ intros analyzed _ _. split; [|exact I].
              cbn [usesRequest deferred_cacheKey deferred_selectedText deferred_model
                     deferred_explanationMode].
              split_and!; reflexivity.
        -- intros w _. cbn [onPaths response_explanationMode response_requestId].
           split; [reflexivity | exact Hid].
      * intros error _. destruct (isRecoverableModelOutputError _ _); [|exact I].
        cbn [bind await onPaths usesRequest response_explanationMode response_requestId].
        split; [split; reflexivity|]. intros _ _. split; [reflexivity | exact Hid].
  - apply handle_paths; side.
    + intros requestId cachedResult _ Hx. discriminate Hx.
    + intros requestId clientId _ _.
      apply onPaths_tryCatch with (inner := fun _ => False).
      * eapply onPaths_bind with (Q := fun w => work_wordsPending w = true).
        -- apply explainWork_paths; side.
           ++ intros error (analyzed & Heq & _). discriminate Heq.
           ++ intros analyzed (analyzed' & Heq & Hn) Hle. injection Heq as ->. lia.
        -- intros w Hw. cbn [onPaths response_cached response_wordsPending].
           split; [reflexivity | exact Hw].
      * intros error [].
  - apply handle_paths; side.
    + intros requestId cachedResult _ Hx. discriminate Hx.
    + intros requestId clientId _ _.
      apply onPaths_tryCatch with (inner := fun _ => False).
      * eapply onPaths_bind with (Q := fun w => work_wordsPending w = false).
        -- apply explainWork_paths; side.
           ++ intros error (analyzed & Heq & _). discriminate Heq.
           ++ intros analyzed (analyzed' & Heq & Hn) Hle. injection Heq as ->. lia.
        -- intros w Hw. cbn [onPaths response_cached response_wordsPending].
           split; [reflexivity | exact Hw].
      * intros error [].
Qed.

(** X5.  The deferred words pass never rejects, whatever the model and the
    rest of the system answer.  It sends exactly one update to the tab of
    the request (none when there is no tab), makes its calls with the key,
    the selection and the candidates it was given, and only hands over
    results whose explanation has text.  Without candidates it asks nothing
    upstream and writes the base result to the cache once; when the word
    request is rejected, or answered with an output that cannot be read, it
    caches nothing and the update is the error text. *)
Theorem runDeferredWordsPass_behaviour (args : DeferredArgs) :
  let pass :=
    runDeferredWordsPass unicode_lower unicode_upper JSON_parse notIterable args in
  onPaths anyAnswer (@handsOverText) (fun _ => True) (fun _ => False) pass
  /\ onPaths anyAnswer (fun X e => deferredCall args e) (fun _ => True) (fun _ => False) pass
  /\ callsExactly (@isTabUpdate) (match deferred_tabId args with Some _ => 1 | None => 0 end)%nat pass
  /\ (deferred_candidates args = [] ->
      neverCalls (@isUpstream) pass /\ callsExactly (@isCacheWrite) 1 pass)
  /\ (deferred_candidates args <> [] ->
      onPaths wordRequestFails (@noResultOut) (fun _ => True) (fun _ => False) pass
      /\ onPaths wordAnswerUnreadable (@noResultOut) (fun _ => True) (fun _ => False) pass).
Proof.
  intros pass. subst pass. unfold runDeferredWordsPass, callModelForB2PlusWords, tabUpdate.
  cbv zeta.
  destruct args as [tabId requestId selectedText candidates clientId model mode base key].
  cbn [deferred_tabId deferred_requestId deferred_selectedText deferred_candidates
         deferred_clientId deferred_model deferred_explanationMode deferred_baseResult
         deferred_cacheKey].
  assert (Hlen : (0 <? alen candidates) = true <-> candidates <> []).
  { unfold alen. destruct candidates; simpl; split; intros H; try congruence;
      try discriminate. reflexivity. }
  split_and!.
  - destruct (0 <? alen candidates).
    + cbn [bind awaitResult tryCatch onPaths handsOverText]. split; [exact I|].
      intros [response|error] _; cbn [bind tryCatch onPaths].
      * destruct (extractOutputText response) as [rawText|].
        -- destruct (negb (truthy rawText));
             [|destruct (parseAndNormalizeWordCoverage _ _ _ _)];
             cbn [bind await tryCatch onPaths handsOverText];
             (split; [apply ensureNonEmptyExplanation_text|]); intros _ _;
             destruct tabId; cbn [await tryCatch onPaths handsOverText]; try exact I;
             (split; [apply ensureNonEmptyExplanation_text | intros; exact I]).
        -- cbn [bind tryCatch].
           destruct tabId; cbn [await onPaths handsOverText];
             [split; [exact I|intros; exact I] | exact I].
      * destruct tabId; cbn [await onPaths handsOverText]; [split; [exact I|intros; exact I] | exact I].
    + cbn [bind await tryCatch onPaths handsOverText].
      split; [apply ensureNonEmptyExplanation_text|]. intros _ _.
      destruct tabId; cbn [await tryCatch onPaths handsOverText]; try exact I.
      split; [apply ensureNonEmptyExplanation_text | intros; exact I].
  - destruct (0 <? alen candidates) eqn:Ec.
    + assert (Hne : candidates <> []) by (destruct candidates; [discriminate Ec | discriminate]).
      clear Ec. rename Hne into Ec.
      cbn [bind awaitResult tryCatch onPaths deferredCall deferred_clientId deferred_model
             deferred_selectedText deferred_candidates].
      split; [split_and!; try reflexivity; exact Ec|].
      intros [response|error] _; cbn [bind tryCatch onPaths].
      * destruct (extractOutputText response) as [rawText|].
        -- destruct (negb (truthy rawText));
             [|destruct (parseAndNormalizeWordCoverage _ _ _ _)];
             cbn [bind await tryCatch onPaths deferredCall deferred_cacheKey
                    deferred_selectedText deferred_explanationMode deferred_model];
             (split; [split; reflexivity|]); intros _ _;
             destruct tabId; cbn [await tryCatch onPaths deferredCall deferred_tabId
                                    deferred_requestId deferred_explanationMode];
             try exact I; (split; [split_and!; reflexivity | intros; exact I]).
        -- cbn [bind tryCatch].
           destruct tabId; cbn [await onPaths deferredCall deferred_tabId deferred_requestId];
             [split; [split; reflexivity | intros; exact I] | exact I].
      * destruct tabId; cbn [await onPaths deferredCall deferred_tabId deferred_requestId];
          [split; [split; reflexivity | intros; exact I] | exact I].
    + cbn [bind await tryCatch onPaths deferredCall deferred_cacheKey
             deferred_selectedText deferred_explanationMode deferred_model].
      split; [split; reflexivity|]. intros _ _.
      destruct tabId; cbn [await tryCatch onPaths deferredCall deferred_tabId
                             deferred_requestId deferred_explanationMode]; try exact I.
      split; [split_and!; reflexivity | intros; exact I].
  - destruct (0 <? alen candidates).
    + cbn [bind awaitResult tryCatch callsExactly isTabUpdate].
      intros [response|error]; cbn [bind tryCatch callsExactly].
      * destruct (extractOutputText response) as [rawText|].
        -- destruct (negb (truthy rawText));
             [|destruct (parseAndNormalizeWordCoverage _ _ _ _)];
             cbn [bind await tryCatch callsExactly isTabUpdate]; intros _;
             destruct tabId; cbn [await tryCatch callsExactly isTabUpdate]; reflexivity.
        -- cbn [bind tryCatch].
           destruct tabId; cbn [await callsExactly isTabUpdate]; [intros _|]; reflexivity.
      * destruct tabId; cbn [await callsExactly isTabUpdate]; [intros _|]; reflexivity.
    + cbn [bind await tryCatch callsExactly isTabUpdate]. intros _.
      destruct tabId; cbn [await tryCatch callsExactly isTabUpdate]; reflexivity.
  - intros ->. cbn [alen length Z.of_nat Z.ltb Z.compare bind await tryCatch].
    split.
    + cbn [neverCalls isUpstream]. split; [reflexivity|]. intros _.
      destruct tabId; cbn [await tryCatch neverCalls isUpstream]; [|exact I].
      split; [reflexivity | intros; exact I].
    + cbn [callsExactly isCacheWrite]. intros _.
      destruct tabId; cbn [await tryCatch callsExactly isCacheWrite]; [intros _|]; reflexivity.
  - intros Hne. apply Hlen in Hne. rewrite Hne.
    cbn [bind awaitResult tryCatch onPaths noResultOut]. split.
    + split; [exact I|].
      intros [response|error] Hx; cbn [bind tryCatch onPaths].
      * destruct Hx as (error & Heq). discriminate Heq.
      * destruct tabId; cbn [await onPaths noResultOut];
          [split; [exact I|intros; exact I] | exact I].
    + split; [exact I|].
      intros [response|error] Hx; cbn [bind tryCatch onPaths].
      * destruct Hx as (response' & [= <-] & Hnone). rewrite Hnone. cbn [bind tryCatch].
        destruct tabId; cbn [await onPaths noResultOut];
          [split; [exact I|intros; exact I] | exact I].
      * destruct Hx as (response' & Heq & _). discriminate Heq.
Qed.

End HandlerPaths.

(** ** Trimmed strings *)

Lemma trim_head s c r : trim s = c :: r -> is_space c = false.
Proof.
  unfold trim. destruct (trimStart s) as [|d t] eqn:E; [discriminate|].
  pose proof (trimStart_head s d t E) as Hd.
  rewrite trimEnd_keep by exact Hd. intros H. injection H as <- _. exact Hd.
Qed.

Lemma trim_last s : trim s = [] \/ exists r c, trim s = r ++ [c] /\ is_space c = false.
Proof. unfold trim. apply trimEnd_last. Qed.

Lemma trim_between c m d :
  is_space c = false -> is_space d = false -> trim (c :: m ++ [d]) = c :: m ++ [d].
Proof.
  intros Hc Hd. unfold trim. rewrite trimStart_keep by exact Hc.
  change (c :: m ++ [d]) with ((c :: m) ++ [d]). apply trimEnd_snoc, Hd.
Qed.

Lemma trim_single c : is_space c = false -> trim [c] = [c].
Proof. intros Hc. unfold trim. simpl. rewrite Hc. simpl. rewrite Hc. reflexivity. Qed.

(** A trimmed string that is not empty starts and ends with a code unit
    that is not white space. *)
Lemma trimmed_ends s :
  trim s = s -> s <> [] ->
  exists c, is_space c = false
    /\ (s = [c] \/ exists m d, s = c :: m ++ [d] /\ is_space d = false).
Proof.
  intros Ht Hne. destruct s as [|c r]; [congruence|].
  pose proof (trim_head _ _ _ Ht) as Hc. exists c. split; [exact Hc|].
  destruct (trim_last (c :: r)) as [E|(m & d & E & Hd)]; rewrite Ht in E; [discriminate|].
  destruct m as [|c' m]; simpl in E.
  - left. injection E as <- ->. reflexivity.
  - right. injection E as <- ->. exists m, d. split; [reflexivity | exact Hd].
Qed.

Lemma trimmed_app a m b :
  trim a = a -> a <> [] -> trim b = b -> b <> [] -> trim (a ++ m ++ b) = a ++ m ++ b.
Proof.
  intros Ha Hna Hb Hnb.
  destruct (trimmed_ends a Ha Hna) as (c & Hc & Ea).
  destruct (trimmed_ends b Hb Hnb) as (d & Hd & Eb).
  assert (Hbl : exists b' e, b = b' ++ [e] /\ is_space e = false).
  { destruct Eb as [->|(m' & e & -> & He)].
    - exists [], d. split; [reflexivity | exact Hd].
    - exists (d :: m'), e. split; [reflexivity | exact He]. }
  destruct Hbl as (b' & e & -> & He).
  assert (Hal : exists a', a = c :: a').
  { destruct Ea as [->|(m' & e' & -> & _)]; eexists; reflexivity. }
  destruct Hal as (a' & ->).
  replace ((c :: a') ++ m ++ b' ++ [e]) with (c :: (a' ++ m ++ b') ++ [e]).
  - apply trim_between; assumption.
  - simpl. rewrite <- !app_assoc. reflexivity.
Qed.

Lemma hasText_iff s : hasText s = true <-> trim s <> [].
Proof.
  unfold hasText, len. destruct (trim s); simpl; split; intros H; try congruence; try discriminate.
  reflexivity.
Qed.

Lemma hasText_false_iff s : hasText s = false <-> trim s = [].
Proof.
  unfold hasText, len. destruct (trim s); simpl; split; intros H; try congruence; try discriminate.
  reflexivity.
Qed.

Lemma hasText_trim s : hasText (trim s) = hasText s.
Proof. unfold hasText. rewrite trim_idem. reflexivity. Qed.

Lemma truthy_trim_hasText s : truthy (trim s) = hasText s.
Proof. unfold hasText, len. destruct (trim s); reflexivity. Qed.

Lemma trim_nil : trim [] = [].
Proof. reflexivity. Qed.

(** ** Lists *)

Lemma sublist_List_filter {A} (f : A -> bool) (l : list A) : sublist (List.filter f l) l.
Proof.
  induction l as [|x l IH]; simpl; [constructor|].
  destruct (f x); [apply sublist_skip | apply sublist_cons]; exact IH.
Qed.

(** ** First occurrences *)

Lemma firstOccurrencesAfter_seen {A} (key : A -> jsstring) l :
  forall before before',
    (forall k, k ∈ List.map key before <-> k ∈ List.map key before') ->
    firstOccurrencesAfter key before l = firstOccurrencesAfter key before' l.
Proof.
  induction l as [|x rest IH]; intros before before' Hsame; [reflexivity|].
  cbn [firstOccurrencesAfter].
  rewrite (bool_decide_ext _ _ (Hsame (key x))). f_equal.
  apply IH. intros k. rewrite !List.map_app, !elem_of_app, Hsame. reflexivity.
Qed.

Lemma firstOccurrencesAfter_old {A} (key : A -> jsstring) before x rest :
  key x ∈ List.map key before ->
  firstOccurrencesAfter key before (x :: rest) = firstOccurrencesAfter key before rest.
Proof.
  intros Hin. cbn [firstOccurrencesAfter]. rewrite bool_decide_eq_true_2 by exact Hin.
  cbn [app]. apply firstOccurrencesAfter_seen. intros k.
  rewrite List.map_app, elem_of_app. cbn [List.map]. rewrite list_elem_of_singleton.
  split; [intros [H | ->]; [exact H | exact Hin] | intros H; left; exact H].
Qed.

Lemma firstOccurrencesAfter_new {A} (key : A -> jsstring) before x rest :
  key x ∉ List.map key before ->
  firstOccurrencesAfter key before (x :: rest)
  = x :: firstOccurrencesAfter key (before ++ [x]) rest.
Proof.
  intros Hin. cbn [firstOccurrencesAfter]. rewrite bool_decide_eq_false_2 by exact Hin.
  reflexivity.
Qed.

Lemma firstAtMost_bound bound : (1 <= Z.to_nat (Z.max 1 bound))%nat.
Proof. lia. Qed.

Lemma firstOccurrencesAfter_app {A} (key : A -> jsstring) l1 :
  forall before l2,
    firstOccurrencesAfter key before (l1 ++ l2)
    = firstOccurrencesAfter key before l1
      ++ firstOccurrencesAfter key (before ++ l1) l2.
Proof.
  induction l1 as [|x l1 IH]; intros before l2.
  - rewrite app_nil_r. reflexivity.
  - cbn [app firstOccurrencesAfter]. rewrite IH, <- !app_assoc. reflexivity.
Qed.

Lemma firstOccurrencesAfter_sublist {A} (key : A -> jsstring) l :
  forall before, sublist (firstOccurrencesAfter key before l) l.
Proof.
  induction l as [|x l IH]; intros before; [constructor|].
  cbn [firstOccurrencesAfter]. destruct (bool_decide _); cbn [app].
  - apply sublist_cons, IH.
  - apply sublist_skip, IH.
Qed.

Lemma firstOccurrencesAfter_keys {A} (key : A -> jsstring) l :
  forall before k,
    k ∈ List.map key (before ++ firstOccurrencesAfter key before l)
    <-> k ∈ List.map key (before ++ l).
Proof.
  induction l as [|x l IH]; intros before k; [reflexivity|].
  destruct (decide (key x ∈ List.map key before)) as [Hold|Hnew].
  - rewrite firstOccurrencesAfter_old by exact Hold. rewrite IH.
    rewrite !List.map_app, !elem_of_app. cbn [List.map]. rewrite elem_of_cons.
    split; [tauto|]. intros [H|[->|H]]; [tauto | left; exact Hold | tauto].
  - rewrite firstOccurrencesAfter_new by exact Hnew.
    replace (before ++ x :: firstOccurrencesAfter key (before ++ [x]) l)
      with ((before ++ [x]) ++ firstOccurrencesAfter key (before ++ [x]) l)
      by (rewrite <- app_assoc; reflexivity).
    rewrite IH, <- app_assoc. reflexivity.
Qed.

Lemma firstOccurrencesAfter_NoDup {A} (key : A -> jsstring) l :
  forall before,
    NoDup (List.map key before) ->
    NoDup (List.map key (before ++ firstOccurrencesAfter key before l)).
Proof.
  induction l as [|x l IH]; intros before Hnd.
  - cbn [firstOccurrencesAfter]. rewrite app_nil_r. exact Hnd.
  - destruct (decide (key x ∈ List.map key before)) as [Hold|Hnew].
    + rewrite firstOccurrencesAfter_old by exact Hold. apply IH, Hnd.
    + rewrite firstOccurrencesAfter_new by exact Hnew.
      replace (before ++ x :: firstOccurrencesAfter key (before ++ [x]) l)
        with ((before ++ [x]) ++ firstOccurrencesAfter key (before ++ [x]) l)
        by (rewrite <- app_assoc; reflexivity).
      apply IH. rewrite List.map_app. apply NoDup_app.
      split_and!; [exact Hnd | | apply NoDup_singleton].
      intros k Hk Hk'. cbn [List.map] in Hk'. apply list_elem_of_singleton in Hk' as ->.
      contradiction.
Qed.

Lemma firstOccurrencesAfter_same {A} (key : A -> jsstring) before found l :
  firstOccurrencesAfter key (before ++ firstOccurrencesAfter key before found) l
  = firstOccurrencesAfter key (before ++ found) l.
Proof.
  apply firstOccurrencesAfter_seen. intros k. apply firstOccurrencesAfter_keys.
Qed.

Lemma firstOccurrences_elem (l : list jsstring) n :
  n ∈ firstOccurrences (fun n => n) l <-> n ∈ l.
Proof.
  pose proof (firstOccurrencesAfter_keys (fun n : jsstring => n) l [] n) as H.
  cbn [app] in H. rewrite !List.map_id in H. exact H.
Qed.

Lemma StrSet_add_first x (s : StrSet.t) :
  StrSet.add x s = s ++ firstOccurrencesAfter (fun n => n) s [x].
Proof.
  unfold StrSet.add, StrSet.has. cbn [firstOccurrencesAfter].
  rewrite List.map_id, app_nil_r.
  destruct (decide (x ∈ s)) as [Hin|Hout].
  - rewrite !bool_decide_eq_true_2 by exact Hin. symmetry. apply app_nil_r.
  - rewrite !bool_decide_eq_false_2 by exact Hout. reflexivity.
Qed.

(** ** Merging vocabulary entries *)

Section MergeFacts.

Variable unicode_lower : jsstring -> jsstring.
Variable unicode_upper : jsstring -> jsstring.

Local Abbreviation key := (mergeKey unicode_lower).

Lemma mergeLoop_inv items :
  forall merged,
    NoDup (List.map key merged) ->
    Forall (fun e => key e <> []) merged ->
    exists added,
      mergeLoop unicode_lower items merged (List.map key merged) = merged ++ added
      /\ sublist added items
      /\ NoDup (List.map key (merged ++ added))
      /\ Forall (fun e => key e <> []) added
      /\ (forall item, item ∈ items -> key item <> [] ->
            key item ∈ List.map key (merged ++ added))
      /\ (forall before item after,
            items = before ++ item :: after ->
            key item <> [] ->
            key item ∉ List.map key (merged ++ before) ->
            item ∈ added).
Proof.
  induction items as [|item rest IH]; intros merged Hnd Hne.
  - exists []. rewrite app_nil_r. split_and!.
    + reflexivity.
    + constructor.
    + exact Hnd.
    + constructor.
    + intros item Hin. inversion Hin.
    + intros before item after E. destruct before; discriminate E.
  - cbn [mergeLoop]. cbv zeta. unfold StrSet.has, StrSet.add, StrSet.has.
    destruct (truthy (key item)) eqn:Ht; cbn [negb orb].
    2:{ apply truthy_false in Ht.
        destruct (IH merged Hnd Hne) as (added & E & Hsub & Hnd' & Hne' & Hcov & Hfirst).
        exists added. split_and!; [exact E | | exact Hnd' | exact Hne' | |].
        - apply sublist_cons, Hsub.
        - intros x Hx Hk. apply elem_of_cons in Hx as [->|Hx]; [congruence|].
          apply Hcov; assumption.
        - intros before x after Ex Hk Hnot. destruct before as [|b before].
          + injection Ex as -> _. congruence.
          + injection Ex as -> ->. eapply Hfirst; [reflexivity | exact Hk|].
            intros Hin. apply Hnot. rewrite map_app in Hin |- *. cbn [List.map].
            apply elem_of_app in Hin as [Hin|Hin]; apply elem_of_app; [left; exact Hin|].
            right. apply elem_of_cons. right. exact Hin. }
    apply truthy_true in Ht.
    case_bool_decide as Hseen.
    + destruct (IH merged Hnd Hne) as (added & E & Hsub & Hnd' & Hne' & Hcov & Hfirst).
      exists added. split_and!; [exact E | | exact Hnd' | exact Hne' | |].
      * apply sublist_cons, Hsub.
      * intros x Hx Hk. apply elem_of_cons in Hx as [->|Hx]; [|apply Hcov; assumption].
        rewrite map_app. apply elem_of_app. left. exact Hseen.
      * intros before x after Ex Hk Hnot. destruct before as [|b before].
        -- injection Ex as -> _. exfalso. apply Hnot. rewrite app_nil_r. exact Hseen.
        -- injection Ex as -> ->. eapply Hfirst; [reflexivity | exact Hk|].
           intros Hin. apply Hnot. rewrite map_app in Hin |- *. cbn [List.map].
           apply elem_of_app in Hin as [Hin|Hin]; apply elem_of_app; [left; exact Hin|].
           right. apply elem_of_cons. right. exact Hin.
    + assert (Hmap : List.map key merged ++ [key item] = List.map key (merged ++ [item])).
      { rewrite map_app. reflexivity. }
      rewrite Hmap.
      destruct (IH (merged ++ [item])) as (added & E & Hsub & Hnd' & Hne' & Hcov & Hfirst).
      * rewrite <- Hmap. apply NoDup_app. split_and!; [exact Hnd | | apply NoDup_singleton].
        intros k Hk Hk'. apply list_elem_of_singleton in Hk' as ->. contradiction.
      * apply Forall_app. split; [exact Hne|]. constructor; [exact Ht | constructor].
      * exists (item :: added). rewrite <- app_assoc in E, Hnd', Hcov. cbn [app] in E, Hnd', Hcov.
        split_and!; [exact E | | exact Hnd' | constructor; [exact Ht | exact Hne'] | |].
        -- apply sublist_skip, Hsub.
        -- intros x Hx Hk. apply elem_of_cons in Hx as [->|Hx]; [|apply Hcov; assumption].
           rewrite map_app. apply elem_of_app. right. cbn [List.map]. apply elem_of_cons.
           left. reflexivity.
        -- intros before x after Ex Hk Hnot. destruct before as [|b before].
           ++ injection Ex as -> _. apply elem_of_cons. left. reflexivity.
           ++ injection Ex as -> ->. apply elem_of_cons. right.
              eapply Hfirst; [reflexivity | exact Hk|].
              rewrite <- app_assoc. exact Hnot.
Qed.

Lemma mergeLoop_take existing rest :
  forall merged,
    NoDup (List.map key (merged ++ existing)) ->
    Forall (fun e => key e <> []) existing ->
    mergeLoop unicode_lower (existing ++ rest) merged (List.map key merged)
    = mergeLoop unicode_lower rest (merged ++ existing) (List.map key (merged ++ existing)).
Proof.
  induction existing as [|item existing IH]; intros merged Hnd Hne.
  - rewrite app_nil_r. reflexivity.
  - cbn [app mergeLoop]. cbv zeta. unfold StrSet.has, StrSet.add, StrSet.has.
    inversion Hne as [|? ? Hk Hne']; subst.
    apply truthy_true in Hk. rewrite Hk. cbn [negb orb].
    rewrite map_app in Hnd. apply NoDup_app in Hnd as (Hnd1 & Hdisj & Hnd2).
    case_bool_decide as Hseen.
    + exfalso. apply (Hdisj _ Hseen). cbn [List.map]. apply elem_of_cons. left. reflexivity.
    + replace (List.map key merged ++ [key item]) with (List.map key (merged ++ [item]))
        by (rewrite map_app; reflexivity).
      rewrite IH.
      * rewrite <- app_assoc. reflexivity.
      * rewrite <- app_assoc. cbn [app]. rewrite map_app. apply NoDup_app.
        split_and!; assumption.
      * exact Hne'.
Qed.

Lemma mergeLoop_first items :
  forall merged,
    mergeLoop unicode_lower items merged (List.map key merged)
    = merged
      ++ firstOccurrencesAfter key merged (List.filter (fun e => truthy (key e)) items).
Proof.
  induction items as [|item rest IH]; intros merged.
  - cbn. rewrite app_nil_r. reflexivity.
  - cbn [mergeLoop List.filter]. cbv zeta. unfold StrSet.has, StrSet.add, StrSet.has.
    destruct (truthy (key item)); cbn [negb orb]; [|apply IH].
    destruct (decide (key item ∈ List.map key merged)) as [Hold|Hnew].
    + rewrite bool_decide_eq_true_2 by exact Hold.
      rewrite firstOccurrencesAfter_old by exact Hold. apply IH.
    + rewrite !bool_decide_eq_false_2 by exact Hnew.
      rewrite firstOccurrencesAfter_new by exact Hnew.
      replace (List.map key merged ++ [key item]) with (List.map key (merged ++ [item]))
        by (rewrite map_app; reflexivity).
      rewrite IH, <- app_assoc. reflexivity.
Qed.

Lemma mergeWordEntries_more existing more :
  NoDup (List.map key existing) ->
  Forall (fun e => key e <> []) existing ->
  mergeWordEntries unicode_lower existing more
  = existing
    ++ firstOccurrencesAfter key existing (List.filter (fun e => truthy (key e)) more).
Proof.
  intros Hnd Hne. unfold mergeWordEntries, StrSet.empty.
  change (@nil jsstring) with (List.map key []).
  rewrite mergeLoop_take by assumption. cbn [app]. apply mergeLoop_first.
Qed.

(** X6.  [mergeWordEntries] keeps, in their order, the entries of both lists
    whose key (the normalized word, or the normalized lemma when the word
    has none) is not empty and was not seen before: the keys of the result
    are distinct, every key of the inputs is there, and the entry kept for
    a key is the first one with it, so that the existing entries win over
    the supplemental ones. *)
Theorem mergeWordEntries_spec (existingEntries supplementalEntries : list WordEntry) :
  let merged := mergeWordEntries unicode_lower existingEntries supplementalEntries in
  let all := existingEntries ++ supplementalEntries in
  sublist merged all
  /\ NoDup (List.map (mergeKey unicode_lower) merged)
  /\ Forall (fun e => mergeKey unicode_lower e <> []) merged
  /\ (forall item, item ∈ all -> mergeKey unicode_lower item <> [] ->
        mergeKey unicode_lower item ∈ List.map (mergeKey unicode_lower) merged)
  /\ (forall before item after,
        all = before ++ item :: after ->
        mergeKey unicode_lower item <> [] ->
        mergeKey unicode_lower item ∉ List.map (mergeKey unicode_lower) before ->
        item ∈ merged)
  /\ (NoDup (List.map (mergeKey unicode_lower) existingEntries) ->
      Forall (fun e => mergeKey unicode_lower e <> []) existingEntries ->
      existingEntries `prefix_of` merged).
Proof.
  intros merged all. subst merged all. unfold mergeWordEntries, StrSet.empty.
  destruct (mergeLoop_inv (existingEntries ++ supplementalEntries) [])
    as (added & E & Hsub & Hnd & Hne & Hcov & Hfirst); [constructor | constructor|].
  cbn [List.map app] in E, Hnd, Hcov, Hfirst. rewrite E.
  split_and!; auto.
  intros Hnd' Hne'. rewrite <- E.
  change (@nil jsstring) with (List.map key []).
  rewrite mergeLoop_take by assumption. cbn [app].
  destruct (mergeLoop_inv supplementalEntries existingEntries Hnd' Hne') as (more & E' & _).
  rewrite E'. exists more. reflexivity.
Qed.

(** ** Merging the results of the chunks *)

Variable double_add : jsnum -> jsnum -> jsnum.
Variable double_div : jsnum -> jsnum -> jsnum.

Local Abbreviation step := (mergeChunk unicode_lower double_add).

Lemma mergeWordEntries_keys existing more :
  NoDup (List.map key (mergeWordEntries unicode_lower existing more))
  /\ forall e, e ∈ mergeWordEntries unicode_lower existing more -> e ∈ existing \/ e ∈ more.
Proof.
  unfold mergeWordEntries, StrSet.empty.
  destruct (mergeLoop_inv (existing ++ more) [])
    as (added & E & Hsub & Hnd & _); [constructor | constructor|].
  cbn [List.map app] in E, Hnd. rewrite E. split; [exact Hnd|].
  intros e He. apply elem_of_app. eapply elem_of_sublist; [exact He | exact Hsub].
Qed.

Lemma fold_mergeChunk chunks :
  forall st,
    NoDup (noteSet st) ->
    NoDup (List.map key (mergedWords st)) ->
    let final := fold_left step chunks st in
    explanationParts final
    = explanationParts st
      ++ List.map trim (List.filter hasText (List.map simple_explanation chunks))
    /\ NoDup (noteSet final)
    /\ (forall n, n ∈ noteSet final ->
          n ∈ noteSet st
          \/ exists chunk, chunk ∈ chunks /\ hasText (notes chunk) = true
                           /\ n = trim (notes chunk))
    /\ NoDup (List.map key (mergedWords final))
    /\ (forall e, e ∈ mergedWords final ->
          e ∈ mergedWords st \/ exists chunk, chunk ∈ chunks /\ e ∈ a2_plus_words chunk)
    /\ (Forall (fun chunk => isFiniteNumber (confidence chunk) = false) chunks ->
        confidenceCount final = confidenceCount st).
Proof.
  induction chunks as [|chunk chunks IH]; intros st Hnotes Hwords; cbn [fold_left].
  - cbv zeta. rewrite app_nil_r. split_and!; auto.
  - destruct (IH (step st chunk)) as (Hparts & Hnd & Hn & Hk & Hw & Hc).
    + cbn [mergeChunk noteSet]. destruct (hasText (notes chunk)); [|exact Hnotes].
      apply StrSet_add_NoDup, Hnotes.
    + cbn [mergeChunk mergedWords]. destruct (0 <? alen (a2_plus_words chunk)); [|exact Hwords].
      apply mergeWordEntries_keys.
    + cbv zeta. split_and!.
      * rewrite Hparts. cbn [mergeChunk explanationParts List.map List.filter].
        destruct (hasText (simple_explanation chunk)); [|reflexivity].
        rewrite <- app_assoc. reflexivity.
      * exact Hnd.
      * intros n Hin. destruct (Hn n Hin) as [H|(c & Hc1 & Hc2 & Hc3)].
        -- cbn [mergeChunk noteSet] in H.
           destruct (hasText (notes chunk)) eqn:Ht; [|left; exact H].
           apply StrSet_add_elem in H as [->|H]; [|left; exact H].
           right. exists chunk. split_and!; [left | exact Ht | reflexivity].
        -- right. exists c. split_and!; [right; exact Hc1 | exact Hc2 | exact Hc3].
      * exact Hk.
      * intros e Hin. destruct (Hw e Hin) as [H|(c & Hc1 & Hc2)].
        -- cbn [mergeChunk mergedWords] in H.
           destruct (0 <? alen (a2_plus_words chunk)); [|left; exact H].
           apply mergeWordEntries_keys in H as [H|H]; [left; exact H|].
           right. exists chunk. split; [left | exact H].
        -- right. exists c. split; [right; exact Hc1 | exact Hc2].
      * intros Hall. inversion Hall as [|? ? Hf Hall']; subst.
        rewrite (Hc Hall'). cbn [mergeChunk confidenceCount]. rewrite Hf. reflexivity.
Qed.

Lemma fold_mergeChunk_first chunks :
  forall st,
    NoDup (List.map key (mergedWords st)) ->
    Forall (fun e => key e <> []) (mergedWords st) ->
    let final := fold_left step chunks st in
    mergedWords final
    = mergedWords st
      ++ firstOccurrencesAfter key (mergedWords st)
           (List.filter (fun e => truthy (key e))
              (concat (List.map a2_plus_words chunks)))
    /\ noteSet final
       = noteSet st
         ++ firstOccurrencesAfter (fun n => n) (noteSet st)
              (List.map trim (List.filter hasText (List.map notes chunks)))
    /\ confidenceCount final
       = (confidenceCount st
          + length (List.filter isFiniteNumber (List.map confidence chunks)))%nat
    /\ confidenceTotal final
       = fold_left double_add (List.filter isFiniteNumber (List.map confidence chunks))
           (confidenceTotal st).
Proof.
  induction chunks as [|chunk chunks IH]; intros st Hnd Hne; cbn [fold_left].
  - cbv zeta. cbn. rewrite !app_nil_r, Nat.add_0_r. split_and!; reflexivity.
  - assert (Hwords : mergedWords (step st chunk)
                     = mergedWords st
                       ++ firstOccurrencesAfter key (mergedWords st)
                            (List.filter (fun e => truthy (key e)) (a2_plus_words chunk))).
    { cbn [mergeChunk mergedWords].
      destruct (a2_plus_words chunk) as [|e es] eqn:Ew.
      - cbn. rewrite app_nil_r. reflexivity.
      - replace (0 <? alen (e :: es)) with true
          by (symmetry; apply Z.ltb_lt; unfold alen; simpl; lia).
        apply mergeWordEntries_more; assumption. }
    assert (Hnotes : noteSet (step st chunk)
                     = noteSet st
                       ++ firstOccurrencesAfter (fun n => n) (noteSet st)
                            (List.map trim (List.filter hasText [notes chunk]))).
    { cbn [mergeChunk noteSet List.filter List.map].
      destruct (hasText (notes chunk)); cbn [List.map].
      - apply StrSet_add_first.
      - cbn. rewrite app_nil_r. reflexivity. }
    destruct (IH (step st chunk)) as (Hw & Hn & Hc & Ht).
    + rewrite Hwords. apply firstOccurrencesAfter_NoDup, Hnd.
    + rewrite Hwords. apply Forall_app. split; [exact Hne|].
      apply Forall_forall. intros e He.
      eapply elem_of_sublist in He; [|apply firstOccurrencesAfter_sublist].
      apply list_elem_of_In, filter_In in He as [_ He].
      apply truthy_true, He.
    + cbv zeta in Hw, Hn, Hc, Ht |- *. split_and!.
      * rewrite Hw, Hwords. cbn [List.map concat]. rewrite List.filter_app.
        rewrite firstOccurrencesAfter_app, firstOccurrencesAfter_same, <- app_assoc.
        reflexivity.
      * rewrite Hn, Hnotes.
        change (List.map notes (chunk :: chunks))
          with ([notes chunk] ++ List.map notes chunks).
        rewrite List.filter_app, List.map_app.
        rewrite firstOccurrencesAfter_app, firstOccurrencesAfter_same, <- app_assoc.
        reflexivity.
      * rewrite Hc. cbn [mergeChunk confidenceCount List.map List.filter].
        destruct (isFiniteNumber (confidence chunk)); simpl; lia.
      * rewrite Ht. cbn [mergeChunk confidenceTotal List.map List.filter].
        destruct (isFiniteNumber (confidence chunk)); reflexivity.
Qed.

Lemma NoDup_map_filter {A B} (f : A -> B) (p : A -> bool) l :
  NoDup (List.map f l) -> NoDup (List.map f (List.filter p l)).
Proof.
  induction l as [|x l IH]; simpl; intros H; [constructor|].
  apply NoDup_cons in H as [Hx Hl]. destruct (p x); simpl; [|apply IH, Hl].
  apply NoDup_cons. split; [|apply IH, Hl].
  intros Hin. apply Hx. apply list_elem_of_In in Hin. apply list_elem_of_In.
  apply in_map_iff in Hin as (y & Hy & Hin). apply in_map_iff. exists y.
  split; [exact Hy|]. apply filter_In in Hin. tauto.
Qed.

(** X7.  [mergeChunkResults] always gives an explanation with text: the
    trimmed explanations of the chunks that have text, in their order, two
    line feeds apart, or a fixed sentence when no chunk has any.  Its words
    are the words of the chunks, one after the other, each at the first
    occurrence of its key and without those that have no key, of which the
    ones above B1 with a definition and an example are kept.  Its notes are
    the trimmed notes of the chunks that have text and then the note of the
    large text mode, each at its first occurrence, one space apart.  Its
    confidence is the quotient, as the host computes it, of the sum of the
    finite confidences of the chunks, added up in their order from 0, by
    their number, and 0.45 when there is none. *)
Theorem mergeChunkResults_spec (chunkResults : list ExplainResult) (chunkCount : nat) :
  let merged :=
    mergeChunkResults unicode_lower unicode_upper double_add double_div
      chunkResults chunkCount in
  let noteList :=
    firstOccurrences (fun note => note)
      (List.map trim (List.filter hasText (List.map notes chunkResults))
       ++ [largeTextNote chunkCount]) in
  let finite := List.filter isFiniteNumber (List.map confidence chunkResults) in
  hasText (simple_explanation merged) = true
  /\ simple_explanation merged
     = orElse (join [10; 10]%N
                 (List.map trim
                    (List.filter hasText (List.map simple_explanation chunkResults))))
              noFullExplanation
  /\ (forall e, e ∈ a2_plus_words merged ->
        (exists chunk, chunk ∈ chunkResults /\ e ∈ a2_plus_words chunk)
        /\ toUpperCaseWith unicode_upper (cefr e) ∈ B2_PLUS_LEVELS
        /\ hasText (definition_simple e) = true
        /\ hasText (example_simple e) = true)
  /\ NoDup (List.map (mergeKey unicode_lower) (a2_plus_words merged))
  /\ a2_plus_words merged
     = keepB2PlusWords unicode_upper
         (firstOccurrences (mergeKey unicode_lower)
            (List.filter (fun e => truthy (mergeKey unicode_lower e))
               (concat (List.map a2_plus_words chunkResults))))
  /\ notes merged = join [SP] noteList
  /\ NoDup noteList
  /\ (forall n, n ∈ noteList <->
        n = largeTextNote chunkCount
        \/ exists chunk, chunk ∈ chunkResults /\ hasText (notes chunk) = true
                         /\ n = trim (notes chunk))
  /\ confidence merged
     = (if (0 <? length finite)%nat
        then double_div (fold_left double_add finite (Finite 0))
               (Finite (inject_Z (Z.of_nat (length finite))))
        else Finite (45 # 100))
  /\ (Forall (fun chunk => isFiniteNumber (confidence chunk) = false) chunkResults ->
      confidence merged = Finite (45 # 100)).
Proof.
  intros merged noteList finite. subst merged noteList finite.
  unfold mergeChunkResults. cbv zeta.
  destruct (fold_mergeChunk chunkResults (mkChunkMerge [] StrSet.empty [] (Finite 0) O))
    as (Hparts & Hnd & Hn & Hk & Hw & Hc); [constructor | constructor|].
  destruct (fold_mergeChunk_first chunkResults
              (mkChunkMerge [] StrSet.empty [] (Finite 0) O))
    as (Hwords & Hnotes & Hcount & Htotal); [constructor | constructor|].
  cbv zeta in Hparts, Hnd, Hn, Hk, Hw, Hc, Hwords, Hnotes, Hcount, Htotal.
  cbn [explanationParts noteSet mergedWords confidenceCount confidenceTotal app Nat.add]
    in Hparts, Hn, Hw, Hc, Hwords, Hnotes, Hcount, Htotal.
  cbn [simple_explanation a2_plus_words notes confidence].
  assert (Hlist :
    StrSet.add (largeTextNote chunkCount)
      (noteSet (fold_left step chunkResults
                  (mkChunkMerge [] StrSet.empty [] (Finite 0) O)))
    = firstOccurrences (fun note => note)
        (List.map trim (List.filter hasText (List.map notes chunkResults))
         ++ [largeTextNote chunkCount])).
  { rewrite StrSet_add_first, Hnotes. unfold firstOccurrences, StrSet.empty. cbn [app].
    rewrite firstOccurrencesAfter_app. f_equal.
    apply (firstOccurrencesAfter_same (fun note : jsstring => note) []). }
  rewrite Hparts.
  split_and!.
  - unfold orElse.
    destruct (List.filter hasText (List.map simple_explanation chunkResults))
      as [|part parts] eqn:Ef; [reflexivity|].
    assert (Hpart : hasText part = true).
    { assert (Hin : In part (List.filter hasText (List.map simple_explanation chunkResults)))
        by (rewrite Ef; left; reflexivity).
      apply filter_In in Hin. tauto. }
    apply hasText_iff in Hpart. cbn [List.map].
    destruct (trim part) as [|c r] eqn:Et; [congruence|].
    pose proof (trim_head _ _ _ Et) as Hsp.
    assert (Hjoin : exists rest, join [10; 10]%N ((c :: r) :: List.map trim parts) = c :: rest).
    { destruct (List.map trim parts); simpl; eexists; reflexivity. }
    destruct Hjoin as (rest & Ej).
    destruct (join _ _) as [|c' rest'] eqn:Ej' in |- *.
    + pose proof (eq_trans (eq_sym Ej') Ej) as Habs. discriminate Habs.
    + pose proof (eq_trans (eq_sym Ej') Ej) as Heq. injection Heq as -> _.
      cbn [truthy]. apply hasText_head, Hsp.
  - reflexivity.
  - intros e He. apply keepB2PlusWords_elem in He as (Hin & Hlevel & Hdef & Hex).
    split_and!; try assumption.
    destruct (Hw e Hin) as [H|H]; [inversion H | exact H].
  - unfold keepB2PlusWords. apply NoDup_map_filter, Hk.
  - rewrite Hwords. reflexivity.
  - rewrite Hlist. reflexivity.
  - rewrite <- Hlist. apply StrSet_add_NoDup, Hnd.
  - intros n. rewrite firstOccurrences_elem, elem_of_app, list_elem_of_singleton.
    split.
    + intros [Hin| ->]; [right | left; reflexivity].
      apply list_elem_of_In, in_map_iff in Hin as (note & <- & Hin).
      apply filter_In in Hin as [Hin Ht]. apply in_map_iff in Hin as (chunk & <- & Hin).
      exists chunk. split_and!; [apply list_elem_of_In, Hin | exact Ht | reflexivity].
    + intros [-> | (chunk & Hin & Ht & ->)]; [right; reflexivity | left].
      apply list_elem_of_In, in_map_iff. exists (notes chunk). split; [reflexivity|].
      apply filter_In. split; [|exact Ht]. apply in_map_iff. exists chunk.
      split; [reflexivity | apply list_elem_of_In, Hin].
  - rewrite Hcount, Htotal. reflexivity.
  - intros Hall. rewrite (Hc Hall). reflexivity.
Qed.

End MergeFacts.

(** ** The explanation mode and the token budgets *)

Section ModeFacts.

Variable unicode_lower : jsstring -> jsstring.

Lemma normalizeExplanationMode_cases mode :
  normalizeExplanationMode unicode_lower mode = lit "simple"
  \/ normalizeExplanationMode unicode_lower mode = lit "balanced"
  \/ normalizeExplanationMode unicode_lower mode = lit "detailed".
Proof.
  unfold normalizeExplanationMode. cbv zeta.
  case_bool_decide as Hin; [|right; left; reflexivity].
  unfold EXPLANATION_MODES in Hin.
  rewrite !elem_of_cons in Hin. destruct Hin as [H|[H|[H|H]]]; [auto..|inversion H].
Qed.

Lemma trim_mode m : m ∈ EXPLANATION_MODES -> trim m = m /\ toLowerCaseWith unicode_lower m = m.
Proof.
  unfold EXPLANATION_MODES. rewrite !elem_of_cons.
  intros [-> | [-> | [-> | H]]]; [split; reflexivity..|inversion H].
Qed.

Lemma lower_cu_ascii written m :
  List.map lower_cu written = m -> forallb is_ascii m = true ->
  forallb is_ascii written = true.
Proof.
  intros <-. induction written as [|c written IH]; [reflexivity|].
  cbn [List.map forallb]. rewrite !andb_true_iff. intros [Hc Hrest].
  split; [|apply IH, Hrest].
  unfold lower_cu, is_upper, is_ascii in *.
  destruct ((65 <=? c)%N && (c <=? 90)%N) eqn:Hu; [|exact Hc].
  apply andb_true_iff in Hu as [_ Hu]. apply N.leb_le in Hu. apply N.ltb_lt. lia.
Qed.

Lemma modes_ascii m : m ∈ EXPLANATION_MODES -> forallb is_ascii m = true.
Proof.
  unfold EXPLANATION_MODES. rewrite !elem_of_cons.
  intros [-> | [-> | [-> | H]]]; [reflexivity..|inversion H].
Qed.

(** X8.  [normalizeExplanationMode] always gives one of the three modes and
    changes nothing when applied to its own result.  Its result for a
    string is the trimmed string in lower case when that is a mode, and
    "balanced" otherwise: a mode is kept, also when it comes with white
    space around it and with any of its letters in capitals; a missing
    mode is "balanced". *)
Theorem normalizeExplanationMode_spec (mode : option jsstring) :
  normalizeExplanationMode unicode_lower mode ∈ EXPLANATION_MODES
  /\ normalizeExplanationMode unicode_lower
       (Some (normalizeExplanationMode unicode_lower mode))
     = normalizeExplanationMode unicode_lower mode
  /\ (forall m, m ∈ EXPLANATION_MODES ->
        normalizeExplanationMode unicode_lower (Some m) = m
        /\ normalizeExplanationMode unicode_lower
             (Some (lit "  " ++ List.map upper_cu m ++ [10%N])) = m)
  /\ normalizeExplanationMode unicode_lower None = DEFAULT_EXPLANATION_MODE
  /\ (forall s,
        toLowerCaseWith unicode_lower (trim s) ∉ EXPLANATION_MODES ->
        normalizeExplanationMode unicode_lower (Some s) = DEFAULT_EXPLANATION_MODE)
  /\ (forall s,
        toLowerCaseWith unicode_lower (trim s) ∈ EXPLANATION_MODES ->
        normalizeExplanationMode unicode_lower (Some s)
        = toLowerCaseWith unicode_lower (trim s))
  /\ (forall s m,
        m ∈ EXPLANATION_MODES ->
        List.map lower_cu (trim s) = m ->
        normalizeExplanationMode unicode_lower (Some s) = m).
Proof.
  assert (Hin : normalizeExplanationMode unicode_lower mode ∈ EXPLANATION_MODES).
  { unfold EXPLANATION_MODES. rewrite !elem_of_cons.
    destruct (normalizeExplanationMode_cases mode) as [-> | [-> | ->]]; auto. }
  assert (Hmode : forall s,
    toLowerCaseWith unicode_lower (trim s) ∈ EXPLANATION_MODES ->
    normalizeExplanationMode unicode_lower (Some s)
    = toLowerCaseWith unicode_lower (trim s)).
  { intros s Hs. unfold normalizeExplanationMode. cbv zeta.
    rewrite bool_decide_eq_true_2 by exact Hs. reflexivity. }
  split_and!.
  - exact Hin.
  - destruct (trim_mode _ Hin) as [Ht Hl].
    unfold normalizeExplanationMode at 1. cbv zeta. rewrite Ht, Hl.
    rewrite bool_decide_eq_true_2 by exact Hin. reflexivity.
  - unfold EXPLANATION_MODES. intros m. rewrite !elem_of_cons.
    intros [-> | [-> | [-> | H]]]; [split; reflexivity..|inversion H].
  - reflexivity.
  - intros s Hs. unfold normalizeExplanationMode. cbv zeta.
    rewrite bool_decide_eq_false_2 by exact Hs. reflexivity.
  - exact Hmode.
  - intros s m Hm Hlower.
    assert (Hl : toLowerCaseWith unicode_lower (trim s) = m).
    { unfold toLowerCaseWith.
      rewrite (lower_cu_ascii _ _ Hlower (modes_ascii m Hm)). exact Hlower. }
    rewrite Hmode; rewrite Hl; [reflexivity | exact Hm].
Qed.

Ltac budget_cases :=
  repeat match goal with
         | |- context [bool_decide ?P] => destruct (bool_decide P)
         | |- context [?a <=? ?b] => destruct (Z.leb_spec a b)
         end; try lia.

Lemma getOutputTokenBudget_range model length mode :
  680 <= getOutputTokenBudget unicode_lower model length mode <= 1870.
Proof.
  unfold getOutputTokenBudget, adjustToMode. cbv zeta.
  destruct (normalizeExplanationMode_cases mode) as [-> | [-> | ->]]; budget_cases.
Qed.

Lemma getExplanationOnlyTokenBudget_range length mode :
  600 <= getExplanationOnlyTokenBudget unicode_lower length mode <= 1320.
Proof.
  unfold getExplanationOnlyTokenBudget, adjustToMode. cbv zeta.
  destruct (normalizeExplanationMode_cases mode) as [-> | [-> | ->]]; budget_cases.
Qed.

(** X9.  The token budgets.  The budget of a full answer lies between 680
    and 1870 tokens and that of an explanation between 600 and 1320; both
    never decrease when the selection grows, and "simple" asks for no more
    than "balanced", which asks for no more than "detailed".  The retry
    budget, the larger of the budget and 2000, is therefore always 2000. *)
Theorem token_budgets (model : jsstring) (mode : option jsstring) (length length' : Z) :
  let full := getOutputTokenBudget unicode_lower model in
  let only := getExplanationOnlyTokenBudget unicode_lower in
  (680 <= full length mode <= 1870)
  /\ (600 <= only length mode <= 1320)
  /\ (length <= length' ->
      full length mode <= full length' mode /\ only length mode <= only length' mode)
  /\ (full length (Some (lit "simple")) <= full length (Some (lit "balanced"))
      <= full length (Some (lit "detailed")))
  /\ (only length (Some (lit "simple")) <= only length (Some (lit "balanced"))
      <= only length (Some (lit "detailed")))
  /\ Z.max (full length mode) MAX_OUTPUT_TOKENS_RETRY = MAX_OUTPUT_TOKENS_RETRY
  /\ Z.max (only length mode) MAX_OUTPUT_TOKENS_RETRY = MAX_OUTPUT_TOKENS_RETRY.
Proof.
  intros full only. subst full only.
  unfold getOutputTokenBudget, getExplanationOnlyTokenBudget, MAX_OUTPUT_TOKENS_RETRY.
  cbv zeta.
  assert (Hs : normalizeExplanationMode unicode_lower (Some (lit "simple")) = lit "simple")
    by reflexivity.
  assert (Hb : normalizeExplanationMode unicode_lower (Some (lit "balanced")) = lit "balanced")
    by reflexivity.
  assert (Hd : normalizeExplanationMode unicode_lower (Some (lit "detailed")) = lit "detailed")
    by reflexivity.
  rewrite Hs, Hb, Hd.
  assert (Hsimple : adjustToMode (lit "simple") = fun b => b - 120) by reflexivity.
  assert (Hbalanced : adjustToMode (lit "balanced") = fun b => b) by reflexivity.
  assert (Hdetailed : adjustToMode (lit "detailed") = fun b => b + 220) by reflexivity.
  destruct (normalizeExplanationMode_cases mode) as [-> | [-> | ->]];
    rewrite ?Hsimple, ?Hbalanced, ?Hdetailed;
    split_and!; try match goal with |- _ -> _ => intros Hle; split end; budget_cases.
Qed.

End ModeFacts.

(** ** Notes *)

Lemma appendNote_eq base addition :
  appendNote base addition
  = if hasText addition
    then if hasText base then trim base ++ [SP] ++ trim addition else trim addition
    else trim base.
Proof.
  unfold appendNote. cbv zeta. rewrite !truthy_trim_hasText.
  destruct (hasText addition); reflexivity.
Qed.

Lemma appendNote_trimmed base addition :
  trim (appendNote base addition) = appendNote base addition.
Proof.
  rewrite appendNote_eq.
  destruct (hasText addition) eqn:Ha; [|apply trim_idem].
  destruct (hasText base) eqn:Hb; [|apply trim_idem].
  apply hasText_iff in Ha, Hb.
  apply trimmed_app; auto using trim_idem.
Qed.

Lemma appendNote_hasText base addition :
  hasText (appendNote base addition) = hasText base || hasText addition.
Proof.
  rewrite appendNote_eq.
  destruct (hasText addition) eqn:Ha; [|rewrite hasText_trim, orb_false_r; reflexivity].
  destruct (hasText base) eqn:Hb; [|rewrite hasText_trim; exact Ha].
  apply hasText_iff. rewrite trimmed_app; auto using trim_idem.
  - apply hasText_iff in Hb. destruct (trim base); [congruence | discriminate].
  - apply hasText_iff, Hb.
  - apply hasText_iff, Ha.
Qed.

(** X10.  [appendNote] joins two notes with one space, after trimming each,
    and drops a blank one.  The result is trimmed and has text exactly when
    one of the notes has; the empty note is neutral on both sides, and the
    order in which three notes are appended does not matter. *)
Theorem appendNote_laws (a b c : jsstring) :
  trim (appendNote a b) = appendNote a b
  /\ hasText (appendNote a b) = hasText a || hasText b
  /\ appendNote a [] = trim a
  /\ appendNote [] b = trim b
  /\ appendNote (appendNote a b) c = appendNote a (appendNote b c)
  /\ (hasText a = true -> hasText b = true -> appendNote a b = trim a ++ [SP] ++ trim b)
  /\ (hasText b = false -> appendNote a b = trim a).
Proof.
  split_and!.
  - apply appendNote_trimmed.
  - apply appendNote_hasText.
  - reflexivity.
  - rewrite appendNote_eq. destruct (hasText b) eqn:Hb; [reflexivity|].
    apply hasText_false_iff in Hb. rewrite Hb. reflexivity.
  - rewrite (appendNote_eq (appendNote a b) c), (appendNote_eq a (appendNote b c)).
    rewrite !appendNote_trimmed, !appendNote_hasText.
    rewrite (appendNote_eq a b), (appendNote_eq b c).
    destruct (hasText a) eqn:Ha, (hasText b) eqn:Hb, (hasText c) eqn:Hc;
      cbn [orb]; rewrite ?app_assoc; reflexivity.
  - intros Ha Hb. rewrite appendNote_eq, Ha, Hb. reflexivity.
  - intros Hb. rewrite appendNote_eq, Hb. reflexivity.
Qed.

(** ** The local fallback *)

Lemma keywordLoop_inv maxCount tokens :
  forall keywords,
    NoDup keywords ->
    exists added,
      keywordLoop maxCount tokens keywords = keywords ++ added
      /\ sublist added tokens
      /\ NoDup (keywords ++ added)
      /\ (forall k, k ∈ added -> 4 <= len k /\ k ∉ FALLBACK_STOP_WORDS)
      /\ (added = [] \/ alen (keywords ++ added) <= Z.max (alen keywords + 1) maxCount)
      /\ (alen (keywords ++ added) < maxCount ->
          forall t, t ∈ tokens -> 4 <= len t -> t ∉ FALLBACK_STOP_WORDS ->
                    t ∈ keywords ++ added).
Proof.
  induction tokens as [|token rest IH]; intros keywords Hnd.
  - exists []. rewrite app_nil_r. split_and!.
    + reflexivity.
    + constructor.
    + exact Hnd.
    + intros k Hk. inversion Hk.
    + left. reflexivity.
    + intros _ t Ht. inversion Ht.
  - cbn [keywordLoop].
    destruct (Z.ltb_spec (len token) 4) as [Hshort|Hlong]; cbn [orb].
    { destruct (IH keywords Hnd) as (added & E & Hsub & Hnd' & Hk & Hb & Hc).
      exists added. split_and!; [exact E | apply sublist_cons, Hsub | exact Hnd' | exact Hk
                                | exact Hb |].
      intros Hlt t Ht H4 Hs. apply elem_of_cons in Ht as [->|Ht]; [lia|].
      apply Hc; assumption. }
    case_bool_decide as Hstop; cbn [orb].
    { destruct (IH keywords Hnd) as (added & E & Hsub & Hnd' & Hk & Hb & Hc).
      exists added. split_and!; [exact E | apply sublist_cons, Hsub | exact Hnd' | exact Hk
                                | exact Hb |].
      intros Hlt t Ht H4 Hs. apply elem_of_cons in Ht as [->|Ht]; [contradiction|].
      apply Hc; assumption. }
    case_bool_decide as Hseen.
    { destruct (IH keywords Hnd) as (added & E & Hsub & Hnd' & Hk & Hb & Hc).
      exists added. split_and!; [exact E | apply sublist_cons, Hsub | exact Hnd' | exact Hk
                                | exact Hb |].
      intros Hlt t Ht H4 Hs. apply elem_of_cons in Ht as [->|Ht].
      - apply elem_of_app. left. exact Hseen.
      - apply Hc; assumption. }
    cbv zeta.
    assert (Hnd1 : NoDup (keywords ++ [token])).
    { apply NoDup_app. split_and!; [exact Hnd | | apply NoDup_singleton].
      intros k Hk Hk'. apply list_elem_of_singleton in Hk' as ->. contradiction. }
    assert (Hlen1 : alen (keywords ++ [token]) = alen keywords + 1).
    { unfold alen. rewrite length_app. simpl. lia. }
    destruct (Z.geb_spec (alen (keywords ++ [token])) maxCount) as [Hfull|Hroom].
    + exists [token]. split_and!.
      * reflexivity.
      * apply sublist_skip, sublist_nil_l.
      * exact Hnd1.
      * intros k Hk. apply list_elem_of_singleton in Hk as ->. split; [lia | exact Hstop].
      * right. lia.
      * intros Hlt. lia.
    + destruct (IH (keywords ++ [token]) Hnd1) as (added & E & Hsub & Hnd' & Hk & Hb & Hc).
      rewrite <- app_assoc in E, Hnd', Hb, Hc. cbn [app] in E, Hnd', Hb, Hc.
      exists (token :: added). split_and!.
      * exact E.
      * apply sublist_skip, Hsub.
      * exact Hnd'.
      * intros k Hin. apply elem_of_cons in Hin as [->|Hin]; [|apply Hk, Hin].
        split; [lia | exact Hstop].
      * right. destruct Hb as [->|Hb]; [|lia].
        change (keywords ++ [token]) with (keywords ++ [token]). lia.
      * intros Hlt t Ht H4 Hs. apply elem_of_cons in Ht as [->|Ht].
        -- apply elem_of_app. right. left.
        -- apply Hc; assumption.
Qed.

Lemma keywordLoop_first maxCount tokens :
  forall keywords,
    (length keywords < Z.to_nat (Z.max 1 maxCount))%nat ->
    keywordLoop maxCount tokens keywords
    = keywords
      ++ take (Z.to_nat (Z.max 1 maxCount) - length keywords)
           (firstOccurrencesAfter (fun token => token) keywords
              (List.filter isKeywordToken tokens)).
Proof.
  induction tokens as [|token rest IH]; intros keywords Hroom.
  - cbn. rewrite take_nil, app_nil_r. reflexivity.
  - cbn [keywordLoop List.filter]. unfold isKeywordToken at 1.
    destruct ((len token <? 4) || bool_decide (token ∈ FALLBACK_STOP_WORDS)) eqn:Hskip;
      cbn [orb negb].
    { apply IH, Hroom. }
    clear Hskip.
    destruct (bool_decide (token ∈ keywords)) eqn:Hseen.
    { apply bool_decide_eq_true in Hseen.
      rewrite firstOccurrencesAfter_old by (rewrite List.map_id; exact Hseen).
      apply IH, Hroom. }
    apply bool_decide_eq_false in Hseen.
    rewrite firstOccurrencesAfter_new by (rewrite List.map_id; exact Hseen).
    cbv zeta.
    assert (Hlen : alen (keywords ++ [token]) = Z.of_nat (length keywords) + 1).
    { unfold alen. rewrite length_app. simpl. lia. }
    destruct (Z.geb_spec (alen (keywords ++ [token])) maxCount) as [Hfull|Hmore].
    + replace (Z.to_nat (Z.max 1 maxCount) - length keywords)%nat with 1%nat by lia.
      cbn [take]. rewrite take_0. reflexivity.
    + rewrite IH by (rewrite length_app; simpl; lia).
      rewrite <- app_assoc. cbn [app]. f_equal.
      replace (Z.to_nat (Z.max 1 maxCount) - length keywords)%nat
        with (S (Z.to_nat (Z.max 1 maxCount) - length (keywords ++ [token])))
        by (rewrite length_app; simpl; lia).
      reflexivity.
Qed.

Section Fallback.

Variable unicode_lower : jsstring -> jsstring.

(** X11.  The keywords of the local fallback are the tokens of the
    lower-cased text of four letters or more that are no stop words, each
    at its first occurrence and in that order, up to [maxCount] of them
    (one, for a bound below one).  So they are tokens of the text without
    repetition, each of four letters or more and none a stop word, and
    below the bound every such token of the text is among them. *)
Theorem extractFallbackKeywords_spec (text : jsstring) (maxCount : Z) :
  let tokens := scanTokens is_lower Outside (toLowerCaseWith unicode_lower text) in
  let keywords := extractFallbackKeywords unicode_lower text maxCount in
  sublist keywords tokens
  /\ NoDup keywords
  /\ alen keywords <= Z.max 1 maxCount
  /\ (forall k, k ∈ keywords -> 4 <= len k /\ k ∉ FALLBACK_STOP_WORDS)
  /\ (alen keywords < maxCount ->
      forall t, t ∈ tokens -> 4 <= len t -> t ∉ FALLBACK_STOP_WORDS -> t ∈ keywords)
  /\ keywords
     = firstAtMost maxCount
         (firstOccurrences (fun token => token) (List.filter isKeywordToken tokens))
  /\ (forall token,
        isKeywordToken token = true <-> 4 <= len token /\ token ∉ FALLBACK_STOP_WORDS).
Proof.
  intros tokens keywords. subst keywords. unfold extractFallbackKeywords. fold tokens.
  destruct (keywordLoop_inv maxCount tokens [] (NoDup_nil_2))
    as (added & E & Hsub & Hnd & Hk & Hb & Hc).
  cbn [app] in E, Hnd, Hb, Hc.
  split_and!.
  - rewrite E. exact Hsub.
  - rewrite E. exact Hnd.
  - rewrite E. destruct Hb as [->|Hb]; [unfold alen; simpl; lia|].
    unfold alen in *. simpl in Hb. lia.
  - rewrite E. exact Hk.
  - rewrite E. exact Hc.
  - rewrite keywordLoop_first by (simpl; lia). cbn [app length].
    rewrite Nat.sub_0_r. reflexivity.
  - intros token. unfold isKeywordToken.
    rewrite negb_true_iff, orb_false_iff, Z.ltb_ge, bool_decide_eq_false. tauto.
Qed.

Lemma capConfidence_le c :
  exists q, capConfidence c = Finite q
    /\ (q <= 35 # 100)%Q
    /\ forall q0, c = Finite q0 -> (q <= q0)%Q.
Proof.
  destruct c as [q0| | |]; cbn [capConfidence].
  - exists (Qmin q0 (35 # 100)). split_and!; [reflexivity | apply Q.le_min_r|].
    intros ? [= <-]. apply Q.le_min_l.
  - eexists. split_and!; [reflexivity | apply Qle_refl | discriminate].
  - eexists. split_and!; [reflexivity | apply Qle_refl | discriminate].
  - eexists. split_and!; [reflexivity | apply Qle_refl | discriminate].
Qed.

(** X12.  [ensureNonEmptyExplanation] always gives a result whose
    explanation has text, and gives back a result that already has one.
    In place of a blank explanation it puts the local fallback explanation,
    keeps the words, appends the note (its own when none is given) and
    caps the confidence at 0.35, never raising a finite one.  Applying it
    again changes nothing, and the local fallback result is usable as it
    is. *)
Theorem ensureNonEmptyExplanation_spec (result : ExplainResult)
  (selectedText fallbackNote : jsstring) :
  let safe := ensureNonEmptyExplanation unicode_lower result selectedText fallbackNote in
  hasText (simple_explanation safe) = true
  /\ (hasText (simple_explanation result) = true -> safe = result)
  /\ (hasText (simple_explanation result) = false ->
      simple_explanation safe = buildLocalFallbackExplanation unicode_lower selectedText
      /\ a2_plus_words safe = a2_plus_words result
      /\ notes safe
         = appendNote (notes result)
             (if truthy fallbackNote then fallbackNote else defaultBackupNote)
      /\ exists q, confidence safe = Finite q
           /\ (q <= 35 # 100)%Q
           /\ forall q0, confidence result = Finite q0 -> (q <= q0)%Q)
  /\ ensureNonEmptyExplanation unicode_lower safe selectedText fallbackNote = safe
  /\ ensureNonEmptyExplanation unicode_lower
       (buildLocalFallbackResult unicode_lower selectedText fallbackNote)
       selectedText fallbackNote
     = buildLocalFallbackResult unicode_lower selectedText fallbackNote.
Proof.
  intros safe. subst safe.
  pose proof (ensureNonEmptyExplanation_text unicode_lower result selectedText fallbackNote)
    as Htext.
  split_and!.
  - exact Htext.
  - intros H. unfold ensureNonEmptyExplanation. rewrite H. reflexivity.
  - intros H. unfold ensureNonEmptyExplanation. rewrite H.
    cbn [simple_explanation a2_plus_words notes confidence].
    split_and!; try reflexivity. apply capConfidence_le.
  - unfold ensureNonEmptyExplanation at 1. rewrite Htext. reflexivity.
  - unfold ensureNonEmptyExplanation, buildLocalFallbackResult.
    cbn [simple_explanation]. rewrite buildLocalFallbackExplanation_text. reflexivity.
Qed.

End Fallback.

(** ** Hard words and the lexicon *)

Lemma allowedSpec_mono (easy easy' : gset jsstring) lower :
  easy ⊆ easy' -> allowedSpec easy lower -> allowedSpec easy' lower.
Proof.
  intros Hsub [H|[H|[(stem & E & H)|(suffix & min & stem & Hr & E & Hm & H)]]].
  - left. exact H.
  - right; left. apply Hsub, H.
  - right; right; left. exists stem. split; [exact E | apply Hsub, H].
  - right; right; right. exists suffix, min, stem.
    split_and!; [exact Hr | exact E | exact Hm|].
    destruct H as [H|[Hs H]]; [left; apply Hsub, H | right; split; [exact Hs | apply Hsub, H]].
Qed.

Section LexiconFacts.

Variable unicode_lower : jsstring -> jsstring.

Lemma findHardWords_elem text easy w :
  w ∈ findHardWords unicode_lower text easy
  <-> exists token, token ∈ matchTokens text
        /\ w = normalizeToken unicode_lower token
        /\ difficultToken unicode_lower easy token.
Proof.
  unfold findHardWords. destruct (truthy text) eqn:Ht; cbn [negb].
  - destruct (hardWordsLoop_spec unicode_lower easy (matchTokens text) StrSet.empty)
      as [_ H]; [constructor|].
    rewrite H. unfold StrSet.empty. rewrite elem_of_nil. split; [intros [[]|?]|]; auto.
  - apply truthy_false in Ht. subst text. cbn. rewrite elem_of_nil.
    split; [intros [] | intros (t & Hin & _); inversion Hin].
Qed.

Lemma findHardWords_NoDup text easy : NoDup (findHardWords unicode_lower text easy).
Proof.
  unfold findHardWords. destruct (truthy text); cbn [negb]; [|constructor].
  apply (hardWordsLoop_spec unicode_lower easy (matchTokens text) StrSet.empty). constructor.
Qed.

Lemma findHardWords_antimono (text : jsstring) (easy larger : gset jsstring) :
  easy ⊆ larger ->
  forall w, w ∈ findHardWords unicode_lower text larger ->
            w ∈ findHardWords unicode_lower text easy.
Proof.
  intros Hsub w Hw. apply findHardWords_elem in Hw as (token & Hin & -> & H2 & Hn & Hp & Hnot).
  apply findHardWords_elem. exists token. unfold difficultToken.
  split_and!; try assumption; try reflexivity.
  intros Ha. apply Hnot. eapply allowedSpec_mono; [exact Hsub | exact Ha].
Qed.

(** X13.  The hard words and the lexicon.  A word that [findHardWords]
    reports is never empty and never a word of the lexicon; with a larger
    lexicon the words reported are among those reported with the smaller
    one, and with a lexicon that holds every normalized token nothing is
    reported. *)
Theorem findHardWords_lexicon (text : jsstring) (easyWordSet larger : gset jsstring) :
  (forall w, w ∈ findHardWords unicode_lower text easyWordSet ->
             w <> [] /\ w ∉ easyWordSet)
  /\ (easyWordSet ⊆ larger ->
      forall w, w ∈ findHardWords unicode_lower text larger ->
                w ∈ findHardWords unicode_lower text easyWordSet)
  /\ ((forall token, token ∈ matchTokens text ->
                     normalizeToken unicode_lower token ∈ easyWordSet) ->
      findHardWords unicode_lower text easyWordSet = []).
Proof.
  split_and!.
  - intros w Hw. apply findHardWords_elem in Hw as (token & _ & -> & _ & _ & _ & Hnot).
    split; intros H; apply Hnot; [left; exact H | right; left; exact H].
  - apply findHardWords_antimono.
  - intros Hall.
    destruct (findHardWords unicode_lower text easyWordSet) as [|w ws] eqn:E; [reflexivity|].
    assert (Hw : w ∈ findHardWords unicode_lower text easyWordSet) by (rewrite E; left).
    apply findHardWords_elem in Hw as (token & Hin & -> & _ & _ & _ & Hnot).
    exfalso. apply Hnot. right; left. apply Hall, Hin.
Qed.

(** *** The check of a response *)

Lemma collect_fold fields easy :
  forall acc,
    NoDup acc ->
    let all :=
      fold_left
        (fun hardWords field => addAll (findHardWords unicode_lower field easy) hardWords)
        fields acc in
    NoDup all
    /\ forall w, w ∈ all
         <-> w ∈ acc \/ exists field, field ∈ fields
                                     /\ w ∈ findHardWords unicode_lower field easy.
Proof.
  induction fields as [|field fields IH]; intros acc Hacc; cbn [fold_left]; cbv zeta.
  - split; [exact Hacc|]. intros w. split; [auto|].
    intros [H|(f & Hf & _)]; [exact H | inversion Hf].
  - destruct (IH (addAll (findHardWords unicode_lower field easy) acc)) as [Hnd Hel].
    { apply addAll_NoDup, Hacc. }
    split; [exact Hnd|]. intros w. rewrite Hel, addAll_elem. split.
    + intros [[H|H]|(f & Hf & Hw)].
      * left. exact H.
      * right. exists field. split; [left | exact H].
      * right. exists f. split; [right; exact Hf | exact Hw].
    + intros [H|(f & Hf & Hw)]; [left; left; exact H|].
      apply elem_of_cons in Hf as [->|Hf]; [left; right; exact Hw|].
      right. exists f. split; assumption.
Qed.

Lemma collect_elem response easy w :
  w ∈ collectHardWordsFromResponse unicode_lower response easy
  <-> exists field, field ∈ responseFields response
                    /\ w ∈ findHardWords unicode_lower field easy.
Proof.
  unfold collectHardWordsFromResponse.
  destruct (collect_fold (responseFields response) easy StrSet.empty) as [_ H]; [constructor|].
  cbv zeta in H. rewrite H. unfold StrSet.empty. rewrite elem_of_nil.
  split; [intros [[]|?]|]; auto.
Qed.

Lemma isValid_iff response easy :
  isValid (isSimpleEnough unicode_lower response easy) = true
  <-> forall field, field ∈ responseFields response ->
                    findHardWords unicode_lower field easy = [].
Proof.
  unfold isSimpleEnough. cbv zeta. cbn [isValid]. rewrite Z.eqb_eq. split.
  - intros Hlen field Hf.
    destruct (findHardWords unicode_lower field easy) as [|w ws] eqn:E; [reflexivity|].
    assert (Hw : w ∈ collectHardWordsFromResponse unicode_lower response easy).
    { apply collect_elem. exists field. split; [exact Hf|]. rewrite E. left. }
    destruct (collectHardWordsFromResponse _ _ _); [inversion Hw|].
    unfold alen in Hlen. simpl in Hlen. lia.
  - intros Hall.
    destruct (collectHardWordsFromResponse unicode_lower response easy) as [|w ws] eqn:E;
      [reflexivity|].
    assert (Hw : w ∈ collectHardWordsFromResponse unicode_lower response easy)
      by (rewrite E; left).
    apply collect_elem in Hw as (field & Hf & Hw). rewrite (Hall field Hf) in Hw.
    inversion Hw.
Qed.

(** X14.  [isSimpleEnough] accepts a response exactly when none of its texts
    (the explanation, the definitions and the examples that are not empty)
    has a hard word.  The hard words it lists are those of these texts,
    each once, and a response accepted with a lexicon is accepted with any
    larger one. *)
Theorem isSimpleEnough_spec (response : ExplainResult) (easyWordSet larger : gset jsstring) :
  let verdict := isSimpleEnough unicode_lower response easyWordSet in
  NoDup (hardWords verdict)
  /\ (forall w, w ∈ hardWords verdict
        <-> exists field, field ∈ responseFields response
                          /\ w ∈ findHardWords unicode_lower field easyWordSet)
  /\ (isValid verdict = true
      <-> forall field, field ∈ responseFields response ->
                        findHardWords unicode_lower field easyWordSet = [])
  /\ (forall field, field ∈ responseFields response
        <-> field <> []
            /\ (field = simple_explanation response
                \/ exists item, item ∈ a2_plus_words response
                     /\ (field = definition_simple item \/ field = example_simple item)))
  /\ (easyWordSet ⊆ larger -> isValid verdict = true ->
      isValid (isSimpleEnough unicode_lower response larger) = true).
Proof.
  intros verdict. subst verdict. split_and!.
  - unfold isSimpleEnough, collectHardWordsFromResponse. cbn [hardWords].
    apply (collect_fold (responseFields response) easyWordSet StrSet.empty). constructor.
  - intros w. apply collect_elem.
  - apply isValid_iff.
  - intros field. unfold responseFields. rewrite elem_of_app. split.
    + intros [H|H].
      * destruct (truthy (simple_explanation response)) eqn:Ht; [|inversion H].
        apply list_elem_of_singleton in H as ->. apply truthy_true in Ht. auto.
      * apply list_elem_of_In, in_concat in H as (l & Hl & Hin).
        apply in_map_iff in Hl as (item & <- & Hitem).
        apply list_elem_of_In in Hitem. apply in_app_or in Hin as [Hin|Hin].
        -- destruct (truthy (definition_simple item)) eqn:Ht; [|inversion Hin].
           destruct Hin as [<-|[]]. apply truthy_true in Ht. split; [exact Ht|].
           right. exists item. auto.
        -- destruct (truthy (example_simple item)) eqn:Ht; [|inversion Hin].
           destruct Hin as [<-|[]]. apply truthy_true in Ht. split; [exact Ht|].
           right. exists item. auto.
    + intros [Hne [->|(item & Hitem & Hf)]].
      * left. apply truthy_true in Hne. rewrite Hne. left.
      * right. apply list_elem_of_In, in_concat.
        exists ((if truthy (definition_simple item) then [definition_simple item] else [])
                ++ (if truthy (example_simple item) then [example_simple item] else [])).
        split.
        -- apply in_map_iff. exists item. split; [reflexivity|]. apply list_elem_of_In, Hitem.
        -- apply in_or_app. destruct Hf as [->| ->]; apply truthy_true in Hne; rewrite Hne;
             [left | right]; left; reflexivity.
  - intros Hsub Hvalid. apply isValid_iff. intros field Hf.
    pose proof (proj1 (isValid_iff response easyWordSet) Hvalid field Hf) as Hnone.
    destruct (findHardWords unicode_lower field larger) as [|w ws] eqn:E; [reflexivity|].
    assert (Hw : w ∈ findHardWords unicode_lower field larger) by (rewrite E; left).
    apply (findHardWords_antimono field easyWordSet larger Hsub) in Hw.
    rewrite Hnone in Hw. inversion Hw.
Qed.

(** *** The candidates of a selection *)

Local Abbreviation normTok := (normalizeToken unicode_lower).

Lemma candidateLoop_inv easy maxCount words :
  forall candidates,
    NoDup (List.map fst candidates) ->
    exists added,
      candidateLoop unicode_lower easy maxCount words candidates = candidates ++ added
      /\ sublist (List.map snd added) words
      /\ NoDup (List.map fst (candidates ++ added))
      /\ Forall (fun p => fst p = normTok (snd p)
                          /\ candidateToken unicode_lower easy (snd p)) added
      /\ (added = [] \/ alen (candidates ++ added) <= Z.max (alen candidates + 1) maxCount)
      /\ (alen (candidates ++ added) < maxCount ->
          forall t, t ∈ words -> candidateToken unicode_lower easy t ->
                    normTok t ∈ List.map fst (candidates ++ added)).
Proof.
  induction words as [|token rest IH]; intros candidates Hnd.
  - exists []. rewrite app_nil_r. split_and!.
    + reflexivity.
    + constructor.
    + exact Hnd.
    + constructor.
    + left. reflexivity.
    + intros _ t Ht. inversion Ht.
  - cbn [candidateLoop].
    assert (Hskip : ~ candidateToken unicode_lower easy token ->
      exists added,
        candidateLoop unicode_lower easy maxCount rest candidates = candidates ++ added
        /\ sublist (List.map snd added) (token :: rest)
        /\ NoDup (List.map fst (candidates ++ added))
        /\ Forall (fun p => fst p = normTok (snd p)
                            /\ candidateToken unicode_lower easy (snd p)) added
        /\ (added = [] \/ alen (candidates ++ added) <= Z.max (alen candidates + 1) maxCount)
        /\ (alen (candidates ++ added) < maxCount ->
            forall t, t ∈ token :: rest -> candidateToken unicode_lower easy t ->
                      normTok t ∈ List.map fst (candidates ++ added))).
    { intros Hnot. destruct (IH candidates Hnd) as (added & E & Hsub & Hnd' & Hk & Hb & Hc).
      exists added. split_and!; [exact E | apply sublist_cons, Hsub | exact Hnd' | exact Hk
                                | exact Hb |].
      intros Hlt t Ht Hcand. apply elem_of_cons in Ht as [->|Ht]; [contradiction|].
      apply Hc; assumption. }
    destruct (Z.leb_spec (len token) 2) as [Hshort|Hlong]; cbn [orb].
    { apply Hskip. intros (H & _). lia. }
    destruct (looksLikeProperNoun token) eqn:Hp.
    { apply Hskip. intros (_ & H & _). congruence. }
    cbv zeta.
    destruct (truthy (normTok token)) eqn:Ht; cbn [negb orb].
    2:{ apply Hskip. intros (_ & _ & H & _). apply truthy_false in Ht. contradiction. }
    destruct (isAllowedVariation unicode_lower (normTok token) easy) eqn:Ha.
    { apply Hskip. intros (_ & _ & _ & H). congruence. }
    assert (Hcand : candidateToken unicode_lower easy token).
    { unfold candidateToken. apply truthy_true in Ht. split_and!; assumption. }
    unfold hasKey. case_bool_decide as Hseen; cbn [negb].
    { destruct (IH candidates Hnd) as (added & E & Hsub & Hnd' & Hk & Hb & Hc).
      exists added. split_and!; [exact E | apply sublist_cons, Hsub | exact Hnd' | exact Hk
                                | exact Hb |].
      intros Hlt t Hin Hcand'. apply elem_of_cons in Hin as [->|Hin].
      - rewrite map_app. apply elem_of_app. left. exact Hseen.
      - apply Hc; assumption. }
    assert (Hnd1 : NoDup (List.map fst (candidates ++ [(normTok token, token)]))).
    { rewrite map_app. apply NoDup_app. split_and!; [exact Hnd | | apply NoDup_singleton].
      intros k Hk Hk'. cbn [List.map fst] in Hk'. apply list_elem_of_singleton in Hk' as ->.
      contradiction. }
    assert (Hlen1 : alen (candidates ++ [(normTok token, token)]) = alen candidates + 1).
    { unfold alen. rewrite length_app. simpl. lia. }
    destruct (Z.geb_spec (alen (candidates ++ [(normTok token, token)])) maxCount)
      as [Hfull|Hroom].
    + exists [(normTok token, token)]. split_and!.
      * reflexivity.
      * apply sublist_skip, sublist_nil_l.
      * exact Hnd1.
      * constructor; [split; [reflexivity | exact Hcand] | constructor].
      * right. lia.
      * intros Hlt. lia.
    + destruct (IH (candidates ++ [(normTok token, token)]) Hnd1)
        as (added & E & Hsub & Hnd' & Hk & Hb & Hc).
      rewrite <- app_assoc in E, Hnd', Hb, Hc. cbn [app] in E, Hnd', Hb, Hc.
      exists ((normTok token, token) :: added). split_and!.
      * exact E.
      * cbn [List.map snd]. apply sublist_skip, Hsub.
      * exact Hnd'.
      * constructor; [split; [reflexivity | exact Hcand] | exact Hk].
      * right. destruct Hb as [->|Hb]; lia.
      * intros Hlt t Hin Hcand'. apply elem_of_cons in Hin as [->|Hin].
        -- rewrite map_app. apply elem_of_app. right. left.
        -- apply Hc; assumption.
Qed.

Lemma candidateLoop_first easy maxCount words :
  forall kept,
    (length kept < Z.to_nat (Z.max 1 maxCount))%nat ->
    candidateLoop unicode_lower easy maxCount words
      (List.map (fun token => (normTok token, token)) kept)
    = List.map (fun token => (normTok token, token))
        (kept
         ++ take (Z.to_nat (Z.max 1 maxCount) - length kept)
              (firstOccurrencesAfter normTok kept
                 (List.filter (isCandidateToken unicode_lower easy) words))).
Proof.
  induction words as [|token rest IH]; intros kept Hroom.
  - cbn. rewrite take_nil, app_nil_r. reflexivity.
  - cbn [candidateLoop List.filter]. unfold isCandidateToken at 1.
    destruct ((len token <=? 2) || looksLikeProperNoun token); cbn [negb andb].
    { apply IH, Hroom. }
    cbv zeta.
    destruct (negb (truthy (normTok token)) || isAllowedVariation unicode_lower (normTok token) easy);
      cbn [negb].
    { apply IH, Hroom. }
    assert (Hkeys : List.map fst (List.map (fun token => (normTok token, token)) kept)
                    = List.map normTok kept).
    { rewrite List.map_map. reflexivity. }
    unfold hasKey. rewrite Hkeys.
    destruct (bool_decide (normTok token ∈ List.map normTok kept)) eqn:Hseen; cbn [negb].
    { apply bool_decide_eq_true in Hseen.
      rewrite firstOccurrencesAfter_old by exact Hseen. apply IH, Hroom. }
    apply bool_decide_eq_false in Hseen.
    rewrite firstOccurrencesAfter_new by exact Hseen.
    change (List.map (fun token => (normTok token, token)) kept ++ [(normTok token, token)])
      with (List.map (fun token => (normTok token, token)) kept
            ++ List.map (fun token => (normTok token, token)) [token]).
    rewrite <- List.map_app.
    assert (Hlen : alen (List.map (fun token => (normTok token, token)) (kept ++ [token]))
                   = Z.of_nat (length kept) + 1).
    { unfold alen. rewrite length_map, length_app. simpl. lia. }
    destruct (Z.geb_spec
                (alen (List.map (fun token => (normTok token, token)) (kept ++ [token])))
                maxCount) as [Hfull|Hmore].
    + replace (Z.to_nat (Z.max 1 maxCount) - length kept)%nat with 1%nat by lia.
      cbn [take]. rewrite take_0. reflexivity.
    + rewrite IH by (rewrite length_app; simpl; lia).
      rewrite <- app_assoc. cbn [app]. do 2 f_equal.
      replace (Z.to_nat (Z.max 1 maxCount) - length kept)%nat
        with (S (Z.to_nat (Z.max 1 maxCount) - length (kept ++ [token])))
        by (rewrite length_app; simpl; lia).
      reflexivity.
Qed.

(** X15.  The candidates of a selection are the tokens of the selection
    that are longer than two code units, no proper nouns, and whose
    normalized form is not empty and not allowed by the lexicon, each at
    the first occurrence of its normalized form and in that order, up to
    [maxCount] of them (one, for a bound below one).  So no two of them have
    the same normalized form, and below the bound every such token of the
    selection has its normalized form among them. *)
Theorem extractA2PlusCandidates_spec (selectedText : jsstring)
  (easyWordSet : gset jsstring) (maxCount : Z) :
  let candidates :=
    extractA2PlusCandidates unicode_lower selectedText easyWordSet maxCount in
  sublist candidates (matchTokens selectedText)
  /\ NoDup (List.map (normalizeToken unicode_lower) candidates)
  /\ alen candidates <= Z.max 1 maxCount
  /\ (forall c, c ∈ candidates -> candidateToken unicode_lower easyWordSet c)
  /\ (alen candidates < maxCount ->
      forall t, t ∈ matchTokens selectedText ->
                candidateToken unicode_lower easyWordSet t ->
                normalizeToken unicode_lower t
                  ∈ List.map (normalizeToken unicode_lower) candidates)
  /\ candidates
     = firstAtMost maxCount
         (firstOccurrences (normalizeToken unicode_lower)
            (List.filter (isCandidateToken unicode_lower easyWordSet)
               (matchTokens selectedText)))
  /\ (forall token,
        isCandidateToken unicode_lower easyWordSet token = true
        <-> candidateToken unicode_lower easyWordSet token).
Proof.
  intros candidates. subst candidates.
  assert (Hfirst :
    extractA2PlusCandidates unicode_lower selectedText easyWordSet maxCount
    = firstAtMost maxCount
        (firstOccurrences normTok
           (List.filter (isCandidateToken unicode_lower easyWordSet)
              (matchTokens selectedText)))).
  { unfold extractA2PlusCandidates.
    pose proof (candidateLoop_first easyWordSet maxCount (matchTokens selectedText) [])
      as Hloop.
    cbn [List.map app length] in Hloop. rewrite Hloop by lia.
    rewrite Nat.sub_0_r, List.map_map. cbn [snd].
    rewrite List.map_id. reflexivity. }
  assert (Htest : forall token,
    isCandidateToken unicode_lower easyWordSet token = true
    <-> candidateToken unicode_lower easyWordSet token).
  { intros token. unfold isCandidateToken, candidateToken.
    rewrite andb_true_iff, !negb_true_iff, !orb_false_iff, Z.leb_gt, negb_false_iff.
    split.
    - intros [[H2 Hp] [Ht Ha]].
      split; [exact H2|]. split; [exact Hp|]. split; [|exact Ha].
      apply truthy_true. exact Ht.
    - intros (H2 & Hp & Ht & Ha).
      split; [split; [exact H2 | exact Hp]|]. split; [|exact Ha].
      destruct (truthy (normTok token)) eqn:E; [reflexivity|].
      apply truthy_false in E. contradiction. }
  unfold extractA2PlusCandidates.
  destruct (candidateLoop_inv easyWordSet maxCount (matchTokens selectedText) [])
    as (added & E & Hsub & Hnd & Hk & Hb & Hc); [constructor|].
  cbn [app] in E, Hnd, Hb, Hc.
  assert (Hkeys : List.map normTok (List.map snd added) = List.map fst added).
  { clear -Hk. induction Hk as [|p ps [Hp _] _ IH]; [reflexivity|].
    cbn [List.map]. rewrite IH, Hp. reflexivity. }
  assert (Hlen : alen (List.map snd added) = alen added).
  { unfold alen. rewrite length_map. reflexivity. }
  split_and!.
  - rewrite E. exact Hsub.
  - rewrite E, Hkeys. exact Hnd.
  - rewrite E, Hlen.
    destruct Hb as [->|Hb]; [unfold alen; simpl; lia|]. unfold alen in *. simpl in Hb. lia.
  - rewrite E. intros c Hin. apply list_elem_of_In, in_map_iff in Hin as (p & <- & Hp).
    rewrite Forall_forall in Hk. apply Hk. apply list_elem_of_In, Hp.
  - rewrite E, Hkeys, Hlen. exact Hc.
  - exact Hfirst.
  - exact Htest.
Qed.

(** *** The candidates that an answer leaves out *)

Lemma covered_fold items :
  forall covered w,
    w ∈ fold_left (coverEntry unicode_lower) items covered
    <-> w ∈ covered
        \/ (w <> [] /\ exists item, item ∈ items
               /\ (w = normTok (word item) \/ w = normTok (lemma item))).
Proof.
  induction items as [|item items IH]; intros covered w; cbn [fold_left].
  - split; [auto|]. intros [H|(_ & i & Hi & _)]; [exact H | inversion Hi].
  - rewrite IH. unfold coverEntry. cbv zeta.
    assert (Hstep : w ∈ (if truthy (normTok (lemma item))
                         then StrSet.add (normTok (lemma item))
                                (if truthy (normTok (word item))
                                 then StrSet.add (normTok (word item)) covered
                                 else covered)
                         else if truthy (normTok (word item))
                              then StrSet.add (normTok (word item)) covered
                              else covered)
                    <-> w ∈ covered
                        \/ (w <> [] /\ (w = normTok (word item)
                                         \/ w = normTok (lemma item)))).
    { destruct (truthy (normTok (lemma item))) eqn:Hl,
               (truthy (normTok (word item))) eqn:Hw;
        rewrite ?StrSet_add_elem;
        try apply truthy_true in Hl; try apply truthy_true in Hw;
        try apply truthy_false in Hl; try apply truthy_false in Hw.
      - split; [intros [->|[->|H]]; auto | intros [H|[_ [H|H]]]; auto].
      - split; [intros [->|H]; auto | intros [H|[Hne [H|H]]]; auto; congruence].
      - split; [intros [->|H]; auto | intros [H|[Hne [H|H]]]; auto; congruence].
      - split; [auto | intros [H|[Hne [H|H]]]; auto; congruence]. }
    rewrite Hstep. split.
    + intros [[H|(Hne & H)]|(Hne & i & Hi & H)].
      * left. exact H.
      * right. split; [exact Hne|]. exists item. split; [left | exact H].
      * right. split; [exact Hne|]. exists i. split; [right; exact Hi | exact H].
    + intros [H|(Hne & i & Hi & H)]; [left; left; exact H|].
      apply elem_of_cons in Hi as [->|Hi].
      * left. right. split; assumption.
      * right. split; [exact Hne|]. exists i. split; assumption.
Qed.

(** X16.  [findMissingCandidateWords] keeps, in their order, the candidates
    whose normalized form is not empty and is neither the normalized word
    nor the normalized lemma of an entry of the answer; with no entries it
    keeps every candidate that has a normalized form. *)
Theorem findMissingCandidateWords_spec (candidates : list jsstring)
  (a2PlusWords : list WordEntry) :
  let missing := findMissingCandidateWords unicode_lower candidates a2PlusWords in
  sublist missing candidates
  /\ (forall candidate, candidate ∈ missing
        <-> candidate ∈ candidates
            /\ normalizeToken unicode_lower candidate <> []
            /\ forall item, item ∈ a2PlusWords ->
                 normalizeToken unicode_lower candidate
                   <> normalizeToken unicode_lower (word item)
                 /\ normalizeToken unicode_lower candidate
                    <> normalizeToken unicode_lower (lemma item))
  /\ findMissingCandidateWords unicode_lower candidates []
     = List.filter (fun candidate => truthy (normalizeToken unicode_lower candidate))
         candidates.
Proof.
  intros missing. subst missing. unfold findMissingCandidateWords. cbv zeta.
  split_and!.
  - apply sublist_List_filter.
  - intros candidate. rewrite list_elem_of_In, filter_In, <- list_elem_of_In.
    rewrite andb_true_iff, negb_true_iff. unfold StrSet.has.
    rewrite bool_decide_eq_false, covered_fold. unfold StrSet.empty.
    rewrite elem_of_nil, truthy_true. split.
    + intros (Hin & Hne & Hnot). split_and!; [exact Hin | exact Hne|].
      intros item Hitem. split; intros Heq; apply Hnot; right;
        (split; [exact Hne|]); exists item; (split; [exact Hitem|]); auto.
    + intros (Hin & Hne & Hnot). split_and!; [exact Hin | exact Hne|].
      intros [[]|(_ & item & Hitem & [Heq|Heq])]; destruct (Hnot item Hitem); contradiction.
  - cbn [fold_left]. apply filter_ext. intros candidate.
    unfold StrSet.has, StrSet.empty. rewrite bool_decide_eq_false_2 by apply not_elem_of_nil.
    apply andb_true_r.
Qed.

End LexiconFacts.

(** ** The cache *)

Lemma falsy_integer z : falsy (JNum (Finite (inject_Z z))) = bool_decide (z = 0).
Proof.
  cbn [falsy]. case_bool_decide as Hz.
  - subst z. reflexivity.
  - destruct (Qeq_bool (inject_Z z) 0) eqn:E; [|reflexivity].
    apply Qeq_bool_iff in E. exfalso. apply Hz.
    unfold Qeq, inject_Z in E. simpl in E. lia.
Qed.

Lemma numberLess_integer a b : numberLess (Finite (inject_Z a)) b = (a <? b).
Proof.
  cbn [numberLess]. destruct (Z.ltb_spec a b) as [H|H].
  - apply negb_true_iff. destruct (Qle_bool (inject_Z b) (inject_Z a)) eqn:E; [|reflexivity].
    apply Qle_bool_iff in E. rewrite <- Zle_Qle in E. lia.
  - apply negb_false_iff. apply Qle_bool_iff. rewrite <- Zle_Qle. exact H.
Qed.

Lemma numberLess_mono n a b : a <= b -> numberLess n a = true -> numberLess n b = true.
Proof.
  intros Hab. destruct n as [q| | |]; cbn [numberLess]; try (intros H; exact H).
  rewrite !negb_true_iff. intros Ha.
  destruct (Qle_bool (inject_Z b) q) eqn:Hb; [|reflexivity].
  apply Qle_bool_iff in Hb. exfalso.
  assert (Hq : Qle_bool (inject_Z a) q = true).
  { apply Qle_bool_iff. eapply Qle_trans; [|exact Hb]. rewrite <- Zle_Qle. exact Hab. }
  congruence.
Qed.

Section CacheFacts.

Variable ToNumber : json -> jsnum.

Lemma lessThanNumber_mono v a b :
  a <= b -> lessThanNumber ToNumber v a = true -> lessThanNumber ToNumber v b = true.
Proof. unfold lessThanNumber. apply numberLess_mono. Qed.

Lemma getCachedResponse_exec key now uuid store :
  exec now uuid (getCachedResponse ToNumber key) store
  = (lookupAnswer ToNumber (cacheOf store !! key) now, store).
Proof.
  unfold getCachedResponse, getCacheMap, call, lookupAnswer, isLive, cacheOf.
  cbn [sbind exec performOp].
  destruct (default ∅ (cacheSlot store) !! key) as [entry|]; [|reflexivity].
  destruct (falsy entry); cbn [negb andb]; [reflexivity|].
  destruct (prop "expiresAt" entry) as [expiresAt|]; [|reflexivity].
  destruct (falsy expiresAt); cbn [negb andb sbind exec performOp]; [reflexivity|].
  destruct (lessThanNumber ToNumber expiresAt now); reflexivity.
Qed.

Lemma saveCachedResponse_exec key request response now uuid store :
  exec now uuid (saveCachedResponse key request response) store
  = (tt, mkStore (Some (assignProperty key (cacheEntry now request response) (cacheOf store)))
           (settingsSlot store)).
Proof. reflexivity. Qed.

Lemma cacheOf_written map settings : cacheOf (mkStore (Some map) settings) = map.
Proof. reflexivity. Qed.

Lemma cacheEntry_live request response t now :
  t + CACHE_TTL_MS <> 0 ->
  isLive ToNumber (cacheEntry t request response) now = (now <=? t + CACHE_TTL_MS).
Proof.
  intros Hne. unfold isLive, cacheEntry.
  change (prop "expiresAt" (JObj _))
    with (Some (JNum (Finite (inject_Z (t + CACHE_TTL_MS))))).
  cbv beta iota. rewrite falsy_integer, bool_decide_eq_false_2 by exact Hne.
  unfold lessThanNumber. rewrite numberLess_integer. cbn [falsy negb andb].
  destruct (Z.ltb_spec (t + CACHE_TTL_MS) now), (Z.leb_spec now (t + CACHE_TTL_MS));
    try reflexivity; lia.
Qed.

(** X17.  The cache keeps an entry for seven days.  After
    [saveCachedResponse] at time [t], a lookup of the key answers with the
    response up to [t + CACHE_TTL_MS] and with null later; the lookups of
    the other keys answer as before, a lookup leaves the store as it is,
    and the settings are not touched.  The key is not [__proto__], whose
    assignment sets no property, and the time of expiry is not zero. *)
Theorem cache_round_trip (store : Store) (cacheKey : jsstring)
  (requestPayload responsePayload : json) (t t' : Z) (uuid : jsstring) :
  cacheKey <> lit "__proto__" ->
  t + CACHE_TTL_MS <> 0 ->
  let saved :=
    snd (exec t uuid (saveCachedResponse cacheKey requestPayload responsePayload) store) in
  exec t' uuid (getCachedResponse ToNumber cacheKey) saved
  = (if t' <=? t + CACHE_TTL_MS then Some responsePayload else None, saved)
  /\ (forall other, other <> cacheKey ->
        exec t' uuid (getCachedResponse ToNumber other) saved
        = (fst (exec t' uuid (getCachedResponse ToNumber other) store), saved))
  /\ settingsSlot saved = settingsSlot store.
Proof.
  intros Hproto Hne saved. subst saved.
  rewrite saveCachedResponse_exec. cbn [snd]. split_and!.
  - rewrite getCachedResponse_exec. f_equal.
    rewrite cacheOf_written. unfold assignProperty.
    rewrite bool_decide_eq_false_2 by exact Hproto.
    rewrite lookup_insert_eq. cbn [lookupAnswer].
    rewrite cacheEntry_live by exact Hne.
    destruct (t' <=? t + CACHE_TTL_MS); reflexivity.
  - intros other Hother. rewrite !getCachedResponse_exec. cbn [fst]. f_equal.
    rewrite cacheOf_written. unfold assignProperty.
    rewrite bool_decide_eq_false_2 by exact Hproto.
    rewrite lookup_insert_ne by congruence. reflexivity.
  - reflexivity.
Qed.

(** *** Pruning *)

Lemma stale_not_live entry now t' :
  now <= t' -> isStale ToNumber entry now = true -> isLive ToNumber entry t' = false.
Proof.
  intros Ht. unfold isStale, isLive.
  destruct (falsy entry); cbn [negb orb andb]; [reflexivity|].
  destruct (prop "expiresAt" entry) as [expiresAt|] eqn:Ep.
  2:{ intros _. reflexivity. }
  cbn [notValue].
  destruct (falsy expiresAt); cbn [negb orb andb]; [reflexivity|].
  destruct (isObject entry) eqn:Eo; cbn [negb orb].
  - intros Hlt. rewrite (lessThanNumber_mono _ _ _ Ht Hlt). reflexivity.
  - destruct entry; try discriminate Eo; discriminate Ep.
Qed.

Lemma prune_fold (now : Z) (whole : gmap jsstring json) (part : gmap jsstring json) :
  let r := map_fold (pruneEntry ToNumber now) (whole, false) part in
  (forall key,
      fst r !! key
      = match part !! key with
        | Some entry => if isStale ToNumber entry now then None else whole !! key
        | None => whole !! key
        end)
  /\ (snd r = false -> fst r = whole).
Proof.
  cbv zeta.
  apply (map_fold_weak_ind
           (fun r (part : gmap jsstring json) =>
              (forall key,
                  fst r !! key
                  = match part !! key with
                    | Some entry => if isStale ToNumber entry now then None else whole !! key
                    | None => whole !! key
                    end)
              /\ (snd r = false -> fst r = whole))).
  - split; [|reflexivity]. intros key. rewrite lookup_empty. reflexivity.
  - intros i x m r Hi [Hlook Hsame]. unfold pruneEntry.
    destruct (isStale ToNumber x now) eqn:Ex; cbn [fst snd].
    + split; [|discriminate]. intros key.
      destruct (decide (key = i)) as [->|Hk].
      * rewrite lookup_delete_eq, lookup_insert_eq, Ex. reflexivity.
      * rewrite lookup_delete_ne, lookup_insert_ne by congruence. apply Hlook.
    + split; [|exact Hsame]. intros key.
      destruct (decide (key = i)) as [->|Hk].
      * rewrite lookup_insert_eq, Ex. rewrite Hlook, Hi. reflexivity.
      * rewrite lookup_insert_ne by congruence. apply Hlook.
Qed.

Lemma prune_exec now uuid store :
  exists pruned,
    exec now uuid (pruneExpiredCacheEntries ToNumber) store = (tt, pruned)
    /\ settingsSlot pruned = settingsSlot store
    /\ (forall key,
          cacheOf pruned !! key
          = match cacheOf store !! key with
            | Some entry => if isStale ToNumber entry now then None else Some entry
            | None => None
            end).
Proof.
  unfold pruneExpiredCacheEntries, getCacheMap, call. cbn [sbind exec performOp].
  fold (cacheOf store).
  destruct (prune_fold now (cacheOf store) (cacheOf store)) as [Hlook Hsame].
  cbv zeta in Hlook, Hsame.
  destruct (map_fold (pruneEntry ToNumber now) (cacheOf store, false) (cacheOf store))
    as [pruned changed].
  cbn [fst snd] in Hlook, Hsame.
  assert (Hkeys : forall key,
    pruned !! key
    = match cacheOf store !! key with
      | Some entry => if isStale ToNumber entry now then None else Some entry
      | None => None
      end).
  { intros key. rewrite Hlook. destruct (cacheOf store !! key) as [entry|] eqn:E; [|reflexivity].
    destruct (isStale ToNumber entry now); reflexivity. }
  destruct changed; cbn [exec performOp].
  - eexists. split_and!; [reflexivity | reflexivity|]. exact Hkeys.
  - exists store. split_and!; [reflexivity | reflexivity|].
    rewrite (Hsame eq_refl) in Hkeys. exact Hkeys.
Qed.

(** X18.  Pruning removes the entries that no lookup would answer with.
    After [pruneExpiredCacheEntries] at time [now] the cache holds the
    entries it held that are objects with a time of expiry not before
    [now]; every lookup at [now] or later answers as it did before; a
    second pruning at the same time changes nothing; and the settings are
    not touched.  After [clearCache] every lookup answers null. *)
Theorem pruneExpiredCacheEntries_spec (store : Store) (now : Z) (uuid : jsstring) :
  let pruned := snd (exec now uuid (pruneExpiredCacheEntries ToNumber) store) in
  (forall key entry,
      cacheOf pruned !! key = Some entry
      <-> cacheOf store !! key = Some entry /\ isStale ToNumber entry now = false)
  /\ (forall key entry,
        cacheOf pruned !! key = Some entry ->
        isObject entry = true /\ isLive ToNumber entry now = true)
  /\ (forall key t',
        now <= t' ->
        fst (exec t' uuid (getCachedResponse ToNumber key) pruned)
        = fst (exec t' uuid (getCachedResponse ToNumber key) store))
  /\ exec now uuid (pruneExpiredCacheEntries ToNumber) pruned = (tt, pruned)
  /\ settingsSlot pruned = settingsSlot store
  /\ (forall key t',
        fst (exec t' uuid (getCachedResponse ToNumber key)
               (snd (exec now uuid clearCache store))) = None).
Proof.
  intros pruned. subst pruned.
  destruct (prune_exec now uuid store) as (pruned & E & Hsettings & Hkeys).
  rewrite E. cbn [snd].
  assert (Hiff : forall key entry,
    cacheOf pruned !! key = Some entry
    <-> cacheOf store !! key = Some entry /\ isStale ToNumber entry now = false).
  { intros key entry. rewrite Hkeys.
    destruct (cacheOf store !! key) as [e|]; [|split; [discriminate | intros [H _]; discriminate H]].
    destruct (isStale ToNumber e now) eqn:Es.
    - split; [discriminate|]. intros [[= ->] H]. congruence.
    - split; [intros [= ->]; auto | intros [H _]; exact H]. }
  split_and!.
  - exact Hiff.
  - intros key entry Hin. apply Hiff in Hin as [_ Hfresh].
    unfold isStale in Hfresh. unfold isLive.
    apply orb_false_iff in Hfresh as [Hfresh Hlt].
    apply orb_false_iff in Hfresh as [Hfresh Hexp].
    apply orb_false_iff in Hfresh as [Hf Hobj].
    apply negb_false_iff in Hobj. split; [exact Hobj|].
    rewrite Hf. cbn [negb andb].
    destruct (prop "expiresAt" entry) as [expiresAt|]; [|discriminate Hexp].
    cbn [notValue] in Hexp. rewrite Hexp, Hlt. reflexivity.
  - intros key t' Ht. rewrite !getCachedResponse_exec. cbn [fst]. rewrite Hkeys.
    destruct (cacheOf store !! key) as [entry|]; [|reflexivity].
    destruct (isStale ToNumber entry now) eqn:Es; [|reflexivity].
    cbn [lookupAnswer]. rewrite (stale_not_live _ _ _ Ht Es). reflexivity.
  - destruct (prune_exec now uuid pruned) as (again & E' & Hsettings' & Hkeys').
    rewrite E'. f_equal.
    unfold pruneExpiredCacheEntries, getCacheMap, call in E'.
    cbn [sbind exec performOp] in E'. fold (cacheOf pruned) in E'.
    destruct (prune_fold now (cacheOf pruned) (cacheOf pruned)) as [Hlook Hsame].
    cbv zeta in Hlook, Hsame.
    destruct (map_fold (pruneEntry ToNumber now) (cacheOf pruned, false) (cacheOf pruned))
      as [m changed] eqn:Ef.
    cbn [fst snd] in Hlook, Hsame.
    destruct changed; cbn [exec performOp] in E'; [|injection E' as <-; reflexivity].
    injection E' as <-.
    assert (Hm : m = cacheOf pruned).
    { apply map_eq. intros key. rewrite Hlook.
      destruct (cacheOf pruned !! key) as [entry|] eqn:Ek; [|reflexivity].
      apply Hiff in Ek as [_ ->]. reflexivity. }
    rewrite Hm. destruct pruned as [[cache|] settings]; cbn [settingsSlot cacheSlot].
    + reflexivity.
    + exfalso. (* a store without a cache has nothing to prune *)
      unfold cacheOf in Ef. cbn [cacheSlot default] in Ef.
      rewrite map_fold_empty in Ef. discriminate Ef.
  - exact Hsettings.
  - intros key t'. rewrite getCachedResponse_exec. cbn [fst].
    unfold clearCache, call. cbn [exec performOp snd]. rewrite cacheOf_written.
    rewrite lookup_empty. reflexivity.
Qed.

(** *** Two saves at once *)

(** X19.  [saveCachedResponse] reads the cache, then writes it back with its
    entry.  When two saves run one after the other both entries are in the
    cache; when the second reads before the first has written, the cache
    ends as the cache at the start with the second entry only, and a lookup
    of the first key answers as if the first save had not happened. *)
Theorem saveCachedResponse_lost_update (store : Store) (key1 key2 : jsstring)
  (request1 response1 request2 response2 : json) (t : Z) (uuid : jsstring) :
  let save1 := saveCachedResponse key1 request1 response1 in
  let save2 := saveCachedResponse key2 request2 response2 in
  let entry1 := cacheEntry t request1 response1 in
  let entry2 := cacheEntry t request2 response2 in
  let oneByOne := snd (exec t uuid save2 (snd (exec t uuid save1 store))) in
  let read1 := advanceStorage t uuid save1 store in
  let read2 := advanceStorage t uuid save2 (snd read1) in
  let written1 := snd (exec t uuid (fst read1) (snd read2)) in
  let interleaved := snd (exec t uuid (fst read2) written1) in
  cacheOf oneByOne = assignProperty key2 entry2 (assignProperty key1 entry1 (cacheOf store))
  /\ cacheOf written1 = assignProperty key1 entry1 (cacheOf store)
  /\ cacheOf interleaved = assignProperty key2 entry2 (cacheOf store)
  /\ (key1 <> key2 ->
      forall t',
        fst (exec t' uuid (getCachedResponse ToNumber key1) interleaved)
        = fst (exec t' uuid (getCachedResponse ToNumber key1) store)).
Proof.
  cbv zeta. rewrite !saveCachedResponse_exec. cbn [snd].
  unfold saveCachedResponse, getCacheMap, call.
  cbn [sbind advanceStorage performOp fst snd exec].
  rewrite !cacheOf_written. fold (cacheOf store).
  split_and!; try reflexivity.
  intros Hne t'. rewrite !getCachedResponse_exec. cbn [fst]. f_equal.
  rewrite cacheOf_written. unfold assignProperty.
  case_bool_decide; [reflexivity|].
  rewrite lookup_insert_ne by congruence. reflexivity.
Qed.

End CacheFacts.

Lemma cache_round_trip_witness :
  let store := mkStore None None in
  let saved :=
    snd (exec 1000 (lit "id")
           (saveCachedResponse (lit "key") JNull (JStr (lit "answer"))) store) in
  lit "key" <> lit "__proto__"
  /\ 1000 + CACHE_TTL_MS <> 0
  /\ exec 2000 (lit "id") (getCachedResponse nanToNumber (lit "key")) saved
     = (Some (JStr (lit "answer")), saved).
Proof.
  cbv zeta.
  assert (Hkey : lit "key" <> lit "__proto__") by discriminate.
  assert (Htime : 1000 + CACHE_TTL_MS <> 0) by (vm_compute; discriminate).
  split; [exact Hkey|]. split; [exact Htime|].
  exact (proj1 (cache_round_trip nanToNumber (mkStore None None) (lit "key") JNull
                  (JStr (lit "answer")) 1000 2000 (lit "id") Hkey Htime)).
Defined.

(** ** The settings and the client id *)

Lemma spread_lookup (a b : gmap jsstring json) key :
  spread a b !! key = match b !! key with Some v => Some v | None => a !! key end.
Proof.
  unfold spread. rewrite lookup_union. destruct (b !! key), (a !! key); reflexivity.
Qed.

Lemma spread_defaults_twice (settings : gmap jsstring json) :
  spread DEFAULT_SETTINGS (spread DEFAULT_SETTINGS settings) = spread DEFAULT_SETTINGS settings.
Proof.
  apply map_eq. intros key. rewrite !spread_lookup.
  destruct (settings !! key); [reflexivity|]. destruct (DEFAULT_SETTINGS !! key); reflexivity.
Qed.

(** X20.  The anonymous client id is made once.  When the settings have an
    id that is truthy, [getOrCreateAnonymousClientId] answers with it and
    writes nothing.  Otherwise it answers with a fresh identifier and saves
    it with the other settings kept; from then on the settings read from
    the store have this id, and asking again answers with the same id and
    writes nothing, whatever the next fresh identifier would be.  The fresh
    identifier is not the empty string. *)
Theorem anonymousClientId_stable (store : Store) (now now' : Z) (uuid uuid' : jsstring) :
  uuid <> [] ->
  let settings := fst (exec now uuid getSettings store) in
  let first := exec now uuid (getOrCreateAnonymousClientId settings) store in
  let id := fst first in
  let settings' := fst (exec now' uuid' getSettings (snd first)) in
  falsy id = false
  /\ (forall existing,
        settings !! lit "anonymousClientId" = Some existing -> falsy existing = false ->
        id = existing /\ snd first = store)
  /\ settings' !! lit "anonymousClientId" = Some id
  /\ (forall key, key <> lit "anonymousClientId" -> settings' !! key = settings !! key)
  /\ exec now' uuid' (getOrCreateAnonymousClientId settings') (snd first)
     = (id, snd first)
  /\ cacheSlot (snd first) = cacheSlot store.
Proof.
  intros Huuid. cbv zeta.
  unfold getSettings, call. cbn [sbind exec performOp fst snd].
  set (settings := spread DEFAULT_SETTINGS (default ∅ (settingsSlot store))).
  assert (Hfresh : falsy (JStr uuid) = false).
  { cbn [falsy]. destruct uuid; [congruence | reflexivity]. }
  assert (Hcreate :
    forall s0,
      exec now uuid
        (nextId <~ call RandomUUID ;;
         _ <~ saveSettings (<[lit "anonymousClientId" := JStr nextId]> settings) ;;
         SRet (JStr nextId)) s0
      = (JStr uuid,
         mkStore (cacheSlot s0)
           (Some (spread DEFAULT_SETTINGS
                    (<[lit "anonymousClientId" := JStr uuid]> settings))))).
  { intros s0. reflexivity. }
  assert (Hsaved :
    spread DEFAULT_SETTINGS
      (default ∅
         (Some (spread DEFAULT_SETTINGS
                  (<[lit "anonymousClientId" := JStr uuid]> settings))))
    = <[lit "anonymousClientId" := JStr uuid]> settings).
  { cbn [default]. unfold id at 1. rewrite spread_defaults_twice.
    apply map_eq. intros key. rewrite spread_lookup.
    destruct (decide (key = lit "anonymousClientId")) as [->|Hk].
    - rewrite lookup_insert_eq. reflexivity.
    - rewrite lookup_insert_ne by congruence.
      destruct (settings !! key) eqn:E; [reflexivity|].
      unfold DEFAULT_SETTINGS. rewrite lookup_singleton_ne by congruence. reflexivity. }
  assert (Hkept : spread DEFAULT_SETTINGS (default ∅ (settingsSlot store)) = settings)
    by reflexivity.
  destruct (exec now uuid (getOrCreateAnonymousClientId settings) store) as [id s1] eqn:Efirst.
  cbn [fst snd].
  assert (Hcases :
    (exists existing,
        settings !! lit "anonymousClientId" = Some existing /\ falsy existing = false
        /\ id = existing /\ s1 = store)
    \/ ((forall existing, settings !! lit "anonymousClientId" = Some existing ->
                          falsy existing = true)
        /\ id = JStr uuid
        /\ s1 = mkStore (cacheSlot store)
                  (Some (spread DEFAULT_SETTINGS
                           (<[lit "anonymousClientId" := JStr uuid]> settings))))).
  { unfold getOrCreateAnonymousClientId in Efirst.
    destruct (settings !! lit "anonymousClientId") as [existing|] eqn:Eid.
    - destruct (falsy existing) eqn:Ef.
      + rewrite Hcreate in Efirst. injection Efirst as <- <-. right.
        split_and!; [|reflexivity|reflexivity]. intros ? [= <-]. exact Ef.
      + cbn [exec] in Efirst. injection Efirst as <- <-. left. exists existing. auto.
    - rewrite Hcreate in Efirst. injection Efirst as <- <-. right.
      split_and!; [|reflexivity|reflexivity]. intros ? Habs. discriminate Habs. }
  destruct Hcases as [(existing & Eid & Ef & -> & ->)|(Hnone & -> & ->)].
  - rewrite Hkept. split_and!.
    + exact Ef.
    + intros existing' Hex _. rewrite Eid in Hex. injection Hex as <-. split; reflexivity.
    + exact Eid.
    + reflexivity.
    + unfold getOrCreateAnonymousClientId. rewrite Eid, Ef. reflexivity.
    + reflexivity.
  - cbn [settingsSlot cacheSlot]. rewrite Hsaved. split_and!.
    + exact Hfresh.
    + intros existing Hex Hnot. rewrite (Hnone existing Hex) in Hnot. discriminate Hnot.
    + apply lookup_insert_eq.
    + intros key Hk. apply lookup_insert_ne. congruence.
    + unfold getOrCreateAnonymousClientId. rewrite lookup_insert_eq, Hfresh. reflexivity.
    + reflexivity.
Qed.

Lemma anonymousClientId_stable_witness :
  let store := mkStore None None in
  let settings := fst (exec 0 (lit "first") getSettings store) in
  let first := exec 0 (lit "first") (getOrCreateAnonymousClientId settings) store in
  lit "first" <> []
  /\ falsy (fst first) = false
  /\ exec 1 (lit "second")
       (getOrCreateAnonymousClientId
          (fst (exec 1 (lit "second") getSettings (snd first))))
       (snd first)
     = (fst first, snd first).
Proof.
  cbv zeta.
  assert (Huuid : lit "first" <> []) by discriminate.
  pose proof (anonymousClientId_stable (mkStore None None) 0 1 (lit "first")
                (lit "second") Huuid) as H.
  cbv zeta in H. destruct H as (Hid & _ & _ & _ & Hagain & _).
  split; [exact Huuid|]. split; [exact Hid | exact Hagain].
Defined.

(** ** Requests to the proxy *)

Lemma attemptsOf_app {V} (a b : list (backoffEvent V)) :
  attemptsOf (a ++ b) = attemptsOf a ++ attemptsOf b.
Proof. unfold attemptsOf. apply omap_app. Qed.

Lemma sleepsOf_app {V} (a b : list (backoffEvent V)) :
  sleepsOf (a ++ b) = sleepsOf a ++ sleepsOf b.
Proof. unfold sleepsOf. apply omap_app. Qed.

Section BackoffRounds.

Context {W V : Type}.
Variable action : W -> (V + jsError) * W.
Variable randomJitter : W -> Z * W.
Variable sleep : Z -> W -> W.

Lemma backoffLoop_S remaining waitMs lastError w trace :
  backoffLoop action randomJitter sleep (S remaining) waitMs lastError w trace
  = let (outcome, w1) := action w in
    let trace1 := trace ++ [Attempt outcome] in
    match outcome with
    | inl value => (inl value, w1, trace1)
    | inr error =>
        if negb (isRetriable error) || (remaining =? 0)%nat
        then (inr error, w1, trace1)
        else
          let (jitter, w2) := randomJitter w1 in
          let w3 := sleep (waitMs + jitter) w2 in
          backoffLoop action randomJitter sleep remaining (waitMs * 2) (Some error) w3
            (trace1 ++ [Sleep (waitMs + jitter)])
    end.
Proof. reflexivity. Qed.

(** A round of attempts: how many there are, and how the round ends. *)
Lemma backoffLoop_round remaining :
  forall waitMs lastError w trace0,
  exists run,
    snd (backoffLoop action randomJitter sleep (S remaining) waitMs lastError w trace0)
    = trace0 ++ run
    /\ (1 <= length (attemptsOf run) <= S remaining)%nat
    /\ (length (sleepsOf run) + 1 = length (attemptsOf run))%nat
    /\ (forall error,
          fst (fst (backoffLoop action randomJitter sleep (S remaining) waitMs lastError
                      w trace0)) = inr error ->
          isRetriable error = true -> length (attemptsOf run) = S remaining)
    /\ (forall value,
          fst (action w) = inl value ->
          fst (fst (backoffLoop action randomJitter sleep (S remaining) waitMs lastError
                      w trace0)) = inl value
          /\ run = [Attempt (inl value)])
    /\ (forall error,
          fst (action w) = inr error -> isRetriable error = false ->
          fst (fst (backoffLoop action randomJitter sleep (S remaining) waitMs lastError
                      w trace0)) = inr error
          /\ run = [Attempt (inr error)])
    /\ ((forall w', exists error, fst (action w') = inr error /\ isRetriable error = true) ->
        length (attemptsOf run) = S remaining
        /\ exists error w',
             fst (fst (backoffLoop action randomJitter sleep (S remaining) waitMs
                         lastError w trace0)) = inr error
             /\ fst (action w') = inr error).
Proof.
  induction remaining as [|remaining IH]; intros waitMs lastError w trace0.
  - cbn [backoffLoop]. destruct (action w) as [outcome w1] eqn:Ea. cbn [fst].
    destruct outcome as [value|error]; cbv zeta.
    + exists [Attempt (inl value)]. cbn [fst snd].
      split_and!; try reflexivity; try (cbn; lia); try discriminate.
      * intros v [= ->]. split; reflexivity.
      * intros Hall. destruct (Hall w) as (error & He & _).
        rewrite Ea in He. discriminate He.
    + change (0 =? 0)%nat with true. rewrite orb_true_r.
      exists [Attempt (inr error)]. cbn [fst snd].
      split_and!; try reflexivity; try (cbn; lia); try discriminate.
      * intros e [= <-] _. split; reflexivity.
      * intros Hall. split; [reflexivity|]. exists error, w. rewrite Ea. split; reflexivity.
  - rewrite backoffLoop_S. destruct (action w) as [outcome w1] eqn:Ea. cbn [fst].
    destruct outcome as [value|error].
    + cbv zeta. exists [Attempt (inl value)]. cbn [fst snd].
      split_and!; try reflexivity; try (cbn; lia); try discriminate.
      * intros v [= ->]. split; reflexivity.
      * intros Hall. destruct (Hall w) as (error & He & _).
        rewrite Ea in He. discriminate He.
    + cbv zeta. destruct (isRetriable error) eqn:Er; cbn [negb orb].
      * change (S remaining =? 0)%nat with false. cbv iota.
        destruct (randomJitter w1) as [jitter w2]. cbv zeta.
        destruct (IH (waitMs * 2) (Some error) (sleep (waitMs + jitter) w2)
                    ((trace0 ++ [Attempt (inr error)]) ++ [Sleep (waitMs + jitter)]))
          as (run & Etrace & Hcount & Hsleeps & Hret & Hval & Herr & Hall).
        exists (Attempt (inr error) :: Sleep (waitMs + jitter) :: run).
        split_and!.
        -- rewrite Etrace, <- !app_assoc. reflexivity.
        -- unfold attemptsOf in *. cbn. lia.
        -- unfold attemptsOf in *. cbn. lia.
        -- unfold attemptsOf, sleepsOf in *. cbn. lia.
        -- intros e He Hre. specialize (Hret e He Hre). unfold attemptsOf in *. cbn. lia.
        -- discriminate.
        -- intros e [= <-] Hne. congruence.
        -- intros Hevery. destruct (Hall Hevery) as (Hlen & e & w' & He & Hw').
           split; [unfold attemptsOf in *; cbn; lia|]. exists e, w'. split; assumption.
      * exists [Attempt (inr error)]. cbn [fst snd].
        split_and!; try reflexivity; try (cbn; lia); try discriminate.
        -- intros e [= <-] Hre. congruence.
        -- intros e [= <-] _. split; reflexivity.
        -- intros Hevery. destruct (Hevery w) as (e & He & Hre).
           rewrite Ea in He. cbn [fst] in He. injection He as <-. congruence.
Qed.

End BackoffRounds.

Section ProxyFacts.

Context {W : Type}.
Variable fetch : ProxyRequest -> W -> fetchResult * W.
Variable randomJitter : W -> Z * W.
Variable sleep : Z -> W -> W.

Lemma postProxyJson_outcome clientId path payload w :
  fst (postProxyJson fetch clientId path payload w)
  = match fst (fetch (mkProxyRequest (buildProxyUrl path) clientId payload) w) with
    | FetchRejected => inr networkError
    | Responded status bodyText bodyJson =>
        if (status =? 429)%nat || (500 <=? status)%nat then inr (temporaryError status)
        else if negb (statusOk status) then
          match bodyText with
          | inl text => inr (proxyError status text)
          | inr error => inr error
          end
        else bodyJson
    end.
Proof. unfold postProxyJson. destruct (fetch _ w) as [r w1]. reflexivity. Qed.

Lemma postResponses_round clientId payload w :
  postResponses fetch randomJitter sleep clientId payload w
  = backoffLoop (postProxyJson fetch clientId PROXY_EXPLAIN_PATH payload)
      randomJitter sleep 3 600 None w [].
Proof. reflexivity. Qed.

Lemma status_low status :
  (status < 500)%nat -> status <> 429%nat ->
  (status =? 429)%nat || (500 <=? status)%nat = false.
Proof.
  intros Hlt Hne. apply orb_false_iff.
  split; [apply Nat.eqb_neq; exact Hne | apply Nat.leb_gt; exact Hlt].
Qed.

Lemma statusOk_low status :
  statusOk status = true -> (status =? 429)%nat || (500 <=? status)%nat = false.
Proof.
  unfold statusOk. intros Hok. apply andb_true_iff in Hok as [_ Hle].
  apply Nat.leb_le in Hle. apply status_low; lia.
Qed.

Lemma postResponses_success clientId payload w status bodyText value :
  fst (fetch (explainRequest clientId payload) w) = Responded status bodyText (inl value) ->
  statusOk status = true ->
  fst (fst (postResponses fetch randomJitter sleep clientId payload w)) = inl value
  /\ snd (postResponses fetch randomJitter sleep clientId payload w) = [Attempt (inl value)].
Proof.
  intros Hf Hok. rewrite postResponses_round.
  destruct (backoffLoop_round (postProxyJson fetch clientId PROXY_EXPLAIN_PATH payload)
              randomJitter sleep 2 600 None w [])
    as (run & Etrace & _ & _ & _ & Hval & _).
  cbn [app] in Etrace. rewrite Etrace. rewrite postProxyJson_outcome in Hval.
  fold (explainRequest clientId payload) in Hval.
  destruct (Hval value) as [Hr ->]; [rewrite Hf, (statusOk_low _ Hok), Hok; reflexivity|].
  split; [exact Hr | reflexivity].
Qed.

Lemma postResponses_client_error clientId payload w status text bodyJson :
  fst (fetch (explainRequest clientId payload) w) = Responded status (inl text) bodyJson ->
  (status < 500)%nat -> status <> 429%nat -> statusOk status = false ->
  fst (fst (postResponses fetch randomJitter sleep clientId payload w))
  = inr (proxyError status text)
  /\ snd (postResponses fetch randomJitter sleep clientId payload w)
     = [Attempt (inr (proxyError status text))].
Proof.
  intros Hf Hlt Hne Hok. rewrite postResponses_round.
  destruct (backoffLoop_round (postProxyJson fetch clientId PROXY_EXPLAIN_PATH payload)
              randomJitter sleep 2 600 None w [])
    as (run & Etrace & _ & _ & _ & _ & Herr & _).
  cbn [app] in Etrace. rewrite Etrace. rewrite postProxyJson_outcome in Herr.
  fold (explainRequest clientId payload) in Herr.
  destruct (Herr (proxyError status text)) as [Hr ->];
    [rewrite Hf, (status_low _ Hlt Hne), Hok; reflexivity | reflexivity|].
  split; [exact Hr | reflexivity].
Qed.

(** X21.  The retry policy of a request to the proxy.  A request is sent at
    least once and at most three times, with a wait before each repetition.
    An answer with a status from 200 to 299 ends the round with its body; a
    status below 500 other than 429 and outside 200 to 299 ends it at once
    with the error PROXY_ERROR, which carries the status and the first 180
    code units of the body; a request that only meets rejections of the
    network and statuses 429 or 500 and above is sent three times and ends
    with a retriable error; and no round ends with a retriable error before
    the third attempt. *)
Theorem proxy_retry_policy (clientId : jsstring) (payload : ResponsesPayload) (w : W) :
  let request := explainRequest clientId payload in
  let run := postResponses fetch randomJitter sleep clientId payload w in
  let result := fst (fst run) in
  let trace := snd run in
  (1 <= length (attemptsOf trace) <= 3)%nat
  /\ (length (sleepsOf trace) + 1 = length (attemptsOf trace))%nat
  /\ (forall error,
        result = inr error -> isRetriable error = true ->
        length (attemptsOf trace) = 3%nat)
  /\ (forall status bodyText value,
        fst (fetch request w) = Responded status bodyText (inl value) ->
        statusOk status = true ->
        result = inl value /\ trace = [Attempt (inl value)])
  /\ (forall status text bodyJson,
        fst (fetch request w) = Responded status (inl text) bodyJson ->
        (status < 500)%nat -> status <> 429%nat -> statusOk status = false ->
        result = inr (proxyError status text)
        /\ trace = [Attempt (inr (proxyError status text))])
  /\ ((forall w', isTemporary (fst (fetch request w')) = true) ->
      length (attemptsOf trace) = 3%nat
      /\ length (sleepsOf trace) = 2%nat
      /\ exists error,
           result = inr error /\ isRetriable error = true
           /\ (error = networkError \/ exists status, error = temporaryError status)).
Proof.
  intros request run result trace. subst run result trace.
  rewrite postResponses_round.
  destruct (backoffLoop_round (postProxyJson fetch clientId PROXY_EXPLAIN_PATH payload)
              randomJitter sleep 2 600 None w [])
    as (run & Etrace & Hcount & Hsleeps & Hret & Hval & Herr & Hall).
  cbn [app] in Etrace. rewrite Etrace.
  rewrite postProxyJson_outcome in Hval, Herr. fold (explainRequest clientId payload) in Hval, Herr.
  fold request in Hval, Herr.
  split_and!.
  - lia.
  - lia.
  - exact Hsleeps.
  - exact Hret.
  - intros status bodyText value Hf Hok.
    destruct (postResponses_success clientId payload w status bodyText value Hf Hok)
      as [Hr Ht].
    rewrite postResponses_round in Hr, Ht. rewrite Etrace in Ht. split; assumption.
  - intros status text bodyJson Hf Hlt Hne Hok.
    destruct (postResponses_client_error clientId payload w status text bodyJson
                Hf Hlt Hne Hok) as [Hr Ht].
    rewrite postResponses_round in Hr, Ht. rewrite Etrace in Ht. split; assumption.
  - intros Htemp.
    assert (Hevery : forall w', exists error,
      fst (postProxyJson fetch clientId PROXY_EXPLAIN_PATH payload w') = inr error
      /\ isRetriable error = true).
    { intros w'. rewrite postProxyJson_outcome. fold (explainRequest clientId payload).
      fold request. specialize (Htemp w').
      destruct (fst (fetch request w')) as [|status bodyText bodyJson].
      - exists networkError. split; reflexivity.
      - cbn [isTemporary] in Htemp. rewrite Htemp. exists (temporaryError status).
        split; reflexivity. }
    destruct (Hall Hevery) as (Hlen & error & w' & Hresult & Hlast).
    split_and!; [exact Hlen | lia|].
    exists error. rewrite postProxyJson_outcome in Hlast.
    fold (explainRequest clientId payload) in Hlast. fold request in Hlast.
    specialize (Htemp w').
    destruct (fst (fetch request w')) as [|status bodyText bodyJson].
    + injection Hlast as <-. split_and!; [exact Hresult | reflexivity | left; reflexivity].
    + cbn [isTemporary] in Htemp. rewrite Htemp in Hlast. injection Hlast as <-.
      split_and!; [exact Hresult | reflexivity | right; eexists; reflexivity].
Qed.

Lemma requestResponsesApi_eq args w :
  requestResponsesApi fetch randomJitter sleep args w
  = let '(outcome, w1, trace1) :=
      postResponses fetch randomJitter sleep (api_clientId args) (firstPayload args) w in
    match outcome with
    | inl response => (inl response, w1, trace1)
    | inr error =>
        if schemaIssue (api_useSchema args) error then
          let '(outcome2, w2, trace2) :=
            postResponses fetch randomJitter sleep (api_clientId args)
              (withoutFormat (firstPayload args)) w1 in
          (outcome2, w2, trace1 ++ trace2)
        else (inr error, w1, trace1)
    end.
Proof. reflexivity. Qed.

Lemma postResponses_count clientId payload w :
  (1 <= length (attemptsOf (snd (postResponses fetch randomJitter sleep clientId payload w)))
   <= 3)%nat.
Proof.
  rewrite postResponses_round.
  destruct (backoffLoop_round (postProxyJson fetch clientId PROXY_EXPLAIN_PATH payload)
              randomJitter sleep 2 600 None w []) as (run & Etrace & Hcount & _).
  cbn [app] in Etrace. rewrite Etrace. exact Hcount.
Qed.

(** X22.  The rounds of [requestResponsesApi].  It sends its payload in one
    round of at most three attempts, and a second round, with the same
    payload without [text.format], only after the first has ended with the
    error PROXY_ERROR and a message about the schema or the format: at most
    six attempts in all.  Without a schema there is one round, and its
    payload has no format.  When the proxy refuses the format and answers
    the payload without it, the answer is returned after two attempts. *)
Theorem requestResponsesApi_rounds (args : ApiArgs) (w : W) :
  let run := requestResponsesApi fetch randomJitter sleep args w in
  let first :=
    postResponses fetch randomJitter sleep (api_clientId args) (firstPayload args) w in
  let second :=
    postResponses fetch randomJitter sleep (api_clientId args)
      (withoutFormat (firstPayload args)) (snd (fst first)) in
  (1 <= length (attemptsOf (snd run)) <= 6)%nat
  /\ (run = first \/ (fst run = fst second /\ snd run = snd first ++ snd second))
  /\ (run <> first ->
      exists error,
        fst (fst first) = inr error
        /\ errorCode error = lit "PROXY_ERROR"
        /\ mentionsSchema (errorMessage error) = true
        /\ api_useSchema args = true)
  /\ (api_useSchema args = false ->
      run = first /\ payload_format (firstPayload args) = None)
  /\ payload_format (withoutFormat (firstPayload args)) = None
  /\ (forall status text value,
        api_useSchema args = true ->
        (status < 500)%nat -> status <> 429%nat -> statusOk status = false ->
        mentionsSchema (errorMessage (proxyError status text)) = true ->
        (forall w', exists bodyJson,
            fst (fetch (explainRequest (api_clientId args) (firstPayload args)) w')
            = Responded status (inl text) bodyJson) ->
        (forall w', exists bodyText,
            fst (fetch (explainRequest (api_clientId args)
                          (withoutFormat (firstPayload args))) w')
            = Responded 200 bodyText (inl value)) ->
        fst (fst run) = inl value
        /\ attemptsOf (snd run) = [inr (proxyError status text); inl value]).
Proof.
  intros run first second. subst run first second.
  rewrite requestResponsesApi_eq.
  pose proof (postResponses_count (api_clientId args) (firstPayload args) w) as Hfirst.
  assert (Hlast : forall status text value,
    api_useSchema args = true ->
    (status < 500)%nat -> status <> 429%nat -> statusOk status = false ->
    mentionsSchema (errorMessage (proxyError status text)) = true ->
    (forall w', exists bodyJson,
        fst (fetch (explainRequest (api_clientId args) (firstPayload args)) w')
        = Responded status (inl text) bodyJson) ->
    (forall w', exists bodyText,
        fst (fetch (explainRequest (api_clientId args)
                      (withoutFormat (firstPayload args))) w')
        = Responded 200 bodyText (inl value)) ->
    fst (fst (postResponses fetch randomJitter sleep (api_clientId args)
                (firstPayload args) w)) = inr (proxyError status text)
    /\ snd (postResponses fetch randomJitter sleep (api_clientId args)
               (firstPayload args) w) = [Attempt (inr (proxyError status text))]
    /\ forall w1,
         fst (fst (postResponses fetch randomJitter sleep (api_clientId args)
                     (withoutFormat (firstPayload args)) w1)) = inl value
         /\ snd (postResponses fetch randomJitter sleep (api_clientId args)
                    (withoutFormat (firstPayload args)) w1) = [Attempt (inl value)]).
  { intros status text value _ Hlt Hne Hok _ Hrefuse Hanswer.
    destruct (Hrefuse w) as (bodyJson & Hf).
    destruct (postResponses_client_error _ _ _ _ _ _ Hf Hlt Hne Hok) as [H1 H2].
    split_and!; [exact H1 | exact H2|]. intros w1.
    destruct (Hanswer w1) as (bodyText & Hf').
    apply (postResponses_success _ _ _ 200%nat bodyText value Hf'). reflexivity. }
  destruct (postResponses fetch randomJitter sleep (api_clientId args) (firstPayload args) w)
    as [[outcome w1] trace1] eqn:E1.
  cbn [fst snd] in *.
  pose proof (postResponses_count (api_clientId args) (withoutFormat (firstPayload args)) w1)
    as Hsecond.
  assert (Hlast' : forall status text value,
    api_useSchema args = true ->
    (status < 500)%nat -> status <> 429%nat -> statusOk status = false ->
    mentionsSchema (errorMessage (proxyError status text)) = true ->
    (forall w', exists bodyJson,
        fst (fetch (explainRequest (api_clientId args) (firstPayload args)) w')
        = Responded status (inl text) bodyJson) ->
    (forall w', exists bodyText,
        fst (fetch (explainRequest (api_clientId args)
                      (withoutFormat (firstPayload args))) w')
        = Responded 200 bodyText (inl value)) ->
    outcome = inr (proxyError status text)
    /\ trace1 = [Attempt (inr (proxyError status text))]
    /\ fst (fst (postResponses fetch randomJitter sleep (api_clientId args)
                   (withoutFormat (firstPayload args)) w1)) = inl value
    /\ snd (postResponses fetch randomJitter sleep (api_clientId args)
               (withoutFormat (firstPayload args)) w1) = [Attempt (inl value)]).
  { intros status text value H1 H2 H3 H4 H5 H6 H7.
    destruct (Hlast status text value H1 H2 H3 H4 H5 H6 H7) as (Ha & Hb & Hc).
    destruct (Hc w1) as [Hd He]. split_and!; assumption. }
  clear Hlast.
  destruct (postResponses fetch randomJitter sleep (api_clientId args)
              (withoutFormat (firstPayload args)) w1) as [[outcome2 w2] trace2] eqn:E2.
  cbn [fst snd] in *.
  assert (Hformat : api_useSchema args = false -> payload_format (firstPayload args) = None).
  { intros Hu. unfold firstPayload. rewrite Hu. reflexivity. }
  destruct outcome as [response|error].
  - cbn [snd]. split_and!.
    + lia.
    + lia.
    + left. reflexivity.
    + intros Hne. congruence.
    + intros Hu. split; [reflexivity | exact (Hformat Hu)].
    + reflexivity.
    + intros status text value H1 H2 H3 H4 H5 H6 H7.
      destruct (Hlast' status text value H1 H2 H3 H4 H5 H6 H7) as (Habs & _).
      discriminate Habs.
  - destruct (schemaIssue (api_useSchema args) error) eqn:Es.
    + cbn [fst snd]. rewrite attemptsOf_app, length_app.
      unfold schemaIssue in Es. apply andb_true_iff in Es as [Hu Es].
      destruct error as [message code retriable|message]; [|discriminate Es].
      apply andb_true_iff in Es as [Hcode Hmsg]. apply bool_decide_eq_true in Hcode.
      split_and!.
      * lia.
      * lia.
      * right. split; reflexivity.
      * intros _. eexists. split_and!; [reflexivity | exact Hcode | exact Hmsg | exact Hu].
      * intros Hu'. congruence.
      * reflexivity.
      * intros status text value H1 H2 H3 H4 H5 H6 H7.
        destruct (Hlast' status text value H1 H2 H3 H4 H5 H6 H7) as (Ha & Hb & Hc & Hd).
        rewrite Hb, Hd, Hc. split; reflexivity.
    + cbn [snd]. split_and!.
      * lia.
      * lia.
      * left. reflexivity.
      * intros Hne. congruence.
      * intros Hu. split; [reflexivity | exact (Hformat Hu)].
      * reflexivity.
      * intros status text value H1 H2 H3 H4 H5 H6 H7.
        destruct (Hlast' status text value H1 H2 H3 H4 H5 H6 H7) as (Ha & _).
        injection Ha as ->. unfold schemaIssue in Es. rewrite H1 in Es.
        cbn [proxyError andb] in Es. cbn [errorMessage proxyError] in H5.
        rewrite H5 in Es. rewrite bool_decide_eq_true_2 in Es by reflexivity.
        discriminate Es.
Qed.

End ProxyFacts.

(** ** Calls of the model *)

Lemma requestsAtMost_mono {R} (p : mprog R) :
  forall n m, (n <= m)%nat -> requestsAtMost n p -> requestsAtMost m p.
Proof.
  induction p as [r|error|args k IH]; intros n m Hle H; [exact I | exact I |].
  destruct n as [|n]; [destruct H|]. destruct m as [|m]; [lia|].
  intros answer. apply (IH answer n m); [lia | apply H].
Qed.

Lemma requestsAtMost_bind {R S} n m (p : mprog R) (f : R -> mprog S) :
  requestsAtMost n p -> (forall r, requestsAtMost m (f r)) ->
  requestsAtMost (n + m) (mbind p f).
Proof.
  revert n. induction p as [r|error|args k IH]; intros n Hp Hf; cbn [mbind].
  - eapply requestsAtMost_mono; [|apply Hf]. lia.
  - exact I.
  - destruct n as [|n]; [destruct Hp|]. cbn [Nat.add]. intros answer. apply IH; auto.
Qed.

Lemma requestsAtMost_catch {R} n m (p : mprog R) handler :
  requestsAtMost n p -> (forall error, requestsAtMost m (handler error)) ->
  requestsAtMost (n + m) (mcatch p handler).
Proof.
  revert n. induction p as [r|error|args k IH]; intros n Hp Hh; cbn [mcatch].
  - exact I.
  - eapply requestsAtMost_mono; [|apply Hh]. lia.
  - destruct n as [|n]; [destruct Hp|]. cbn [Nat.add]. intros answer. apply IH; auto.
Qed.

Lemma onModelPaths_bind {R S} assume sent (Q : R -> Prop) (Q' : S -> Prop) thrown
  (p : mprog R) (f : R -> mprog S) :
  onModelPaths assume sent Q thrown p ->
  (forall r, Q r -> onModelPaths assume sent Q' thrown (f r)) ->
  onModelPaths assume sent Q' thrown (mbind p f).
Proof.
  intros Hp Hf. induction p as [r|error|args k IH]; cbn [mbind onModelPaths] in *; auto.
  destruct Hp as [Hs Hk]. split; [exact Hs|]. intros answer Ha. apply IH, Hk, Ha.
Qed.

Lemma onModelPaths_catch {R} assume sent (Q : R -> Prop) (inner thrown : jsError -> Prop)
  (p : mprog R) handler :
  onModelPaths assume sent Q inner p ->
  (forall error, inner error -> onModelPaths assume sent Q thrown (handler error)) ->
  onModelPaths assume sent Q thrown (mcatch p handler).
Proof.
  intros Hp Hh. induction p as [r|error|args k IH]; cbn [mcatch onModelPaths] in *; auto.
  destruct Hp as [Hs Hk]. split; [exact Hs|]. intros answer Ha. apply IH, Hk, Ha.
Qed.

Lemma onModelPaths_weaken {R} assume sent sent' (Q Q' : R -> Prop) (T T' : jsError -> Prop)
  (p : mprog R) :
  (forall args, sent args -> sent' args) ->
  (forall r, Q r -> Q' r) -> (forall e, T e -> T' e) ->
  onModelPaths assume sent Q T p -> onModelPaths assume sent' Q' T' p.
Proof.
  intros Hs Hq Ht. induction p as [r|error|args k IH]; cbn [onModelPaths]; auto.
  intros [Hsent Hk]. split; [apply Hs, Hsent|]. intros answer Ha. apply IH, Hk, Ha.
Qed.

Section ModelFacts.

Variable unicode_lower : jsstring -> jsstring.
Variable unicode_upper : jsstring -> jsstring.
Variable JSON_parse : jsstring -> option json.
Variable syntaxError : jsError.
Variable notIterable : jsError.
Variable A1_A2_WORD_SET : gset jsstring.

Lemma request_paths assume (sent : ApiArgs -> Prop) (P : jsError -> Prop) args :
  sent args ->
  (forall error, assume args (inr error) -> P error) ->
  onModelPaths assume sent (fun _ : json => True) P (request args).
Proof.
  intros Hs Hr. cbn [request onModelPaths]. split; [exact Hs|].
  intros [response|error] Ha; cbn [onModelPaths]; [exact I | apply Hr, Ha].
Qed.

Lemma outputText_paths assume sent (thrown : jsError -> Prop) response :
  thrown notIterable ->
  onModelPaths assume sent (fun _ : jsstring => True) thrown
    (outputText notIterable response).
Proof.
  unfold outputText. destruct (extractOutputText response); cbn [onModelPaths]; auto.
Qed.

Lemma outputText_count response : requestsAtMost 0 (outputText notIterable response).
Proof. unfold outputText. destruct (extractOutputText response); exact I. Qed.

Lemma parsed_count rawText :
  requestsAtMost 0 (parsed unicode_lower unicode_upper JSON_parse syntaxError rawText).
Proof. unfold parsed. destruct (parseAndNormalizeResponse _ _ _ _); exact I. Qed.

Lemma request_count args : requestsAtMost 1 (request args).
Proof. cbn. intros [response|error]; exact I. Qed.

Local Abbreviation repair :=
  (tryRepairResponseJson unicode_lower unicode_upper JSON_parse syntaxError notIterable).

Lemma tryRepair_count clientId originalModel rawText :
  requestsAtMost 1 (repair clientId originalModel rawText).
Proof.
  unfold tryRepairResponseJson. cbv zeta.
  destruct (negb (truthy (trim rawText))); [exact I|].
  apply (requestsAtMost_catch 1 0); [|intros; exact I].
  apply (requestsAtMost_bind 1 0); [apply request_count|]. intros response.
  apply (requestsAtMost_bind 0 0); [apply outputText_count|]. intros text.
  destruct (negb (truthy text)); [exact I|].
  apply (requestsAtMost_bind 0 0); [apply parsed_count | intros; exact I].
Qed.

Lemma tryRepair_paths assume clientId originalModel rawText :
  onModelPaths assume
    (fun args =>
       hasText rawText = true
       /\ api_clientId args = clientId
       /\ api_model args = (if bool_decide (originalModel = MODEL_SHORT_TEXT)
                            then MODEL_LONG_TEXT else originalModel)
       /\ api_useSchema args = true
       /\ api_maxOutputTokens args = 1100
       /\ api_userPrompt args = repairUserPrompt (trim rawText))
    (fun result =>
       forall repaired, result = Some repaired ->
         exists text,
           text <> []
           /\ parseAndNormalizeResponse unicode_lower unicode_upper JSON_parse text
              = inl repaired)
    (fun _ => False)
    (repair clientId originalModel rawText).
Proof.
  unfold tryRepairResponseJson. cbv zeta. rewrite truthy_trim_hasText.
  destruct (hasText rawText) eqn:Ht; cbn [negb onModelPaths]; [|discriminate].
  eapply onModelPaths_catch with (inner := fun _ => True).
  - eapply onModelPaths_bind with (Q := fun _ => True).
    + apply request_paths; [|intros; exact I].
      cbn [api_clientId api_model api_useSchema api_maxOutputTokens api_userPrompt].
      split_and!; reflexivity.
    + intros response _.
      eapply onModelPaths_bind with (Q := fun _ => True).
      * apply outputText_paths. exact I.
      * intros text _. destruct (truthy text) eqn:Etext; cbn [negb onModelPaths];
          [|discriminate].
        unfold parsed.
        destruct (parseAndNormalizeResponse _ _ _ text) as [result|e] eqn:Ep;
          cbn [mbind onModelPaths]; [|exact I].
        intros repaired [= <-]. exists text. split; [|exact Ep].
        apply truthy_true, Etext.
  - intros error _. cbn [onModelPaths]. discriminate.
Qed.

(** The requests of one call: for the client, of the model or of the larger
    one, with a budget between [low] and the retry budget. *)
Local Abbreviation bounded clientId model low :=
  (fun args : ApiArgs =>
     api_clientId args = clientId
     /\ (api_model args = model \/ api_model args = MODEL_LONG_TEXT)
     /\ low <= api_maxOutputTokens args <= MAX_OUTPUT_TOKENS_RETRY).

Lemma tryRepair_bounded assume clientId model rawText low (thrown : jsError -> Prop) :
  low <= 1100 ->
  onModelPaths assume (bounded clientId model low) (fun _ => True) thrown
    (repair clientId model rawText).
Proof.
  intros Hlow.
  eapply onModelPaths_weaken; [| | |apply tryRepair_paths].
  - intros args (_ & Hc & Hm & _ & Hb & _). split_and!.
    + exact Hc.
    + rewrite Hm. case_bool_decide; [right|left]; reflexivity.
    + lia.
    + rewrite Hb. unfold MAX_OUTPUT_TOKENS_RETRY. lia.
  - intros; exact I.
  - intros e [].
Qed.

Lemma tryRepair_outcome clientId originalModel rawText :
  hasText rawText = true ->
  exists args k,
    repair clientId originalModel rawText = MRequest args k
    /\ forall answer,
         k answer
         = MRet match answer with
                | inr _ => None
                | inl response =>
                    match extractOutputText response with
                    | None => None
                    | Some text =>
                        if truthy text
                        then match parseAndNormalizeResponse unicode_lower unicode_upper
                                     JSON_parse text with
                             | inl repaired => Some repaired
                             | inr _ => None
                             end
                        else None
                    end
                end.
Proof.
  intros Ht. unfold tryRepairResponseJson. cbv zeta.
  rewrite truthy_trim_hasText, Ht. cbn [negb mbind mcatch request].
  eexists _, _. split; [reflexivity|].
  intros [response|error]; cbn [mbind mcatch]; [|reflexivity].
  unfold outputText. destruct (extractOutputText response) as [text|]; cbn [mbind mcatch];
    [|reflexivity].
  destruct (truthy text); cbn [negb mbind mcatch]; [|reflexivity].
  unfold parsed. destruct (parseAndNormalizeResponse _ _ _ text); reflexivity.
Qed.

(** X23.  [tryRepairResponseJson] never throws and sends at most one
    request, none for a blank text, for which it returns null.  The request
    is for the client, with the repair prompts and the trimmed text, asks
    for the schema with a budget of 1100 tokens, and is for the larger model
    in place of the smaller one and for the given model otherwise.  The
    result is null when the request is rejected, when the output of the
    answer cannot be read or has no text, and when that text is not parsed;
    otherwise it is the normalization of the text of the answer. *)
Theorem tryRepairResponseJson_spec (clientId originalModel rawText : jsstring) :
  let attempt :=
    tryRepairResponseJson unicode_lower unicode_upper JSON_parse syntaxError notIterable
      clientId originalModel rawText in
  requestsAtMost 1 attempt
  /\ onModelPaths (fun _ _ => True)
       (fun args =>
          hasText rawText = true
          /\ api_clientId args = clientId
          /\ api_model args <> MODEL_SHORT_TEXT
          /\ (originalModel = MODEL_SHORT_TEXT -> api_model args = MODEL_LONG_TEXT)
          /\ (originalModel <> MODEL_SHORT_TEXT -> api_model args = originalModel)
          /\ api_useSchema args = true
          /\ api_maxOutputTokens args = 1100
          /\ api_userPrompt args = repairUserPrompt (trim rawText))
       (fun result =>
          forall repaired, result = Some repaired ->
            exists text,
              text <> []
              /\ parseAndNormalizeResponse unicode_lower unicode_upper JSON_parse text
                 = inl repaired)
       (fun _ => False)
       attempt
  /\ (hasText rawText = false -> attempt = MRet None)
  /\ (hasText rawText = true ->
      exists args k,
        attempt = MRequest args k
        /\ api_systemPrompt args = repairSystemPrompt
        /\ forall answer, exists result,
             k answer = MRet result
             /\ (forall error, answer = inr error -> result = None)
             /\ (forall response,
                   answer = inl response -> extractOutputText response = None ->
                   result = None)
             /\ (forall response,
                   answer = inl response -> extractOutputText response = Some [] ->
                   result = None)
             /\ (forall response text,
                   answer = inl response -> extractOutputText response = Some text ->
                   text <> [] ->
                   result
                   = match parseAndNormalizeResponse unicode_lower unicode_upper
                             JSON_parse text with
                     | inl repaired => Some repaired
                     | inr _ => None
                     end)).
Proof.
  intros attempt. subst attempt. split_and!.
  - apply tryRepair_count.
  - eapply onModelPaths_weaken; [| | |apply tryRepair_paths]; [|auto|auto].
    intros args (Ht & Hc & Hm & Hs & Hb & Hp). split_and!; try assumption.
    + rewrite Hm. case_bool_decide as Hshort; [discriminate | exact Hshort].
    + intros Hshort. rewrite Hm, bool_decide_eq_true_2 by exact Hshort. reflexivity.
    + intros Hne. rewrite Hm, bool_decide_eq_false_2 by exact Hne. reflexivity.
  - intros Ht. unfold tryRepairResponseJson. cbv zeta.
    rewrite truthy_trim_hasText, Ht. reflexivity.
  - intros Ht.
    destruct (tryRepair_outcome clientId originalModel rawText Ht) as (args & k & E & Hk).
    exists args, k. split_and!; [exact E | |].
    + unfold tryRepairResponseJson in E. cbv zeta in E.
      rewrite truthy_trim_hasText, Ht in E. cbn [negb mbind mcatch request] in E.
      injection E as <- _. reflexivity.
    + intros answer. eexists. split; [apply Hk|]. split_and!.
      * intros error ->. reflexivity.
      * intros response -> ->. reflexivity.
      * intros response -> ->. reflexivity.
      * intros response text -> -> Hne. apply truthy_true in Hne. rewrite Hne. reflexivity.
Qed.

Local Abbreviation analyze :=
  (analyzeExplanationOnlySelection unicode_lower unicode_upper JSON_parse syntaxError
     notIterable A1_A2_WORD_SET).

Lemma rejected_request (P : jsError -> Prop) sent args :
  sent args ->
  onModelPaths (rejectedWith P) sent (fun _ : json => True)
    (fun error => P error \/ error = notIterable) (request args).
Proof.
  intros Hs. apply request_paths; [exact Hs|].
  intros error Ha. left. apply (Ha error). reflexivity.
Qed.

Lemma rejected_outputText (P : jsError -> Prop) sent response :
  onModelPaths (rejectedWith P) sent (fun _ : jsstring => True)
    (fun error => P error \/ error = notIterable) (outputText notIterable response).
Proof. apply outputText_paths. right. reflexivity. Qed.

(** X24.  [analyzeExplanationOnlySelection] sends at most three requests,
    each for the client, of the model or the larger one and with a budget
    between 600 and 2000 tokens.  It throws only the error of a rejected
    request or that of an answer whose output cannot be read: a text that
    is not valid JSON ends in a repaired or a local result.  The result has
    no vocabulary words, and its candidates are those of the selection. *)
Theorem analyzeExplanationOnlySelection_spec
  (selectedText clientId model explanationMode : jsstring) (P : jsError -> Prop) :
  let analysis :=
    analyzeExplanationOnlySelection unicode_lower unicode_upper JSON_parse syntaxError
      notIterable A1_A2_WORD_SET selectedText clientId model explanationMode in
  requestsAtMost 3 analysis
  /\ onModelPaths (rejectedWith P)
       (fun args =>
          api_clientId args = clientId
          /\ (api_model args = model \/ api_model args = MODEL_LONG_TEXT)
          /\ 600 <= api_maxOutputTokens args <= MAX_OUTPUT_TOKENS_RETRY)
       (fun analyzed =>
          a2_plus_words (analyzed_parsed analyzed) = []
          /\ analyzed_candidates analyzed
             = extractA2PlusCandidates unicode_lower selectedText A1_A2_WORD_SET
                 MAX_A2_CANDIDATES
          /\ analyzed_candidateCount analyzed = alen (analyzed_candidates analyzed))
       (fun error => P error \/ error = notIterable)
       analysis.
Proof.
  intros analysis. subst analysis. unfold analyzeExplanationOnlySelection. cbv zeta.
  pose proof (getExplanationOnlyTokenBudget_range unicode_lower (len selectedText)
                (Some explanationMode)) as Hbudget.
  set (tokenBudget := getExplanationOnlyTokenBudget _ _ _) in *.
  split.
  - apply (requestsAtMost_bind 1 2); [apply request_count|]. intros response.
    apply (requestsAtMost_bind 0 2); [apply outputText_count|]. intros rawText.
    apply (requestsAtMost_bind 1 1).
    { destruct (negb (truthy rawText)); [|exact I].
      apply (requestsAtMost_bind 1 0); [apply request_count|]. intros response'.
      apply outputText_count. }
    intros rawText'. destruct (negb (truthy rawText')); [exact I|].
    apply (requestsAtMost_bind 1 0).
    { apply (requestsAtMost_catch 0 1); [|intros; apply tryRepair_count].
      apply (requestsAtMost_bind 0 0); [apply parsed_count | intros; exact I]. }
    intros [result|]; exact I.
  - eapply onModelPaths_bind; [apply rejected_request|].
    { cbn [api_clientId api_model api_maxOutputTokens]. unfold MAX_OUTPUT_TOKENS_RETRY.
      split_and!; [reflexivity | left; reflexivity | lia | lia]. }
    intros response _.
    eapply onModelPaths_bind; [apply rejected_outputText|]. intros rawText _.
    eapply onModelPaths_bind with (Q := fun _ => True).
    { destruct (negb (truthy rawText)); [|exact I].
      eapply onModelPaths_bind; [apply rejected_request | intros; apply rejected_outputText].
      cbn [api_clientId api_model api_maxOutputTokens]. unfold MAX_OUTPUT_TOKENS_RETRY.
      split_and!; [reflexivity | left; reflexivity | |];
        destruct (isMaxOutputTokensIncomplete response); lia. }
    intros rawText' _.
    destruct (negb (truthy rawText')); [cbn; split_and!; reflexivity|].
    eapply onModelPaths_bind with (Q := fun _ => True).
    { eapply onModelPaths_catch with (inner := fun _ => True).
      - unfold parsed. destruct (parseAndNormalizeResponse _ _ _ _); exact I.
      - intros error _. apply tryRepair_bounded. lia. }
    intros [result|] _; cbn; split_and!; reflexivity.
Qed.

Local Abbreviation attempts :=
  (easyReadAttempts unicode_lower unicode_upper JSON_parse syntaxError notIterable).

Ltac branch :=
  match goal with
  | |- context [match extractOutputText ?r with _ => _ end] =>
      destruct (extractOutputText r)
  | |- context [match parseAndNormalizeResponse ?a ?b ?c ?d with _ => _ end] =>
      destruct (parseAndNormalizeResponse a b c d)
  | |- context [if ?b then _ else _] => destruct b
  end.

Lemma checkParsed_count n retry selectedTextForFallback correctionHint result :
  (forall hint, requestsAtMost n (retry hint)) ->
  requestsAtMost n
    (checkParsed unicode_lower retry selectedTextForFallback correctionHint result).
Proof.
  intros Hretry. unfold checkParsed. repeat branch; first [apply Hretry | exact I].
Qed.

Lemma easyReadAttempts_count remaining :
  forall clientId model selectedTextLength selectedTextForFallback userPrompt
         explanationMode correctionHint (singleAttempt : bool),
    requestsAtMost
      (match remaining with
       | O => 0
       | S remaining' => (if singleAttempt then 1 else 6) + remaining' * 6
       end)%nat
      (attempts remaining clientId model selectedTextLength selectedTextForFallback
         userPrompt explanationMode correctionHint singleAttempt).
Proof.
  induction remaining as [|remaining' IH];
    intros clientId model selectedTextLength selectedTextForFallback userPrompt
           explanationMode correctionHint singleAttempt;
    [exact I|].
  assert (Hretry : forall n hint,
            requestsAtMost (n + remaining' * 6)
              (attempts remaining' clientId model selectedTextLength
                 selectedTextForFallback userPrompt explanationMode hint false)).
  { intros n hint. eapply requestsAtMost_mono; [|apply IH].
    destruct remaining'; lia. }
  cbn [easyReadAttempts]. cbv zeta.
  set (retry := fun hint => attempts remaining' _ _ _ _ _ _ hint false) in *.
  destruct singleAttempt.
  - apply (requestsAtMost_bind 1 (remaining' * 6)); [apply request_count|].
    intros response.
    apply (requestsAtMost_bind 0 (remaining' * 6)); [apply outputText_count|].
    intros singleRawText. repeat branch; first [apply (Hretry 0%nat) | exact I].
  - apply (requestsAtMost_bind 1 (5 + remaining' * 6)); [apply request_count|].
    intros response.
    apply (requestsAtMost_bind 0 (5 + remaining' * 6)); [apply outputText_count|].
    intros rawText.
    apply (requestsAtMost_bind 1 (4 + remaining' * 6)).
    { destruct (negb (truthy rawText)); [|exact I].
      apply (requestsAtMost_bind 1 0); [apply request_count|]. intros response'.
      apply (requestsAtMost_bind 0 0); [apply outputText_count | intros; exact I]. }
    intros step.
    apply (requestsAtMost_bind 1 (3 + remaining' * 6)).
    { destruct (_ && _); [|exact I].
      apply (requestsAtMost_bind 1 0); [apply request_count|]. intros response'.
      apply (requestsAtMost_bind 0 0); [apply outputText_count | intros; exact I]. }
    intros step'.
    destruct (negb (truthy (snd step'))); [exact I|].
    destruct (parseAndNormalizeResponse _ _ _ (snd step')) as [result|_e].
    { apply checkParsed_count. intros hint. apply (Hretry 3%nat). }
    apply (requestsAtMost_bind 1 (2 + remaining' * 6)); [apply tryRepair_count|].
    intros [repaired|]; [repeat branch; exact I|].
    assert (HgiveUp : forall n,
              requestsAtMost (n + remaining' * 6)
                (if truthy correctionHint
                 then MRet (buildLocalFallbackResult unicode_lower selectedTextForFallback
                              noteFormatting)
                 else retry hintInvalidJson)).
    { intros n. destruct (truthy correctionHint); [exact I | apply Hretry]. }
    destruct (isMaxOutputTokensIncomplete (fst step')); [|apply (HgiveUp 2%nat)].
    apply (requestsAtMost_bind 1 (1 + remaining' * 6)); [apply request_count|].
    intros expandedResponse.
    apply (requestsAtMost_bind 0 (1 + remaining' * 6)); [apply outputText_count|].
    intros expandedRawText.
    destruct (truthy expandedRawText); [|apply (HgiveUp 1%nat)].
    destruct (parseAndNormalizeResponse _ _ _ expandedRawText) as [expandedParsed|_e'].
    { apply checkParsed_count. intros hint. apply (Hretry 1%nat). }
    apply (requestsAtMost_bind 1 (remaining' * 6)); [apply tryRepair_count|].
    intros [expandedRepaired|]; [repeat branch; exact I | apply (HgiveUp 0%nat)].
Qed.

Lemma checkParsed_paths assume sent thrown retry selectedTextForFallback correctionHint
  result :
  (forall hint, onModelPaths assume sent (fun _ => True) thrown (retry hint)) ->
  onModelPaths assume sent (fun _ => True) thrown
    (checkParsed unicode_lower retry selectedTextForFallback correctionHint result).
Proof.
  intros Hretry. unfold checkParsed. repeat branch; first [apply Hretry | exact I].
Qed.

Lemma easyReadAttempts_paths (P : jsError -> Prop) remaining :
  forall clientId model selectedTextLength selectedTextForFallback userPrompt
         explanationMode correctionHint singleAttempt,
    onModelPaths (rejectedWith P) (bounded clientId model 680) (fun _ => True)
      (fun error => P error \/ error = notIterable)
      (attempts remaining clientId model selectedTextLength selectedTextForFallback
         userPrompt explanationMode correctionHint singleAttempt).
Proof.
  induction remaining as [|remaining' IH];
    intros clientId model selectedTextLength selectedTextForFallback userPrompt
           explanationMode correctionHint singleAttempt;
    [exact I|].
  cbn [easyReadAttempts]. cbv zeta.
  pose proof (getOutputTokenBudget_range unicode_lower model selectedTextLength
                (Some explanationMode)) as Hbudget.
  set (baseTokenBudget := getOutputTokenBudget _ _ _ _) in *.
  set (retry := fun hint => attempts remaining' _ _ _ _ _ _ hint false) in *.
  assert (Hretry : forall hint,
            onModelPaths (rejectedWith P) (bounded clientId model 680) (fun _ => True)
              (fun error => P error \/ error = notIterable) (retry hint)).
  { intros hint. apply IH. }
  assert (Hask : forall m useSchema budget prompt,
            m = model \/ m = MODEL_LONG_TEXT ->
            680 <= budget <= MAX_OUTPUT_TOKENS_RETRY ->
            bounded clientId model 680
              {| api_clientId := clientId; api_model := m;
                 api_systemPrompt := CORE_SYSTEM_PROMPT; api_userPrompt := prompt;
                 api_schema := EASYREAD_JSON_SCHEMA;
                 api_schemaName := lit "easyread_output";
                 api_useSchema := useSchema; api_maxOutputTokens := budget |}).
  { intros m useSchema budget prompt Hm Hb.
    cbn [api_clientId api_model api_maxOutputTokens]. split_and!; [reflexivity|exact Hm|lia..]. }
  assert (Hbase : 680 <= baseTokenBudget <= MAX_OUTPUT_TOKENS_RETRY)
    by (unfold MAX_OUTPUT_TOKENS_RETRY; lia).
  assert (Hmax : 680 <= Z.max baseTokenBudget MAX_OUTPUT_TOKENS_RETRY
                 <= MAX_OUTPUT_TOKENS_RETRY)
    by (unfold MAX_OUTPUT_TOKENS_RETRY; lia).
  eapply onModelPaths_bind; [apply rejected_request, Hask; [left; reflexivity | exact Hbase]|].
  intros response _.
  destruct singleAttempt.
  - eapply onModelPaths_bind; [apply rejected_outputText|]. intros singleRawText _.
    repeat branch; first [apply Hretry | exact I].
  - eapply onModelPaths_bind; [apply rejected_outputText|]. intros rawText _.
    eapply onModelPaths_bind with (Q := fun _ => True).
    { destruct (negb (truthy rawText)); [|exact I].
      eapply onModelPaths_bind; [apply rejected_request, Hask; [left; reflexivity|]|].
      - destruct (isMaxOutputTokensIncomplete response); assumption.
      - intros response' _.
        eapply onModelPaths_bind; [apply rejected_outputText | intros; exact I]. }
    intros step _.
    eapply onModelPaths_bind with (Q := fun _ => True).
    { destruct (_ && _); [|exact I].
      eapply onModelPaths_bind;
        [apply rejected_request, Hask; [right; reflexivity | exact Hmax]|].
      intros response' _.
      eapply onModelPaths_bind; [apply rejected_outputText | intros; exact I]. }
    intros step' _.
    destruct (negb (truthy (snd step'))); [exact I|].
    destruct (parseAndNormalizeResponse _ _ _ (snd step')) as [result|_e].
    { apply checkParsed_paths, Hretry. }
    eapply onModelPaths_bind with (Q := fun _ => True); [apply tryRepair_bounded; lia|].
    intros [repaired|] _; [repeat branch; exact I|].
    assert (HgiveUp :
              onModelPaths (rejectedWith P) (bounded clientId model 680) (fun _ => True)
                (fun error => P error \/ error = notIterable)
                (if truthy correctionHint
                 then MRet (buildLocalFallbackResult unicode_lower selectedTextForFallback
                              noteFormatting)
                 else retry hintInvalidJson)).
    { destruct (truthy correctionHint); [exact I | apply Hretry]. }
    destruct (isMaxOutputTokensIncomplete (fst step')); [|exact HgiveUp].
    eapply onModelPaths_bind;
      [apply rejected_request, Hask; [left; reflexivity | exact Hmax]|].
    intros expandedResponse _.
    eapply onModelPaths_bind; [apply rejected_outputText|]. intros expandedRawText _.
    destruct (truthy expandedRawText); [|exact HgiveUp].
    destruct (parseAndNormalizeResponse _ _ _ expandedRawText) as [expandedParsed|_e'].
    { apply checkParsed_paths, Hretry. }
    eapply onModelPaths_bind with (Q := fun _ => True); [apply tryRepair_bounded; lia|].
    intros [expandedRepaired|] _; [repeat branch; exact I | exact HgiveUp].
Qed.

(** X25.  [callModelForEasyRead] ends after a bounded number of requests: a
    call in its first attempt sends at most twelve, seven when it starts
    with a single attempt, and a call past the last attempt sends none and
    answers with the local result.  Each request is for the client, of the
    model or the larger one, with a budget between 680 and 2000 tokens.
    The call throws only the error of a rejected request or that of an
    answer whose output cannot be read. *)
Theorem callModelForEasyRead_spec (clientId model : jsstring) (selectedTextLength : Z)
  (selectedTextForFallback userPrompt explanationMode correctionHint : jsstring)
  (singleAttempt : bool) (attemptCount : Z) (P : jsError -> Prop) :
  let call :=
    callModelForEasyRead unicode_lower unicode_upper JSON_parse syntaxError notIterable
      clientId model selectedTextLength selectedTextForFallback userPrompt
      explanationMode correctionHint singleAttempt attemptCount in
  requestsAtMost
    ((if singleAttempt then 1 else 6)
     + 6 * Z.to_nat (MAX_EXPLAIN_ATTEMPTS - attemptCount))%nat call
  /\ onModelPaths (rejectedWith P)
       (fun args =>
          api_clientId args = clientId
          /\ (api_model args = model \/ api_model args = MODEL_LONG_TEXT)
          /\ 680 <= api_maxOutputTokens args <= MAX_OUTPUT_TOKENS_RETRY)
       (fun _ => True)
       (fun error => P error \/ error = notIterable)
       call
  /\ (MAX_EXPLAIN_ATTEMPTS < attemptCount ->
      call = MRet (buildLocalFallbackResult unicode_lower selectedTextForFallback
                     noteStopped)).
Proof.
  intros call. subst call. unfold callModelForEasyRead. split_and!.
  - eapply requestsAtMost_mono; [|apply easyReadAttempts_count].
    destruct (Z.to_nat (MAX_EXPLAIN_ATTEMPTS - attemptCount + 1)) as [|remaining'] eqn:E;
      [lia|].
    replace (Z.to_nat (MAX_EXPLAIN_ATTEMPTS - attemptCount)) with remaining' by lia. lia.
  - apply easyReadAttempts_paths.
  - intros Hpast.
    replace (Z.to_nat (MAX_EXPLAIN_ATTEMPTS - attemptCount + 1)) with 0%nat by lia.
    reflexivity.
Qed.

End ModelFacts.
